(** * SimInf: the scheduled-event sampler, the event partitioner and the
      SSA solver of [src/solvers], as a shallow embedding.

    Conventions of the embedding.

    - A C [int] is a [Z].  The arithmetic on compartment counts and on
      numbers of individuals ([+=], [-=], [++], [--], [n - x]) is
      two's-complement on 32 bits ([wrap]); this is the result the
      [< 0] tests that follow the updates look at.  Index arithmetic
      ([node * Nc + c], [i + 1]) is exact: an index outside its array is
      undefined in C whatever its value.
    - An [int *] is a [list Z] read with [rd] and written with [wr]; a
      read outside the list yields [0] and a write outside it is dropped
      (both are undefined in C, and the theorems that depend on an access
      being inside say so).
    - A [double] is a value of an abstract type [D] with the operations
      of the class [Float64]; nothing is assumed about them except where a
      theorem lists a hypothesis.  [gsl_rng] is an abstract state [R]
      with the two GSL samplers the sources call (class [Gsl]).
    - The error constants of [SimInf.h], which is not part of the
      sources, are the fields of the class [SimInf_h]. *)

From Stdlib Require Import ZArith QArith Qround Lia.
From stdpp Require Import base tactics option list numbers.

#[local] Open Scope Z_scope.

(** ** Machine integers *)

Definition INT_MIN : Z := - 2 ^ 31.
Definition INT_MAX : Z := 2 ^ 31 - 1.

Definition wrap (z : Z) : Z := (z + 2 ^ 31) mod 2 ^ 32 - 2 ^ 31.

Definition is_int (z : Z) : Prop := INT_MIN ≤ z ≤ INT_MAX.

Definition iadd (a b : Z) : Z := wrap (a + b).
Definition isub (a b : Z) : Z := wrap (a - b).

(** ** Arrays *)

Definition rd {A} (d : A) (a : list A) (i : Z) : A :=
  if decide (0 ≤ i) then default d (a !! Z.to_nat i) else d.

Definition wr {A} (a : list A) (i : Z) (x : A) : list A :=
  if decide (0 ≤ i) then <[Z.to_nat i := x]> a else a.

Notation "a .[ i ]" := (rd 0 a i) (at level 1, left associativity,
  format "a .[ i ]").

(** Every cell of the array holds an [int]. *)
Definition ints (a : list Z) : Prop := ∀ k, is_int a.[k].

(** Every cell of the array holds a number of individuals: an [int]
    that is not negative. *)
Definition counts (a : list Z) : Prop := ∀ k, 0 ≤ a.[k] ≤ INT_MAX.

Definition zsum (l : list Z) : Z := foldr Z.add 0 l.

Definition len {A} (a : list A) : Z := Z.of_nat (length a).

(** The [len] cells of [src] from [off] on: what a callee sees through
    the pointer [&src[off]] when it keeps to [len] cells. *)
Definition slice {A} (d : A) (src : list A) (off len : Z) : list A :=
  (λ k, rd d src (off + k)) <$> seqZ 0 len.

(** [memcpy (&dst[doff], &src[soff], n * sizeof *src)], [dst] and [src]
    being two arrays. *)
Definition memcpy {A} (d : A) (dst : list A) (doff : Z) (src : list A)
    (soff n : Z) : list A :=
  foldl (λ acc k, wr acc (doff + k) (rd d src (soff + k))) dst (seqZ 0 n).

(** ** Loops *)

Inductive ctl (St : Type) : Type :=
  | Next (s : St)
  | Break (s : St).
Arguments Next {St} s.
Arguments Break {St} s.

(** [for (i = lo; i < hi; i++) body], where the body may [break]. *)
Fixpoint for_loop {St} (cnt : nat) (i : Z) (body : Z → St → ctl St) (s : St)
  : St :=
  match cnt with
  | O => s
  | S k =>
      match body i s with
      | Next s' => for_loop k (i + 1) body s'
      | Break s' => s'
      end
  end.

Definition for_range {St} (lo hi : Z) (body : Z → St → ctl St) (s : St)
  : St :=
  for_loop (Z.to_nat (hi - lo)) lo body s.

(** ** The environment of the solver *)

(** The operations on [double] that the sources use. *)
Class Float64 (D : Type) : Type := {
  of_int : Z → D;            (* the conversion (double) n           *)
  Dadd : D → D → D;
  Dsub : D → D → D;
  Dmul : D → D → D;
  Ddiv : D → D → D;
  Dneglog : D → D;           (* -log (x)                            *)
  Dfloor : D → D;            (* floor (x)                           *)
  Dround : D → Z;            (* round (x), converted to int         *)
  Dlt : D → D → bool;        (* x < y                               *)
  Dle : D → D → bool;        (* x <= y                              *)
  Deq : D → D → bool;        (* x == y                              *)
  Disfinite : D → bool       (* isfinite (x)                        *)
}.

(** The generator of GSL: the two samplers of the solver, and the two
    steps of [SimInf_run_solver_ssa] that seed the generators. *)
Class Gsl (R D : Type) : Type := {
  gsl_rng_uniform_pos : R → D * R;
  gsl_ran_hypergeometric : R → Z → Z → Z → Z * R;
  gsl_rng_set : Z → R;                  (* a generator set to a seed   *)
  gsl_rng_uniform_int_max : R → Z * R   (* gsl_rng_uniform_int (rng,
                                           gsl_rng_max (rng))          *)
}.

(** The error constants of [SimInf.h]. *)
Class SimInf_h : Type := {
  SIMINF_ERR_NEGATIVE_STATE : Z;
  SIMINF_ERR_ALLOC_MEMORY_BUFFER : Z;
  SIMINF_ERR_SAMPLE_SELECT : Z;
  SIMINF_ERR_INVALID_RATE : Z;
  SIMINF_UNDEFINED_EVENT : Z
}.

(** The event types, an [enum] of [SimInf_solver_ssa.c]. *)
Definition EXIT_EVENT : Z := 0.
Definition ENTER_EVENT : Z := 1.
Definition INTERNAL_TRANSFER_EVENT : Z := 2.
Definition EXTERNAL_TRANSFER_EVENT : Z := 3.

(** ** The select column *)

(** The compartments that column [select] of the select matrix lists. *)
Definition selected (irE jcE : list Z) (select : Z) : list Z :=
  (λ i, irE.[i]) <$> seqZ jcE.[select] (jcE.[select + 1] - jcE.[select]).

(** The number of individuals of [node] in the compartments [cs]. *)
Definition individuals_in (Nc : Z) (u : list Z) (node : Z) (cs : list Z) : Z :=
  zsum ((λ c, u.[node * Nc + c]) <$> cs).

(** The number of individuals of [node], in all its compartments. *)
Definition node_total (Nc : Z) (u : list Z) (node : Z) : Z :=
  individuals_in Nc u node (seqZ 0 Nc).

(** What the sampler promises of the vector [individuals] when [m]
    individuals are sampled: nothing outside the selected compartments,
    in each of them a number between 0 and the number that is there, and
    [m] in all. *)
Definition sample_post (irE jcE : list Z) (Nc : Z) (u : list Z)
    (node select : Z) (individuals : list Z) (m : Z) : Prop :=
  (∀ c, c ∉ selected irE jcE select → individuals.[c] = 0) ∧
  (∀ c, c ∈ selected irE jcE select →
     0 ≤ individuals.[c] ≤ u.[node * Nc + c]) ∧
  zsum ((λ c, individuals.[c]) <$> selected irE jcE select) = m.

Section Sampler.
Context {D R : Type} {FD : Float64 D} {GR : Gsl R D} {EC : SimInf_h}.

(** The first loop of [SimInf_sample_select]: the number of selected
    states that hold individuals, and the number of individuals in the
    selected states. *)
Definition count_select (irE jcE : list Z) (Nc : Z) (u : list Z)
    (node select : Z) : Z * Z :=
  for_range jcE.[select] jcE.[select + 1]
    (λ i '(Nkinds, Nindividuals),
       let nk := u.[node * Nc + irE.[i]] in
       Next (if decide (0 < nk) then iadd Nkinds 1 else Nkinds,
             iadd Nindividuals nk))
    (0, 0).

(** [if (n == 0) n = round(proportion * Nindividuals);] *)
Definition n_actual (n : Z) (proportion : D) (Nindividuals : Z) : Z :=
  if decide (n = 0) then Dround (Dmul proportion (of_int Nindividuals))
  else n.

(** The scan of one urn draw: the index in [irE] of the compartment
    the individual is taken from. *)
Fixpoint urn_scan (cnt : nat) (irE u_tmp : list Z) (hi : Z) (rand : D)
    (i : Z) (cum : D) : Z :=
  match cnt with
  | O => i
  | S k =>
      if bool_decide (i < hi) && Dlt cum rand
      then urn_scan k irE u_tmp hi rand (i + 1)
             (Dadd cum (of_int u_tmp.[irE.[i + 1]]))
      else i
  end.

(** The loop [while (n > 0)] of the urn; [n] falls by one in every
    turn, so [cnt = n] turns are all it takes. *)
Fixpoint urn_draws (cnt : nat) (irE jcE : list Z) (select : Z)
    (u_tmp individuals : list Z) (Nindividuals n : Z) (rng : R)
    : list Z * R :=
  match cnt with
  | O => (individuals, rng)
  | S k =>
      if decide (0 < n) then
        let '(x, rng) := gsl_rng_uniform_pos rng in
        let rand := Dmul x (of_int Nindividuals) in
        let lo := jcE.[select] in
        let hi := jcE.[select + 1] in
        let i := urn_scan (Z.to_nat (hi - lo)) irE u_tmp hi rand lo
                   (of_int u_tmp.[irE.[lo]]) in
        let u_tmp := wr u_tmp irE.[i] (isub u_tmp.[irE.[i]] 1) in
        let individuals :=
          wr individuals irE.[i] (iadd individuals.[irE.[i]] 1) in
        urn_draws k irE jcE select u_tmp individuals
          (isub Nindividuals 1) (isub n 1) rng
      else (individuals, rng)
  end.

(** [SimInf_sample_select]: the return code, the vector [individuals]
    (a buffer of [Nc] cells, cleared on entry) and the generator.  The
    help vector [u_tmp] is written before it is read and is local here.
    GSL returns the hypergeometric variate as an [unsigned int], which
    the source stores in an [int] ([wrap]). *)
Definition SimInf_sample_select (irE jcE : list Z) (Nc : Z) (u : list Z)
    (node select n : Z) (proportion : D) (rng : R) : Z * list Z * R :=
  let individuals := replicate (Z.to_nat Nc) 0 in
  let '(Nkinds, Nindividuals) := count_select irE jcE Nc u node select in
  let lo := jcE.[select] in
  let hi := jcE.[select + 1] in
  let Nstates := hi - lo in
  let n := n_actual n proportion Nindividuals in
  if decide (Nstates ≤ 0 ∨ n > Nindividuals ∨ n < 0) then
    (SIMINF_ERR_SAMPLE_SELECT, individuals, rng)
  else if decide (n = 0) then
    (0, individuals, rng)
  else if decide (Nindividuals = n) then
    (0, for_range lo hi
          (λ i ind, Next (wr ind irE.[i] u.[node * Nc + irE.[i]]))
          individuals, rng)
  else if decide (Nstates = 1) then
    (0, wr individuals irE.[lo] n, rng)
  else if decide (Nkinds = 1) then
    (0, for_range lo hi
          (λ i ind, if decide (0 < u.[node * Nc + irE.[i]])
                    then Break (wr ind irE.[i] n) else Next ind)
          individuals, rng)
  else if decide (Nstates = 2) then
    let '(h, rng) := gsl_ran_hypergeometric rng
                       u.[node * Nc + irE.[lo]]
                       u.[node * Nc + irE.[lo + 1]] n in
    let individuals := wr individuals irE.[lo] (wrap h) in
    let individuals :=
      wr individuals irE.[lo + 1] (isub n individuals.[irE.[lo]]) in
    (0, individuals, rng)
  else
    let u_tmp := slice 0 u (node * Nc) Nc in
    let '(individuals, rng) :=
      urn_draws (Z.to_nat n) irE jcE select u_tmp individuals
        Nindividuals n rng in
    (0, individuals, rng).

End Sampler.

(** ** The data of a thread *)

(** A scheduled event.  [SimInf_scheduled_events] keeps one array per
    field and a length; a queue is modelled as the list of its events. *)
Record event (D : Type) : Type := {
  ev_event : Z;
  ev_time : Z;
  ev_node : Z;
  ev_dest : Z;
  ev_n : Z;
  ev_proportion : D;
  ev_select : Z;
  ev_shift : Z
}.
Arguments ev_event {D} e.
Arguments ev_time {D} e.
Arguments ev_node {D} e.
Arguments ev_dest {D} e.
Arguments ev_n {D} e.
Arguments ev_proportion {D} e.
Arguments ev_select {D} e.
Arguments ev_shift {D} e.

Section Partition.
Context {D : Type} {FD : Float64 D} {EC : SimInf_h}.

(** The thread of the E1 events of the one-based [node]:
    [k = (node - 1) / chunk_size; if (k >= Nthread) k = Nthread - 1;]
    with [chunk_size = Nn / Nthread].  [None] is the division by zero. *)
Definition E1_thread (Nn Nthread node : Z) : option Z :=
  if decide (Nthread = 0) then None else
  let chunk_size := Nn `quot` Nthread in
  if decide (chunk_size = 0) then None else
  let k := (node - 1) `quot` chunk_size in
  Some (if decide (k >= Nthread) then Nthread - 1 else k).

(** The conversion to zero-based indices of the second pass. *)
Definition zero_based (e : event D) : event D :=
  {| ev_event := ev_event e;
     ev_time := ev_time e;
     ev_node := ev_node e - 1;
     ev_dest := ev_dest e - 1;
     ev_n := ev_n e;
     ev_proportion := ev_proportion e;
     ev_select := ev_select e - 1;
     ev_shift := ev_shift e - 1 |}.

Definition is_E1 (e : event D) : Prop :=
  ev_event e = EXIT_EVENT ∨ ev_event e = ENTER_EVENT ∨
  ev_event e = INTERNAL_TRANSFER_EVENT.

Definition push_E1 (q : list (list (event D))) (k : Z) (e : event D)
  : list (list (event D)) :=
  wr q k (rd [] q k ++ [e]).

(** The outcome of [SimInf_split_events]. *)
Inductive split_result : Type :=
  | Split_trap                  (* integer division by zero *)
  | Split_error (errcode : Z)
  | Split_ok (E1 : list (list (event D))) (E2 : list (event D)).

(** One turn of the loops over the events, when the allocations give
    their buffers ([SimInf_split_events_alloc] is the function with the
    allocations that fail).  The first loop counts, the
    queues are allocated to the counts, and the second loop stores event
    [i] in cell [E1_i[k]++] of the queue of its thread (or in cell
    [E2_i++] of the queue E2): a queue receives its events in the order
    of the input. *)
Definition split_step (Nn Nthread : Z) (acc : split_result) (e : event D)
  : split_result :=
  match acc with
  | Split_ok E1 E2 =>
      if decide (is_E1 e) then
        match E1_thread Nn Nthread (ev_node e) with
        | None => Split_trap
        | Some k => Split_ok (push_E1 E1 k (zero_based e)) E2
        end
      else if decide (ev_event e = EXTERNAL_TRANSFER_EVENT) then
        Split_ok E1 (E2 ++ [zero_based e])
      else Split_error SIMINF_UNDEFINED_EVENT
  | _ => acc
  end.

Definition SimInf_split_events (events : list (event D)) (Nn Nthread : Z)
  : split_result :=
  if decide (Nthread = 0) then Split_trap else
  foldl (split_step Nn Nthread)
    (Split_ok (replicate (Z.to_nat Nthread) []) []) events.

(** The nodes of thread [i] in [SimInf_run_solver_ssa]:
    [Ni = i * (Nn / Nthread)] and [Nn / Nthread] nodes, the last thread
    taking [Nn % Nthread] more. *)
Definition thread_Ni (Nn Nthread i : Z) : Z := i * (Nn `quot` Nthread).

Definition thread_Nn (Nn Nthread i : Z) : Z :=
  if decide (i = Nthread - 1)
  then Nn `quot` Nthread + Nn `rem` Nthread
  else Nn `quot` Nthread.

Definition in_slice (Nn Nthread i node : Z) : Prop :=
  thread_Ni Nn Nthread i ≤ node <
    thread_Ni Nn Nthread i + thread_Nn Nn Nthread i.

(** The queues of the threads hold events of the nodes of their thread
    only. *)
Definition queues_in_slices (Nn Nthread : Z) (q : list (list (event D)))
  : Prop :=
  len q = Nthread ∧
  ∀ k e, e ∈ rd [] q k → in_slice Nn Nthread k (ev_node e).

End Partition.

Section Solver.
Context {D R : Type} {FD : Float64 D} {GR : Gsl R D} {EC : SimInf_h}.

(** The literal [0.0]. *)
Definition D0 : D := of_int 0.

Notation "a .{ i }" := (rd D0 a i) (at level 1, left associativity,
  format "a .{ i }").

(** A propensity function receives [&u[node * Nc]], [&v[node * Nd]],
    [&ldata[node * Nld]], [gdata] and the time; the pointers are
    modelled by the parts of the arrays that belong to the node. *)
Definition PropensityFun : Type :=
  list Z → list D → list D → list D → D → D.

(** The post time step function receives [&v_new[node * Nd]], which it
    may write, then [u], [v], [ldata] of the node, [gdata], the node
    and the time; it yields its return code and the new [v_new] of the
    node. *)
Definition PostTimeStepFun : Type :=
  list D → list Z → list D → list D → list D → Z → D → Z * list D.

(** The fields of [SimInf_thread_args] that the solver only reads.
    [ldata] is the whole array of the model, of which the thread has
    the part from [Ni * Nld]. *)
Record SimInf_thread_args : Type := {
  Ntot : Z; Ni : Z; Nn : Z; Nt : Z; Nc : Z; Nd : Z; Nld : Z;
  irG : list Z; jcG : list Z;
  irS : list Z; jcS : list Z; prS : list Z;
  irE : list Z; jcE : list Z;
  N : list Z;
  tr_fun : list PropensityFun;
  pts_fun : PostTimeStepFun;
  tspan : list D; tlen : Z;
  ldata : list D; gdata : list D;
  E1 : list (event D); E2 : list (event D);
  U_dense : bool;            (* U is a non-null pointer *)
  V_dense : bool;            (* V is a non-null pointer *)
  irU : list Z; jcU : list Z;
  irV : list Z; jcV : list Z
}.

(** The fields of [SimInf_thread_args] that the solver writes.  [v] and
    [v_new] point at the part of the thread in the two buffers [vv_1]
    and [vv_2]; they are modelled by the two parts. *)
Record thread_state : Type := {
  rng : R;
  tt : D; next_day : D;
  U_it : Z; V_it : Z;
  t_rate : list D; sum_t_rate : list D; t_time : list D;
  v : list D; v_new : list D;
  individuals : list Z;
  E1_index : Z; E2_index : Z;
  errcode : Z
}.

(** The arrays that the threads share. *)
Record shared : Type := {
  uu : list Z;
  update_node : list Z;
  U : list Z; V : list D;
  prU : list Z; prV : list D
}.

Definition set_rng (x : R) (sa : thread_state) : thread_state :=
  {| rng := x; tt := tt sa; next_day := next_day sa; U_it := U_it sa;
     V_it := V_it sa; t_rate := t_rate sa; sum_t_rate := sum_t_rate sa;
     t_time := t_time sa; v := v sa; v_new := v_new sa;
     individuals := individuals sa; E1_index := E1_index sa;
     E2_index := E2_index sa; errcode := errcode sa |}.

Definition set_clock (x y : D) (sa : thread_state) : thread_state :=
  {| rng := rng sa; tt := x; next_day := y; U_it := U_it sa;
     V_it := V_it sa; t_rate := t_rate sa; sum_t_rate := sum_t_rate sa;
     t_time := t_time sa; v := v sa; v_new := v_new sa;
     individuals := individuals sa; E1_index := E1_index sa;
     E2_index := E2_index sa; errcode := errcode sa |}.

Definition set_U_it (x : Z) (sa : thread_state) : thread_state :=
  {| rng := rng sa; tt := tt sa; next_day := next_day sa; U_it := x;
     V_it := V_it sa; t_rate := t_rate sa; sum_t_rate := sum_t_rate sa;
     t_time := t_time sa; v := v sa; v_new := v_new sa;
     individuals := individuals sa; E1_index := E1_index sa;
     E2_index := E2_index sa; errcode := errcode sa |}.

Definition set_V_it (x : Z) (sa : thread_state) : thread_state :=
  {| rng := rng sa; tt := tt sa; next_day := next_day sa; U_it := U_it sa;
     V_it := x; t_rate := t_rate sa; sum_t_rate := sum_t_rate sa;
     t_time := t_time sa; v := v sa; v_new := v_new sa;
     individuals := individuals sa; E1_index := E1_index sa;
     E2_index := E2_index sa; errcode := errcode sa |}.

Definition set_t_rate (x : list D) (sa : thread_state) : thread_state :=
  {| rng := rng sa; tt := tt sa; next_day := next_day sa; U_it := U_it sa;
     V_it := V_it sa; t_rate := x; sum_t_rate := sum_t_rate sa;
     t_time := t_time sa; v := v sa; v_new := v_new sa;
     individuals := individuals sa; E1_index := E1_index sa;
     E2_index := E2_index sa; errcode := errcode sa |}.

Definition set_sum_t_rate (x : list D) (sa : thread_state) : thread_state :=
  {| rng := rng sa; tt := tt sa; next_day := next_day sa; U_it := U_it sa;
     V_it := V_it sa; t_rate := t_rate sa; sum_t_rate := x;
     t_time := t_time sa; v := v sa; v_new := v_new sa;
     individuals := individuals sa; E1_index := E1_index sa;
     E2_index := E2_index sa; errcode := errcode sa |}.

Definition set_t_time (x : list D) (sa : thread_state) : thread_state :=
  {| rng := rng sa; tt := tt sa; next_day := next_day sa; U_it := U_it sa;
     V_it := V_it sa; t_rate := t_rate sa; sum_t_rate := sum_t_rate sa;
     t_time := x; v := v sa; v_new := v_new sa;
     individuals := individuals sa; E1_index := E1_index sa;
     E2_index := E2_index sa; errcode := errcode sa |}.

Definition set_v (x y : list D) (sa : thread_state) : thread_state :=
  {| rng := rng sa; tt := tt sa; next_day := next_day sa; U_it := U_it sa;
     V_it := V_it sa; t_rate := t_rate sa; sum_t_rate := sum_t_rate sa;
     t_time := t_time sa; v := x; v_new := y;
     individuals := individuals sa; E1_index := E1_index sa;
     E2_index := E2_index sa; errcode := errcode sa |}.

Definition set_individuals (x : list Z) (sa : thread_state) : thread_state :=
  {| rng := rng sa; tt := tt sa; next_day := next_day sa; U_it := U_it sa;
     V_it := V_it sa; t_rate := t_rate sa; sum_t_rate := sum_t_rate sa;
     t_time := t_time sa; v := v sa; v_new := v_new sa;
     individuals := x; E1_index := E1_index sa;
     E2_index := E2_index sa; errcode := errcode sa |}.

Definition set_E1_index (x : Z) (sa : thread_state) : thread_state :=
  {| rng := rng sa; tt := tt sa; next_day := next_day sa; U_it := U_it sa;
     V_it := V_it sa; t_rate := t_rate sa; sum_t_rate := sum_t_rate sa;
     t_time := t_time sa; v := v sa; v_new := v_new sa;
     individuals := individuals sa; E1_index := x;
     E2_index := E2_index sa; errcode := errcode sa |}.

Definition set_E2_index (x : Z) (sa : thread_state) : thread_state :=
  {| rng := rng sa; tt := tt sa; next_day := next_day sa; U_it := U_it sa;
     V_it := V_it sa; t_rate := t_rate sa; sum_t_rate := sum_t_rate sa;
     t_time := t_time sa; v := v sa; v_new := v_new sa;
     individuals := individuals sa; E1_index := E1_index sa;
     E2_index := x; errcode := errcode sa |}.

Definition set_errcode (x : Z) (sa : thread_state) : thread_state :=
  {| rng := rng sa; tt := tt sa; next_day := next_day sa; U_it := U_it sa;
     V_it := V_it sa; t_rate := t_rate sa; sum_t_rate := sum_t_rate sa;
     t_time := t_time sa; v := v sa; v_new := v_new sa;
     individuals := individuals sa; E1_index := E1_index sa;
     E2_index := E2_index sa; errcode := x |}.

Definition set_uu (x : list Z) (sh : shared) : shared :=
  {| uu := x; update_node := update_node sh; U := U sh; V := V sh;
     prU := prU sh; prV := prV sh |}.

Definition set_update_node (x : list Z) (sh : shared) : shared :=
  {| uu := uu sh; update_node := x; U := U sh; V := V sh;
     prU := prU sh; prV := prV sh |}.

Definition set_U (x : list Z) (sh : shared) : shared :=
  {| uu := uu sh; update_node := update_node sh; U := x; V := V sh;
     prU := prU sh; prV := prV sh |}.

Definition set_V (x : list D) (sh : shared) : shared :=
  {| uu := uu sh; update_node := update_node sh; U := U sh; V := x;
     prU := prU sh; prV := prV sh |}.

Definition set_prU (x : list Z) (sh : shared) : shared :=
  {| uu := uu sh; update_node := update_node sh; U := U sh; V := V sh;
     prU := x; prV := prV sh |}.

Definition set_prV (x : list D) (sh : shared) : shared :=
  {| uu := uu sh; update_node := update_node sh; U := U sh; V := V sh;
     prU := prU sh; prV := x |}.

Definition ev0 : event D :=
  {| ev_event := 0; ev_time := 0; ev_node := 0; ev_dest := 0; ev_n := 0;
     ev_proportion := D0; ev_select := 0; ev_shift := 0 |}.

(** *** The scheduled events *)

Section Events.
Variable c : SimInf_thread_args.

(** ENTER: [if (jcE[s] < jcE[s + 1])] the individuals enter the first
    compartment of the select column. *)
Definition enter_event (e : event D) (uu : list Z) (err : Z) : list Z * Z :=
  let s := ev_select e in
  if decide ((jcE c).[s] < (jcE c).[s + 1]) then
    let k := ev_node e * Nc c + (irE c).[(jcE c).[s]] in
    let uu := wr uu k (iadd uu.[k] (ev_n e)) in
    (uu, if decide (uu.[k] < 0) then SIMINF_ERR_NEGATIVE_STATE else err)
  else (uu, err).

(** EXIT: the loop that removes the sampled individuals. *)
Definition exit_event (e : event D) (individuals uu : list Z) (err : Z)
  : list Z * Z :=
  let s := ev_select e in
  for_range (jcE c).[s] (jcE c).[s + 1]
    (λ ii '(uu, err),
       let jj := (irE c).[ii] in
       let kk := ev_node e * Nc c + jj in
       let uu := wr uu kk (isub uu.[kk] individuals.[jj]) in
       if decide (uu.[kk] < 0)
       then Break (uu, SIMINF_ERR_NEGATIVE_STATE)
       else Next (uu, err))
    (uu, err).

(** INTERNAL_TRANSFER: the loop that moves the sampled individuals
    by the shift [N[shift * Nc + jj]]. *)
Definition internal_transfer_event (e : event D) (individuals uu : list Z)
    (err : Z) : list Z * Z :=
  let s := ev_select e in
  for_range (jcE c).[s] (jcE c).[s + 1]
    (λ ii '(uu, err),
       let jj := (irE c).[ii] in
       let kk := ev_node e * Nc c + jj in
       let ll := (N c).[ev_shift e * Nc c + jj] in
       let uu := wr uu (kk + ll) (iadd uu.[kk + ll] individuals.[jj]) in
       if decide (uu.[kk + ll] < 0)
       then Break (uu, SIMINF_ERR_NEGATIVE_STATE)
       else
         let uu := wr uu kk (isub uu.[kk] individuals.[jj]) in
         if decide (uu.[kk] < 0)
         then Break (uu, SIMINF_ERR_NEGATIVE_STATE)
         else Next (uu, err))
    (uu, err).

(** The body of the loop of [SimInf_process_E1_events] (the same
    loop stands in [SimInf_solver_ssa]). *)
Definition E1_step (sa : thread_state) (sh : shared)
  : ctl (thread_state * shared) :=
  let e := rd ev0 (E1 c) (E1_index sa) in
  let mark sa uu err :=
    (set_E1_index (E1_index sa + 1) (set_errcode err sa),
     set_update_node (wr (update_node sh) (ev_node e) 1) (set_uu uu sh)) in
  if decide (ev_event e = ENTER_EVENT) then
    let '(uu, err) := enter_event e (uu sh) (errcode sa) in
    Next (mark sa uu err)
  else
    let '(err, ind, rng) :=
      SimInf_sample_select (irE c) (jcE c) (Nc c) (uu sh) (ev_node e)
        (ev_select e) (ev_n e) (ev_proportion e) (rng sa) in
    let sa := set_rng rng (set_individuals ind (set_errcode err sa)) in
    if decide (err ≠ 0) then Break (sa, sh)
    else if decide (ev_event e = EXIT_EVENT) then
      let '(uu, err) := exit_event e ind (uu sh) err in
      Next (mark sa uu err)
    else
      let '(uu, err) := internal_transfer_event e ind (uu sh) err in
      Next (mark sa uu err).

(** [E1_index < len && tt >= time[E1_index] && !errcode] *)
Definition E1_cond (sa : thread_state) : bool :=
  bool_decide (E1_index sa < len (E1 c)) &&
  Dle (of_int (ev_time (rd ev0 (E1 c) (E1_index sa)))) (tt sa) &&
  bool_decide (errcode sa = 0).

Fixpoint E1_loop (cnt : nat) (sa : thread_state) (sh : shared)
  : thread_state * shared :=
  match cnt with
  | O => (sa, sh)
  | S k =>
      if E1_cond sa then
        match E1_step sa sh with
        | Next (sa, sh) => E1_loop k sa sh
        | Break st => st
        end
      else (sa, sh)
  end.

(** [E1_index] grows by one in every turn of the loop, which so takes
    at most [len - E1_index] turns. *)
Definition SimInf_process_E1_events (sa : thread_state) (sh : shared)
  : thread_state * shared :=
  E1_loop (Z.to_nat (len (E1 c) - E1_index sa)) sa sh.

(** EXTERNAL_TRANSFER: the loop that moves the sampled individuals
    from [node] to [dest]. *)
Definition external_transfer_event (e : event D) (individuals uu : list Z)
    (err : Z) : list Z * Z :=
  let s := ev_select e in
  for_range (jcE c).[s] (jcE c).[s + 1]
    (λ i '(uu, err),
       let jj := (irE c).[i] in
       let k1 := ev_dest e * Nc c + jj in
       let k2 := ev_node e * Nc c + jj in
       let ll := if decide (ev_shift e < 0) then 0
                 else (N c).[ev_shift e * Nc c + jj] in
       let uu := wr uu (k1 + ll) (iadd uu.[k1 + ll] individuals.[jj]) in
       if decide (uu.[k1 + ll] < 0)
       then Break (uu, SIMINF_ERR_NEGATIVE_STATE)
       else
         let uu := wr uu k2 (isub uu.[k2] individuals.[jj]) in
         if decide (uu.[k2] < 0)
         then Break (uu, SIMINF_ERR_NEGATIVE_STATE)
         else Next (uu, err))
    (uu, err).

(** The body of the loop of [SimInf_process_E2_events]. *)
Definition E2_step (sa : thread_state) (sh : shared)
  : ctl (thread_state * shared) :=
  let e := rd ev0 (E2 c) (E2_index sa) in
  let '(err, ind, rng) :=
    SimInf_sample_select (irE c) (jcE c) (Nc c) (uu sh) (ev_node e)
      (ev_select e) (ev_n e) (ev_proportion e) (rng sa) in
  let sa := set_rng rng (set_individuals ind (set_errcode err sa)) in
  if decide (err ≠ 0) then Break (sa, sh)
  else
    let '(uu, err) := external_transfer_event e ind (uu sh) err in
    Next (set_E2_index (E2_index sa + 1) (set_errcode err sa),
          set_update_node
            (wr (wr (update_node sh) (ev_node e) 1) (ev_dest e) 1)
            (set_uu uu sh)).

Definition E2_cond (sa : thread_state) : bool :=
  bool_decide (E2_index sa < len (E2 c)) &&
  Dle (of_int (ev_time (rd ev0 (E2 c) (E2_index sa)))) (tt sa) &&
  bool_decide (errcode sa = 0).

Fixpoint E2_loop (cnt : nat) (sa : thread_state) (sh : shared)
  : thread_state * shared :=
  match cnt with
  | O => (sa, sh)
  | S k =>
      if E2_cond sa then
        match E2_step sa sh with
        | Next (sa, sh) => E2_loop k sa sh
        | Break st => st
        end
      else (sa, sh)
  end.

Definition SimInf_process_E2_events (sa : thread_state) (sh : shared)
  : thread_state * shared :=
  E2_loop (Z.to_nat (len (E2 c) - E2_index sa)) sa sh.

End Events.

(** *** The SSA stepper *)

Section Stepper.
Variable c : SimInf_thread_args.

(** The call of [tr_fun[j]] with [&u[node * Nc]], [&vv[node * Nd]],
    [&ldata[node * Nld]], [gdata] and [t], where [u = &uu[Ni * Nc]]. *)
Definition call_tr_fun (j node : Z) (uu : list Z) (vv : list D) (t : D)
  : D :=
  rd (λ _ _ _ _ _, D0) (tr_fun c) j
    (slice 0 uu (Ni c * Nc c + node * Nc c) (Nc c))
    (slice D0 vv (node * Nd c) (Nd c))
    (slice D0 (ldata c) (Ni c * Nld c + node * Nld c) (Nld c))
    (gdata c) t.

(** [if (!isfinite(rate) || rate < 0.0) errcode = ...] *)
Definition check_rate (rate : D) (err : Z) : Z :=
  if negb (Disfinite rate) || Dlt rate D0
  then SIMINF_ERR_INVALID_RATE else err.

(** 1b) The linear search
    [for (tr = 0, cum = t_rate[node * Nt]; tr < Nt && rand > cum;
          tr++, cum += t_rate[node * Nt + tr]);] *)
Fixpoint tr_search (cnt : nat) (t_rate : list D) (base : Z) (rand : D)
    (tr : Z) (cum : D) : Z :=
  match cnt with
  | O => tr
  | S k =>
      if bool_decide (tr < Nt c) && Dlt cum rand
      then tr_search k t_rate base rand (tr + 1)
             (Dadd cum t_rate.{base + (tr + 1)})
      else tr
  end.

(** [for ( ; tr > 0 && t_rate[node * Nt + tr] == 0.0; tr--);] *)
Fixpoint tr_back (cnt : nat) (t_rate : list D) (base tr : Z) : Z :=
  match cnt with
  | O => tr
  | S k =>
      if bool_decide (0 < tr) && Deq t_rate.{base + tr} D0
      then tr_back k t_rate base (tr - 1)
      else tr
  end.

(** The transition of a step, [None] for the nil event. *)
Definition select_transition (t_rate : list D) (node : Z) (rand : D)
  : option Z :=
  let base := node * Nt c in
  let tr := tr_search (Z.to_nat (Nt c)) t_rate base rand 0 t_rate.{base} in
  let tr := if decide (tr >= Nt c) then Nt c - 1 else tr in
  if Deq t_rate.{base + tr} D0 then
    let tr := tr_back (Z.to_nat tr) t_rate base tr in
    if Deq t_rate.{base + tr} D0 then None else Some tr
  else Some tr.

(** 1c) The state of the node is updated by column [tr] of S. *)
Definition update_state (node tr : Z) (uu : list Z) (err : Z)
  : list Z * Z :=
  for_range (jcS c).[tr] (jcS c).[tr + 1]
    (λ j '(uu, err),
       let k := Ni c * Nc c + node * Nc c + (irS c).[j] in
       let uu := wr uu k (iadd uu.[k] (prS c).[j]) in
       Next (uu, if decide (uu.[k] < 0)
                 then SIMINF_ERR_NEGATIVE_STATE else err))
    (uu, err).

(** 1d) The rates of column [tr] of the dependency graph are
    calculated again; the result is the rates, [delta] and the error
    code. *)
Definition update_rates (node tr : Z) (uu : list Z) (vv : list D) (t : D)
    (t_rate : list D) (err : Z) : list D * D * Z :=
  for_range (jcG c).[tr] (jcG c).[tr + 1]
    (λ j '(t_rate, delta, err),
       let g := (irG c).[j] in
       let old := t_rate.{node * Nt c + g} in
       let rate := call_tr_fun g node uu vv t in
       Next (wr t_rate (node * Nt c + g) rate,
             Dadd delta (Dsub rate old),
             check_rate rate err))
    (t_rate, D0, err).

(** One turn of the loop [for (;;)] of a node: [Break] where the
    source leaves the loop. *)
Definition ssa_step (node : Z) (sa : thread_state) (uu : list Z)
  : ctl (thread_state * list Z) :=
  if Dle (sum_t_rate sa).{node} D0 then
    Break (set_t_time (wr (t_time sa) node (next_day sa)) sa, uu)
  else
    let '(x, r1) := gsl_rng_uniform_pos (rng sa) in
    let sa := set_rng r1 sa in
    let tau := Ddiv (Dneglog x) (sum_t_rate sa).{node} in
    if Dle (next_day sa) (Dadd tau (t_time sa).{node}) then
      Break (set_t_time (wr (t_time sa) node (next_day sa)) sa, uu)
    else
      let sa :=
        set_t_time (wr (t_time sa) node (Dadd (t_time sa).{node} tau)) sa in
      let '(y, r2) := gsl_rng_uniform_pos (rng sa) in
      let sa := set_rng r2 sa in
      let rand := Dmul y (sum_t_rate sa).{node} in
      match select_transition (t_rate sa) node rand with
      | None =>
          Break (set_sum_t_rate (wr (sum_t_rate sa) node D0) sa, uu)
      | Some tr =>
          let '(uu, err) := update_state node tr uu (errcode sa) in
          let '(rates, delta, err) :=
            update_rates node tr uu (v sa) (t_time sa).{node}
              (t_rate sa) err in
          let sa := set_errcode err (set_t_rate rates sa) in
          Next (set_sum_t_rate
                  (wr (sum_t_rate sa) node
                     (Dadd (sum_t_rate sa).{node} delta)) sa, uu)
      end.

(** The loop [for (;;)] of a node; [None] when [fuel] turns do not
    reach the end of the day. *)
Fixpoint ssa_node (fuel : nat) (node : Z) (sa : thread_state)
    (uu : list Z) : option (thread_state * list Z) :=
  match fuel with
  | O => None
  | S k =>
      match ssa_step node sa uu with
      | Next (sa, uu) => ssa_node k node sa uu
      | Break st => Some st
      end
  end.

(** (1) [for (node = 0; node < Nn && !errcode; node++)] *)
Fixpoint ssa_nodes (fuel : nat) (cnt : nat) (node : Z) (sa : thread_state)
    (uu : list Z) : option (thread_state * list Z) :=
  match cnt with
  | O => Some (sa, uu)
  | S k =>
      if decide (errcode sa = 0) then
        match ssa_node fuel node sa uu with
        | Some (sa, uu) => ssa_nodes fuel k (node + 1) sa uu
        | None => None
        end
      else Some (sa, uu)
  end.

(** The first loop over the threads of the main loop: (1) and (2). *)
Definition ssa_phase (fuel : nat) (sa : thread_state) (sh : shared)
  : option (thread_state * shared) :=
  match ssa_nodes fuel (Z.to_nat (Nn c)) 0 sa (uu sh) with
  | Some (sa, uu) => Some (SimInf_process_E1_events c sa (set_uu uu sh))
  | None => None
  end.

(** The rates of all transitions of a node, calculated with the
    continuous state [vv] at time [t]. *)
Definition all_rates (node : Z) (uu : list Z) (vv : list D) (t : D)
    (t_rate : list D) (err : Z) : list D * D * Z :=
  for_range 0 (Nt c)
    (λ j '(t_rate, delta, err),
       let old := t_rate.{node * Nt c + j} in
       let rate := call_tr_fun j node uu vv t in
       Next (wr t_rate (node * Nt c + j) rate,
             Dadd delta (Dsub rate old),
             check_rate rate err))
    (t_rate, D0, err).

(** The initialisation of the rates, of their sums and of the time
    of every node of the thread. *)
Definition init_rates (sa : thread_state) (sh : shared) : thread_state :=
  for_range 0 (Nn c)
    (λ node sa,
       let sa := set_sum_t_rate (wr (sum_t_rate sa) node D0) sa in
       let sa :=
         for_range 0 (Nt c)
           (λ j sa,
              let rate := call_tr_fun j node (uu sh) (v sa) (tt sa) in
              let sa :=
                set_t_rate (wr (t_rate sa) (node * Nt c + j) rate) sa in
              let sa :=
                set_sum_t_rate
                  (wr (sum_t_rate sa) node
                     (Dadd (sum_t_rate sa).{node} rate)) sa in
              Next (set_errcode (check_rate rate (errcode sa)) sa))
           sa in
       Next (set_t_time (wr (t_time sa) node (tt sa)) sa))
    sa.

(** (4) The post time step function and the update of the rates of
    the nodes that are indicated for update. *)
Definition post_step_node (node : Z) (st : thread_state * shared)
  : ctl (thread_state * shared) :=
  let '(sa, sh) := st in
  let '(rc, w) :=
    pts_fun c (slice D0 (v_new sa) (node * Nd c) (Nd c))
      (slice 0 (uu sh) (Ni c * Nc c + node * Nc c) (Nc c))
      (slice D0 (v sa) (node * Nd c) (Nd c))
      (slice D0 (ldata c) (Ni c * Nld c + node * Nld c) (Nld c))
      (gdata c) (Ni c + node) (tt sa) in
  let sa := set_v (v sa) (memcpy D0 (v_new sa) (node * Nd c) w 0 (Nd c)) sa in
  if decide (rc < 0) then Break (set_errcode rc sa, sh)
  else if decide (rc > 0 ∨ (update_node sh).[Ni c + node] ≠ 0) then
    let '(rates, delta, err) :=
      all_rates node (uu sh) (v_new sa) (tt sa) (t_rate sa) (errcode sa) in
    let sa := set_errcode err (set_t_rate rates sa) in
    let sa :=
      set_sum_t_rate
        (wr (sum_t_rate sa) node (Dadd (sum_t_rate sa).{node} delta)) sa in
    Next (sa, set_update_node (wr (update_node sh) (Ni c + node) 0) sh)
  else Next (sa, sh).

(** 6a) [while (U && U_it < tlen && tt > tspan[U_it]) memcpy (...)] *)
Fixpoint store_U (cnt : nat) (sa : thread_state) (sh : shared)
  : thread_state * shared :=
  match cnt with
  | O => (sa, sh)
  | S k =>
      if U_dense c && bool_decide (U_it sa < tlen c) &&
         Dlt (tspan c).{U_it sa} (tt sa)
      then
        store_U k (set_U_it (U_it sa + 1) sa)
          (set_U (memcpy 0 (U sh) (Nc c * (Ntot c * U_it sa + Ni c))
                    (uu sh) (Ni c * Nc c) (Nn c * Nc c)) sh)
      else (sa, sh)
  end.

Fixpoint store_V (cnt : nat) (sa : thread_state) (sh : shared)
  : thread_state * shared :=
  match cnt with
  | O => (sa, sh)
  | S k =>
      if V_dense c && bool_decide (V_it sa < tlen c) &&
         Dlt (tspan c).{V_it sa} (tt sa)
      then
        store_V k (set_V_it (V_it sa + 1) sa)
          (set_V (memcpy D0 (V sh) (Nd c * (Ntot c * V_it sa + Ni c))
                    (v_new sa) 0 (Nn c * Nd c)) sh)
      else (sa, sh)
  end.

(** The second loop over the threads of the main loop: (4), (5) and
    (6a). *)
Definition post_phase (sa : thread_state) (sh : shared)
  : thread_state * shared :=
  let '(sa, sh) := for_range 0 (Nn c) post_step_node (sa, sh) in
  let sa := set_clock (next_day sa) (Dadd (next_day sa) (of_int 1)) sa in
  let '(sa, sh) := store_U (Z.to_nat (tlen c - U_it sa)) sa sh in
  store_V (Z.to_nat (tlen c - V_it sa)) sa sh.

(** 6b) The solution in a sparse matrix ([SimInf_store_solution_sparse]),
    for the first thread, whose [u] is [uu]. *)
Fixpoint store_U_sparse (cnt : nat) (sa : thread_state) (sh : shared)
  : thread_state * shared :=
  match cnt with
  | O => (sa, sh)
  | S k =>
      if negb (U_dense c) && bool_decide (U_it sa < tlen c) &&
         Dlt (tspan c).{U_it sa} (tt sa)
      then
        store_U_sparse k (set_U_it (U_it sa + 1) sa)
          (set_prU
             (for_range (jcU c).[U_it sa] (jcU c).[U_it sa + 1]
                (λ j pr, Next (wr pr j (uu sh).[Ni c * Nc c + (irU c).[j]]))
                (prU sh)) sh)
      else (sa, sh)
  end.

Fixpoint store_V_sparse (cnt : nat) (sa : thread_state) (sh : shared)
  : thread_state * shared :=
  match cnt with
  | O => (sa, sh)
  | S k =>
      if negb (V_dense c) && bool_decide (V_it sa < tlen c) &&
         Dlt (tspan c).{V_it sa} (tt sa)
      then
        store_V_sparse k (set_V_it (V_it sa + 1) sa)
          (set_prV
             (for_range (jcV c).[V_it sa] (jcV c).[V_it sa + 1]
                (λ j pr, Next (wr pr j (rd D0 (v_new sa) (irV c).[j])))
                (prV sh)) sh)
      else (sa, sh)
  end.

Definition SimInf_store_solution_sparse (sa : thread_state) (sh : shared)
  : thread_state * shared :=
  let '(sa, sh) := store_U_sparse (Z.to_nat (tlen c - U_it sa)) sa sh in
  store_V_sparse (Z.to_nat (tlen c - V_it sa)) sa sh.

End Stepper.

(** What an update of [uu] with its tests does, from the state [uu] and
    the error code [err] to the pair [r]: the code is kept or becomes
    [SIMINF_ERR_NEGATIVE_STATE], and numbers of individuals stay numbers
    of individuals unless the code becomes so. *)
Definition checked_update (uu : list Z) (err : Z) (r : list Z * Z) : Prop :=
  (r.2 = err ∨ r.2 = SIMINF_ERR_NEGATIVE_STATE) ∧
  (r.2 ≠ SIMINF_ERR_NEGATIVE_STATE → counts uu → counts r.1).

(** The states and the stored solution hold numbers that are not
    negative. *)
Definition nonnegative (sh : shared) : Prop :=
  counts (uu sh) ∧ (∀ k, 0 ≤ (U sh).[k]) ∧ (∀ k, 0 ≤ (prU sh).[k]).

(** A step of a thread from [sa], [sh] to [sa'], [sh']: an error code
    that is set stays set, and without error numbers that are not
    negative stay so. *)
Definition phase_ok (sa : thread_state) (sh : shared) (sa' : thread_state)
    (sh' : shared) : Prop :=
  (errcode sa ≠ 0 → errcode sa' ≠ 0) ∧
  (errcode sa' = 0 → nonnegative sh → nonnegative sh').

(** The same for a step of the SSA, on the state of a thread and [uu]. *)
Definition ssa_ok (sa : thread_state) (uu : list Z)
    (st : thread_state * list Z) : Prop :=
  (errcode sa ≠ 0 → errcode st.1 ≠ 0) ∧
  (errcode st.1 = 0 → counts uu → counts st.2).

(** The SSA is through with [node] for the day: the time of the node
    is [day_end], the next day of the turn, or the loop of the node
    ended with the nil event, which leaves the sum of its rates at 0. *)
Definition advanced (day_end : D) (sa : thread_state) (node : Z) : Prop :=
  rd D0 (t_time sa) node = day_end ∨ rd D0 (sum_t_rate sa) node = D0.

(** What a step leaves as it is: the clock of the day and the places in
    the queues of events. *)
Definition same_day (sa sa' : thread_state) : Prop :=
  tt sa' = tt sa ∧ next_day sa' = next_day sa ∧
  E1_index sa' = E1_index sa ∧ E2_index sa' = E2_index sa.

(** What a step of the SSA on [node] leaves as it is, besides the day:
    the lengths of the arrays of times and of sums, and their cells of
    the other nodes. *)
Definition ssa_frame (node : Z) (sa sa' : thread_state) : Prop :=
  same_day sa sa' ∧
  len (t_time sa') = len (t_time sa) ∧
  len (sum_t_rate sa') = len (sum_t_rate sa) ∧
  ∀ n, n ≠ node →
    rd D0 (t_time sa') n = rd D0 (t_time sa) n ∧
    rd D0 (sum_t_rate sa') n = rd D0 (sum_t_rate sa) n.

(** What the steps that follow the events of a day do to a thread and
    to the shared arrays: the places in the queues and [uu] stay, and
    the clock [tt] moves to the next day. *)
Definition day_closed (sa : thread_state) (sh : shared) (sa' : thread_state)
    (sh' : shared) : Prop :=
  E1_index sa' = E1_index sa ∧ E2_index sa' = E2_index sa ∧
  tt sa' = next_day sa ∧ uu sh' = uu sh.

(** *** The main loop *)

(** An element of the array [sim_args]. *)
Definition thread : Type := SimInf_thread_args * thread_state.

(** [#pragma omp for] over the threads, in the order of the indices
    (the order of a build without OpenMP). *)
Fixpoint omp_for
    (f : SimInf_thread_args → thread_state → shared →
         option (thread_state * shared))
    (ts : list thread) (sh : shared) : option (list thread * shared) :=
  match ts with
  | [] => Some ([], sh)
  | (c, sa) :: ts =>
      match f c sa sh with
      | None => None
      | Some (sa, sh) =>
          match omp_for f ts sh with
          | None => None
          | Some (ts, sh) => Some ((c, sa) :: ts, sh)
          end
      end
  end.

(** A step on [sim_args[0]]; there is no such element when the array
    is empty. *)
Definition on_master
    (f : SimInf_thread_args → thread_state → shared → thread_state * shared)
    (ts : list thread) (sh : shared) : option (list thread * shared) :=
  match ts with
  | [] => None
  | (c, sa) :: ts => let '(sa, sh) := f c sa sh in Some ((c, sa) :: ts, sh)
  end.

(** [for (k = 0; k < Nthread; k++) if (sim_args[k].errcode) return ...] *)
Fixpoint first_error (ts : list thread) : Z :=
  match ts with
  | [] => 0
  | (_, sa) :: ts =>
      if decide (errcode sa ≠ 0) then errcode sa else first_error ts
  end.

Definition swap_v (t : thread) : thread :=
  (t.1, set_v (v_new t.2) (v t.2) t.2).

(** One turn of the main loop, up to the exchange of [v] and [v_new]. *)
Definition day (fuel : nat) (ts : list thread) (sh : shared)
  : option (list thread * shared) :=
  match omp_for (λ c, ssa_phase c fuel) ts sh with
  | None => None
  | Some (ts, sh) =>
  match on_master SimInf_process_E2_events ts sh with
  | None => None
  | Some (ts, sh) =>
  match omp_for (λ c sa sh, Some (post_phase c sa sh)) ts sh with
  | None => None
  | Some (ts, sh) =>
  match on_master SimInf_store_solution_sparse ts sh with
  | None => None
  | Some (ts, sh) => Some (swap_v <$> ts, sh)
  end end end end.

(** [if (sim_args[0].U_it >= sim_args[0].tlen) break;] *)
Definition final_time (ts : list thread) : bool :=
  match ts with
  | [] => true
  | (c, sa) :: _ => bool_decide (U_it sa >= tlen c)
  end.

(** The main loop; [None] when [days] turns do not reach the final
    time (or a node runs out of [fuel]).  The result is the return
    code and the shared arrays. *)
Fixpoint main_loop (days fuel : nat) (ts : list thread) (sh : shared)
  : option (Z * shared) :=
  match days with
  | O => None
  | S k =>
      match day fuel ts sh with
      | None => None
      | Some (ts, sh) =>
          if decide (first_error ts ≠ 0) then Some (first_error ts, sh)
          else if final_time ts then Some (0, sh)
          else main_loop k fuel ts sh
      end
  end.

(** The threads [ts'] are the threads [ts] after the steps that follow
    the events of a day. *)
Definition day_closed_threads (ts ts' : list thread) : Prop :=
  Forall2 (λ t t' : thread,
             E1_index t'.2 = E1_index t.2 ∧ E2_index t'.2 = E2_index t.2 ∧
             tt t'.2 = next_day t.2) ts ts'.

(** The same for a step of all threads. *)
Definition run_ok (ts : list thread) (sh : shared) (ts' : list thread)
    (sh' : shared) : Prop :=
  (first_error ts ≠ 0 → first_error ts' ≠ 0) ∧
  (first_error ts' = 0 → nonnegative sh → nonnegative sh').

Definition SimInf_solver_ssa (days fuel : nat) (ts : list thread)
    (sh : shared) : option (Z * shared) :=
  let ts := (λ t : thread, (t.1, init_rates t.1 t.2 sh)) <$> ts in
  if decide (first_error ts ≠ 0) then Some (first_error ts, sh)
  else main_loop days fuel ts sh.

(** *** The entry point *)

(** [SimInf_solver_args].  [args_U] is the dense matrix U, or [None]
    for the null pointer; [args_prU] is then the array of the sparse
    matrix.  The same holds for V. *)
Record SimInf_solver_args : Type := {
  args_u0 : list Z; args_v0 : list D;
  args_tspan : list D; args_tlen : Z;
  args_Nn : Z; args_Nt : Z; args_Nc : Z; args_Nd : Z; args_Nld : Z;
  args_irG : list Z; args_jcG : list Z;
  args_irS : list Z; args_jcS : list Z; args_prS : list Z;
  args_irE : list Z; args_jcE : list Z;
  args_N : list Z;
  args_tr_fun : list PropensityFun;
  args_pts_fun : PostTimeStepFun;
  args_ldata : list D; args_gdata : list D;
  args_events : list (event D);
  args_U : option (list Z);
  args_irU : list Z; args_jcU : list Z; args_prU : list Z;
  args_V : option (list D);
  args_irV : list Z; args_jcV : list Z; args_prV : list D;
  args_Nthread : Z; args_seed : Z
}.

(** The element [i] of [sim_args] as [SimInf_run_solver_ssa] sets it,
    with the queues of the thread and its generator.  The arrays
    [t_rate], [sum_t_rate] and [t_time] come from [malloc] and are all
    written by [init_rates]; [junk] is what [malloc] left in the part
    of the thread of [vv_2]. *)
Definition thread_args (a : SimInf_solver_args) (i : Z)
    (q1 q2 : list (event D)) : SimInf_thread_args :=
  {| Ntot := args_Nn a;
     Ni := thread_Ni (args_Nn a) (args_Nthread a) i;
     Nn := thread_Nn (args_Nn a) (args_Nthread a) i;
     Nt := args_Nt a; Nc := args_Nc a; Nd := args_Nd a;
     Nld := args_Nld a;
     irG := args_irG a; jcG := args_jcG a;
     irS := args_irS a; jcS := args_jcS a; prS := args_prS a;
     irE := args_irE a; jcE := args_jcE a;
     N := args_N a;
     tr_fun := args_tr_fun a; pts_fun := args_pts_fun a;
     tspan := args_tspan a; tlen := args_tlen a;
     ldata := args_ldata a; gdata := args_gdata a;
     E1 := q1; E2 := q2;
     U_dense := bool_decide (is_Some (args_U a));
     V_dense := bool_decide (is_Some (args_V a));
     irU := args_irU a; jcU := args_jcU a;
     irV := args_irV a; jcV := args_jcV a |}.

Definition thread_init (a : SimInf_solver_args) (i : Z) (r : R)
    (junk : list D) : thread_state :=
  let ni := thread_Ni (args_Nn a) (args_Nthread a) i in
  let nn := thread_Nn (args_Nn a) (args_Nthread a) i in
  {| rng := r;
     tt := (args_tspan a).{0};
     next_day := Dadd (Dfloor (args_tspan a).{0}) (of_int 1);
     U_it := 1; V_it := 1;
     t_rate := replicate (Z.to_nat (args_Nt a * nn)) D0;
     sum_t_rate := replicate (Z.to_nat nn) D0;
     t_time := replicate (Z.to_nat nn) D0;
     v := slice D0 (args_v0 a) (ni * args_Nd a) (nn * args_Nd a);
     v_new := slice D0 junk (ni * args_Nd a) (nn * args_Nd a);
     individuals := replicate (Z.to_nat (args_Nc a)) 0;
     E1_index := 0; E2_index := 0;
     errcode := 0 |}.

(** The generators of the threads: each is set to a draw of the
    generator that is set to the seed. *)
Fixpoint thread_rngs (cnt : nat) (r : R) : list R :=
  match cnt with
  | O => []
  | S k =>
      let '(s, r) := gsl_rng_uniform_int_max r in
      gsl_rng_set s :: thread_rngs k r
  end.

(** The shared arrays at the start: [uu] and column 0 of U and V hold
    the initial state. *)
Definition shared_init (a : SimInf_solver_args) : shared :=
  {| uu := slice 0 (args_u0 a) 0 (args_Nn a * args_Nc a);
     update_node := replicate (Z.to_nat (args_Nn a)) 0;
     U := match args_U a with
          | Some U =>
              memcpy 0 U 0 (args_u0 a) 0 (args_Nn a * args_Nc a)
          | None => []
          end;
     V := match args_V a with
          | Some V =>
              memcpy D0 V 0 (args_v0 a) 0 (args_Nn a * args_Nd a)
          | None => []
          end;
     prU := match args_U a with
            | Some _ => args_prU a
            | None =>
                for_range (args_jcU a).[0] (args_jcU a).[1]
                  (λ i pr, Next (wr pr i (args_u0 a).[(args_irU a).[i]]))
                  (args_prU a)
            end;
     prV := match args_V a with
            | Some _ => args_prV a
            | None =>
                for_range (args_jcV a).[0] (args_jcV a).[1]
                  (λ i pr,
                     Next (wr pr i (rd D0 (args_v0 a) (args_irV a).[i])))
                  (args_prV a)
            end |}.

(** [SimInf_run_solver_ssa], the allocations succeeding
    ([SimInf_run_solver_ssa_alloc] is the function with the allocations
    that fail); [None] is a division by zero in [SimInf_split_events] or
    a run that [days] and [fuel] do not bound. *)
Definition SimInf_run_solver_ssa (days fuel : nat)
    (a : SimInf_solver_args) (junk : list D) : option (Z * shared) :=
  let sh := shared_init a in
  let rngs :=
    thread_rngs (Z.to_nat (args_Nthread a)) (gsl_rng_set (args_seed a)) in
  match SimInf_split_events (args_events a) (args_Nn a) (args_Nthread a) with
  | Split_trap => None
  | Split_error e => Some (e, sh)
  | Split_ok q1 q2 =>
      let ts :=
        (λ i, (thread_args a i (rd [] q1 i) (if decide (i = 0) then q2 else []),
               thread_init a i (rd (gsl_rng_set 0) rngs i) junk))
          <$> seqZ 0 (args_Nthread a) in
      SimInf_solver_ssa days fuel ts sh
  end.

End Solver.

(** ** An instance for the examples: exact rationals

    The examples run the definitions with the rationals for [double].
    [-log x] is replaced by [1 - x], which like it is positive and below
    [1] for the draws of the examples.  A generator is the list of the
    denominators [p] of its next uniform draws [1/p] (then [1/2] for
    ever), and the hypergeometric sampler takes as many individuals as
    it can from the first state. *)
Module Exact.

Definition round_half_away (q : Q) : Z :=
  let a := Qnum q in
  let b := Z.pos (Qden q) in
  if decide (0 ≤ a) then (2 * a + b) `div` (2 * b)
  else - ((2 * - a + b) `div` (2 * b)).

#[export] Instance float64 : Float64 Q := {|
  of_int := inject_Z;
  Dadd := Qplus;
  Dsub := Qminus;
  Dmul := Qmult;
  Ddiv := Qdiv;
  Dneglog := λ x, Qminus 1 x;
  Dfloor := λ x, inject_Z (Qfloor x);
  Dround := round_half_away;
  Dlt := λ x y, negb (Qle_bool y x);
  Dle := Qle_bool;
  Deq := Qeq_bool;
  Disfinite := λ _, true
|}.

#[export] Instance gsl : Gsl (list positive) Q := {|
  gsl_rng_uniform_pos := λ r,
    match r with
    | [] => ((1 # 2)%Q, [])
    | p :: r => ((1 # p)%Q, r)
    end;
  gsl_ran_hypergeometric := λ r n1 n2 t, (Z.min n1 t, r);
  gsl_rng_set := λ _, [];
  gsl_rng_uniform_int_max := λ r, (0, r)
|}.

(** The values of the error constants in the releases of SimInf. *)
#[export] Instance siminf_h : SimInf_h := {|
  SIMINF_ERR_NEGATIVE_STATE := -1;
  SIMINF_ERR_ALLOC_MEMORY_BUFFER := -2;
  SIMINF_ERR_SAMPLE_SELECT := -8;
  SIMINF_ERR_INVALID_RATE := -11;
  SIMINF_UNDEFINED_EVENT := -3
|}.

(** A thread of a model without continuous state and without local data,
    whose post time step function does nothing, with the solution stored
    in dense matrices. *)
Definition args_of (Ntot Ni Nn Nt Nc : Z)
    (irG jcG irS jcS prS irE jcE N : list Z)
    (tr_fun : list (PropensityFun (D := Q))) (tspan : list Q)
    (E1 E2 : list (event Q)) : SimInf_thread_args :=
  {| Ntot := Ntot; Ni := Ni; Nn := Nn; Nt := Nt; Nc := Nc; Nd := 0; Nld := 0;
     irG := irG; jcG := jcG; irS := irS; jcS := jcS; prS := prS;
     irE := irE; jcE := jcE; N := N;
     tr_fun := tr_fun;
     pts_fun := λ v_new _ _ _ _ _ _, (0, v_new);
     tspan := tspan; tlen := len tspan;
     ldata := []; gdata := [];
     E1 := E1; E2 := E2;
     U_dense := true; V_dense := true;
     irU := []; jcU := []; irV := []; jcV := [] |}.

(** The state of such a thread at the start of the day [day], before
    the rates are calculated. *)
Definition state_of (r : list positive) (day : Z) (Nn Nt Nc : Z)
  : thread_state :=
  {| rng := r; tt := inject_Z day; next_day := inject_Z (day + 1);
     U_it := 1; V_it := 1;
     t_rate := replicate (Z.to_nat (Nn * Nt)) 0%Q;
     sum_t_rate := replicate (Z.to_nat Nn) 0%Q;
     t_time := replicate (Z.to_nat Nn) (inject_Z day);
     v := []; v_new := [];
     individuals := replicate (Z.to_nat Nc) 0;
     E1_index := 0; E2_index := 0;
     errcode := 0 |}.

(** The shared arrays of such a model, for [tlen] points of time. *)
Definition shared_of (uu : list Z) (Nn tlen : Z) : shared (D := Q) :=
  {| uu := uu; update_node := replicate (Z.to_nat Nn) 0;
     U := uu ++ replicate (Z.to_nat ((tlen - 1) * len uu)) 0;
     V := []; prU := []; prV := [] |}.

(** The arguments of the solver for such a model, with the matrix U
    filled with zeros by the caller. *)
Definition model_of (Nn Nt Nc Nthread : Z) (u0 : list Z) (tspan : list Q)
    (irG jcG irS jcS prS irE jcE N : list Z)
    (tr_fun : list (PropensityFun (D := Q))) (events : list (event Q))
  : SimInf_solver_args :=
  {| args_u0 := u0; args_v0 := [];
     args_tspan := tspan; args_tlen := len tspan;
     args_Nn := Nn; args_Nt := Nt; args_Nc := Nc; args_Nd := 0;
     args_Nld := 0;
     args_irG := irG; args_jcG := jcG;
     args_irS := irS; args_jcS := jcS; args_prS := prS;
     args_irE := irE; args_jcE := jcE;
     args_N := N;
     args_tr_fun := tr_fun;
     args_pts_fun := λ v_new _ _ _ _ _ _, (0, v_new);
     args_ldata := []; args_gdata := [];
     args_events := events;
     args_U := Some (replicate (Z.to_nat (Nn * Nc * len tspan)) 0);
     args_irU := []; args_jcU := []; args_prU := [];
     args_V := Some [];
     args_irV := []; args_jcV := []; args_prV := [];
     args_Nthread := Nthread; args_seed := 0 |}.

End Exact.


(** ** Further definitions

    What the theorems on the rest of the sources are stated with. *)

Section Queues.
Context {D : Type} {FD : Float64 D} {EC : SimInf_h}.

(** The events of [events] that [SimInf_split_events] hands to thread
    [k] as its queue E1, and the events of the queue E2, both in the
    order of [events] and zero-based. *)
Definition E1_of (Nn Nthread k : Z) (events : list (event D))
  : list (event D) :=
  zero_based <$>
    filter (λ e, is_E1 e ∧ E1_thread Nn Nthread (ev_node e) = Some k) events.

Definition E2_of (events : list (event D)) : list (event D) :=
  zero_based <$>
    filter (λ e, ¬ is_E1 e ∧ ev_event e = EXTERNAL_TRANSFER_EVENT) events.

(** The events of a queue come in the order of their times. *)
Fixpoint by_time (q : list (event D)) : Prop :=
  match q with
  | [] => True
  | e :: q => Forall (λ e', ev_time e ≤ ev_time e') q ∧ by_time q
  end.

(** The type of the event is none of the four that the solver knows. *)
Definition undefined_event (e : event D) : Prop :=
  ¬ is_E1 e ∧ ev_event e ≠ EXTERNAL_TRANSFER_EVENT.

(** What the loops over the events keep: after the events [done], the
    queues hold the events of [done] of their threads. *)
Definition split_inv (Nn Nthread : Z) (done : list (event D))
    (q : list (list (event D))) (E2 : list (event D)) : Prop :=
  len q = Nthread ∧
  E2 = E2_of done ∧
  ∀ k, 0 ≤ k < Nthread → rd [] q k = E1_of Nn Nthread k done.

End Queues.

(** The sum of a list of rationals, and the sum of the cached rates of
    the first [k] transitions of the node whose rates start at [base]. *)
Definition qsum (l : list Q) : Q := foldr Qplus 0%Q l.

Definition rate_sum (t_rate : list Q) (base k : Z) : Q :=
  qsum ((λ j, rd 0%Q t_rate (base + j)) <$> seqZ 0 k).

(** The cached sum of the rates of [node] is the sum of its cached
    rates. *)
Definition rates_cached {R : Type} (c : SimInf_thread_args (D := Q))
    (sa : thread_state (D := Q) (R := R)) (node : Z) : Prop :=
  (rd 0%Q (sum_t_rate sa) node ==
   rate_sum (t_rate sa) (node * Nt c) (Nt c))%Q.

(** The cached sums of all nodes of a thread are the sums of their
    cached rates, in arrays that hold the rates of the nodes. *)
Definition cached {R : Type} (c : SimInf_thread_args (D := Q))
    (sa : thread_state (D := Q) (R := R)) : Prop :=
  Nn c ≤ len (sum_t_rate sa) ∧ Nn c * Nt c ≤ len (t_rate sa) ∧
  ∀ node, 0 ≤ node < Nn c → rates_cached c sa node.

(** What the loops that calculate rates again keep, from the rates
    [t0] on: the sum of the rates of the node has changed by [delta],
    and the rates of the other nodes are as they were. *)
Definition refreshed (c : SimInf_thread_args (D := Q)) (node : Z)
    (t0 : list Q) (st : list Q * Q * Z) : Prop :=
  (rate_sum st.1.1 (node * Nt c) (Nt c) ==
   rate_sum t0 (node * Nt c) (Nt c) + st.1.2)%Q ∧
  len st.1.1 = len t0 ∧
  ∀ k, ¬ node * Nt c ≤ k < node * Nt c + Nt c → rd 0%Q st.1.1 k = rd 0%Q t0 k.

(** The rates of the nodes before [n] are calculated and summed. *)
Definition initialised {R : Type} (c : SimInf_thread_args (D := Q))
    (sh : shared (D := Q))
    (sa0 sa : thread_state (D := Q) (R := R)) (n : Z) : Prop :=
  v sa = v sa0 ∧ tt sa = tt sa0 ∧
  len (t_rate sa) = len (t_rate sa0) ∧
  len (sum_t_rate sa) = len (sum_t_rate sa0) ∧
  ∀ n', 0 ≤ n' < n →
    rates_cached c sa n' ∧
    ∀ j, 0 ≤ j < Nt c →
      rd 0%Q (t_rate sa) (n' * Nt c + j) =
      call_tr_fun (FD := Exact.float64) c j n' (uu sh) (v sa0) (tt sa0).

(** What the loop 6a) has done to U from [sa], [sh] to [sa'], [sh']:
    the columns from [U_it sa] up to [U_it sa'] are the ones whose time
    [tt] has passed, the part of the thread in each of them holds the
    state of the thread, and no other cell of U has changed. *)
Definition stored_U {D R : Type} {FD : Float64 D}
    (c : SimInf_thread_args (D := D))
    (sa : thread_state (D := D) (R := R)) (sh : shared (D := D))
    (sa' : thread_state (D := D) (R := R)) (sh' : shared (D := D)) : Prop :=
  U_it sa ≤ U_it sa' ∧
  (U_it sa < U_it sa' → U_it sa' ≤ tlen c) ∧
  len (U sh') = len (U sh) ∧
  uu sh' = uu sh ∧ tt sa' = tt sa ∧
  (∀ it, U_it sa ≤ it < U_it sa' →
     Dlt (rd D0 (tspan c) it) (tt sa) = true ∧
     ∀ k, 0 ≤ k < Nn c * Nc c →
       (U sh').[Nc c * (Ntot c * it + Ni c) + k] =
       (uu sh).[Ni c * Nc c + k]) ∧
  (U_it sa' < tlen c → Dlt (rd D0 (tspan c) (U_it sa')) (tt sa) = false) ∧
  (∀ i, (∀ it, U_it sa ≤ it < U_it sa' →
           ¬ Nc c * (Ntot c * it + Ni c) ≤ i
               < Nc c * (Ntot c * it + Ni c) + Nn c * Nc c) →
        (U sh').[i] = (U sh).[i]).

(** A thread whose next column of U is not column 0, in a model whose
    matrix U has at least [n] rows. *)
Definition U_head {D R : Type} {FD : Float64 D} (n : Z)
    (t : SimInf_thread_args (D := D) * thread_state (D := D) (R := R))
  : Prop :=
  1 ≤ U_it t.2 ∧ 0 ≤ Ni t.1 ∧ 0 ≤ Nc t.1 ∧ n ≤ Nc t.1 * Ntot t.1.

(** The test of a rate: [!isfinite(rate) || rate < 0.0]. *)
Definition bad_rate {D : Type} {FD : Float64 D} (rate : D) : bool :=
  negb (Disfinite rate) || Dlt rate (of_int 0).

(** A rate of the thread at the start of the run fails the test. *)
Definition bad_initial_rate {D R : Type} {FD : Float64 D}
    (sh : shared (D := D))
    (t : SimInf_thread_args (D := D) * thread_state (D := D) (R := R))
  : Prop :=
  ∃ node j, 0 ≤ node < Nn t.1 ∧ 0 ≤ j < Nt t.1 ∧
    bad_rate (call_tr_fun t.1 j node (uu sh) (v t.2) (tt t.2)) = true.

(** ** The model SISe3 ([SISe3.c])

    Three age categories with a susceptible and an infected compartment
    each, and the environmental infectious pressure [phi] in the data
    vector of the node. *)

(** The conversion [(int) x] of a [double]. *)
Class Cast (D : Type) : Type := int_of_double : D → Z.

Module SISe3.

(** Compartments. *)
Definition S_1 : Z := 0.
Definition I_1 : Z := 1.
Definition S_2 : Z := 2.
Definition I_2 : Z := 3.
Definition S_3 : Z := 4.
Definition I_3 : Z := 5.

(** Offsets in [data] to the parameters of the model. *)
Definition PHI : Z := 0.
Definition UPSILON_1 : Z := 1.
Definition UPSILON_2 : Z := 2.
Definition UPSILON_3 : Z := 3.
Definition GAMMA_1 : Z := 4.
Definition GAMMA_2 : Z := 5.
Definition GAMMA_3 : Z := 6.
Definition ALPHA : Z := 7.
Definition BETA_Q1 : Z := 8.
Definition BETA_Q2 : Z := 9.
Definition BETA_Q3 : Z := 10.
Definition BETA_Q4 : Z := 11.
Definition EPSILON : Z := 12.

Section Model.
Context {D : Type} {FD : Float64 D} {CD : Cast D}.

#[local] Notation "a .{ i }" := (rd (of_int 0) a i)
  (at level 1, left associativity, format "a .{ i }").

(** Susceptible to infected, in the three age categories. *)
Definition SISe3_S_1_to_I_1 (u : list Z) (t : D) (data : list D) (sd : Z)
  : D :=
  Dmul (Dmul data.{UPSILON_1} data.{PHI}) (of_int u.[S_1]).

Definition SISe3_S_2_to_I_2 (u : list Z) (t : D) (data : list D) (sd : Z)
  : D :=
  Dmul (Dmul data.{UPSILON_2} data.{PHI}) (of_int u.[S_2]).

Definition SISe3_S_3_to_I_3 (u : list Z) (t : D) (data : list D) (sd : Z)
  : D :=
  Dmul (Dmul data.{UPSILON_3} data.{PHI}) (of_int u.[S_3]).

(** Infected to susceptible. *)
Definition SISe3_I_1_to_S_1 (u : list Z) (t : D) (data : list D) (sd : Z)
  : D :=
  Dmul data.{GAMMA_1} (of_int u.[I_1]).

Definition SISe3_I_2_to_S_2 (u : list Z) (t : D) (data : list D) (sd : Z)
  : D :=
  Dmul data.{GAMMA_2} (of_int u.[I_2]).

Definition SISe3_I_3_to_S_3 (u : list Z) (t : D) (data : list D) (sd : Z)
  : D :=
  Dmul data.{GAMMA_3} (of_int u.[I_3]).

(** The quarter of the year of the [switch]:
    [((int)t % days_in_year) / days_in_quarter]. *)
Definition quarter (t : D) : Z := (int_of_double t `rem` 365) `quot` 91.

(** The offset of the decay of the infectious pressure that the
    [switch] chooses; the [default] serves the quarters 3 and 4. *)
Definition beta_offset (q : Z) : Z :=
  if decide (q = 0) then BETA_Q1
  else if decide (q = 1) then BETA_Q2
  else if decide (q = 2) then BETA_Q3
  else BETA_Q4.

(** The update of the infectious pressure: the return value and the
    data vector, which the function writes in place. *)
Definition SISe3_post_time_step (u : list Z) (node : Z) (t : D)
    (data : list D) (sd : Z) : Z * list D :=
  let tmp := data.{PHI} in
  let S_n := of_int (iadd (iadd u.[S_1] u.[S_2]) u.[S_3]) in
  let I_n := of_int (iadd (iadd u.[I_1] u.[I_2]) u.[I_3]) in
  let data :=
    wr data PHI
      (Dmul data.{PHI} (Dsub (of_int 1) data.{beta_offset (quarter t)})) in
  let data :=
    if Dlt (of_int 0) (Dadd I_n S_n)
    then wr data PHI
           (Dadd data.{PHI}
              (Dadd (Ddiv (Dmul data.{ALPHA} I_n) (Dadd I_n S_n))
                 data.{EPSILON}))
    else wr data PHI (Dadd data.{PHI} data.{EPSILON}) in
  (if Deq tmp data.{PHI} then 0 else 1, data).

End Model.

End SISe3.

(** The conversion to [int] of the exact instance: the integral part. *)
Module ExactCast.

#[export] Instance cast : Cast Q := λ q, Qnum q `quot` Z.pos (Qden q).

End ExactCast.

(** The parameters of SISe3 are in their ranges: no cell of the data
    vector is negative, and the four decays are at most 1. *)
Definition SISe3_params_ok (data : list Q) : Prop :=
  (∀ k, (0 <= rd 0 data k)%Q) ∧
  (∀ k, SISe3.BETA_Q1 ≤ k ≤ SISe3.BETA_Q4 → (rd 0 data k <= 1)%Q).

(** The six propensities of SISe3, in the order of the transitions. *)
Definition SISe3_propensities {D : Type} {FD : Float64 D}
  : list (list Z → D → list D → Z → D) :=
  [SISe3.SISe3_S_1_to_I_1; SISe3.SISe3_I_1_to_S_1;
   SISe3.SISe3_S_2_to_I_2; SISe3.SISe3_I_2_to_S_2;
   SISe3.SISe3_S_3_to_I_3; SISe3.SISe3_I_3_to_S_3].

(** ** The cells of a thread

    What the first loop over the threads of a day reads and writes. *)

Section Cells.
Context {D R : Type} {FD : Float64 D} {GR : Gsl R D} {EC : SimInf_h}.

(** The nodes of the thread, and their cells in [uu]. *)
Definition own_node (c : SimInf_thread_args (D := D)) (i : Z) : Prop :=
  Ni c ≤ i < Ni c + Nn c.

Definition own_cell (c : SimInf_thread_args (D := D)) (k : Z) : Prop :=
  Ni c * Nc c ≤ k < (Ni c + Nn c) * Nc c.

(** Two arrays of the same length with the same cells where [P]
    holds. *)
Definition agree_at {A} (d : A) (P : Z → Prop) (a b : list A) : Prop :=
  len a = len b ∧ ∀ k, P k → rd d a k = rd d b k.

(** The array [a] is the array [a0] but for the cells where [P]
    holds. *)
Definition frame_at {A} (d : A) (P : Z → Prop) (a0 a : list A) : Prop :=
  len a = len a0 ∧ ∀ k, ¬ P k → rd d a k = rd d a0 k.

Definition agree (P : Z → Prop) (a b : list Z) : Prop := agree_at 0 P a b.

Definition frame (P : Z → Prop) (a0 a : list Z) : Prop := frame_at 0 P a0 a.

(** The matrices of the model name compartments of a node, and the
    events of the queue E1 of the thread are events of its nodes. *)
Definition local_model (c : SimInf_thread_args (D := D)) : Prop :=
  0 ≤ Nc c ∧ 0 ≤ Nn c ∧
  (∀ j, 0 ≤ (irS c).[j] < Nc c) ∧
  (∀ i, 0 ≤ (irE c).[i] < Nc c) ∧
  ∀ e, e ∈ E1 c →
    own_node c (ev_node e) ∧
    (ev_event e ≠ ENTER_EVENT → ev_event e ≠ EXIT_EVENT →
     ∀ jj, jj ∈ selected (irE c) (jcE c) (ev_select e) →
       0 ≤ jj + (N c).[ev_shift e * Nc c + jj] < Nc c).

(** The shared arrays agree on the cells of the thread. *)
Definition agree_shared (c : SimInf_thread_args (D := D))
    (sh sh2 : shared (D := D)) : Prop :=
  agree (own_cell c) (uu sh) (uu sh2) ∧
  agree (own_node c) (update_node sh) (update_node sh2).

(** The shared arrays [sh'] are [sh] but for the cells of the thread in
    [uu] and in [update_node]. *)
Definition own_writes (c : SimInf_thread_args (D := D))
    (sh sh' : shared (D := D)) : Prop :=
  frame (own_cell c) (uu sh) (uu sh') ∧
  frame (own_node c) (update_node sh) (update_node sh') ∧
  U sh' = U sh ∧ V sh' = V sh ∧ prU sh' = prU sh ∧ prV sh' = prV sh.

(** Two runs of a thread side by side: from [sh0], one run has come to
    [sh] and the other, from arrays with the same cells of the thread,
    to [sh2]. *)
Definition tied_at {A} (d : A) (P : Z → Prop) (a0 a b : list A) : Prop :=
  agree_at d P a b ∧ frame_at d P a0 a.

Definition tied (P : Z → Prop) (a0 a b : list Z) : Prop := tied_at 0 P a0 a b.

Definition tied_shared (c : SimInf_thread_args (D := D))
    (sh0 sh sh2 : shared (D := D)) : Prop :=
  agree_shared c sh sh2 ∧ own_writes c sh0 sh.

(** Two threads of a model: no node belongs to both. *)
Definition disjoint_threads (c1 c2 : SimInf_thread_args (D := D)) : Prop :=
  Ntot c1 = Ntot c2 ∧ Nc c1 = Nc c2 ∧ Nd c1 = Nd c2 ∧ 0 ≤ Nc c1 ∧
  (Ni c1 + Nn c1 ≤ Ni c2 ∨ Ni c2 + Nn c2 ≤ Ni c1).

Fixpoint pairwise_disjoint (ts : list (thread (D := D) (R := R))) : Prop :=
  match ts with
  | [] => True
  | t :: ts =>
      Forall (λ t' : thread, disjoint_threads t.1 t'.1) ts ∧
      pairwise_disjoint ts
  end.

(** A thread that the first loop of a day can run by itself. *)
Definition local_thread (t : thread (D := D) (R := R)) : Prop :=
  local_model t.1 ∧ 0 ≤ E1_index t.2.

(** The cells of the thread in a matrix of the solution that has [w]
    rows for a node and [w * Ntot] rows in all, stored by columns: in
    every column, the rows of the nodes of the thread. *)
Definition own_block (c : SimInf_thread_args (D := D)) (w k : Z) : Prop :=
  0 ≤ k ∧ w * Ni c ≤ k `mod` (w * Ntot c) < w * (Ni c + Nn c).

(** A thread of the second loop of a day: its nodes are nodes of the
    model and its columns of the solution are columns of U and V. *)
Definition post_thread (t : thread (D := D) (R := R)) : Prop :=
  0 ≤ Nc t.1 ∧ 0 ≤ Nd t.1 ∧ 0 ≤ Ni t.1 ∧ 0 ≤ Nn t.1 ∧
  Ni t.1 + Nn t.1 ≤ Ntot t.1 ∧ 0 ≤ U_it t.2 ∧ 0 ≤ V_it t.2.

(** The same for the second loop of a day, which reads [uu] and writes
    [update_node], U and V. *)
Definition post_agree (c : SimInf_thread_args (D := D))
    (sh sh2 : shared (D := D)) : Prop :=
  agree (own_cell c) (uu sh) (uu sh2) ∧
  agree (own_node c) (update_node sh) (update_node sh2) ∧
  agree (own_block c (Nc c)) (U sh) (U sh2) ∧
  agree_at D0 (own_block c (Nd c)) (V sh) (V sh2).

Definition post_writes (c : SimInf_thread_args (D := D))
    (sh sh' : shared (D := D)) : Prop :=
  uu sh' = uu sh ∧
  frame (own_node c) (update_node sh) (update_node sh') ∧
  frame (own_block c (Nc c)) (U sh) (U sh') ∧
  frame_at D0 (own_block c (Nd c)) (V sh) (V sh') ∧
  prU sh' = prU sh ∧ prV sh' = prV sh.

Definition post_tied (c : SimInf_thread_args (D := D))
    (sh0 sh sh2 : shared (D := D)) : Prop :=
  post_agree c sh sh2 ∧ post_writes c sh0 sh.

End Cells.

(** ** The error of the post time step function *)

Section PostTimeStepError.
Context {D R : Type} {FD : Float64 D} {GR : Gsl R D} {EC : SimInf_h}.

(** The value that the post time step function returns for [node], when
    it is called with the state of the thread at the start of loop (4)
    and the state [uu] of the nodes. *)
Definition pts_rc (c : SimInf_thread_args (D := D))
    (sa : thread_state (D := D) (R := R)) (uu : list Z) (node : Z) : Z :=
  (pts_fun c (slice D0 (v_new sa) (node * Nd c) (Nd c))
     (slice 0 uu (Ni c * Nc c + node * Nc c) (Nc c))
     (slice D0 (v sa) (node * Nd c) (Nd c))
     (slice D0 (ldata c) (Ni c * Nld c + node * Nld c) (Nld c))
     (gdata c) (Ni c + node) (tt sa)).1.

(** The post time step function returns an error for a node of the
    thread. *)
Definition pts_fails (uu : list Z) (t : thread (D := D) (R := R)) : Prop :=
  0 ≤ Nd t.1 ∧ ∃ n, 0 ≤ n < Nn t.1 ∧ pts_rc t.1 t.2 uu n < 0.

End PostTimeStepError.

(** ** The turns of the main loop *)

Section Turns.
Context {D R : Type} {FD : Float64 D} {GR : Gsl R D} {EC : SimInf_h}.

(** What the SSA and the events leave of a thread: the clock and the
    column of the solution that comes next. *)
Definition same_clock (sa sa' : thread_state (D := D) (R := R)) : Prop :=
  tt sa' = tt sa ∧ next_day sa' = next_day sa ∧ U_it sa' = U_it sa.

(** The threads and the shared arrays after [n] turns of the main loop,
    whatever the error codes and the time; [None] when a turn does not
    come to its end. *)
Fixpoint days_state (fuel n : nat) (ts : list (thread (D := D) (R := R)))
    (sh : shared (D := D)) : option (list thread * shared) :=
  match n with
  | O => Some (ts, sh)
  | S k =>
      match day fuel ts sh with
      | Some (ts, sh) => days_state fuel k ts sh
      | None => None
      end
  end.

End Turns.

(** ** The matrix S *)

Section Stoichiometry.
Context {D : Type} {FD : Float64 D}.

(** The entry of row [r] in column [tr] of the sparse matrix S: the
    values [prS[j]] of the column whose row [irS[j]] is [r] (one value,
    in a matrix that lists a row of a column once). *)
Definition S_entry (c : SimInf_thread_args (D := D)) (tr r : Z) : Z :=
  zsum ((λ j, if decide ((irS c).[j] = r) then (prS c).[j] else 0) <$>
     seqZ (jcS c).[tr] ((jcS c).[tr + 1] - (jcS c).[tr])).

End Stoichiometry.

(** ** The update of the state by a scheduled event *)

Section EventUpdates.
Context {D R : Type} {FD : Float64 D} {GR : Gsl R D} {EC : SimInf_h}.
Variable c : SimInf_thread_args (D := D).

(** The state [uu] that the event at the head of the queue E1 leaves,
    from the state of the thread [sa] and the arrays [sh]: that of the
    case of its type in the loop over the events E1, with the
    individuals that [SimInf_sample_select] samples for the EXIT and
    INTERNAL_TRANSFER events. *)
Definition E1_update (sa : thread_state (D := D) (R := R)) (sh : shared (D := D))
  : list Z :=
  let e := rd ev0 (E1 c) (E1_index sa) in
  if decide (ev_event e = ENTER_EVENT) then
    (enter_event c e (uu sh) (errcode sa)).1
  else
    let r :=
      SimInf_sample_select (irE c) (jcE c) (Nc c) (uu sh) (ev_node e)
        (ev_select e) (ev_n e) (ev_proportion e) (rng sa) in
    if decide (ev_event e = EXIT_EVENT) then
      (exit_event c e r.1.2 (uu sh) r.1.1).1
    else (internal_transfer_event c e r.1.2 (uu sh) r.1.1).1.

(** The same for the event at the head of the queue E2. *)
Definition E2_update (sa : thread_state (D := D) (R := R)) (sh : shared (D := D))
  : list Z :=
  let e := rd ev0 (E2 c) (E2_index sa) in
  let r :=
    SimInf_sample_select (irE c) (jcE c) (Nc c) (uu sh) (ev_node e)
      (ev_select e) (ev_n e) (ev_proportion e) (rng sa) in
  (external_transfer_event c e r.1.2 (uu sh) r.1.1).1.

End EventUpdates.

(** ** The allocations

    [malloc], [calloc] and [gsl_rng_alloc] give a buffer or the null
    pointer.  The outcome of the allocations of a run has a field for
    each allocation of [SimInf_run_solver_ssa] and of
    [SimInf_split_events], in the order of the source; [true] is a
    buffer.  [alloc_thread i] is that each of the buffers of thread [i]
    is given (its generator, the structures E1 and, for thread 0, E2,
    [individuals], [u_tmp], [t_rate], [sum_t_rate] and [t_time]), and
    [alloc_E1 i] and [alloc_E2] that each of the eight arrays of a queue
    is given. *)
Record allocations : Type := {
  alloc_uu : bool;
  alloc_vv_1 : bool;
  alloc_vv_2 : bool;
  alloc_update_node : bool;
  alloc_rng : bool;
  alloc_sim_args : bool;
  alloc_thread : Z → bool;
  alloc_E1_i : bool;
  alloc_E1 : Z → bool;
  alloc_E2 : bool
}.

(** Every allocation gives a buffer. *)
Definition all_allocated : allocations :=
  {| alloc_uu := true; alloc_vv_1 := true; alloc_vv_2 := true;
     alloc_update_node := true; alloc_rng := true; alloc_sim_args := true;
     alloc_thread := λ _, true; alloc_E1_i := true;
     alloc_E1 := λ _, true; alloc_E2 := true |}.

Section Allocations.
Context {D R : Type} {FD : Float64 D} {GR : Gsl R D} {EC : SimInf_h}.

(** [SimInf_allocate_events (e, n)], [e] not null: nothing is allocated
    for a queue without events. *)
Definition SimInf_allocate_events (ok : bool) (n : Z) : Z :=
  if decide (n > 0) then
    if ok then 0 else SIMINF_ERR_ALLOC_MEMORY_BUFFER
  else 0.

(** The first loop of [SimInf_split_events] counts the events of the
    queues in [E1_i] and [E2_i].  A count is at most [len], an [int]. *)
Inductive count_result : Type :=
  | Count_trap                  (* integer division by zero *)
  | Count_error (errcode : Z)
  | Count_ok (E1_i : list Z) (E2_i : Z).

Definition count_step (Nn Nthread : Z) (acc : count_result) (e : event D)
  : count_result :=
  match acc with
  | Count_ok E1_i E2_i =>
      if decide (is_E1 e) then
        match E1_thread Nn Nthread (ev_node e) with
        | None => Count_trap
        | Some k => Count_ok (wr E1_i k (E1_i.[k] + 1)) E2_i
        end
      else if decide (ev_event e = EXTERNAL_TRANSFER_EVENT) then
        Count_ok E1_i (E2_i + 1)
      else Count_error SIMINF_UNDEFINED_EVENT
  | _ => acc
  end.

(** The counts of the first loop are the lengths of the queues of the
    second. *)
Definition count_rel (cr : count_result) (sr : split_result (D := D))
  : Prop :=
  match cr, sr with
  | Count_trap, Split_trap => True
  | Count_error e, Split_error e' => e = e'
  | Count_ok E1_i E2_i, Split_ok q E2 =>
      len E1_i = len q ∧ E2_i = len E2 ∧ ∀ k, E1_i.[k] = len (rd [] q k)
  | _, _ => False
  end.

(** The queues that have events are given their arrays. *)
Definition queues_allocated (m : allocations) (Nthread : Z)
    (E1_i : list Z) (E2_i : Z) : Prop :=
  (∀ i, 0 ≤ i < Nthread → E1_i.[i] > 0 → alloc_E1 m i = true) ∧
  (E2_i > 0 → alloc_E2 m = true).

(** The loop over the threads that allocates the queues: the error
    code that leaves it. *)
Definition allocate_queues (m : allocations) (Nthread : Z)
    (E1_i : list Z) (E2_i : Z) : Z :=
  for_range 0 Nthread
    (λ i _,
       let errcode := SimInf_allocate_events (alloc_E1 m i) E1_i.[i] in
       if decide (errcode ≠ 0) then Break errcode else
       if decide (i = 0) then
         let errcode := SimInf_allocate_events (alloc_E2 m) E2_i in
         if decide (errcode ≠ 0) then Break errcode else Next errcode
       else Next errcode)
    0.

(** [SimInf_split_events] with its allocations: [E1_i] is allocated,
    the first loop counts, the queues are allocated, and the second loop
    stores the events as [SimInf_split_events] above has it. *)
Definition SimInf_split_events_alloc (m : allocations)
    (events : list (event D)) (Nn Nthread : Z) : split_result :=
  if decide (Nthread = 0) then Split_trap else
  if alloc_E1_i m then
    match foldl (count_step Nn Nthread)
            (Count_ok (replicate (Z.to_nat Nthread) 0) 0) events with
    | Count_trap => Split_trap
    | Count_error errcode => Split_error errcode
    | Count_ok E1_i E2_i =>
        let errcode := allocate_queues m Nthread E1_i E2_i in
        if decide (errcode ≠ 0) then Split_error errcode
        else SimInf_split_events events Nn Nthread
    end
  else Split_error SIMINF_ERR_ALLOC_MEMORY_BUFFER.

(** The arrays of the caller before [SimInf_run_solver_ssa] writes to
    them; [uu] and [update_node] are not allocated. *)
Definition shared_args (a : SimInf_solver_args (D := D)) : shared :=
  {| uu := []; update_node := [];
     U := default [] (args_U a); V := default [] (args_V a);
     prU := args_prU a; prV := args_prV a |}.

(** The loop over the threads of [SimInf_run_solver_ssa]: [true] when
    every thread has its buffers. *)
Definition allocate_threads (m : allocations) (Nthread : Z) : bool :=
  for_range 0 Nthread
    (λ i _, if alloc_thread m i then Next true else Break false) true.

(** [SimInf_run_solver_ssa] with its allocations.  The initial state is
    copied to U after [uu] is allocated, and to V after [vv_1] and
    [vv_2] are; every allocation that fails ends the run with
    [SIMINF_ERR_ALLOC_MEMORY_BUFFER]. *)
Definition SimInf_run_solver_ssa_alloc (m : allocations) (days fuel : nat)
    (a : SimInf_solver_args (D := D)) (junk : list D)
  : option (Z * shared) :=
  let sh0 := shared_args a in
  let sh := shared_init a in
  if negb (alloc_uu m) then Some (SIMINF_ERR_ALLOC_MEMORY_BUFFER, sh0) else
  let sh1 := {| uu := uu sh; update_node := [];
                U := U sh; V := V sh0; prU := prU sh; prV := prV sh0 |} in
  if negb (alloc_vv_1 m) || negb (alloc_vv_2 m) then
    Some (SIMINF_ERR_ALLOC_MEMORY_BUFFER, sh1) else
  let sh2 := {| uu := uu sh; update_node := [];
                U := U sh; V := V sh; prU := prU sh; prV := prV sh |} in
  if negb (alloc_update_node m) then
    Some (SIMINF_ERR_ALLOC_MEMORY_BUFFER, sh2) else
  if negb (alloc_rng m) then Some (SIMINF_ERR_ALLOC_MEMORY_BUFFER, sh) else
  if negb (alloc_sim_args m) then
    Some (SIMINF_ERR_ALLOC_MEMORY_BUFFER, sh) else
  if negb (allocate_threads m (args_Nthread a)) then
    Some (SIMINF_ERR_ALLOC_MEMORY_BUFFER, sh) else
  let rngs :=
    thread_rngs (Z.to_nat (args_Nthread a)) (gsl_rng_set (args_seed a)) in
  match SimInf_split_events_alloc m (args_events a) (args_Nn a)
          (args_Nthread a) with
  | Split_trap => None
  | Split_error e => Some (e, sh)
  | Split_ok q1 q2 =>
      let ts :=
        (λ i, (thread_args a i (rd [] q1 i) (if decide (i = 0) then q2 else []),
               thread_init a i (rd (gsl_rng_set 0) rngs i) junk))
          <$> seqZ 0 (args_Nthread a) in
      SimInf_solver_ssa days fuel ts sh
  end.

End Allocations.
(** * Properties *)

(** ** Machine integers and arrays *)

Lemma wrap_id z : is_int z → wrap z = z.
Proof.
  unfold is_int, INT_MIN, INT_MAX, wrap. intros Hz.
  rewrite Z.mod_small; lia.
Qed.

Lemma wrap_is_int z : is_int (wrap z).
Proof.
  unfold is_int, INT_MIN, INT_MAX, wrap.
  pose proof (Z.mod_pos_bound (z + 2 ^ 31) (2 ^ 32)). lia.
Qed.

Lemma wrap_add_l a b : wrap (wrap a + b) = wrap (a + b).
Proof.
  unfold wrap.
  replace ((a + 2 ^ 31) mod 2 ^ 32 - 2 ^ 31 + b + 2 ^ 31)
    with ((a + 2 ^ 31) mod 2 ^ 32 + b) by lia.
  rewrite Zplus_mod_idemp_l. f_equal. f_equal. lia.
Qed.

Lemma rd_wr_eq {A} (d : A) a i x :
  0 ≤ i < len a → rd d (wr a i x) i = x.
Proof.
  unfold rd, wr, len. intros Hi. rewrite !decide_True by lia.
  rewrite list_lookup_insert_eq by lia. done.
Qed.

Lemma rd_wr_ne {A} (d : A) a i j x : i ≠ j → rd d (wr a i x) j = rd d a j.
Proof.
  unfold rd, wr. intros Hij.
  destruct (decide (0 ≤ j)); [|done].
  destruct (decide (0 ≤ i)); [|done].
  rewrite list_lookup_insert_ne by lia. done.
Qed.

Lemma wr_out {A} (a : list A) i x : ¬ 0 ≤ i < len a → wr a i x = a.
Proof.
  unfold wr, len. intros Hi. destruct (decide (0 ≤ i)); [|done].
  apply list_insert_ge. lia.
Qed.

Lemma rd_out {A} (d : A) a i : ¬ 0 ≤ i < len a → rd d a i = d.
Proof.
  unfold rd, len. intros Hi. destruct (decide (0 ≤ i)); [|done].
  rewrite lookup_ge_None_2 by lia. done.
Qed.

Lemma len_wr {A} (a : list A) i x : len (wr a i x) = len a.
Proof.
  unfold wr, len. destruct (decide (0 ≤ i)); [|done].
  by rewrite length_insert.
Qed.

Lemma rd_wr {A} (d : A) a i j x :
  rd d (wr a i x) j =
  if decide (i = j ∧ 0 ≤ i < len a) then x else rd d a j.
Proof.
  destruct (decide (i = j ∧ 0 ≤ i < len a)) as [[-> Hi]|Hn].
  - by apply rd_wr_eq.
  - destruct (decide (i = j)) as [->|Hij].
    + rewrite wr_out by tauto. done.
    + by apply rd_wr_ne.
Qed.

Lemma len_replicate {A} n (x : A) : 0 ≤ n → len (replicate (Z.to_nat n) x) = n.
Proof. intros Hn. unfold len. rewrite length_replicate. lia. Qed.

Lemma rd_replicate {A} (d : A) n i : rd d (replicate n d) i = d.
Proof.
  unfold rd. destruct (decide (0 ≤ i)); [|done].
  destruct (replicate n d !! Z.to_nat i) eqn:E; [|done].
  apply lookup_replicate in E as [-> _]. done.
Qed.

(** ** Loops *)

(** The rule of the invariant [P] for a loop, with the property [Q] of
    the state that leaves it. *)
Lemma for_loop_inv {St} (P : Z → St → Prop) (Q : St → Prop) body cnt lo s :
  P lo s →
  (∀ i s, lo ≤ i < lo + Z.of_nat cnt → P i s →
     match body i s with
     | Next s' => P (i + 1) s'
     | Break s' => Q s'
     end) →
  (∀ s, P (lo + Z.of_nat cnt) s → Q s) →
  Q (for_loop cnt lo body s).
Proof.
  revert lo s. induction cnt as [|k IH]; intros lo s H0 Hstep Hend; simpl.
  - apply Hend. by replace (lo + Z.of_nat 0) with lo by lia.
  - pose proof (Hstep lo s ltac:(lia) H0) as Hb.
    destruct (body lo s) as [s'|s']; [|done].
    apply IH; [done| |].
    + intros i s0 Hi. apply Hstep. lia.
    + intros s0. replace (lo + 1 + Z.of_nat k) with (lo + Z.of_nat (S k)) by lia. apply Hend.
Qed.

Lemma for_range_inv {St} (P : Z → St → Prop) (Q : St → Prop) body lo hi s :
  P lo s →
  (∀ i s, lo ≤ i < hi → P i s →
     match body i s with
     | Next s' => P (i + 1) s'
     | Break s' => Q s'
     end) →
  (∀ s, P (Z.max lo hi) s → Q s) →
  Q (for_range lo hi body s).
Proof.
  intros H0 Hstep Hend. unfold for_range.
  apply (for_loop_inv P Q); [done| |].
  - intros i s0 Hi. apply Hstep. lia.
  - intros s0. replace (lo + Z.of_nat (Z.to_nat (hi - lo))) with (Z.max lo hi) by lia.
    apply Hend.
Qed.

Lemma rd_slice {A} (d : A) src off n k :
  0 ≤ k < n → rd d (slice d src off n) k = rd d src (off + k).
Proof.
  intros Hk. unfold slice. unfold rd at 1. rewrite decide_True by lia.
  rewrite list_lookup_fmap, lookup_seqZ_lt by lia. simpl.
  by rewrite Z2Nat.id, Z.add_0_l by lia.
Qed.

Lemma len_slice {A} (d : A) src off n : len (slice d src off n) = Z.max 0 n.
Proof. unfold slice, len. rewrite length_fmap, length_seqZ. lia. Qed.
Lemma for_loop_foldl {St} (f : St → Z → St) body cnt lo s :
  (∀ i s, body i s = Next (f s i)) →
  for_loop cnt lo body s = foldl f s (seqZ lo (Z.of_nat cnt)).
Proof.
  intros Hb. revert lo s. induction cnt as [|k IH]; intros lo s.
  - done.
  - rewrite seqZ_cons by lia. simpl for_loop. rewrite Hb. simpl foldl.
    rewrite IH. do 2 f_equal. lia.
Qed.

Lemma for_range_foldl {St} (f : St → Z → St) body lo hi s :
  (∀ i s, body i s = Next (f s i)) →
  for_range lo hi body s = foldl f s (seqZ lo (hi - lo)).
Proof.
  intros Hb. unfold for_range. rewrite (for_loop_foldl f) by done.
  destruct (decide (0 ≤ hi - lo)).
  - by rewrite Z2Nat.id.
  - replace (Z.to_nat (hi - lo)) with 0%nat by lia.
    by rewrite !seqZ_nil by lia.
Qed.

Lemma len_cons {A} (x : A) l : len (x :: l) = 1 + len l.
Proof. unfold len. simpl length. lia. Qed.

Lemma zsum_cons x l : zsum (x :: l) = x + zsum l.
Proof. done. Qed.

Lemma zsum_app l1 l2 : zsum (l1 ++ l2) = zsum l1 + zsum l2.
Proof. induction l1 as [|x l1 IH]; simpl; lia. Qed.

Lemma zsum_nonneg l : Forall (λ x, 0 ≤ x) l → 0 ≤ zsum l.
Proof. induction 1; simpl; lia. Qed.

Lemma zsum_fmap_nonneg {A} (f : A → Z) l :
  (∀ x, x ∈ l → 0 ≤ f x) → 0 ≤ zsum (f <$> l).
Proof.
  induction l as [|x l IH]; intros H; [done|].
  rewrite fmap_cons, zsum_cons.
  pose proof (H x ltac:(left)).
  pose proof (IH ltac:(intros y Hy; apply H; by right)). lia.
Qed.

Lemma zsum_ext {A} (f g : A → Z) l :
  (∀ x, x ∈ l → f x = g x) → zsum (f <$> l) = zsum (g <$> l).
Proof.
  induction l as [|x l IH]; intros H; [done|].
  rewrite !fmap_cons, !zsum_cons.
  rewrite H by left. rewrite IH; [done|]. intros y Hy. apply H. by right.
Qed.

Lemma zsum_zero {A} (l : list A) : zsum ((λ _, 0) <$> l) = 0.
Proof. induction l as [|x l IH]; [done|]. rewrite fmap_cons, zsum_cons. lia. Qed.

Lemma zsum_point (c n : Z) l :
  NoDup l → c ∈ l → zsum ((λ x, if decide (x = c) then n else 0) <$> l) = n.
Proof.
  induction 1 as [|x l Hx Hl IH]; intros Hc; [by apply elem_of_nil in Hc|].
  rewrite fmap_cons, zsum_cons. destruct (decide (x = c)) as [->|Hne].
  - rewrite (zsum_ext _ (λ _, 0)).
    + rewrite zsum_zero. lia.
    + intros y Hy. rewrite decide_False; [done|]. intros ->. done.
  - apply elem_of_cons in Hc as [->|Hc]; [done|]. rewrite IH; done.
Qed.

Lemma zsum_upd (f : Z → Z) (c d : Z) l :
  NoDup l → c ∈ l →
  zsum ((λ x, if decide (x = c) then f x + d else f x) <$> l) =
  zsum (f <$> l) + d.
Proof.
  induction 1 as [|x l Hx Hl IH]; intros Hc; [by apply elem_of_nil in Hc|].
  rewrite !fmap_cons, !zsum_cons. destruct (decide (x = c)) as [->|Hne].
  - rewrite (zsum_ext _ f); [lia|].
    intros y Hy. rewrite decide_False; [done|]. intros ->. done.
  - apply elem_of_cons in Hc as [->|Hc]; [done|]. rewrite IH by done. lia.
Qed.

Section SelectColumn.
Context {D R : Type} {FD : Float64 D} {GR : Gsl R D} {EC : SimInf_h}.
Variables (irE jcE : list Z) (Nc : Z) (u : list Z) (node select : Z).

#[local] Abbreviation lo := (jcE.[select]).
#[local] Abbreviation hi := (jcE.[select + 1]).
#[local] Abbreviation sel := (selected irE jcE select).
#[local] Abbreviation X := (individuals_in Nc u node sel).

Lemma len_selected : len sel = Z.max 0 (hi - lo).
Proof.
  unfold selected, len. rewrite length_fmap, length_seqZ. lia.
Qed.

Lemma elem_of_selected c :
  c ∈ sel ↔ ∃ i, lo ≤ i < hi ∧ c = irE.[i].
Proof.
  unfold selected. rewrite list_elem_of_fmap.
  split.
  - intros (i & -> & Hi). apply elem_of_seqZ in Hi. exists i. lia.
  - intros (i & Hi & ->). exists i. split; [done|].
    apply elem_of_seqZ. lia.
Qed.

(** The first loop counts exactly, up to the width of [int]. *)
Lemma count_select_eq :
  count_select irE jcE Nc u node select =
  (wrap (len (filter (λ c, 0 < u.[node * Nc + c]) sel)), wrap X).
Proof.
  unfold count_select.
  rewrite (for_range_foldl
    (λ '(Nkinds, Nindividuals) i,
       (if decide (0 < u.[node * Nc + irE.[i]]) then iadd Nkinds 1
        else Nkinds,
        iadd Nindividuals u.[node * Nc + irE.[i]])));
    [|by intros i [a b]].
  unfold individuals_in, selected.
  generalize (seqZ lo (hi - lo)). intros l.
  change (0, 0) with (wrap 0, wrap 0).
  assert (∀ a b,
    foldl (λ '(Nkinds, Nindividuals) i,
       (if decide (0 < u.[node * Nc + irE.[i]]) then iadd Nkinds 1
        else Nkinds,
        iadd Nindividuals u.[node * Nc + irE.[i]])) (wrap a, wrap b) l =
    (wrap (a + len (filter (λ c, 0 < u.[node * Nc + c])
                      ((λ i, irE.[i]) <$> l))),
     wrap (b + zsum ((λ c, u.[node * Nc + c]) <$>
                       ((λ i, irE.[i]) <$> l))))) as H.
  { induction l as [|i l IH]; intros a b.
    - unfold len. simpl. by rewrite !Z.add_0_r.
    - rewrite !fmap_cons, zsum_cons, filter_cons. simpl foldl.
      unfold iadd. rewrite !wrap_add_l.
      destruct (decide (0 < u.[node * Nc + irE.[i]])).
      + rewrite IH, len_cons. f_equal; f_equal; lia.
      + rewrite IH. f_equal; f_equal; lia. }
  rewrite (H 0 0). done.
Qed.

End SelectColumn.

(** ** The sampler *)

Section SamplerCode.
Context {D R : Type} {FD : Float64 D} {GR : Gsl R D} {EC : SimInf_h}.
Variables (irE jcE : list Z) (Nc : Z) (u : list Z) (node select : Z).

(** The return code is decided by the test that follows the
    substitution of [n]. *)
Lemma sample_select_code n proportion rng :
  (SimInf_sample_select irE jcE Nc u node select n proportion rng).1.1 =
  let Nindividuals := (count_select irE jcE Nc u node select).2 in
  let n := n_actual n proportion Nindividuals in
  if decide (jcE.[select + 1] - jcE.[select] ≤ 0 ∨ n > Nindividuals ∨ n < 0)
  then SIMINF_ERR_SAMPLE_SELECT else 0.
Proof.
  unfold SimInf_sample_select.
  destruct (count_select irE jcE Nc u node select) as [Nkinds Nind].
  cbn beta iota zeta. simpl snd.
  repeat case_decide; try done.
  - by destruct (gsl_ran_hypergeometric _ _ _ _).
  - by destruct (urn_draws _ _ _ _ _ _ _ _ _).
Qed.

(** C7. [SimInf_sample_select] returns [SIMINF_ERR_SAMPLE_SELECT]
    exactly when, [n] being replaced by [round (proportion * X)] if it
    is 0, the select column lists no compartment, or [n] is above the
    number [X] of individuals in the selected compartments, or [n] is
    negative; it returns 0 in every other case.  [X] is taken to fit
    an [int], and the error constant to differ from 0. *)
Theorem sample_select_error_iff n proportion rng :
  SIMINF_ERR_SAMPLE_SELECT ≠ 0 →
  is_int (individuals_in Nc u node (selected irE jcE select)) →
  let K := len (selected irE jcE select) in
  let X := individuals_in Nc u node (selected irE jcE select) in
  let n' := n_actual n proportion X in
  let ret :=
    (SimInf_sample_select irE jcE Nc u node select n proportion rng).1.1 in
  (ret = SIMINF_ERR_SAMPLE_SELECT ↔ K ≤ 0 ∨ n' > X ∨ n' < 0) ∧
  (¬ (K ≤ 0 ∨ n' > X ∨ n' < 0) → ret = 0).
Proof.
  intros Hne HX K X n' ret. unfold ret.
  rewrite sample_select_code, count_select_eq. simpl snd.
  rewrite (wrap_id _ HX). fold X n'.
  unfold K. rewrite len_selected.
  case_decide as Hc.
  - split; [|intros Hn; exfalso; apply Hn; lia].
    split; [intros _; lia|done].
  - split; [|done].
    split; [intros E; by symmetry in E|intros H; exfalso; apply Hc; lia].
Qed.

End SamplerCode.

(** ** The vector of sampled individuals *)

Section SamplerSpec.
Context {D R : Type} {FD : Float64 D} {GR : Gsl R D} {EC : SimInf_h}.
Variables (irE jcE : list Z) (Nc : Z) (u : list Z) (node select : Z).

#[local] Abbreviation lo := (jcE.[select]).
#[local] Abbreviation hi := (jcE.[select + 1]).
#[local] Abbreviation sel := (selected irE jcE select).
#[local] Abbreviation X := (individuals_in Nc u node sel).
#[local] Abbreviation ind0 := (replicate (Z.to_nat Nc) 0).

(** The select column is a column of a sparse matrix with [Nc] rows. *)
Hypothesis Hrows : ∀ c, c ∈ sel → 0 ≤ c < Nc.
Hypothesis Hnodup : NoDup sel.
(** The state is not negative, and the counts fit an [int]. *)
Hypothesis Hu : ∀ c, c ∈ sel → 0 ≤ u.[node * Nc + c].
Hypothesis HX : X ≤ INT_MAX.
Hypothesis HNc : Nc ≤ INT_MAX.

Lemma X_nonneg : 0 ≤ X.
Proof.
  apply zsum_fmap_nonneg. intros c Hc. by apply Hu.
Qed.

Lemma u_le_X c : c ∈ sel → u.[node * Nc + c] ≤ X.
Proof.
  unfold individuals_in. revert Hu. generalize sel. intros l Hl Hc.
  induction l as [|x l IH]; [by apply elem_of_nil in Hc|].
  rewrite fmap_cons, zsum_cons.
  assert (0 ≤ zsum ((λ c, u.[node * Nc + c]) <$> l)).
  { apply zsum_fmap_nonneg. intros y Hy. apply Hl. by right. }
  apply elem_of_cons in Hc as [->|Hc].
  - lia.
  - pose proof (Hl x ltac:(left)).
    pose proof (IH ltac:(intros y Hy; apply Hl; by right) Hc). lia.
Qed.

Lemma seqZ_lookup_sel i : lo ≤ i < hi → irE.[i] ∈ sel.
Proof. intros Hi. apply elem_of_selected. by exists i. Qed.

(** The loop that includes all individuals. *)
Lemma include_all_spec :
  sample_post irE jcE Nc u node select
    (for_range lo hi
       (λ i ind, Next (wr ind irE.[i] u.[node * Nc + irE.[i]])) ind0)
    X.
Proof.
  apply (for_range_inv
    (λ i ind, len ind = Z.max 0 Nc ∧
       (∀ c, (∃ j, lo ≤ j < i ∧ c = irE.[j]) → ind.[c] = u.[node * Nc + c]) ∧
       (∀ c, ¬ (∃ j, lo ≤ j < i ∧ c = irE.[j]) → ind.[c] = 0))).
  - split; [unfold len; rewrite length_replicate; lia|].
    split; [intros c (j & Hj & _); lia|].
    intros c _. apply rd_replicate.
  - intros i ind Hi (Hlen & Hin & Hout).
    pose proof (Hrows _ (seqZ_lookup_sel i Hi)) as Hr.
    split; [by rewrite len_wr|]. split.
    + intros c (j & Hj & ->). rewrite rd_wr. case_decide as Hd.
      * destruct Hd as [-> _]. done.
      * apply Hin. exists j. split; [|done].
        destruct (decide (j = i)) as [->|]; [|lia].
        exfalso. apply Hd. split; [done|lia].
    + intros c Hc. rewrite rd_wr_ne.
      * apply Hout. intros (j & Hj & ->). apply Hc. exists j. split; [lia|done].
      * intros <-. apply Hc. exists i. split; [lia|done].
  - intros ind (Hlen & Hin & Hout).
    assert (∀ c, c ∈ sel → ind.[c] = u.[node * Nc + c]) as Hin'.
    { intros c Hc. apply Hin. apply elem_of_selected in Hc as (j & Hj & ->).
      exists j. split; [lia|done]. }
    split; [|split].
    + intros c Hc. apply Hout. intros (j & Hj & ->). apply Hc.
      apply elem_of_selected. exists j. split; [lia|done].
    + intros c Hc. rewrite Hin' by done. pose proof (Hu c Hc). lia.
    + unfold individuals_in. by apply zsum_ext.
Qed.

(** One compartment takes all [n] individuals. *)
Lemma point_spec c n :
  c ∈ sel → 0 ≤ n ≤ u.[node * Nc + c] →
  sample_post irE jcE Nc u node select (wr ind0 c n) n.
Proof.
  intros Hc Hn. pose proof (Hrows c Hc) as Hr.
  assert (∀ x, (wr ind0 c n).[x] = if decide (x = c) then n else 0) as Hrd.
  { intros x. rewrite rd_wr, rd_replicate.
    destruct (decide (x = c)) as [->|Hne].
    - rewrite decide_True; [done|]. split; [done|].
      rewrite len_replicate; lia.
    - rewrite decide_False; [done|]. intros [-> _]. done. }
  split; [|split].
  - intros x Hx. rewrite Hrd, decide_False; [done|]. by intros ->.
  - intros x Hx. rewrite Hrd. case_decide as Hd.
    + by subst x.
    + pose proof (Hu x Hx). lia.
  - rewrite (zsum_ext _ (λ x, if decide (x = c) then n else 0))
      by (intros x _; apply Hrd).
    by apply zsum_point.
Qed.

Lemma zsum_filter_pos {A} (f : A → Z) l :
  (∀ x, x ∈ l → 0 ≤ f x) →
  zsum (f <$> l) = zsum (f <$> filter (λ x, 0 < f x) l).
Proof.
  induction l as [|x l IH]; intros H; [done|].
  rewrite filter_cons, fmap_cons, zsum_cons.
  pose proof (H x ltac:(left)).
  rewrite IH by (intros y Hy; apply H; by right).
  case_decide; [by rewrite fmap_cons, zsum_cons|lia].
Qed.

(** The loop for the case of a single state with individuals. *)
Lemma single_kind_spec n :
  len (filter (λ c, 0 < u.[node * Nc + c]) sel) = 1 →
  0 ≤ n ≤ X →
  sample_post irE jcE Nc u node select
    (for_range lo hi
       (λ i ind, if decide (0 < u.[node * Nc + irE.[i]])
                 then Break (wr ind irE.[i] n) else Next ind) ind0)
    n.
Proof.
  intros Hk Hn.
  destruct (filter (λ c, 0 < u.[node * Nc + c]) sel) as [|c' [|? ?]] eqn:E;
    try (unfold len in Hk; simpl in Hk; lia).
  assert (X = u.[node * Nc + c']) as HX'.
  { unfold individuals_in. rewrite (zsum_filter_pos _ sel) by apply Hu.
    rewrite E. rewrite fmap_cons, zsum_cons. simpl. lia. }
  assert (∀ c, c ∈ sel → 0 < u.[node * Nc + c] → c = c') as Huniq.
  { intros c Hc Hpos.
    assert (c ∈ filter (λ c, 0 < u.[node * Nc + c]) sel) as Hin
      by (apply list_elem_of_filter; done).
    rewrite E in Hin. by apply list_elem_of_singleton in Hin. }
  assert (0 < u.[node * Nc + c'] ∧ c' ∈ sel) as [Hpos' Hc'].
  { apply (list_elem_of_filter (λ c, 0 < u.[node * Nc + c])).
    rewrite E. by left. }
  apply (for_range_inv
    (λ i ind, ind = ind0 ∧ ∀ j, lo ≤ j < i → ¬ 0 < u.[node * Nc + irE.[j]])).
  - split; [done|]. intros j Hj. lia.
  - intros i ind Hi [-> Hprev]. case_decide as Hd.
    + rewrite (Huniq irE.[i]) by (by try apply seqZ_lookup_sel).
      apply point_spec; [done|lia].
    + split; [done|]. intros j Hj.
      destruct (decide (j = i)) as [->|]; [done|]. apply Hprev. lia.
  - intros ind [-> Hprev]. exfalso.
    apply elem_of_selected in Hc' as (j & Hj & ->).
    apply (Hprev j); [lia|done].
Qed.

(** The bounds of the hypergeometric sampler of GSL: of [t] individuals
    drawn from [n1] and [n2], those from the [n1]. *)
Hypothesis Hhyper : ∀ r n1 n2 t,
  0 ≤ n1 → 0 ≤ n2 → 0 ≤ t ≤ n1 + n2 →
  Z.max 0 (t - n2) ≤ (gsl_ran_hypergeometric r n1 n2 t).1 ≤ Z.min n1 t.

Lemma hypergeometric_spec n rng :
  hi - lo = 2 → 0 ≤ n ≤ X →
  let h := (gsl_ran_hypergeometric rng u.[node * Nc + irE.[lo]]
              u.[node * Nc + irE.[lo + 1]] n).1 in
  sample_post irE jcE Nc u node select
    (wr (wr ind0 irE.[lo] (wrap h)) irE.[lo + 1]
       (isub n (wr ind0 irE.[lo] (wrap h)).[irE.[lo]]))
    n.
Proof.
  intros H2 Hn h.
  assert (sel = [irE.[lo]; irE.[lo + 1]]) as Hsel.
  { unfold selected. rewrite H2.
    rewrite seqZ_cons by lia. rewrite seqZ_cons by lia.
    rewrite seqZ_nil by lia. done. }
  pose proof Hnodup as Hnd. rewrite Hsel in Hnd.
  apply NoDup_cons_1_1 in Hnd as Hne.
  rewrite list_elem_of_singleton in Hne.
  pose proof (Hrows irE.[lo]) as Hr0. pose proof (Hrows irE.[lo + 1]) as Hr1.
  pose proof (Hu irE.[lo]) as Hu0. pose proof (Hu irE.[lo + 1]) as Hu1.
  rewrite Hsel in Hr0, Hr1, Hu0, Hu1.
  specialize (Hr0 ltac:(left)). specialize (Hr1 ltac:(right; left)).
  specialize (Hu0 ltac:(left)). specialize (Hu1 ltac:(right; left)).
  assert (X = u.[node * Nc + irE.[lo]] + u.[node * Nc + irE.[lo + 1]]) as HXe.
  { unfold individuals_in. rewrite Hsel. simpl. lia. }
  pose proof (Hhyper rng _ _ n Hu0 Hu1 ltac:(lia)) as Hh. fold h in Hh.
  rewrite (wrap_id h) by (unfold is_int, INT_MIN, INT_MAX in *; lia).
  rewrite rd_wr_eq by (rewrite len_replicate; lia).
  unfold isub. rewrite wrap_id by (unfold is_int, INT_MIN, INT_MAX in *; lia).
  assert (∀ x, (wr (wr ind0 irE.[lo] h) irE.[lo + 1] (n - h)).[x] =
               if decide (x = irE.[lo + 1]) then n - h
               else if decide (x = irE.[lo]) then h else 0) as Hrd.
  { intros x. rewrite !rd_wr, rd_replicate, !len_wr.
    rewrite len_replicate by lia.
    repeat case_decide; try done; exfalso; intuition lia. }
  split; [|split].
  - intros x Hx. rewrite Hrd. rewrite Hsel in Hx.
    rewrite !decide_False; [done| |]; intros ->; apply Hx;
      [left|right; left].
  - intros x Hx. rewrite Hrd. rewrite Hsel in Hx.
    apply elem_of_cons in Hx as [->|Hx].
    + rewrite decide_False by done. rewrite decide_True by done. lia.
    + apply list_elem_of_singleton in Hx as ->.
      rewrite decide_True by done. lia.
  - rewrite Hsel. simpl. rewrite !Hrd.
    rewrite (decide_False (P := irE.[lo] = irE.[lo + 1])) by done.
    rewrite !decide_True by done. lia.
Qed.

(** The sums of the scan are sums of integers below [2^31], which
    [double] holds exactly. *)
Hypothesis Hadd : ∀ a b,
  0 ≤ a → 0 ≤ b → a + b ≤ INT_MAX → Dadd (of_int a) (of_int b) = of_int (a + b).
(** A draw [rand = gsl_rng_uniform_pos (rng) * m] is above 0 and not
    above [m]. *)
Hypothesis Hdraw : ∀ r m,
  0 < m ≤ INT_MAX →
  Dlt (of_int 0) (Dmul (gsl_rng_uniform_pos r).1 (of_int m)) = true ∧
  Dlt (of_int m) (Dmul (gsl_rng_uniform_pos r).1 (of_int m)) = false.

(** The number of individuals of [t] in the first [k] selected
    compartments. *)
#[local] Abbreviation ps t k := (zsum ((λ j, t.[irE.[j]]) <$> seqZ lo k)).

Lemma ps_succ (t : list Z) k : 0 ≤ k → ps t (k + 1) = ps t k + t.[irE.[lo + k]].
Proof.
  intros Hk. rewrite seqZ_app by lia. rewrite fmap_app, zsum_app.
  rewrite (seqZ_cons (lo + k)) by lia. rewrite (seqZ_nil _ (Z.pred 1)) by lia.
  rewrite fmap_cons, zsum_cons. simpl. lia.
Qed.

Lemma ps_sel (t : list Z) : ps t (hi - lo) = zsum ((λ c, t.[c]) <$> sel).
Proof. unfold selected. by rewrite <- list_fmap_compose. Qed.

Lemma ps_bounds (t : list Z) k :
  (∀ c, c ∈ sel → 0 ≤ t.[c]) → 0 ≤ k ≤ hi - lo →
  0 ≤ ps t k ≤ ps t (hi - lo).
Proof.
  intros Ht Hk.
  assert (seqZ lo (hi - lo) = seqZ lo k ++ seqZ (lo + k) (hi - lo - k)) as ->.
  { rewrite <- seqZ_app by lia. f_equal. lia. }
  rewrite fmap_app, zsum_app.
  split.
  - apply zsum_fmap_nonneg. intros j Hj. apply elem_of_seqZ in Hj.
    apply Ht, seqZ_lookup_sel. lia.
  - assert (0 ≤ zsum ((λ j, t.[irE.[j]]) <$> seqZ (lo + k) (hi - lo - k)));
      [|lia].
    apply zsum_fmap_nonneg. intros j Hj. apply elem_of_seqZ in Hj.
    apply Ht, seqZ_lookup_sel. lia.
Qed.

(** The scan of a draw stops in the column, at a compartment that is
    not empty. *)
Lemma urn_scan_spec (t : list Z) rand :
  (∀ c, c ∈ sel → 0 ≤ t.[c]) →
  ps t (hi - lo) ≤ INT_MAX →
  Dlt (of_int 0) rand = true →
  Dlt (of_int (ps t (hi - lo))) rand = false →
  ∀ cnt i,
    lo ≤ i < hi → Z.of_nat cnt = hi - i →
    (i = lo ∨ Dlt (of_int (ps t (i - lo))) rand = true) →
    let r := urn_scan cnt irE t hi rand i (of_int (ps t (i - lo + 1))) in
    lo ≤ r < hi ∧ 0 < t.[irE.[r]].
Proof.
  intros Ht HT Hpos Htop. induction cnt as [|k IH]; intros i Hi Hcnt Hprev.
  - lia.
  - simpl. rewrite bool_decide_eq_true_2 by lia. simpl.
    pose proof (Ht _ (seqZ_lookup_sel i Hi)) as Hti.
    destruct (Dlt (of_int (ps t (i - lo + 1))) rand) eqn:Hlt.
    + assert (i + 1 < hi) as Hi1.
      { destruct (decide (i + 1 < hi)); [done|].
        replace (i - lo + 1) with (hi - lo) in Hlt by lia. congruence. }
      pose proof (Ht _ (seqZ_lookup_sel (i + 1) ltac:(lia))) as Hti1.
      pose proof (ps_bounds t (i - lo + 1) Ht ltac:(lia)) as Hb1.
      pose proof (ps_bounds t (i + 1 - lo + 1) Ht ltac:(lia)) as Hb2.
      pose proof (ps_succ t (i - lo + 1) ltac:(lia)) as Hs.
      replace (lo + (i - lo + 1)) with (i + 1) in Hs by lia.
      replace (i - lo + 1 + 1) with (i + 1 - lo + 1) in Hs by lia.
      rewrite Hadd by lia. rewrite <- Hs.
      apply IH; [lia|lia|].
      right. by replace (i + 1 - lo) with (i - lo + 1) by lia.
    + split; [lia|].
      destruct (decide (0 < t.[irE.[i]])) as [|Hz]; [done|exfalso].
      assert (t.[irE.[i]] = 0) as Hz0 by lia.
      pose proof (ps_succ t (i - lo) ltac:(lia)) as Hs.
      replace (lo + (i - lo)) with i in Hs by lia.
      rewrite Hz0, Z.add_0_r in Hs.
      destruct Hprev as [->|Hprev].
      * rewrite Hs in Hlt. replace (lo - lo) with 0 in Hlt by lia.
        simpl in Hlt. congruence.
      * rewrite Hs in Hlt. congruence.
Qed.

(** The urn: [t] is what is left in the compartments, [ind] what was
    taken, [m] the number left and [n] the number still to take. *)
Lemma urn_draws_spec cnt : ∀ (t ind : list Z) m n rng,
  Z.of_nat cnt = n →
  len ind = Nc → len t = Nc →
  (∀ c, c ∈ sel → 0 ≤ t.[c]) →
  zsum ((λ c, t.[c]) <$> sel) = m →
  n ≤ m → m ≤ INT_MAX →
  (∀ c, c ∈ sel → 0 ≤ ind.[c] ∧ ind.[c] + t.[c] = u.[node * Nc + c]) →
  (∀ c, c ∉ sel → ind.[c] = 0) →
  sample_post irE jcE Nc u node select
    (urn_draws cnt irE jcE select t ind m n rng).1
    (zsum ((λ c, ind.[c]) <$> sel) + n).
Proof.
  induction cnt as [|k IH];
    intros t ind m n rng Hcnt Hli Hlt Ht Hm Hnm HmI Hind Hout.
  - simpl. split; [done|]. split; [|lia].
    intros c Hc. pose proof (Hind c Hc). pose proof (Ht c Hc). lia.
  - simpl. rewrite decide_True by lia.
    pose proof (Hdraw rng m ltac:(lia)) as [Hd0 Hd1].
    destruct (gsl_rng_uniform_pos rng) as [x rng']. simpl in Hd0, Hd1.
    assert (lo < hi) as Hlohi.
    { destruct (decide (lo < hi)); [done|exfalso].
      unfold selected in Hm. rewrite seqZ_nil in Hm by lia.
      simpl in Hm. lia. }
    rewrite <- ps_sel in Hm.
    pose proof (urn_scan_spec t (Dmul x (of_int m)) Ht ltac:(lia) Hd0
      ltac:(by rewrite Hm) (Z.to_nat (hi - lo)) lo ltac:(lia) ltac:(lia)
      ltac:(by left)) as Hscan.
    replace (lo - lo + 1) with 1 in Hscan by lia.
    replace (ps t 1) with (t.[irE.[lo]]) in Hscan.
    2:{ rewrite (seqZ_cons lo) by lia. rewrite seqZ_nil by lia.
        rewrite fmap_cons, zsum_cons. simpl. lia. }
    cbv zeta in Hscan.
    set (i := urn_scan _ _ _ _ _ _ _) in *.
    destruct Hscan as [Hi Hpos].
    pose proof (seqZ_lookup_sel i Hi) as Hc.
    set (c := irE.[i]) in *.
    pose proof (Hrows c Hc) as Hr. pose proof (Hind c Hc) as [Hic Hsum].
    pose proof (u_le_X c Hc) as HuX.
    unfold isub, iadd.
    rewrite !wrap_id by (unfold is_int, INT_MIN, INT_MAX in *; lia).
    rewrite ps_sel in Hm.
    assert (∀ y, (wr t c (t.[c] - 1)).[y] =
                 if decide (y = c) then t.[y] + -1 else t.[y]) as Hrt.
    { intros y. rewrite rd_wr. destruct (decide (y = c)) as [->|Hne].
      - rewrite decide_True; [lia|]. split; [done|lia].
      - rewrite decide_False; [done|]. by intros [-> _]. }
    assert (∀ y, (wr ind c (ind.[c] + 1)).[y] =
                 if decide (y = c) then ind.[y] + 1 else ind.[y]) as Hri.
    { intros y. rewrite rd_wr. destruct (decide (y = c)) as [->|Hne].
      - rewrite decide_True; [lia|]. split; [done|lia].
      - rewrite decide_False; [done|]. by intros [-> _]. }
    assert (zsum ((λ y, (wr ind c (ind.[c] + 1)).[y]) <$> sel) =
            zsum ((λ y, ind.[y]) <$> sel) + 1) as Hsi.
    { rewrite (zsum_ext _ (λ y, if decide (y = c) then ind.[y] + 1 else ind.[y]))
        by (intros y _; apply Hri).
      by apply (zsum_upd (λ y, ind.[y])). }
    replace (zsum ((λ y, ind.[y]) <$> sel) + n)
      with (zsum ((λ y, (wr ind c (ind.[c] + 1)).[y]) <$> sel) + (n - 1))
      by lia.
    apply IH.
    + lia.
    + by rewrite len_wr.
    + by rewrite len_wr.
    + intros y Hy. rewrite Hrt. pose proof (Ht y Hy).
      case_decide; [subst y|]; lia.
    + rewrite (zsum_ext _ (λ y, if decide (y = c) then t.[y] + -1 else t.[y]))
        by (intros y _; apply Hrt).
      rewrite (zsum_upd (λ y, t.[y])) by done. lia.
    + lia.
    + lia.
    + intros y Hy. rewrite Hrt, Hri. pose proof (Hind y Hy).
      case_decide; [subst y|]; lia.
    + intros y Hy. rewrite Hri. rewrite decide_False by (by intros ->).
      by apply Hout.
Qed.

Hypothesis Herrc : SIMINF_ERR_SAMPLE_SELECT ≠ 0.

Lemma len_selected_le_Nc : len sel ≤ Z.max 0 Nc.
Proof.
  assert (sel ⊆+ seqZ 0 Nc) as Hsub.
  { apply NoDup_submseteq; [done|]. intros c Hc.
    apply elem_of_seqZ. pose proof (Hrows c Hc). lia. }
  apply submseteq_length in Hsub. rewrite length_seqZ in Hsub.
  unfold len. lia.
Qed.

(** The vector of a call that returns 0. *)
Lemma sample_select_spec n proportion rng :
  let r := SimInf_sample_select irE jcE Nc u node select n proportion rng in
  r.1.1 = 0 →
  sample_post irE jcE Nc u node select r.1.2 (n_actual n proportion X).
Proof.
  pose proof X_nonneg as HX0.
  unfold SimInf_sample_select. rewrite count_select_eq.
  rewrite (wrap_id X) by (unfold is_int, INT_MIN, INT_MAX in *; lia).
  cbv zeta. set (m := n_actual n proportion X).
  case_decide as Herr; [done|].
  assert (lo < hi ∧ 0 ≤ m ≤ X) as [Hlohi Hm] by lia.
  pose proof (seqZ_lookup_sel lo ltac:(lia)) as Hc0.
  pose proof (Hrows _ Hc0) as Hr0.
  case_decide as Hm0.
  { intros _. simpl. rewrite Hm0.
    split; [intros c _; apply rd_replicate|]. split.
    - intros c Hc. rewrite rd_replicate. pose proof (Hu c Hc). lia.
    - rewrite (zsum_ext _ (λ _, 0)) by (intros c _; apply rd_replicate).
      apply zsum_zero. }
  case_decide as HmX.
  { intros _. simpl. rewrite <- HmX. apply include_all_spec. }
  case_decide as H1.
  { intros _. simpl. apply point_spec; [done|].
    assert (sel = [irE.[lo]]) as Hsel.
    { unfold selected. rewrite H1. rewrite seqZ_cons by lia.
      rewrite seqZ_nil by lia. done. }
    unfold individuals_in in Hm. rewrite Hsel in Hm. simpl in Hm. lia. }
  case_decide as Hk.
  { intros _. simpl. apply single_kind_spec; [|done].
    pose proof len_selected_le_Nc as Hl.
    assert (0 ≤ len (filter (λ c, 0 < u.[node * Nc + c]) sel) ≤ len sel) as Hf.
    { unfold len. pose proof (length_filter (λ c, 0 < u.[node * Nc + c]) sel).
      lia. }
    rewrite wrap_id in Hk; [done|].
    unfold is_int, INT_MIN, INT_MAX in *. lia. }
  case_decide as H2.
  { pose proof (hypergeometric_spec m rng H2 Hm) as Hh. cbv zeta in Hh.
    destruct (gsl_ran_hypergeometric rng _ _ m) as [h rng']. intros _.
    exact Hh. }
  pose proof (urn_draws_spec (Z.to_nat m) (slice 0 u (node * Nc) Nc) ind0
    X m rng) as Hurn.
  destruct (urn_draws _ _ _ _ _ _ _ _ _) as [ind rng']. intros _.
  simpl in Hurn |- *.
  rewrite (zsum_ext (λ c, ind0.[c]) (λ _, 0)) in Hurn
    by (intros c _; apply rd_replicate).
  rewrite zsum_zero, Z.add_0_l in Hurn.
  assert (∀ c, c ∈ sel → (slice 0 u (node * Nc) Nc).[c] = u.[node * Nc + c])
    as Hsl.
  { intros c Hc. apply rd_slice. by apply Hrows. }
  apply Hurn.
  - lia.
  - rewrite len_replicate; lia.
  - rewrite len_slice. lia.
  - intros c Hc. rewrite Hsl by done. by apply Hu.
  - unfold individuals_in. by apply zsum_ext.
  - lia.
  - done.
  - intros c Hc. rewrite rd_replicate, Hsl by done. pose proof (Hu c Hc). lia.
  - intros c _. apply rd_replicate.
Qed.

End SamplerSpec.

Import Exact.

(** The rationals meet what the theorems on the sampler ask of
    [double] and of GSL. *)
Lemma exact_hypergeometric (r : list positive) n1 n2 t :
  0 ≤ n1 → 0 ≤ n2 → 0 ≤ t ≤ n1 + n2 →
  Z.max 0 (t - n2) ≤ (gsl_ran_hypergeometric (D := Q) r n1 n2 t).1 ≤ Z.min n1 t.
Proof. simpl. lia. Defined.

Lemma exact_add a b :
  0 ≤ a → 0 ≤ b → a + b ≤ INT_MAX →
  Dadd (of_int a) (of_int b) = of_int (D := Q) (a + b).
Proof.
  intros _ _ _. simpl. unfold Qplus, inject_Z. simpl.
  by rewrite !Z.mul_1_r.
Defined.

Lemma exact_draw (r : list positive) m :
  0 < m ≤ INT_MAX →
  Dlt (of_int 0) (Dmul (gsl_rng_uniform_pos r).1 (of_int m)) = true ∧
  Dlt (of_int m) (Dmul (gsl_rng_uniform_pos r).1 (of_int m)) = false.
Proof.
  intros Hm.
  assert (∀ p : positive,
    negb (Qle_bool ((1 # p) * inject_Z m) (inject_Z 0)) = true ∧
    negb (Qle_bool ((1 # p) * inject_Z m) (inject_Z m)) = false) as H.
  { intros p. split.
    - apply negb_true_iff, not_true_iff_false. rewrite Qle_bool_iff.
      unfold Qle. simpl. lia.
    - apply negb_false_iff. rewrite Qle_bool_iff.
      unfold Qle. simpl. nia. }
  destruct r as [|p r]; simpl; apply H.
Defined.

(** C2, as the specification words it: every call that returns 0
    leaves in [individuals], for each selected compartment, a number
    between 0 and the number of individuals there.  The sampler does not
    test the state of the node.  A node with -1 and 3 individuals in the
    two selected compartments, of which two are to be sampled: the total
    is 2, so the call takes the state of every selected compartment as
    the sample and returns 0, with -1 individuals from the first. *)
Lemma sample_individuals_counterexample :
  let sel := selected [0; 1] [0; 2] 0 in
  let r := SimInf_sample_select [0; 1] [0; 2] 2 [-1; 3] 0 0 2 0%Q [] in
  r = (0, [-1; 3], []) ∧
  ¬ (r.1.1 = 0 →
     (∀ c, c ∉ sel → r.1.2.[c] = 0) ∧
     (∀ c, c ∈ sel → 0 ≤ r.1.2.[c] ≤ [-1; 3].[0 * 2 + c]) ∧
     zsum ((λ c, r.1.2.[c]) <$> sel) =
       n_actual 2 0%Q (individuals_in 2 [-1; 3] 0 sel)).
Proof.
  intros sel r. split; [vm_compute; reflexivity|].
  intros H. destruct (H eq_refl) as (_ & Hc & _).
  assert (0 ∈ sel) as H0 by (change (0 ∈ [0; 1]); by left).
  specialize (Hc 0 H0). vm_compute in Hc. destruct Hc as [Hc _]. by apply Hc.
Qed.

(** C2, amended.  When [SimInf_sample_select] is called on a node whose
    selected compartments hold no negative number and returns 0, the
    vector [individuals] is 0 outside the compartments of the select
    column, lies in each of them between 0 and the number of
    individuals of the node there, and sums over them to the number
    sampled.  The select column is a column of a sparse matrix with
    [Nc] rows and the total of the selected compartments fits an
    [int]; GSL and [double] behave as the last three hypotheses say. *)
Theorem sample_select_individuals {D R : Type} {FD : Float64 D}
    {GR : Gsl R D} {EC : SimInf_h}
    (irE jcE : list Z) (Nc : Z) (u : list Z) (node select n : Z)
    (proportion : D) (rng : R) :
  let sel := selected irE jcE select in
  let X := individuals_in Nc u node sel in
  let r := SimInf_sample_select irE jcE Nc u node select n proportion rng in
  (∀ c, c ∈ sel → 0 ≤ c < Nc) →
  NoDup sel →
  (∀ c, c ∈ sel → 0 ≤ u.[node * Nc + c]) →
  X ≤ INT_MAX →
  Nc ≤ INT_MAX →
  SIMINF_ERR_SAMPLE_SELECT ≠ 0 →
  (∀ r n1 n2 t, 0 ≤ n1 → 0 ≤ n2 → 0 ≤ t ≤ n1 + n2 →
     Z.max 0 (t - n2) ≤ (gsl_ran_hypergeometric r n1 n2 t).1 ≤ Z.min n1 t) →
  (∀ a b, 0 ≤ a → 0 ≤ b → a + b ≤ INT_MAX →
     Dadd (of_int a) (of_int b) = of_int (a + b)) →
  (∀ r m, 0 < m ≤ INT_MAX →
     Dlt (of_int 0) (Dmul (gsl_rng_uniform_pos r).1 (of_int m)) = true ∧
     Dlt (of_int m) (Dmul (gsl_rng_uniform_pos r).1 (of_int m)) = false) →
  r.1.1 = 0 →
  (∀ c, c ∉ sel → r.1.2.[c] = 0) ∧
  (∀ c, c ∈ sel → 0 ≤ r.1.2.[c] ≤ u.[node * Nc + c]) ∧
  zsum ((λ c, r.1.2.[c]) <$> sel) = n_actual n proportion X.
Proof.
  intros sel X r Hrows Hnd Hu HX HNc Herr Hhyper Hadd Hdraw Hret.
  exact (sample_select_spec irE jcE Nc u node select Hrows Hnd Hu HX HNc
           Hhyper Hadd Hdraw Herr n proportion rng Hret).
Qed.

Lemma sample_select_individuals_witness :
  let irE := [0; 1; 2] in
  let jcE := [0; 3] in
  let r := SimInf_sample_select irE jcE 3 [5; 3; 2] 0 0 4 (1 # 2)%Q [1; 3]%positive in
  r = (0, [2; 1; 1], []) ∧
  (∀ c, c ∉ selected irE jcE 0 → r.1.2.[c] = 0) ∧
  (∀ c, c ∈ selected irE jcE 0 → 0 ≤ r.1.2.[c] ≤ [5; 3; 2].[0 * 3 + c]) ∧
  zsum ((λ c, r.1.2.[c]) <$> selected irE jcE 0) = 4.
Proof.
  intros irE jcE r. split; [vm_compute; reflexivity|].
  apply (sample_select_individuals irE jcE 3 [5; 3; 2] 0 0 4 (1 # 2)%Q
           [1; 3]%positive).
  - intros c Hc. change (c ∈ [0; 1; 2]) in Hc.
    rewrite !elem_of_cons, elem_of_nil in Hc. lia.
  - change (NoDup [0; 1; 2]). apply NoDup_ListNoDup.
    repeat constructor; simpl; lia.
  - intros c Hc. change (c ∈ [0; 1; 2]) in Hc.
    rewrite !elem_of_cons, elem_of_nil in Hc.
    destruct Hc as [->|[->|[->|[]]]]; vm_compute; discriminate.
  - vm_compute. discriminate.
  - vm_compute. discriminate.
  - discriminate.
  - apply exact_hypergeometric.
  - apply exact_add.
  - apply exact_draw.
  - reflexivity.
Defined.

(** C3, as the specification words it: for [n = 0] the literal [n] is
    used and nobody is sampled, and otherwise the number sampled is
    [round (proportion * X)].  The source does the opposite.  With one
    selected compartment of ten individuals and [proportion = 1/2], a
    call with [n = 0] samples five individuals, and a call with [n = 3]
    samples three. *)
Lemma sample_count_counterexample :
  ¬ (∀ (n : Z) (proportion : Q) (X : Z),
       (n = 0 → n_actual n proportion X = n) ∧
       (n ≠ 0 → n_actual n proportion X =
                  Dround (Dmul proportion (of_int X)))) ∧
  SimInf_sample_select [0] [0; 1] 1 [10] 0 0 0 (1 # 2)%Q [] = (0, [5], []) ∧
  SimInf_sample_select [0] [0; 1] 1 [10] 0 0 3 (1 # 2)%Q [] = (0, [3], []).
Proof.
  split; [|split; vm_compute; reflexivity].
  intros H. destruct (H 0 (1 # 2)%Q 10) as [H0 _].
  specialize (H0 eq_refl). vm_compute in H0. discriminate.
Qed.

(** C3, amended.  A call with [n ≠ 0] does not look at [proportion]; and
    the number of individuals that a call returning 0 samples is
    [round (proportion * X)] if [n = 0], and the literal [n] otherwise. *)
Theorem sample_select_count {D R : Type} {FD : Float64 D}
    {GR : Gsl R D} {EC : SimInf_h}
    (irE jcE : list Z) (Nc : Z) (u : list Z) (node select n : Z)
    (proportion : D) (rng : R) :
  let sel := selected irE jcE select in
  let X := individuals_in Nc u node sel in
  let r := SimInf_sample_select irE jcE Nc u node select n proportion rng in
  (∀ c, c ∈ sel → 0 ≤ c < Nc) →
  NoDup sel →
  (∀ c, c ∈ sel → 0 ≤ u.[node * Nc + c]) →
  X ≤ INT_MAX →
  Nc ≤ INT_MAX →
  SIMINF_ERR_SAMPLE_SELECT ≠ 0 →
  (∀ r n1 n2 t, 0 ≤ n1 → 0 ≤ n2 → 0 ≤ t ≤ n1 + n2 →
     Z.max 0 (t - n2) ≤ (gsl_ran_hypergeometric r n1 n2 t).1 ≤ Z.min n1 t) →
  (∀ a b, 0 ≤ a → 0 ≤ b → a + b ≤ INT_MAX →
     Dadd (of_int a) (of_int b) = of_int (a + b)) →
  (∀ r m, 0 < m ≤ INT_MAX →
     Dlt (of_int 0) (Dmul (gsl_rng_uniform_pos r).1 (of_int m)) = true ∧
     Dlt (of_int m) (Dmul (gsl_rng_uniform_pos r).1 (of_int m)) = false) →
  (n ≠ 0 → ∀ proportion',
     SimInf_sample_select irE jcE Nc u node select n proportion' rng = r) ∧
  (r.1.1 = 0 →
   zsum ((λ c, r.1.2.[c]) <$> sel) =
   if decide (n = 0) then Dround (Dmul proportion (of_int X)) else n).
Proof.
  intros sel X r Hrows Hnd Hu HX HNc Herr Hhyper Hadd Hdraw. split.
  - intros Hn p'. unfold r, SimInf_sample_select.
    destruct (count_select irE jcE Nc u node select) as [Nkinds Nind].
    unfold n_actual. by rewrite !(decide_False (P := n = 0)) by done.
  - intros Hret.
    exact (proj2 (proj2
      (sample_select_spec irE jcE Nc u node select Hrows Hnd Hu HX HNc
         Hhyper Hadd Hdraw Herr n proportion rng Hret))).
Qed.

Lemma sample_select_count_witness :
  let irE := [0; 1] in
  let jcE := [0; 2] in
  let r := SimInf_sample_select irE jcE 2 [7; 4] 0 0 0 (1 # 2)%Q [] in
  r = (0, [6; 0], []) ∧
  ((0 ≠ 0 → ∀ proportion',
      SimInf_sample_select irE jcE 2 [7; 4] 0 0 0 proportion' [] = r) ∧
   (r.1.1 = 0 →
    zsum ((λ c, r.1.2.[c]) <$> selected irE jcE 0) =
    if decide (0 = 0)
    then Dround (Dmul (1 # 2)%Q
                   (of_int (individuals_in 2 [7; 4] 0 (selected irE jcE 0))))
    else 0)).
Proof.
  intros irE jcE r. split; [vm_compute; reflexivity|].
  apply (sample_select_count irE jcE 2 [7; 4] 0 0 0 (1 # 2)%Q []).
  - intros c Hc. change (c ∈ [0; 1]) in Hc.
    rewrite !elem_of_cons, elem_of_nil in Hc. lia.
  - change (NoDup [0; 1]). apply NoDup_ListNoDup.
    repeat constructor; simpl; lia.
  - intros c Hc. change (c ∈ [0; 1]) in Hc.
    rewrite !elem_of_cons, elem_of_nil in Hc.
    destruct Hc as [->|[->|[]]]; vm_compute; discriminate.
  - vm_compute. discriminate.
  - vm_compute. discriminate.
  - discriminate.
  - apply exact_hypergeometric.
  - apply exact_add.
  - apply exact_draw.
Defined.

Lemma sample_select_error_iff_witness :
  let irE := [0; 1] in
  let jcE := [0; 2] in
  let X := individuals_in 2 [7; 4] 0 (selected irE jcE 0) in
  let ret := (SimInf_sample_select irE jcE 2 [7; 4] 0 0 12 (1 # 2)%Q []).1.1 in
  ret = -8 ∧
  (ret = SIMINF_ERR_SAMPLE_SELECT ↔
     len (selected irE jcE 0) ≤ 0 ∨ n_actual 12 (1 # 2)%Q X > X ∨
     n_actual 12 (1 # 2)%Q X < 0) ∧
  (¬ (len (selected irE jcE 0) ≤ 0 ∨ n_actual 12 (1 # 2)%Q X > X ∨
      n_actual 12 (1 # 2)%Q X < 0) → ret = 0).
Proof.
  intros irE jcE X ret. split; [vm_compute; reflexivity|].
  apply (sample_select_error_iff irE jcE 2 [7; 4] 0 0 12 (1 # 2)%Q []).
  - discriminate.
  - vm_compute. split; discriminate.
Defined.

(** ** The partition of the nodes *)

Section PartitionProperties.
Context {D : Type} {FD : Float64 D} {EC : SimInf_h}.

(** The thread of the partitioner, for a zero-based node of the model. *)
Lemma E1_thread_eq Nn Nthread node :
  0 < Nthread → Nthread ≤ Nn → 0 ≤ node < Nn →
  E1_thread Nn Nthread (node + 1) =
  Some (Z.min (node `div` (Nn `div` Nthread)) (Nthread - 1)).
Proof.
  intros HT HN Hnode. unfold E1_thread.
  rewrite Z.quot_div_nonneg by lia.
  assert (1 ≤ Nn `div` Nthread) as Hc.
  { apply Z.div_le_lower_bound; lia. }
  rewrite decide_False by lia. rewrite decide_False by lia.
  replace (node + 1 - 1) with node by lia.
  rewrite Z.quot_div_nonneg by lia.
  f_equal. case_decide; lia.
Qed.

Lemma slice_of_thread Nn Nthread node :
  0 < Nthread → Nthread ≤ Nn → 0 ≤ node < Nn →
  let k := Z.min (node `div` (Nn `div` Nthread)) (Nthread - 1) in
  0 ≤ k < Nthread ∧
  ∀ i, 0 ≤ i < Nthread → (in_slice Nn Nthread i node ↔ i = k).
Proof.
  intros HT HN Hnode k.
  assert (1 ≤ Nn `div` Nthread) as Hc.
  { apply Z.div_le_lower_bound; lia. }
  pose proof (Z.div_mod Nn Nthread ltac:(lia)) as HNn.
  pose proof (Z.mod_pos_bound Nn Nthread ltac:(lia)) as Hrem.
  pose proof (Z.div_mod node (Nn `div` Nthread) ltac:(lia)) as Hnd.
  pose proof (Z.mod_pos_bound node (Nn `div` Nthread) ltac:(lia)) as Hnr.
  assert (0 ≤ node `div` (Nn `div` Nthread)) as Hk0
    by (apply Z.div_pos; lia).
  split; [unfold k; lia|].
  intros i Hi. unfold in_slice, thread_Ni, thread_Nn.
  rewrite Z.quot_div_nonneg, Z.rem_mod_nonneg by lia.
  set (c := Nn `div` Nthread) in *. set (q := node `div` c) in *.
  set (m := node `mod` c) in *. set (rm := Nn `mod` Nthread) in *.
  case_decide as Hlast; unfold k; split; intros H; nia.
Qed.

Lemma split_step_in_slices Nn Nthread q E2 (e : event D) :
  0 < Nthread → Nthread ≤ Nn →
  (is_E1 e → 1 ≤ ev_node e ≤ Nn) →
  queues_in_slices Nn Nthread q →
  match split_step Nn Nthread (Split_ok q E2) e with
  | Split_ok q' _ => queues_in_slices Nn Nthread q'
  | _ => True
  end.
Proof.
  intros HT HN He [Hlen Hq]. unfold split_step.
  case_decide as HE1; [|case_decide; done].
  specialize (He HE1).
  pose proof (E1_thread_eq Nn Nthread (ev_node e - 1) HT HN ltac:(lia)) as Hk.
  replace (ev_node e - 1 + 1) with (ev_node e) in Hk by lia.
  rewrite Hk.
  pose proof (slice_of_thread Nn Nthread (ev_node e - 1) HT HN ltac:(lia))
    as [Hkr Hks]. cbv zeta in Hkr, Hks.
  set (k := Z.min _ _) in *.
  split; [unfold push_E1; by rewrite len_wr|].
  intros k' e' Hin. unfold push_E1 in Hin. rewrite rd_wr in Hin.
  case_decide as Hd.
  - destruct Hd as [<- _]. apply elem_of_app in Hin as [Hin|Hin].
    + by apply Hq.
    + apply list_elem_of_singleton in Hin as ->. simpl.
      by apply Hks.
  - by apply Hq.
Qed.

Lemma split_events_in_slices Nn Nthread (events : list (event D)) :
  0 < Nthread → Nthread ≤ Nn →
  (∀ e, e ∈ events → is_E1 e → 1 ≤ ev_node e ≤ Nn) →
  match SimInf_split_events events Nn Nthread with
  | Split_ok q _ => queues_in_slices Nn Nthread q
  | Split_trap => False
  | Split_error _ => True
  end.
Proof.
  intros HT HN Hev. unfold SimInf_split_events.
  rewrite decide_False by lia.
  assert (queues_in_slices Nn Nthread
            (replicate (Z.to_nat Nthread) ([] : list (event D)))) as Hinit.
  { split; [rewrite len_replicate; lia|].
    intros k e Hin. rewrite rd_replicate in Hin.
    by apply elem_of_nil in Hin. }
  revert Hinit Hev.
  generalize (replicate (Z.to_nat Nthread) ([] : list (event D))).
  generalize ([] : list (event D)).
  induction events as [|e events IH]; intros E2 q Hq Hev; [done|].
  cbn [foldl].
  pose proof (split_step_in_slices Nn Nthread q E2 e HT HN
    (Hev e ltac:(left)) Hq) as Hstep.
  assert (∀ e', e' ∈ events → is_E1 e' → 1 ≤ ev_node e' ≤ Nn) as Hev'
    by (intros e' He'; apply Hev; by right).
  destruct (split_step Nn Nthread (Split_ok q E2) e) as [|err|q' E2'] eqn:E.
  - exfalso. unfold split_step in E.
    case_decide as HE1; [|case_decide; done].
    pose proof (Hev e ltac:(left) HE1).
    pose proof (E1_thread_eq Nn Nthread (ev_node e - 1) HT HN ltac:(lia))
      as Hk.
    replace (ev_node e - 1 + 1) with (ev_node e) in Hk by lia.
    by rewrite Hk in E.
  - clear. induction events as [|e' events IH]; simpl; [done|]. apply IH.
  - by apply IH.
Qed.

End PartitionProperties.

(** C8. The thread of the E1 events of a node is to be the thread whose
    nodes for the SSA include the node, for every node.  With more
    threads than nodes the partitioner does not give it: two nodes on
    three threads are both nodes of the last thread in
    [SimInf_run_solver_ssa] ([Ni = 0], [Nn = 0 + 2]), and in
    [SimInf_split_events] the chunk size [Nn / Nthread] is 0, so that
    [(node - 1) / chunk_size] divides by zero at the first E1 event. *)
Lemma E1_thread_division_by_zero :
  let e : event Q :=
    {| ev_event := EXIT_EVENT; ev_time := 1; ev_node := 1; ev_dest := 0;
       ev_n := 1; ev_proportion := 0%Q; ev_select := 1; ev_shift := 0 |} in
  thread_Ni 2 3 2 = 0 ∧ thread_Nn 2 3 2 = 2 ∧
  in_slice 2 3 2 0 ∧ in_slice 2 3 2 1 ∧
  E1_thread 2 3 1 = None ∧ E1_thread 2 3 2 = None ∧
  SimInf_split_events [e] 2 3 = Split_trap ∧
  SimInf_split_events_alloc all_allocated [e] 2 3 = Split_trap.
Proof.
  intros e. split; [reflexivity|]. split; [reflexivity|].
  split; [vm_compute; split; [discriminate|reflexivity]|].
  split; [vm_compute; split; [discriminate|reflexivity]|].
  split; [reflexivity|]. split; [reflexivity|]. split; reflexivity.
Qed.

(** X26. With at least as many nodes as threads, the thread
    [k = min (node / (Nn / Nthread), Nthread - 1)] that the partitioner
    gives the E1 events of a node is the one thread whose nodes for the
    SSA, from [Ni] on, include the node; the last thread takes the
    [Nn % Nthread] nodes that remain.  So every queue E1 that
    [SimInf_split_events] builds holds events of nodes of its thread
    only. *)
Theorem E1_thread_is_ssa_thread {D : Type} {FD : Float64 D} {EC : SimInf_h}
    (Nn Nthread : Z) :
  0 < Nthread → Nthread ≤ Nn →
  (∀ node, 0 ≤ node < Nn →
     ∃ k, E1_thread Nn Nthread (node + 1) = Some k ∧
          k = Z.min (node `div` (Nn `div` Nthread)) (Nthread - 1) ∧
          0 ≤ k < Nthread ∧
          in_slice Nn Nthread k node ∧
          ∀ i, 0 ≤ i < Nthread → in_slice Nn Nthread i node → i = k) ∧
  (∀ events : list (event D),
     (∀ e, e ∈ events → is_E1 e → 1 ≤ ev_node e ≤ Nn) →
     match SimInf_split_events events Nn Nthread with
     | Split_ok q _ =>
         len q = Nthread ∧
         ∀ k e, e ∈ rd [] q k → in_slice Nn Nthread k (ev_node e)
     | Split_trap => False
     | Split_error _ => True
     end).
Proof.
  intros HT HN. split.
  - intros node Hnode.
    exists (Z.min (node `div` (Nn `div` Nthread)) (Nthread - 1)).
    pose proof (slice_of_thread Nn Nthread node HT HN Hnode) as [Hk Hs].
    cbv zeta in Hk, Hs.
    split; [by apply E1_thread_eq|]. split; [done|]. split; [done|].
    split; [by apply Hs|]. intros i Hi Hin. by apply Hs.
  - intros events Hev.
    exact (split_events_in_slices Nn Nthread events HT HN Hev).
Qed.

Lemma E1_thread_is_ssa_thread_witness :
  E1_thread 7 3 (6 + 1) = Some 2 ∧ thread_Ni 7 3 2 = 4 ∧ thread_Nn 7 3 2 = 3 ∧
  (∀ node, 0 ≤ node < 7 →
     ∃ k, E1_thread 7 3 (node + 1) = Some k ∧
          k = Z.min (node `div` (7 `div` 3)) (3 - 1) ∧
          0 ≤ k < 3 ∧
          in_slice 7 3 k node ∧
          ∀ i, 0 ≤ i < 3 → in_slice 7 3 i node → i = k) ∧
  (∀ events : list (event Q),
     (∀ e, e ∈ events → is_E1 e → 1 ≤ ev_node e ≤ 7) →
     match SimInf_split_events events 7 3 with
     | Split_ok q _ =>
         len q = 3 ∧ ∀ k e, e ∈ rd [] q k → in_slice 7 3 k (ev_node e)
     | Split_trap => False
     | Split_error _ => True
     end).
Proof.
  split; [reflexivity|]. split; [reflexivity|]. split; [reflexivity|].
  apply (E1_thread_is_ssa_thread (D := Q) 7 3); lia.
Defined.

(** ** Sums over an array that is written *)

Lemma zsum_insert (a : list Z) (i : nat) (x v : Z) :
  a !! i = Some x → zsum (<[i:=v]> a) = zsum a - x + v.
Proof.
  revert i. induction a as [|y a IH]; intros [|i] H; try done.
  - injection H as ->. simpl. lia.
  - simpl in *. rewrite (IH i H). lia.
Qed.

Lemma zsum_wr (a : list Z) k v :
  0 ≤ k < len a → zsum (wr a k v) = zsum a - a.[k] + v.
Proof.
  intros Hk. unfold wr, rd, len in *. rewrite !decide_True by lia.
  destruct (a !! Z.to_nat k) as [x|] eqn:E.
  - by apply zsum_insert.
  - apply lookup_ge_None in E. lia.
Qed.

(** The number of individuals of a node. *)
Lemma node_total_wr (a : list Z) Nc node k v :
  0 ≤ k < len a →
  individuals_in Nc (wr a k v) node (seqZ 0 Nc) =
  individuals_in Nc a node (seqZ 0 Nc) +
  (if decide (node * Nc ≤ k < node * Nc + Nc) then v - a.[k] else 0).
Proof.
  intros Hk. unfold individuals_in.
  rewrite (zsum_ext _
    (λ c, if decide (c = k - node * Nc)
          then a.[node * Nc + c] + (v - a.[k]) else a.[node * Nc + c])).
  2:{ intros c _. rewrite rd_wr. case_decide as Hd1; case_decide as Hd2;
        try lia.
      replace (node * Nc + c) with k by lia. lia. }
  case_decide as Hin.
  - apply (zsum_upd (λ c, a.[node * Nc + c])); [apply NoDup_seqZ|].
    apply elem_of_seqZ. lia.
  - rewrite (zsum_ext _ (λ c, a.[node * Nc + c])); [lia|].
    intros c Hc. apply elem_of_seqZ in Hc. rewrite decide_False; [done|lia].
Qed.

(** ** The sampled numbers are [int]s *)

Section SamplerInt.
Context {D R : Type} {FD : Float64 D} {GR : Gsl R D} {EC : SimInf_h}.

Lemma ints_wr a k v : ints a → is_int v → ints (wr a k v).
Proof. intros Ha Hv j. rewrite rd_wr. case_decide; [done|apply Ha]. Qed.

Lemma ints_replicate n : ints (replicate n 0).
Proof. intros k. rewrite rd_replicate. unfold is_int, INT_MIN, INT_MAX. lia. Qed.

Lemma urn_draws_ints cnt irE jcE select : ∀ t ind m n (rng : R),
  ints ind → ints (urn_draws cnt irE jcE select t ind m n rng).1.
Proof.
  induction cnt as [|k IH]; intros t ind m n rng Hind; [done|].
  simpl. case_decide; [|done].
  destruct (gsl_rng_uniform_pos rng) as [x rng'].
  apply IH. apply ints_wr; [done|apply wrap_is_int].
Qed.

Lemma sample_select_ints irE jcE Nc u node select n (proportion : D) (rng : R) :
  ints u →
  ints (SimInf_sample_select irE jcE Nc u node select n proportion rng).1.2.
Proof.
  intros Hu. unfold SimInf_sample_select.
  pose proof (count_select_eq irE jcE Nc u node select) as Hc.
  destruct (count_select irE jcE Nc u node select) as [Nkinds Nind].
  injection Hc as _ HNind.
  pose proof (wrap_is_int (individuals_in Nc u node (selected irE jcE select)))
    as HI. rewrite <- HNind in HI.
  set (m := n_actual n proportion Nind). cbv zeta.
  case_decide as Herr; [apply ints_replicate|].
  assert (is_int m) as Hm by (unfold is_int, INT_MIN, INT_MAX in *; lia).
  case_decide; [apply ints_replicate|].
  case_decide.
  { simpl. apply (for_range_inv (λ _ ind, ints ind)).
    - apply ints_replicate.
    - intros i ind _ Hind. apply ints_wr; [done|apply Hu].
    - done. }
  case_decide; [by apply ints_wr; [apply ints_replicate|]|].
  case_decide.
  { simpl. apply (for_range_inv (λ _ ind, ints ind)).
    - apply ints_replicate.
    - intros i ind _ Hind. case_decide; [|done]. by apply ints_wr.
    - done. }
  case_decide.
  { destruct (gsl_ran_hypergeometric rng _ _ m) as [h rng']. simpl.
    apply ints_wr; [|apply wrap_is_int].
    apply ints_wr; [apply ints_replicate|apply wrap_is_int]. }
  pose proof (urn_draws_ints (Z.to_nat m) irE jcE select
    (slice 0 u (node * Nc) Nc) (replicate (Z.to_nat Nc) 0) Nind m rng
    (ints_replicate _)) as Hurn.
  by destruct (urn_draws _ _ _ _ _ _ _ _ _) as [ind rng'].
Qed.

End SamplerInt.

(** ** The scheduled events *)

Section EventProperties.
Context {D R : Type} {FD : Float64 D} {GR : Gsl R D} {EC : SimInf_h}.
Variable c : SimInf_thread_args (D := D).

Lemma set_errcode_id (sa : thread_state (D := D) (R := R)) :
  set_errcode (errcode sa) sa = sa.
Proof. by destruct sa. Qed.

(** C9. An ENTER event whose select column is empty leaves [uu] as it
    is and raises no error; it still sets [update_node[node] = 1] and
    the event is consumed ([E1_index] moves on).  The event is the one
    the loop of [SimInf_process_E1_events] is at, and its node is a node
    of the model. *)
Theorem enter_empty_select (sa : thread_state) (sh : shared) :
  let e := rd ev0 (E1 c) (E1_index sa) in
  E1_cond c sa = true →
  ev_event e = ENTER_EVENT →
  (jcE c).[ev_select e] = (jcE c).[ev_select e + 1] →
  0 ≤ ev_node e < len (update_node sh) →
  ∃ sa' sh',
    E1_step c sa sh = Next (sa', sh') ∧
    uu sh' = uu sh ∧
    errcode sa' = 0 ∧
    (update_node sh').[ev_node e] = 1 ∧
    E1_index sa' = E1_index sa + 1.
Proof.
  intros e Hcond Hev Hempty Hnode.
  unfold E1_cond in Hcond.
  apply andb_prop in Hcond as [Hcond Herr].
  apply bool_decide_eq_true in Herr.
  unfold E1_step. fold e. rewrite decide_True by done.
  unfold enter_event. rewrite decide_False by lia.
  eexists _, _. split; [reflexivity|]. simpl.
  split; [done|]. split; [done|]. split; [|done].
  by apply rd_wr_eq.
Qed.

Lemma wrap_add_count a x :
  0 ≤ a ≤ INT_MAX → is_int x → 0 ≤ wrap (a + x) → wrap (a + x) = a + x.
Proof.
  unfold is_int, INT_MIN, INT_MAX, wrap. intros Ha Hx Hw.
  pose proof (Z.div_mod (a + x + 2 ^ 31) (2 ^ 32) ltac:(lia)).
  pose proof (Z.mod_pos_bound (a + x + 2 ^ 31) (2 ^ 32) ltac:(lia)).
  lia.
Qed.

Lemma wrap_sub_count b x :
  0 ≤ b ≤ INT_MAX → is_int x → 0 ≤ wrap (b - x) → wrap (b - x) = b - x.
Proof.
  unfold is_int, INT_MIN, INT_MAX, wrap. intros Hb Hx Hw.
  pose proof (Z.div_mod (b - x + 2 ^ 31) (2 ^ 32) ltac:(lia)).
  pose proof (Z.mod_pos_bound (b - x + 2 ^ 31) (2 ^ 32) ltac:(lia)).
  lia.
Qed.

Lemma row_of Nc r d t :
  0 ≤ t < Nc → (r * Nc ≤ d * Nc + t < r * Nc + Nc ↔ r = d).
Proof. intros Ht. split; [|intros ->; lia]. intros H. nia. Qed.

Lemma counts_wr a k v : counts a → 0 ≤ v ≤ INT_MAX → counts (wr a k v).
Proof. intros Ha Hv j. rewrite rd_wr. case_decide; [done|apply Ha]. Qed.

Lemma counts_ints a : counts a → ints a.
Proof.
  intros Ha k. specialize (Ha k). unfold is_int, INT_MIN, INT_MAX in *. lia.
Qed.

(** The loop of an external transfer that ends without error moved the
    sampled individuals from [node] to [dest]. *)
Lemma external_transfer_spec (e : event D) (ind uu0 : list Z) :
  let lo := (jcE c).[ev_select e] in
  let hi := (jcE c).[ev_select e + 1] in
  let ll jj := if decide (ev_shift e < 0) then 0
               else (N c).[ev_shift e * Nc c + jj] in
  let moved := zsum ((λ i, ind.[(irE c).[i]]) <$> seqZ lo (hi - lo)) in
  SIMINF_ERR_NEGATIVE_STATE ≠ 0 →
  ints ind → counts uu0 →
  0 ≤ ev_node e → (ev_node e + 1) * Nc c ≤ len uu0 →
  0 ≤ ev_dest e → (ev_dest e + 1) * Nc c ≤ len uu0 →
  (∀ i, lo ≤ i < hi →
     0 ≤ (irE c).[i] < Nc c ∧ 0 ≤ (irE c).[i] + ll (irE c).[i] < Nc c) →
  let r := external_transfer_event c e ind uu0 0 in
  r.2 = 0 →
  zsum r.1 = zsum uu0 ∧ len r.1 = len uu0 ∧ counts r.1 ∧
  ∀ nd, 0 ≤ nd → (nd + 1) * Nc c ≤ len uu0 →
    node_total (Nc c) r.1 nd =
    node_total (Nc c) uu0 nd
    + (if decide (nd = ev_dest e) then moved else 0)
    - (if decide (nd = ev_node e) then moved else 0).
Proof.
  intros lo hi ll moved Hneg Hind Huu Hn0 Hn1 Hd0 Hd1 Hidx r.
  unfold r, external_transfer_event. fold lo hi.
  set (mv i := zsum ((λ i, ind.[(irE c).[i]]) <$> seqZ lo (i - lo))).
  apply (for_range_inv
    (λ i '(uu', err'),
       err' = 0 ∧ zsum uu' = zsum uu0 ∧ len uu' = len uu0 ∧ counts uu' ∧
       ∀ nd, 0 ≤ nd → (nd + 1) * Nc c ≤ len uu0 →
         node_total (Nc c) uu' nd =
         node_total (Nc c) uu0 nd
         + (if decide (nd = ev_dest e) then mv i else 0)
         - (if decide (nd = ev_node e) then mv i else 0))).
  - split; [done|]. split; [done|]. split; [done|]. split; [done|].
    intros nd _ _. unfold mv. rewrite seqZ_nil by lia. simpl.
    repeat case_decide; lia.
  - intros i [uu' err'] Hi (-> & Hsum & Hlen & Hcnt & Hrows).
    destruct (Hidx i Hi) as [Hjj Hjl]. fold (ll (irE c).[i]).
    set (jj := (irE c).[i]) in *. set (l := ll jj) in *.
    set (k1 := ev_dest e * Nc c + jj + l).
    set (k2 := ev_node e * Nc c + jj).
    assert (0 ≤ k1 < len uu') as Hk1 by (unfold k1; nia).
    assert (0 ≤ k2 < len uu') as Hk2 by (unfold k2; nia).
    unfold iadd, isub.
    rewrite (rd_wr_eq 0 uu' k1) by done.
    case_decide as Hc1; [by intros ?|].
    assert (wrap (uu'.[k1] + ind.[jj]) = uu'.[k1] + ind.[jj]) as Hex1
      by (apply wrap_add_count; [apply Hcnt|apply Hind|lia]).
    rewrite Hex1 in Hc1 |- *.
    set (uu1 := wr uu' k1 (uu'.[k1] + ind.[jj])).
    assert (counts uu1) as Hcnt1.
    { apply counts_wr; [done|].
      pose proof (wrap_is_int (uu'.[k1] + ind.[jj])) as Hw.
      rewrite Hex1 in Hw. unfold is_int, INT_MIN, INT_MAX in *. lia. }
    assert (len uu1 = len uu') as Hlen1 by apply len_wr.
    rewrite (rd_wr_eq 0 uu1 k2) by lia.
    case_decide as Hc2; [by intros ?|].
    assert (wrap (uu1.[k2] - ind.[jj]) = uu1.[k2] - ind.[jj]) as Hex2
      by (apply wrap_sub_count; [apply Hcnt1|apply Hind|lia]).
    rewrite Hex2 in Hc2 |- *.
    split; [done|]. split; [|split; [|split]].
    + rewrite zsum_wr by lia. unfold uu1 at 1. rewrite zsum_wr by lia. lia.
    + by rewrite len_wr, Hlen1.
    + apply counts_wr; [done|].
      pose proof (wrap_is_int (uu1.[k2] - ind.[jj])) as Hw.
      rewrite Hex2 in Hw. unfold is_int, INT_MIN, INT_MAX in *. lia.
    + intros nd Hnd0 Hnd1. unfold node_total in *.
      rewrite node_total_wr by lia. unfold uu1 at 1.
      rewrite node_total_wr by lia. rewrite Hrows by done.
      assert (mv (i + 1) = mv i + ind.[jj]) as Hmv.
      { unfold mv. replace (i + 1 - lo) with (i - lo + 1) by lia.
        rewrite seqZ_app by lia. rewrite fmap_app, zsum_app.
        rewrite (seqZ_cons (lo + (i - lo))) by lia.
        rewrite (seqZ_nil _ (Z.pred 1)) by lia.
        rewrite fmap_cons, zsum_cons. simpl.
        replace (lo + (i - lo)) with i by lia. fold jj. lia. }
      rewrite Hmv.
      pose proof (row_of (Nc c) nd (ev_dest e) (jj + l) Hjl) as Hr1.
      pose proof (row_of (Nc c) nd (ev_node e) jj Hjj) as Hr2.
      replace (ev_dest e * Nc c + (jj + l)) with k1 in Hr1 by (unfold k1; lia).
      fold k2 in Hr2.
      repeat case_decide; try lia; exfalso; tauto.
  - intros [uu' err'] (-> & Hsum & Hlen & Hcnt & Hrows) _.
    split; [done|]. split; [done|]. split; [done|].
    intros nd Hnd0 Hnd1. simpl. rewrite Hrows by done.
    destruct (decide (lo ≤ hi)).
    + by replace (Z.max lo hi) with hi by lia.
    + unfold mv, moved. rewrite !seqZ_nil by lia. done.
Qed.

(** C10. An EXTERNAL_TRANSFER event that is applied without error
    leaves the sum of [uu] over all nodes and compartments as it was:
    the node [dest] gains, and the node [node] loses, the sampled total
    (the sum of the vector [individuals] over the select column).  The
    state holds numbers of individuals, the two nodes are nodes of the
    model, and the selected compartments and their shifted images are
    compartments of a node. *)
Theorem external_transfer_conserves (sa : thread_state) (sh : shared) :
  let e := rd ev0 (E2 c) (E2_index sa) in
  let sel := selected (irE c) (jcE c) (ev_select e) in
  let ll jj := if decide (ev_shift e < 0) then 0
               else (N c).[ev_shift e * Nc c + jj] in
  SIMINF_ERR_NEGATIVE_STATE ≠ 0 →
  counts (uu sh) →
  0 ≤ ev_node e → (ev_node e + 1) * Nc c ≤ len (uu sh) →
  0 ≤ ev_dest e → (ev_dest e + 1) * Nc c ≤ len (uu sh) →
  (∀ jj, jj ∈ sel → 0 ≤ jj < Nc c ∧ 0 ≤ jj + ll jj < Nc c) →
  ∀ sa' sh',
    E2_step c sa sh = Next (sa', sh') →
    errcode sa' = 0 →
    let moved := zsum ((λ jj, (individuals sa').[jj]) <$> sel) in
    zsum (uu sh') = zsum (uu sh) ∧
    ∀ nd, 0 ≤ nd → (nd + 1) * Nc c ≤ len (uu sh) →
      node_total (Nc c) (uu sh') nd =
      node_total (Nc c) (uu sh) nd
      + (if decide (nd = ev_dest e) then moved else 0)
      - (if decide (nd = ev_node e) then moved else 0).
Proof.
  intros e sel ll Hneg Hcnt Hn0 Hn1 Hd0 Hd1 Hidx sa' sh' Hstep Herr moved.
  unfold E2_step in Hstep. fold e in Hstep.
  pose proof (sample_select_ints (irE c) (jcE c) (Nc c) (uu sh) (ev_node e)
    (ev_select e) (ev_n e) (ev_proportion e) (rng sa) (counts_ints _ Hcnt))
    as Hints.
  destruct (SimInf_sample_select _ _ _ _ _ _ _ _ _) as [[err ind] rng'].
  simpl in Hints.
  case_decide as Herr0; [done|].
  assert (err = 0) as -> by (destruct (decide (err = 0)); done).
  pose proof (external_transfer_spec e ind (uu sh) Hneg Hints Hcnt Hn0 Hn1
    Hd0 Hd1) as Hspec. cbv zeta in Hspec.
  destruct (external_transfer_event c e ind (uu sh) 0) as [uu' err'].
  injection Hstep as <- <-. simpl in Herr |- *.
  simpl in Hspec.
  destruct Hspec as (Hsum & _ & _ & Hrows); [|done|].
  { intros i Hi. apply Hidx. apply elem_of_selected. by exists i. }
  split; [done|].
  intros nd Hnd0 Hnd1. rewrite (Hrows nd Hnd0 Hnd1).
  unfold moved, sel, selected. by rewrite <- list_fmap_compose.
Qed.

End EventProperties.

Lemma counts_Forall a : Forall (λ x, 0 ≤ x ≤ INT_MAX) a → counts a.
Proof.
  intros Ha k. unfold rd. case_decide; [|unfold INT_MAX; lia].
  destruct (a !! Z.to_nat k) as [x|] eqn:E; simpl; [|unfold INT_MAX; lia].
  by apply (Forall_lookup_1 _ _ _ _ Ha E).
Qed.

Lemma nonneg_Forall (a : list Z) : Forall (λ x, 0 ≤ x) a → ∀ k, 0 ≤ a.[k].
Proof.
  intros Ha k. unfold rd. case_decide; [|lia].
  destruct (a !! Z.to_nat k) as [x|] eqn:E; simpl; [|lia].
  by apply (Forall_lookup_1 _ _ _ _ Ha E).
Qed.

(** An ENTER event of ten individuals with an empty select column. *)
Lemma enter_empty_select_witness :
  let c := args_of 1 0 1 0 2 [] [0] [] [0] [] [0] [0; 0; 1] [] [] [0; 1]%Q
             [{| ev_event := ENTER_EVENT; ev_time := 0; ev_node := 0;
                 ev_dest := -1; ev_n := 10; ev_proportion := 0%Q;
                 ev_select := 0; ev_shift := -1 |}] [] in
  let sa := state_of [] 0 1 0 2 in
  let sh := shared_of [4; 1] 1 2 in
  ∃ sa' sh',
    E1_step c sa sh = Next (sa', sh') ∧
    uu sh' = [4; 1] ∧
    errcode sa' = 0 ∧
    (update_node sh').[0] = 1 ∧
    E1_index sa' = 0 + 1.
Proof.
  intros c sa sh.
  apply (enter_empty_select c sa sh).
  - vm_compute. reflexivity.
  - reflexivity.
  - reflexivity.
  - vm_compute. split; [discriminate|reflexivity].
Defined.

(** The transfer of three of the five individuals of node 0 to node 1. *)
Lemma external_transfer_conserves_witness :
  let c := args_of 2 0 2 0 1 [] [0] [] [0] [] [0] [0; 1] [] [] [0; 5]%Q []
             [{| ev_event := EXTERNAL_TRANSFER_EVENT; ev_time := 3;
                 ev_node := 0; ev_dest := 1; ev_n := 3;
                 ev_proportion := 0%Q; ev_select := 0; ev_shift := -1 |}] in
  let sa := state_of [] 3 2 0 1 in
  let sh := shared_of [5; 0] 2 2 in
  (∃ sa' sh', E2_step c sa sh = Next (sa', sh') ∧ errcode sa' = 0 ∧
              uu sh' = [2; 3]) ∧
  ∀ sa' sh',
    E2_step c sa sh = Next (sa', sh') →
    errcode sa' = 0 →
    zsum (uu sh') = zsum (uu sh) ∧
    ∀ nd, 0 ≤ nd → (nd + 1) * 1 ≤ len (uu sh) →
      node_total 1 (uu sh') nd =
      node_total 1 (uu sh) nd
      + (if decide (nd = 1)
         then zsum ((λ jj, (individuals sa').[jj]) <$> selected [0] [0; 1] 0)
         else 0)
      - (if decide (nd = 0)
         then zsum ((λ jj, (individuals sa').[jj]) <$> selected [0] [0; 1] 0)
         else 0).
Proof.
  intros c sa sh. split.
  { eexists _, _. split; [vm_compute; reflexivity|]. split; reflexivity. }
  apply (external_transfer_conserves c sa sh).
  - discriminate.
  - apply counts_Forall. repeat constructor; unfold INT_MAX; lia.
  - reflexivity.
  - vm_compute. discriminate.
  - vm_compute. discriminate.
  - vm_compute. discriminate.
  - intros jj Hjj. change (jj ∈ [0]) in Hjj.
    apply list_elem_of_singleton in Hjj as ->. vm_compute.
    repeat split; discriminate.
Defined.

(** ** The choice of the transition *)

Section TransitionProperties.
Context {D R : Type} {FD : Float64 D} {GR : Gsl R D} {EC : SimInf_h}.
Variable c : SimInf_thread_args (D := D).

Lemma tr_search_bounds t_rate base rand cnt : ∀ tr cum,
  tr ≤ tr_search c cnt t_rate base rand tr cum ≤ tr + Z.of_nat cnt.
Proof.
  induction cnt as [|k IH]; intros tr cum; simpl; [lia|].
  destruct (bool_decide (tr < Nt c) && Dlt cum rand); [|lia].
  specialize (IH (tr + 1) (Dadd cum (rd D0 t_rate (base + (tr + 1))))). lia.
Qed.

(** The walk backwards stops at the nearest rate that is not zero, or
    at transition 0. *)
Lemma tr_back_spec t_rate base cnt : ∀ tr,
  Z.of_nat cnt = tr →
  let r := tr_back cnt t_rate base tr in
  0 ≤ r ≤ tr ∧
  (∀ j, r < j ≤ tr → Deq (rd D0 t_rate (base + j)) D0 = true) ∧
  (r = 0 ∨ Deq (rd D0 t_rate (base + r)) D0 = false).
Proof.
  induction cnt as [|k IH]; intros tr Htr; simpl.
  - split; [lia|]. split; [intros j Hj; lia|left; lia].
  - rewrite bool_decide_eq_true_2 by lia. simpl.
    destruct (Deq (rd D0 t_rate (base + tr)) D0) eqn:E.
    + destruct (IH (tr - 1) ltac:(lia)) as (Hr & Hz & Hnz).
      split; [lia|]. split; [|done].
      intros j Hj. destruct (decide (j = tr)) as [->|]; [done|].
      apply Hz. lia.
    + split; [lia|]. split; [intros j Hj; lia|by right].
Qed.

(** The transition that [select_transition] yields, with [tr1] the
    result of the linear search, clamped. *)
Lemma select_transition_spec t_rate node rand :
  1 ≤ Nt c →
  let base := node * Nt c in
  let tr0 := tr_search c (Z.to_nat (Nt c)) t_rate base rand 0
               (rd D0 t_rate base) in
  let tr1 := Z.min tr0 (Nt c - 1) in
  match select_transition c t_rate node rand with
  | Some tr =>
      0 ≤ tr ≤ tr1 ∧
      Deq (rd D0 t_rate (base + tr)) D0 = false ∧
      (∀ j, tr < j ≤ tr1 → Deq (rd D0 t_rate (base + j)) D0 = true)
  | None =>
      ∀ j, 0 ≤ j ≤ tr1 → Deq (rd D0 t_rate (base + j)) D0 = true
  end.
Proof.
  intros HNt base tr0 tr1. unfold select_transition. fold base tr0.
  pose proof (tr_search_bounds t_rate base rand (Z.to_nat (Nt c)) 0
    (rd D0 t_rate base)) as Hb. fold tr0 in Hb.
  replace (if decide (tr0 >= Nt c) then Nt c - 1 else tr0) with tr1
    by (unfold tr1; case_decide; lia).
  assert (0 ≤ tr1 < Nt c) as H1 by (unfold tr1; lia).
  destruct (Deq (rd D0 t_rate (base + tr1)) D0) eqn:E1.
  - pose proof (tr_back_spec t_rate base (Z.to_nat tr1) tr1 ltac:(lia))
      as (Hr & Hz & Hnz). cbv zeta in Hr, Hz, Hnz.
    set (r := tr_back (Z.to_nat tr1) t_rate base tr1) in *.
    destruct (Deq (rd D0 t_rate (base + r)) D0) eqn:E2.
    + intros j Hj. destruct Hnz as [Hr0|?]; [|congruence].
      destruct (decide (j = r)) as [->|]; [done|]. apply Hz. lia.
    + split; [lia|]. split; [done|]. intros j Hj. apply Hz. lia.
  - split; [lia|]. split; [done|]. intros j Hj. lia.
Qed.


End TransitionProperties.


(** ** The state is not negative *)

Section NonNegative.
Context {D R : Type} {FD : Float64 D} {GR : Gsl R D} {EC : SimInf_h}.
Hypothesis Hneg : SIMINF_ERR_NEGATIVE_STATE ≠ 0.
Hypothesis Hinv : SIMINF_ERR_INVALID_RATE ≠ 0.

(** A checked write: the test [< 0] that follows it did not fire. *)
Lemma counts_wr_checked a k x :
  counts a → ¬ (wr a k (wrap x)).[k] < 0 → counts (wr a k (wrap x)).
Proof.
  intros Ha Hc. destruct (decide (0 ≤ k < len a)) as [Hk|Hk].
  - rewrite rd_wr_eq in Hc by done. apply counts_wr; [done|].
    pose proof (wrap_is_int x). unfold is_int, INT_MIN, INT_MAX in *. lia.
  - by rewrite wr_out.
Qed.

Lemma checked_update_ok uu err r :
  checked_update uu err r → r.2 = 0 → err = 0 ∧ (counts uu → counts r.1).
Proof.
  intros [[He|He] Hc] H0; [|congruence].
  split; [congruence|]. apply Hc. congruence.
Qed.

Lemma checked_update_negative uu err r :
  checked_update uu err r →
  counts uu → ¬ counts r.1 → r.2 = SIMINF_ERR_NEGATIVE_STATE.
Proof.
  intros [_ Hc] Hu Hn.
  destruct (decide (r.2 = SIMINF_ERR_NEGATIVE_STATE)) as [|Hne]; [done|].
  exfalso. by apply Hn, Hc.
Qed.

(** 1c) The update of the state by a transition. *)
Lemma update_state_checked (c : SimInf_thread_args (D := D)) node tr uu err :
  checked_update uu err (update_state c node tr uu err).
Proof.
  unfold update_state.
  apply (for_range_inv (λ _ r, checked_update uu err r)).
  - split; [by left|done].
  - intros j [uu' err'] _ [He Hc]. simpl in *. unfold iadd.
    set (k := Ni c * Nc c + node * Nc c + (irS c).[j]).
    case_decide as Hlt.
    + unfold checked_update. split; [by right|done].
    + split; [done|]. simpl. intros Hn Hu.
      apply counts_wr_checked; [by apply Hc|done].
  - done.
Qed.

(** The events. *)
Lemma enter_event_checked (c : SimInf_thread_args (D := D)) e uu err :
  checked_update uu err (enter_event c e uu err).
Proof.
  unfold enter_event, checked_update. case_decide; [|split; [by left|done]].
  unfold iadd. case_decide as Hlt.
  - split; [by right|done].
  - split; [by left|]. simpl. intros _ Hu. by apply counts_wr_checked.
Qed.

Lemma exit_event_checked (c : SimInf_thread_args (D := D)) e ind uu err :
  checked_update uu err (exit_event c e ind uu err).
Proof.
  unfold exit_event.
  apply (for_range_inv
    (λ _ r, r.2 = err ∧ (counts uu → counts r.1))).
  - done.
  - intros ii [uu' err'] _ [He Hc]. simpl in *. unfold isub.
    case_decide as Hlt.
    + unfold checked_update. split; [by right|done].
    + split; [done|]. simpl. intros Hu.
      apply counts_wr_checked; [by apply Hc|done].
  - intros [uu' err'] [He Hc]. unfold checked_update. split; [by left|].
    intros _. done.
Qed.

Lemma internal_transfer_event_checked (c : SimInf_thread_args (D := D))
    e ind uu err :
  checked_update uu err (internal_transfer_event c e ind uu err).
Proof.
  unfold internal_transfer_event.
  apply (for_range_inv
    (λ _ r, r.2 = err ∧ (counts uu → counts r.1))).
  - done.
  - intros ii [uu' err'] _ [He Hc]. simpl in *. unfold isub, iadd.
    case_decide as Hlt1; [unfold checked_update; split; [by right|done]|].
    case_decide as Hlt2; [unfold checked_update; split; [by right|done]|].
    split; [done|]. simpl. intros Hu.
    apply counts_wr_checked; [|done].
    apply counts_wr_checked; [by apply Hc|done].
  - intros [uu' err'] [He Hc]. unfold checked_update. split; [by left|].
    intros _. done.
Qed.

Lemma external_transfer_event_checked (c : SimInf_thread_args (D := D))
    e ind uu err :
  checked_update uu err (external_transfer_event c e ind uu err).
Proof.
  unfold external_transfer_event.
  apply (for_range_inv
    (λ _ r, r.2 = err ∧ (counts uu → counts r.1))).
  - done.
  - intros ii [uu' err'] _ [He Hc]. simpl in *. unfold isub, iadd.
    generalize (if decide (ev_shift e < 0) then 0
                else (N c).[ev_shift e * Nc c + (irE c).[ii]]). intros ll.
    case_decide as Hlt1; [unfold checked_update; split; [by right|done]|].
    case_decide as Hlt2; [unfold checked_update; split; [by right|done]|].
    split; [done|]. simpl. intros Hu.
    apply counts_wr_checked; [|done].
    apply counts_wr_checked; [by apply Hc|done].
  - intros [uu' err'] [He Hc]. unfold checked_update. split; [by left|].
    intros _. done.
Qed.

(** 1d) The rates only ever set [SIMINF_ERR_INVALID_RATE]. *)
Lemma check_rate_err (rate : D) err :
  check_rate rate err = err ∨ check_rate rate err = SIMINF_ERR_INVALID_RATE.
Proof. unfold check_rate. destruct (_ || _); [by right|by left]. Qed.

Lemma update_rates_err (c : SimInf_thread_args (D := D)) node tr uu vv t
    rates err :
  let r := update_rates c node tr uu vv t rates err in
  r.2 = err ∨ r.2 = SIMINF_ERR_INVALID_RATE.
Proof.
  unfold update_rates.
  apply (for_range_inv (λ _ r, r.2 = err ∨ r.2 = SIMINF_ERR_INVALID_RATE));
    [by left| |done].
  intros j [[rates' delta] err'] _ He. simpl in *.
  destruct (check_rate_err
    (call_tr_fun c (irG c).[j] node uu vv t) err') as [->| ->];
    [done|by right].
Qed.

Lemma all_rates_err (c : SimInf_thread_args (D := D)) node uu vv t rates err :
  let r := all_rates c node uu vv t rates err in
  r.2 = err ∨ r.2 = SIMINF_ERR_INVALID_RATE.
Proof.
  unfold all_rates.
  apply (for_range_inv (λ _ r, r.2 = err ∨ r.2 = SIMINF_ERR_INVALID_RATE));
    [by left| |done].
  intros j [[rates' delta] err'] _ He. simpl in *.
  destruct (check_rate_err (call_tr_fun c j node uu vv t) err') as [->| ->];
    [done|by right].
Qed.

Lemma ssa_ok_refl (sa : thread_state (D := D) (R := R)) uu :
  ssa_ok sa uu (sa, uu).
Proof. by split. Qed.

Lemma ssa_ok_trans (sa : thread_state (D := D) (R := R)) uu sa1 uu1 st :
  ssa_ok sa uu (sa1, uu1) → ssa_ok sa1 uu1 st → ssa_ok sa uu st.
Proof.
  intros [H1 H2] [H3 H4]. simpl in *. split; [by intros; apply H3, H1|].
  intros H0 Hu. apply H4; [done|]. apply H2; [|done].
  destruct (decide (errcode sa1 = 0)) as [|Hne]; [done|].
  by specialize (H3 Hne).
Qed.

Lemma ssa_step_ok (c : SimInf_thread_args (D := D)) node sa uu :
  match ssa_step c node sa uu with
  | Next st => ssa_ok sa uu st
  | Break st => ssa_ok sa uu st
  end.
Proof.
  unfold ssa_step.
  destruct (Dle _ _); [by split|].
  destruct (gsl_rng_uniform_pos (rng sa)) as [x r1]. simpl.
  destruct (Dle _ _); [by split|].
  destruct (gsl_rng_uniform_pos r1) as [y r2]. simpl.
  destruct (select_transition _ _ _ _) as [tr|]; [|by split].
  pose proof (update_state_checked c node tr uu (errcode sa)) as Hup.
  destruct (update_state c node tr uu (errcode sa)) as [uu' err'].
  match goal with
  | |- context [update_rates ?a ?b ?c ?d ?e ?f ?g ?h] =>
      pose proof (update_rates_err a b c d e f g h) as Hr;
      destruct (update_rates a b c d e f g h) as [[rates delta] err'']
  end.
  simpl in *. destruct Hup as [Hup1 Hup2]. simpl in *. split; simpl.
  - intros Hne. destruct Hr as [->| ->]; [|done].
    destruct Hup1 as [->| ->]; done.
  - intros H0 Hu. apply Hup2; [|done].
    destruct Hr as [->| ->]; [|done]. congruence.
Qed.

Lemma ssa_node_ok (c : SimInf_thread_args (D := D)) fuel node : ∀ sa uu st,
  ssa_node c fuel node sa uu = Some st → ssa_ok sa uu st.
Proof.
  induction fuel as [|k IH]; intros sa uu st H; [done|].
  simpl in H. pose proof (ssa_step_ok c node sa uu) as Hs.
  destruct (ssa_step c node sa uu) as [[sa1 uu1]|st1].
  - by eapply ssa_ok_trans, IH.
  - by injection H as <-.
Qed.

Lemma ssa_nodes_ok (c : SimInf_thread_args (D := D)) fuel cnt :
  ∀ node sa uu st,
    ssa_nodes c fuel cnt node sa uu = Some st → ssa_ok sa uu st.
Proof.
  induction cnt as [|k IH]; intros node sa uu st H; simpl in H.
  - injection H as <-. apply ssa_ok_refl.
  - case_decide; [|injection H as <-; apply ssa_ok_refl].
    destruct (ssa_node c fuel node sa uu) as [[sa1 uu1]|] eqn:E; [|done].
    eapply ssa_ok_trans; [by eapply ssa_node_ok|by eapply IH].
Qed.

Lemma phase_ok_refl (sa : thread_state (D := D) (R := R)) sh :
  phase_ok sa sh sa sh.
Proof. by split. Qed.

Lemma phase_ok_trans (sa : thread_state (D := D) (R := R)) sh sa1 sh1 sa2 sh2 :
  phase_ok sa sh sa1 sh1 → phase_ok sa1 sh1 sa2 sh2 → phase_ok sa sh sa2 sh2.
Proof.
  intros [H1 H2] [H3 H4]. split; [by intros; apply H3, H1|].
  intros H0 Hu. apply H4; [done|]. apply H2; [|done].
  destruct (decide (errcode sa1 = 0)) as [|Hne]; [done|].
  by specialize (H3 Hne).
Qed.

Lemma nonnegative_uu (sh : shared (D := D)) uu' :
  nonnegative sh → counts uu' → nonnegative (set_uu uu' sh).
Proof. intros (_ & HU & Hp) Hc. by split. Qed.

Lemma nonnegative_update_node (sh : shared (D := D)) un :
  nonnegative sh → nonnegative (set_update_node un sh).
Proof. by intros (Hc & HU & Hp). Qed.

(** (2) A scheduled E1 event, in a turn of the loop. *)
Lemma E1_step_ok (c : SimInf_thread_args (D := D)) sa sh :
  errcode sa = 0 →
  match E1_step c sa sh with
  | Next (sa', sh') => phase_ok sa sh sa' sh'
  | Break (sa', sh') => phase_ok sa sh sa' sh'
  end.
Proof.
  intros H0. unfold E1_step.
  set (e := rd ev0 (E1 c) (E1_index sa)).
  case_decide.
  - pose proof (enter_event_checked c e (uu sh) (errcode sa)) as Hup.
    destruct (enter_event c e (uu sh) (errcode sa)) as [uu' err'].
    split; [done|]. simpl. intros He Hn.
    apply nonnegative_update_node, nonnegative_uu; [done|].
    apply (checked_update_ok _ _ _ Hup He), Hn.
  - destruct (SimInf_sample_select _ _ _ _ _ _ _ _ _) as [[err ind] rng'].
    case_decide as Herr; [by split|].
    assert (err = 0) as -> by (destruct (decide (err = 0)); done).
    case_decide.
    + pose proof (exit_event_checked c e ind (uu sh) 0) as Hup.
      destruct (exit_event c e ind (uu sh) 0) as [uu' err'].
      split; [done|]. simpl. intros He Hn.
      apply nonnegative_update_node, nonnegative_uu; [done|].
      apply (checked_update_ok _ _ _ Hup He), Hn.
    + pose proof (internal_transfer_event_checked c e ind (uu sh) 0) as Hup.
      destruct (internal_transfer_event c e ind (uu sh) 0) as [uu' err'].
      split; [done|]. simpl. intros He Hn.
      apply nonnegative_update_node, nonnegative_uu; [done|].
      apply (checked_update_ok _ _ _ Hup He), Hn.
Qed.

Lemma E1_loop_ok (c : SimInf_thread_args (D := D)) cnt : ∀ sa sh,
  phase_ok sa sh (E1_loop c cnt sa sh).1 (E1_loop c cnt sa sh).2.
Proof.
  induction cnt as [|k IH]; intros sa sh; simpl; [apply phase_ok_refl|].
  destruct (E1_cond c sa) eqn:Hc; [|apply phase_ok_refl].
  unfold E1_cond in Hc. apply andb_prop in Hc as [_ H0].
  apply bool_decide_eq_true in H0.
  pose proof (E1_step_ok c sa sh H0) as Hs.
  destruct (E1_step c sa sh) as [[sa1 sh1]|[sa1 sh1]]; [|done].
  eapply phase_ok_trans; [done|apply IH].
Qed.

(** (3) A scheduled E2 event. *)
Lemma E2_step_ok (c : SimInf_thread_args (D := D)) sa sh :
  errcode sa = 0 →
  match E2_step c sa sh with
  | Next (sa', sh') => phase_ok sa sh sa' sh'
  | Break (sa', sh') => phase_ok sa sh sa' sh'
  end.
Proof.
  intros H0. unfold E2_step.
  set (e := rd ev0 (E2 c) (E2_index sa)).
  destruct (SimInf_sample_select _ _ _ _ _ _ _ _ _) as [[err ind] rng'].
  case_decide as Herr; [by split|].
  assert (err = 0) as -> by (destruct (decide (err = 0)); done).
  pose proof (external_transfer_event_checked c e ind (uu sh) 0) as Hup.
  destruct (external_transfer_event c e ind (uu sh) 0) as [uu' err'].
  split; [done|]. simpl. intros He Hn.
  apply nonnegative_update_node, nonnegative_uu; [done|].
  apply (checked_update_ok _ _ _ Hup He), Hn.
Qed.

Lemma E2_loop_ok (c : SimInf_thread_args (D := D)) cnt : ∀ sa sh,
  phase_ok sa sh (E2_loop c cnt sa sh).1 (E2_loop c cnt sa sh).2.
Proof.
  induction cnt as [|k IH]; intros sa sh; simpl; [apply phase_ok_refl|].
  destruct (E2_cond c sa) eqn:Hc; [|apply phase_ok_refl].
  unfold E2_cond in Hc. apply andb_prop in Hc as [_ H0].
  apply bool_decide_eq_true in H0.
  pose proof (E2_step_ok c sa sh H0) as Hs.
  destruct (E2_step c sa sh) as [[sa1 sh1]|[sa1 sh1]]; [|done].
  eapply phase_ok_trans; [done|apply IH].
Qed.

(** The first loop over the threads: (1) and (2). *)
Lemma ssa_phase_ok (c : SimInf_thread_args (D := D)) fuel sa sh sa' sh' :
  ssa_phase c fuel sa sh = Some (sa', sh') → phase_ok sa sh sa' sh'.
Proof.
  unfold ssa_phase. intros H.
  destruct (ssa_nodes c fuel _ 0 sa (uu sh)) as [[sa1 uu1]|] eqn:E; [|done].
  apply ssa_nodes_ok in E as [Hs1 Hs2]. simpl in *.
  injection H as H.
  pose proof (E1_loop_ok c (Z.to_nat (len (E1 c) - E1_index sa1)) sa1
    (set_uu uu1 sh)) as Hl.
  unfold SimInf_process_E1_events in H. rewrite H in Hl. simpl in Hl.
  eapply phase_ok_trans; [|exact Hl].
  split; [done|]. intros H0 Hn. apply nonnegative_uu; [done|].
  apply Hs2; [done|apply Hn].
Qed.

Lemma memcpy_nonneg (dst src : list Z) doff soff n :
  (∀ k, 0 ≤ dst.[k]) → (∀ k, 0 ≤ src.[k]) →
  ∀ k, 0 ≤ (memcpy 0 dst doff src soff n).[k].
Proof.
  intros Hd Hs. unfold memcpy. revert dst Hd.
  induction (seqZ 0 n) as [|j l IH]; intros dst Hd; [done|].
  simpl. apply IH. intros k. rewrite rd_wr. case_decide; [apply Hs|apply Hd].
Qed.

(** (4) The post time step function and the update of the rates. *)
Lemma post_step_node_ok (c : SimInf_thread_args (D := D)) node
    (sa : thread_state (D := D) (R := R)) sh :
  match post_step_node c node (sa, sh) with
  | Next (sa', sh') => phase_ok sa sh sa' sh'
  | Break (sa', sh') => phase_ok sa sh sa' sh'
  end.
Proof.
  unfold post_step_node.
  destruct (pts_fun c _ _ _ _ _ _ _) as [rc w].
  case_decide as Hrc; [split; simpl; [lia|done]|].
  case_decide; [|by split].
  match goal with
  | |- context [all_rates ?a ?b ?c ?d ?e ?f ?g] =>
      pose proof (all_rates_err a b c d e f g) as Hr;
      destruct (all_rates a b c d e f g) as [[rates delta] err']
  end.
  simpl in *. split; simpl.
  - intros Hne. destruct Hr as [->| ->]; done.
  - intros _ Hn. by apply nonnegative_update_node.
Qed.

Lemma post_steps_ok (c : SimInf_thread_args (D := D))
    (sa : thread_state (D := D) (R := R)) sh :
  let st := for_range 0 (Nn c) (post_step_node c) (sa, sh) in
  phase_ok sa sh st.1 st.2.
Proof.
  apply (for_range_inv (λ _ st, phase_ok sa sh st.1 st.2)).
  - apply phase_ok_refl.
  - intros node [sa1 sh1] _ Hp. simpl in Hp.
    pose proof (post_step_node_ok c node sa1 sh1) as Hs.
    destruct (post_step_node c node (sa1, sh1)) as [[sa2 sh2]|[sa2 sh2]];
      simpl; by eapply phase_ok_trans.
  - done.
Qed.

(** 6) The solution is stored. *)
Lemma store_U_ok (c : SimInf_thread_args (D := D)) cnt :
  ∀ (sa : thread_state (D := D) (R := R)) sh,
  let st := store_U c cnt sa sh in
  errcode st.1 = errcode sa ∧ (nonnegative sh → nonnegative st.2).
Proof.
  induction cnt as [|k IH]; intros sa sh; simpl; [done|].
  destruct (_ && _); [|done].
  match goal with
  | |- context [store_U c k ?a ?b] => destruct (IH a b) as [He Hn]
  end.
  split; [done|]. intros (Hc & HU & Hp). apply Hn.
  split; [done|]. split; [|done]. simpl.
  apply memcpy_nonneg; [done|]. intros j. apply Hc.
Qed.

Lemma store_V_ok (c : SimInf_thread_args (D := D)) cnt :
  ∀ (sa : thread_state (D := D) (R := R)) sh,
  let st := store_V c cnt sa sh in
  errcode st.1 = errcode sa ∧ (nonnegative sh → nonnegative st.2).
Proof.
  induction cnt as [|k IH]; intros sa sh; simpl; [done|].
  destruct (_ && _); [|done].
  match goal with
  | |- context [store_V c k ?a ?b] => destruct (IH a b) as [He Hn]
  end.
  split; [done|]. intros Hsh. by apply Hn.
Qed.

Lemma store_U_sparse_ok (c : SimInf_thread_args (D := D)) cnt :
  ∀ (sa : thread_state (D := D) (R := R)) sh,
  let st := store_U_sparse c cnt sa sh in
  errcode st.1 = errcode sa ∧ (nonnegative sh → nonnegative st.2).
Proof.
  induction cnt as [|k IH]; intros sa sh; simpl; [done|].
  destruct (_ && _); [|done].
  match goal with
  | |- context [store_U_sparse c k ?a ?b] => destruct (IH a b) as [He Hn]
  end.
  split; [done|]. intros (Hc & HU & Hp). apply Hn.
  split; [done|]. split; [done|]. simpl.
  apply (for_range_inv (λ _ (pr : list Z), ∀ j, 0 ≤ pr.[j])); [done| |done].
  intros j pr _ Hpr i. rewrite rd_wr. case_decide; [apply Hc|apply Hpr].
Qed.

Lemma store_V_sparse_ok (c : SimInf_thread_args (D := D)) cnt :
  ∀ (sa : thread_state (D := D) (R := R)) sh,
  let st := store_V_sparse c cnt sa sh in
  errcode st.1 = errcode sa ∧ (nonnegative sh → nonnegative st.2).
Proof.
  induction cnt as [|k IH]; intros sa sh; simpl; [done|].
  destruct (_ && _); [|done].
  match goal with
  | |- context [store_V_sparse c k ?a ?b] => destruct (IH a b) as [He Hn]
  end.
  split; [done|]. intros Hsh. by apply Hn.
Qed.

(** The second loop over the threads: (4), (5) and (6a). *)
Lemma post_phase_ok (c : SimInf_thread_args (D := D))
    (sa : thread_state (D := D) (R := R)) sh :
  phase_ok sa sh (post_phase c sa sh).1 (post_phase c sa sh).2.
Proof.
  unfold post_phase.
  pose proof (post_steps_ok c sa sh) as Hp. cbv zeta in Hp.
  destruct (for_range 0 (Nn c) (post_step_node c) (sa, sh)) as [sa1 sh1].
  simpl in Hp.
  match goal with
  | |- context [store_U c ?n ?a ?b] =>
      pose proof (store_U_ok c n a b) as HU;
      destruct (store_U c n a b) as [sa2 sh2]
  end.
  pose proof (store_V_ok c (Z.to_nat (tlen c - V_it sa2)) sa2 sh2) as HV.
  destruct (store_V c _ sa2 sh2) as [sa3 sh3].
  simpl in *. destruct HU as [HU1 HU2]. destruct HV as [HV1 HV2].
  eapply phase_ok_trans; [exact Hp|].
  split; [congruence|]. intros _ Hn. auto.
Qed.

Lemma store_solution_sparse_ok (c : SimInf_thread_args (D := D))
    (sa : thread_state (D := D) (R := R)) sh :
  phase_ok sa sh (SimInf_store_solution_sparse c sa sh).1
    (SimInf_store_solution_sparse c sa sh).2.
Proof.
  unfold SimInf_store_solution_sparse.
  pose proof (store_U_sparse_ok c (Z.to_nat (tlen c - U_it sa)) sa sh) as HU.
  destruct (store_U_sparse c _ sa sh) as [sa2 sh2].
  pose proof (store_V_sparse_ok c (Z.to_nat (tlen c - V_it sa2)) sa2 sh2)
    as HV.
  destruct (store_V_sparse c _ sa2 sh2) as [sa3 sh3].
  simpl in *. destruct HU as [HU1 HU2]. destruct HV as [HV1 HV2].
  split; [congruence|]. intros _ Hn. auto.
Qed.

(** The threads together. *)
Lemma first_error_cons (c : SimInf_thread_args (D := D))
    (sa : thread_state (D := D) (R := R)) ts :
  first_error ((c, sa) :: ts) = 0 ↔ errcode sa = 0 ∧ first_error ts = 0.
Proof. simpl. case_decide; [|tauto]. split; [done|]. intros [? _]. done. Qed.

Lemma run_ok_refl (ts : list (thread (D := D) (R := R))) sh : run_ok ts sh ts sh.
Proof. by split. Qed.

Lemma run_ok_trans (ts : list (thread (D := D) (R := R))) sh ts1 sh1 ts2 sh2 :
  run_ok ts sh ts1 sh1 → run_ok ts1 sh1 ts2 sh2 → run_ok ts sh ts2 sh2.
Proof.
  intros [H1 H2] [H3 H4]. split; [by intros; apply H3, H1|].
  intros H0 Hu. apply H4; [done|]. apply H2; [|done].
  destruct (decide (first_error ts1 = 0)) as [|Hne]; [done|].
  by specialize (H3 Hne).
Qed.

Lemma omp_for_ok f :
  (∀ c (sa : thread_state (D := D) (R := R)) sh sa' sh',
     f c sa sh = Some (sa', sh') → phase_ok sa sh sa' sh') →
  ∀ ts sh ts' sh',
    omp_for f ts sh = Some (ts', sh') → run_ok ts sh ts' sh'.
Proof.
  intros Hf. induction ts as [|[c sa] ts IH]; intros sh ts' sh' H; simpl in H.
  - injection H as <- <-. apply run_ok_refl.
  - destruct (f c sa sh) as [[sa1 sh1]|] eqn:E1; [|done].
    destruct (omp_for f ts sh1) as [[ts1 sh2]|] eqn:E2; [|done].
    injection H as <- <-.
    apply Hf in E1 as [Hp1 Hp2]. apply IH in E2 as [Hr1 Hr2].
    split.
    + rewrite !first_error_cons. intros Hne [Ha Hb]. apply Hne.
      split.
      * destruct (decide (errcode sa = 0)) as [|Hn]; [done|].
        by specialize (Hp1 Hn).
      * destruct (decide (first_error ts = 0)) as [|Hn]; [done|].
        by specialize (Hr1 Hn).
    + rewrite first_error_cons. intros [Ha Hb] Hn. auto.
Qed.

Lemma on_master_ok f :
  (∀ c (sa : thread_state (D := D) (R := R)) sh,
     phase_ok sa sh (f c sa sh).1 (f c sa sh).2) →
  ∀ ts sh ts' sh',
    on_master f ts sh = Some (ts', sh') → run_ok ts sh ts' sh'.
Proof.
  intros Hf [|[c sa] ts] sh ts' sh' H; simpl in H; [done|].
  specialize (Hf c sa sh). destruct (f c sa sh) as [sa1 sh1].
  injection H as <- <-. destruct Hf as [Hp1 Hp2]. simpl in *.
  split.
  - rewrite !first_error_cons. intros Hne [Ha Hb]. apply Hne.
    split; [|done].
    destruct (decide (errcode sa = 0)) as [|Hn]; [done|].
    by specialize (Hp1 Hn).
  - rewrite first_error_cons. intros [Ha Hb] Hn. auto.
Qed.

Lemma first_error_swap (ts : list (thread (D := D) (R := R))) :
  first_error (swap_v <$> ts) = first_error ts.
Proof.
  induction ts as [|[c sa] ts IH]; [done|].
  rewrite fmap_cons. simpl. by rewrite IH.
Qed.

(** One turn of the main loop. *)
Lemma day_ok fuel (ts : list (thread (D := D) (R := R))) sh ts' sh' :
  day fuel ts sh = Some (ts', sh') → run_ok ts sh ts' sh'.
Proof.
  unfold day. intros H.
  destruct (omp_for _ ts sh) as [[ts1 sh1]|] eqn:E1; [|done].
  destruct (on_master _ ts1 sh1) as [[ts2 sh2]|] eqn:E2; [|done].
  destruct (omp_for _ ts2 sh2) as [[ts3 sh3]|] eqn:E3; [|done].
  destruct (on_master _ ts3 sh3) as [[ts4 sh4]|] eqn:E4; [|done].
  injection H as <- <-.
  apply omp_for_ok in E1; [|intros; by eapply ssa_phase_ok].
  apply on_master_ok in E2; [|intros; apply E2_loop_ok].
  apply omp_for_ok in E3.
  2:{ intros c sa0 sh0 sa' sh0' H. injection H as H.
      pose proof (post_phase_ok c sa0 sh0) as Hp. by rewrite H in Hp. }
  apply on_master_ok in E4; [|intros; apply store_solution_sparse_ok].
  eapply run_ok_trans; [exact E1|]. eapply run_ok_trans; [exact E2|].
  eapply run_ok_trans; [exact E3|].
  destruct E4 as [H1 H2]. split; rewrite first_error_swap; done.
Qed.

(** The main loop: an error code at the start of a turn is returned, and
    a run that returns 0 keeps the numbers from being negative. *)
Lemma main_loop_ok days fuel :
  ∀ (ts : list (thread (D := D) (R := R))) sh ret sh',
    main_loop days fuel ts sh = Some (ret, sh') →
    (first_error ts ≠ 0 → ret ≠ 0) ∧
    (ret = 0 → nonnegative sh → nonnegative sh').
Proof.
  induction days as [|k IH]; intros ts sh ret sh' H; [done|].
  simpl in H.
  destruct (day fuel ts sh) as [[ts1 sh1]|] eqn:E; [|done].
  apply day_ok in E as [Hd1 Hd2].
  case_decide as Herr.
  - injection H as <- <-. by split.
  - assert (first_error ts1 = 0) as H0
      by (destruct (decide (first_error ts1 = 0)); done).
    destruct (final_time ts1).
    + injection H as <- <-. split; [by intros ?%Hd1|auto].
    + apply IH in H as [Hi1 Hi2]. split; [by intros ?%Hd1|auto].
Qed.

Lemma init_rates_errcode (c : SimInf_thread_args (D := D))
    (sa : thread_state (D := D) (R := R)) sh :
  errcode sa ≠ 0 → errcode (init_rates c sa sh) ≠ 0.
Proof.
  intros Hne. unfold init_rates.
  apply (for_range_inv (λ _ (s : thread_state), errcode s ≠ 0)); [done| |done].
  intros node sa1 _ H1. simpl.
  apply (for_range_inv (λ _ (s : thread_state), errcode s ≠ 0)); [done| |done].
  intros j sa2 _ H2. simpl.
  destruct (check_rate_err
    (call_tr_fun c j node (uu sh) (v sa2) (tt sa2)) (errcode sa2))
    as [->| ->]; done.
Qed.

Lemma solver_ssa_ok days fuel (ts : list (thread (D := D) (R := R))) sh sh' :
  SimInf_solver_ssa days fuel ts sh = Some (0, sh') →
  nonnegative sh → nonnegative sh'.
Proof.
  unfold SimInf_solver_ssa. case_decide as He.
  - intros H. injection H as H0 <-. done.
  - intros H. apply main_loop_ok in H as [_ H]. by apply H.
Qed.

Lemma counts_slice (a : list Z) off n : counts a → counts (slice 0 a off n).
Proof.
  intros Ha k. unfold INT_MAX.
  destruct (decide (0 ≤ k < n)) as [Hk|Hk].
  - rewrite rd_slice by done. apply Ha.
  - rewrite rd_out; [lia|]. rewrite len_slice. lia.
Qed.

Lemma shared_init_nonnegative (a : SimInf_solver_args (D := D)) :
  counts (args_u0 a) →
  (∀ U k, args_U a = Some U → 0 ≤ U.[k]) →
  (∀ k, 0 ≤ (args_prU a).[k]) →
  nonnegative (shared_init a).
Proof.
  intros Hu HU Hp. unfold shared_init. split; [|split]; simpl.
  - by apply counts_slice.
  - destruct (args_U a) as [U|] eqn:E.
    + apply memcpy_nonneg; [by intros k; apply (HU U)|]. intros k. apply Hu.
    + intros k. by rewrite rd_out by (unfold len; simpl; lia).
  - destruct (args_U a); [done|].
    apply (for_range_inv (λ _ (pr : list Z), ∀ j, 0 ≤ pr.[j])); [done| |done].
    intros j pr _ Hpr i. rewrite rd_wr. case_decide; [apply Hu|apply Hpr].
Qed.

Lemma run_solver_ssa_ok days fuel (a : SimInf_solver_args (D := D))
    (junk : list D) (sh' : shared) :
  SimInf_run_solver_ssa (R := R) days fuel a junk = Some (0, sh') →
  counts (args_u0 a) →
  (∀ U k, args_U a = Some U → 0 ≤ U.[k]) →
  (∀ k, 0 ≤ (args_prU a).[k]) →
  nonnegative sh'.
Proof.
  unfold SimInf_run_solver_ssa. intros H Hu HU Hp.
  pose proof (shared_init_nonnegative a Hu HU Hp) as Hn.
  destruct (SimInf_split_events _ _ _) as [|e|q1 q2]; [done| |].
  - by injection H as _ <-.
  - by eapply solver_ssa_ok.
Qed.

(** The same with the allocations: the returns of an allocation that
    fails leave the arrays as they were or with the initial state. *)
Lemma run_solver_ssa_alloc_ok (m : allocations) days fuel
    (a : SimInf_solver_args (D := D)) (junk : list D) (sh' : shared) :
  SimInf_run_solver_ssa_alloc (R := R) m days fuel a junk = Some (0, sh') →
  counts (args_u0 a) →
  (∀ U k, args_U a = Some U → 0 ≤ U.[k]) →
  (∀ k, 0 ≤ (args_prU a).[k]) →
  nonnegative sh'.
Proof.
  unfold SimInf_run_solver_ssa_alloc. intros H Hu HU Hp.
  pose proof (shared_init_nonnegative a Hu HU Hp) as (Hn1 & Hn2 & Hn3).
  destruct (negb (alloc_uu m)).
  { injection H as _ <-. unfold nonnegative, shared_args. cbn [uu U prU].
    split; [|split; [|done]].
    - intros k. rewrite rd_out by (unfold len; simpl; lia).
      unfold INT_MAX. lia.
    - intros k. destruct (args_U a) as [U0|] eqn:EU; simpl.
      + by apply HU.
      + by rewrite rd_out by (unfold len; simpl; lia). }
  destruct (negb (alloc_vv_1 m) || negb (alloc_vv_2 m)).
  { injection H as _ <-. exact (conj Hn1 (conj Hn2 Hn3)). }
  destruct (negb (alloc_update_node m)).
  { injection H as _ <-. exact (conj Hn1 (conj Hn2 Hn3)). }
  destruct (negb (alloc_rng m)).
  { injection H as _ <-. exact (conj Hn1 (conj Hn2 Hn3)). }
  destruct (negb (alloc_sim_args m)).
  { injection H as _ <-. exact (conj Hn1 (conj Hn2 Hn3)). }
  destruct (negb (allocate_threads m (args_Nthread a))).
  { injection H as _ <-. exact (conj Hn1 (conj Hn2 Hn3)). }
  destruct (SimInf_split_events_alloc _ _ _ _) as [|e|q1 q2]; [done| |].
  - injection H as _ <-. exact (conj Hn1 (conj Hn2 Hn3)).
  - eapply solver_ssa_ok; [exact H|]. exact (conj Hn1 (conj Hn2 Hn3)).
Qed.

End NonNegative.

(** C1. An update of the state by a transition that leaves a compartment
    negative is to end the run with [SIMINF_ERR_NEGATIVE_STATE], as an
    event that does so ends it, and no negative count is to be seen.
    The update of the SSA sets the error code and goes on, where the
    loops over the events leave at once.  One node with one compartment,
    empty, and one transition that takes an individual away at the rate
    [2 u + 1]: the first step leaves the compartment at -1 and sets
    [SIMINF_ERR_NEGATIVE_STATE]; the rate is then calculated again, is
    negative, and the error code becomes [SIMINF_ERR_INVALID_RATE],
    which the solver returns at the end of the day, after the state -1
    was stored in U.  The same compartment with an ENTER event of -1
    individual and no transition that fires: the run returns
    [SIMINF_ERR_NEGATIVE_STATE]. *)
Lemma negative_state_overwritten :
  let rate : PropensityFun (D := Q) := λ u _ _ _ _, inject_Z (2 * u.[0] + 1) in
  let a := model_of 1 1 1 1 [0] [0; 1 # 2]%Q [0] [0; 1] [0] [0; 1] [-1] []
             [0] [] [rate] [] in
  let c := thread_args a 0 [] [] in
  let b := model_of 1 1 1 1 [0] [0; 1 # 2]%Q [0] [0; 1] [0] [0; 1] [0] [0]
             [0; 1] [] [λ _ _ _ _ _, 0%Q]
             [{| ev_event := ENTER_EVENT; ev_time := 0;
                 ev_node := 1; ev_dest := 0; ev_n := -1;
                 ev_proportion := 0%Q; ev_select := 1; ev_shift := 0 |}] in
  update_state c 0 0 [0] 0 = ([-1], SIMINF_ERR_NEGATIVE_STATE) ∧
  (∃ sh, SimInf_run_solver_ssa 1 2 a [] = Some (SIMINF_ERR_INVALID_RATE, sh) ∧
         SimInf_run_solver_ssa_alloc all_allocated 1 2 a [] =
           Some (SIMINF_ERR_INVALID_RATE, sh) ∧
         SIMINF_ERR_INVALID_RATE ≠ SIMINF_ERR_NEGATIVE_STATE ∧
         uu sh = [-1] ∧ U sh = [0; -1]) ∧
  (∃ sh, SimInf_run_solver_ssa 1 2 b [] =
           Some (SIMINF_ERR_NEGATIVE_STATE, sh)).
Proof.
  intros rate a c b. split; [vm_compute; reflexivity|]. split.
  - eexists. split; [vm_compute; reflexivity|].
    split; [vm_compute; reflexivity|]. split; [discriminate|].
    split; reflexivity.
  - eexists. vm_compute. reflexivity.
Qed.

(** X27. Each update of [uu] with its tests (the update of the
    state by a transition, and the ENTER, EXIT, INTERNAL_TRANSFER and
    EXTERNAL_TRANSFER events) keeps the error code or sets it to
    [SIMINF_ERR_NEGATIVE_STATE], and sets it when it leaves a
    compartment negative.  An error code of a thread
    that is set is not cleared by the steps of the SSA, by the two loops
    over the threads, by the events E2 or by the storing of the
    solution, so a turn of the main loop that ends does so with an error
    and the main loop returns the error code of the first thread that
    has one.  In a run that returns 0, whatever the allocations, the
    states and the stored solution hold no negative number at the end,
    if they held none at the start. *)
Theorem negative_state_detected {D R : Type} {FD : Float64 D}
    {GR : Gsl R D} {EC : SimInf_h} :
  SIMINF_ERR_NEGATIVE_STATE ≠ 0 →
  SIMINF_ERR_INVALID_RATE ≠ 0 →
  (∀ (c : SimInf_thread_args (D := D)) node tr uu err,
     checked_update uu err (update_state c node tr uu err)) ∧
  (∀ (c : SimInf_thread_args (D := D)) e uu err,
     checked_update uu err (enter_event c e uu err)) ∧
  (∀ (c : SimInf_thread_args (D := D)) e ind uu err,
     checked_update uu err (exit_event c e ind uu err)) ∧
  (∀ (c : SimInf_thread_args (D := D)) e ind uu err,
     checked_update uu err (internal_transfer_event c e ind uu err)) ∧
  (∀ (c : SimInf_thread_args (D := D)) e ind uu err,
     checked_update uu err (external_transfer_event c e ind uu err)) ∧
  (∀ (c : SimInf_thread_args (D := D)) node
     (sa : thread_state (D := D) (R := R)) uu,
     match ssa_step c node sa uu with
     | Next st => ssa_ok sa uu st
     | Break st => ssa_ok sa uu st
     end) ∧
  (∀ c fuel (sa : thread_state (D := D) (R := R)) sh sa' sh',
     ssa_phase c fuel sa sh = Some (sa', sh') → phase_ok sa sh sa' sh') ∧
  (∀ c (sa : thread_state (D := D) (R := R)) sh,
     phase_ok sa sh (SimInf_process_E2_events c sa sh).1
       (SimInf_process_E2_events c sa sh).2) ∧
  (∀ c (sa : thread_state (D := D) (R := R)) sh,
     phase_ok sa sh (post_phase c sa sh).1 (post_phase c sa sh).2) ∧
  (∀ fuel (ts : list (thread (D := D) (R := R))) sh ts' sh',
     day fuel ts sh = Some (ts', sh') → run_ok ts sh ts' sh') ∧
  (∀ days fuel (ts : list (thread (D := D) (R := R))) sh ts' sh',
     day fuel ts sh = Some (ts', sh') → first_error ts' ≠ 0 →
     main_loop (S days) fuel ts sh = Some (first_error ts', sh')) ∧
  (∀ m days fuel (a : SimInf_solver_args (D := D)) (junk : list D) sh',
     SimInf_run_solver_ssa_alloc (R := R) m days fuel a junk =
       Some (0, sh') →
     counts (args_u0 a) →
     (∀ U k, args_U a = Some U → 0 ≤ U.[k]) →
     (∀ k, 0 ≤ (args_prU a).[k]) →
     nonnegative sh').
Proof.
  intros Hneg Hinv.
  split; [intros; apply update_state_checked|].
  split; [intros; apply enter_event_checked|].
  split; [intros; apply exit_event_checked|].
  split; [intros; apply internal_transfer_event_checked|].
  split; [intros; apply external_transfer_event_checked|].
  split; [intros; by apply ssa_step_ok|].
  split; [intros; by eapply ssa_phase_ok|].
  split; [intros; by apply E2_loop_ok|].
  split; [intros; by apply post_phase_ok|].
  split; [intros; by eapply day_ok|].
  split.
  - intros days fuel ts sh ts' sh' Hd He. simpl. rewrite Hd.
    by rewrite decide_True.
  - intros m days fuel a junk sh' H Hu HU Hp.
    by eapply (run_solver_ssa_alloc_ok Hneg Hinv).
Qed.

(** The transfer of three of the five individuals of node 1 to node 2
    on day 3, reported on days 0 to 5. *)
Lemma negative_state_detected_witness :
  let a := model_of 2 1 1 1 [5; 0]
             ((λ k, inject_Z k) <$> seqZ 0 6) [] [0; 0] [] [0; 0] [] [0]
             [0; 1] [] [λ _ _ _ _ _, 0%Q]
             [{| ev_event := EXTERNAL_TRANSFER_EVENT; ev_time := 3;
                 ev_node := 1; ev_dest := 2; ev_n := 3;
                 ev_proportion := 0%Q; ev_select := 1; ev_shift := 0 |}] in
  ∃ sh', SimInf_run_solver_ssa_alloc all_allocated 7 1 a [] =
           Some (0, sh') ∧
         U sh' = [5; 0; 5; 0; 5; 0; 2; 3; 2; 3; 2; 3] ∧
         nonnegative sh'.
Proof.
  intros a. eexists. split; [vm_compute; reflexivity|].
  split; [reflexivity|].
  assert (SIMINF_ERR_NEGATIVE_STATE ≠ 0) as Hneg by discriminate.
  assert (SIMINF_ERR_INVALID_RATE ≠ 0) as Hinv by discriminate.
  destruct (negative_state_detected (D := Q) (R := list positive) Hneg Hinv)
    as (_ & _ & _ & _ & _ & _ & _ & _ & _ & _ & _ & Hrun).
  apply (Hrun all_allocated 7%nat 1%nat a []).
  - vm_compute. reflexivity.
  - apply counts_Forall. repeat constructor; unfold INT_MAX; lia.
  - intros U k HU. unfold a, model_of in HU. cbn [args_U] in HU.
    injection HU as <-. apply nonneg_Forall.
    vm_compute. repeat constructor; discriminate.
  - intros k. by rewrite rd_out by (unfold len; simpl; lia).
Defined.

(** ** The day of a scheduled event *)

Section EventDay.
Context {D R : Type} {FD : Float64 D} {GR : Gsl R D} {EC : SimInf_h}.
Variable c : SimInf_thread_args (D := D).

#[local] Abbreviation state := (thread_state (D := D) (R := R)).

Lemma same_day_refl (sa : state) : same_day sa sa.
Proof. done. Qed.

Lemma same_day_trans (sa sa1 sa2 : state) :
  same_day sa sa1 → same_day sa1 sa2 → same_day sa sa2.
Proof. unfold same_day. intros (->&->&->&->) (->&->&->&->). done. Qed.

Lemma ssa_frame_refl node (sa : state) : ssa_frame node sa sa.
Proof. by repeat split. Qed.

Lemma ssa_frame_trans node (sa sa1 sa2 : state) :
  ssa_frame node sa sa1 → ssa_frame node sa1 sa2 → ssa_frame node sa sa2.
Proof.
  intros (Hd1 & Ht1 & Hs1 & Hn1) (Hd2 & Ht2 & Hs2 & Hn2).
  split; [by eapply same_day_trans|]. split; [congruence|].
  split; [congruence|]. intros n Hn.
  destruct (Hn1 n Hn) as [<- <-]. by apply Hn2.
Qed.

Lemma ssa_step_frame node (sa : state) uu :
  0 ≤ node < len (t_time sa) → len (sum_t_rate sa) = len (t_time sa) →
  match ssa_step c node sa uu with
  | Next st => ssa_frame node sa st.1
  | Break st => ssa_frame node sa st.1 ∧ advanced (next_day sa) st.1 node
  end.
Proof.
  intros Hnode Hlen. unfold ssa_step.
  destruct (Dle _ _).
  { simpl. split.
    - split; [done|]. split; [apply len_wr|]. split; [done|].
      intros n Hn. split; [by apply rd_wr_ne|done].
    - left. simpl. by apply rd_wr_eq. }
  destruct (gsl_rng_uniform_pos (rng sa)) as [x r1]. simpl.
  destruct (Dle _ _).
  { simpl. split.
    - split; [done|]. split; [apply len_wr|]. split; [done|].
      intros n Hn. split; [by apply rd_wr_ne|done].
    - left. simpl. by apply rd_wr_eq. }
  destruct (gsl_rng_uniform_pos r1) as [y r2]. simpl.
  destruct (select_transition _ _ _ _) as [tr|].
  - destruct (update_state c node tr uu (errcode sa)) as [uu' err'].
    destruct (update_rates _ _ _ _ _ _ _ _) as [[rates delta] err''].
    simpl. split; [done|]. split; [apply len_wr|]. split; [apply len_wr|].
    intros n Hn. split; by apply rd_wr_ne.
  - simpl. split.
    + split; [done|]. split; [apply len_wr|]. split; [apply len_wr|].
      intros n Hn. split; by apply rd_wr_ne.
    + right. simpl. apply rd_wr_eq. lia.
Qed.

Lemma ssa_node_frame fuel node : ∀ (sa : state) uu st,
  0 ≤ node < len (t_time sa) → len (sum_t_rate sa) = len (t_time sa) →
  ssa_node c fuel node sa uu = Some st →
  ssa_frame node sa st.1 ∧ advanced (next_day sa) st.1 node.
Proof.
  induction fuel as [|k IH]; intros sa uu st Hnode Hlen H; [done|].
  simpl in H. pose proof (ssa_step_frame node sa uu Hnode Hlen) as Hs.
  destruct (ssa_step c node sa uu) as [[sa1 uu1]|st1].
  - simpl in Hs. pose proof Hs as (Hd & Ht & Hsu & _).
    destruct (IH sa1 uu1 st ltac:(lia) ltac:(lia) H) as [Hf Ha].
    split; [by eapply ssa_frame_trans|].
    destruct Hd as (_ & <- & _). done.
  - by injection H as <-.
Qed.

(** After the loop over the nodes, without error, the SSA is through
    with every node of the thread. *)
Lemma ssa_nodes_advanced fuel cnt : ∀ node0 (sa : state) uu st,
  0 ≤ node0 → node0 + Z.of_nat cnt ≤ len (t_time sa) →
  len (sum_t_rate sa) = len (t_time sa) →
  ssa_nodes c fuel cnt node0 sa uu = Some st →
  same_day sa st.1 ∧
  len (t_time st.1) = len (t_time sa) ∧
  len (sum_t_rate st.1) = len (sum_t_rate sa) ∧
  (∀ n, n < node0 →
     rd D0 (t_time st.1) n = rd D0 (t_time sa) n ∧
     rd D0 (sum_t_rate st.1) n = rd D0 (sum_t_rate sa) n) ∧
  (errcode st.1 = 0 →
   ∀ n, node0 ≤ n < node0 + Z.of_nat cnt → advanced (next_day sa) st.1 n).
Proof.
  induction cnt as [|k IH]; intros node0 sa uu st H0 Hcnt Hlen H; simpl in H.
  - injection H as <-. simpl. repeat split; try done. intros _ n Hn. lia.
  - case_decide as He.
    2:{ injection H as <-. simpl. repeat split; done. }
    destruct (ssa_node c fuel node0 sa uu) as [[sa1 uu1]|] eqn:E; [|done].
    apply ssa_node_frame in E as [(Hd & Ht & Hs & Hn) Ha]; [|lia|done].
    simpl in *.
    destruct (IH (node0 + 1) sa1 uu1 st ltac:(lia) ltac:(lia) ltac:(lia) H)
      as (Hd' & Ht' & Hs' & Hn' & Ha').
    split; [by eapply same_day_trans|]. split; [congruence|].
    split; [congruence|]. split.
    + intros n Hlt. destruct (Hn n ltac:(lia)) as [<- <-].
      apply Hn'. lia.
    + intros H0' n Hrange.
      assert (next_day sa1 = next_day sa) as Hnd by apply Hd.
      destruct (decide (n = node0)) as [->|Hne].
      * destruct (Hn' node0 ltac:(lia)) as [Et Es].
        unfold advanced in *. rewrite Et, Es. done.
      * rewrite <- Hnd. apply Ha'; [done|lia].
Qed.

(** A turn of the loop over the E1 events consumes the event it is at,
    or stops with an error. *)
Lemma E1_step_index (sa : state) sh :
  match E1_step c sa sh with
  | Next st =>
      tt st.1 = tt sa ∧ next_day st.1 = next_day sa ∧
      E2_index st.1 = E2_index sa ∧ E1_index st.1 = E1_index sa + 1
  | Break st => same_day sa st.1 ∧ errcode st.1 ≠ 0
  end.
Proof.
  unfold E1_step. case_decide.
  - by destruct (enter_event _ _ _ _).
  - destruct (SimInf_sample_select _ _ _ _ _ _ _ _ _) as [[err ind] rng'].
    case_decide; [done|]. case_decide.
    + by destruct (exit_event _ _ _ _ _).
    + by destruct (internal_transfer_event _ _ _ _ _).
Qed.

(** The loop over the E1 events applies the events at the head of the
    queue whose time the clock [tt] has reached, and no other. *)
Lemma E1_loop_due cnt : ∀ (sa : state) sh,
  Z.of_nat cnt = Z.max 0 (len (E1 c) - E1_index sa) →
  let st := E1_loop c cnt sa sh in
  tt st.1 = tt sa ∧ next_day st.1 = next_day sa ∧
  E2_index st.1 = E2_index sa ∧
  E1_index sa ≤ E1_index st.1 ∧
  (∀ j, E1_index sa ≤ j < E1_index st.1 →
     Dle (of_int (ev_time (rd ev0 (E1 c) j))) (tt sa) = true) ∧
  (errcode st.1 = 0 → E1_index st.1 < len (E1 c) →
   Dle (of_int (ev_time (rd ev0 (E1 c) (E1_index st.1)))) (tt sa) = false).
Proof.
  induction cnt as [|k IH]; intros sa sh Hcnt; simpl.
  - repeat split; try done; try lia; intros; lia.
  - destruct (E1_cond c sa) eqn:Hc.
    2:{ simpl. repeat split; try done; try lia; try (intros j Hj; lia).
        intros He Hlt. unfold E1_cond in Hc.
        rewrite bool_decide_eq_true_2 in Hc by done.
        rewrite (bool_decide_eq_true_2 _ He) in Hc. simpl in Hc.
        by rewrite andb_true_r in Hc. }
    unfold E1_cond in Hc. apply andb_prop in Hc as [Hc He].
    apply andb_prop in Hc as [Hlt Hdue].
    apply bool_decide_eq_true in Hlt, He.
    pose proof (E1_step_index sa sh) as Hs.
    destruct (E1_step c sa sh) as [[sa1 sh1]|[sa1 sh1]]; simpl in Hs.
    + destruct Hs as (Ht & Hn & H2 & H1).
      destruct (IH sa1 sh1 ltac:(lia)) as (Ht' & Hn' & H2' & H1' & Hd' & Hf').
      rewrite Ht in *. rewrite H1 in *.
      split; [congruence|]. split; [congruence|]. split; [congruence|].
      split; [lia|]. split; [|done].
      intros j Hj. destruct (decide (j = E1_index sa)) as [->|]; [done|].
      apply Hd'. lia.
    + destruct Hs as [(Ht & Hn & H1 & H2) Herr]. simpl.
      repeat split; try done; try lia; intros; lia.
Qed.

Lemma E2_step_index (sa : state) sh :
  match E2_step c sa sh with
  | Next st =>
      tt st.1 = tt sa ∧ next_day st.1 = next_day sa ∧
      E1_index st.1 = E1_index sa ∧ E2_index st.1 = E2_index sa + 1
  | Break st => same_day sa st.1 ∧ errcode st.1 ≠ 0
  end.
Proof.
  unfold E2_step.
  destruct (SimInf_sample_select _ _ _ _ _ _ _ _ _) as [[err ind] rng'].
  case_decide; [done|]. by destruct (external_transfer_event _ _ _ _ _).
Qed.

Lemma E2_loop_due cnt : ∀ (sa : state) sh,
  Z.of_nat cnt = Z.max 0 (len (E2 c) - E2_index sa) →
  let st := E2_loop c cnt sa sh in
  tt st.1 = tt sa ∧ next_day st.1 = next_day sa ∧
  E1_index st.1 = E1_index sa ∧
  E2_index sa ≤ E2_index st.1 ∧
  (∀ j, E2_index sa ≤ j < E2_index st.1 →
     Dle (of_int (ev_time (rd ev0 (E2 c) j))) (tt sa) = true) ∧
  (errcode st.1 = 0 → E2_index st.1 < len (E2 c) →
   Dle (of_int (ev_time (rd ev0 (E2 c) (E2_index st.1)))) (tt sa) = false).
Proof.
  induction cnt as [|k IH]; intros sa sh Hcnt; simpl.
  - repeat split; try done; try lia; intros; lia.
  - destruct (E2_cond c sa) eqn:Hc.
    2:{ simpl. repeat split; try done; try lia; try (intros j Hj; lia).
        intros He Hlt. unfold E2_cond in Hc.
        rewrite bool_decide_eq_true_2 in Hc by done.
        rewrite (bool_decide_eq_true_2 _ He) in Hc. simpl in Hc.
        by rewrite andb_true_r in Hc. }
    unfold E2_cond in Hc. apply andb_prop in Hc as [Hc He].
    apply andb_prop in Hc as [Hlt Hdue].
    apply bool_decide_eq_true in Hlt, He.
    pose proof (E2_step_index sa sh) as Hs.
    destruct (E2_step c sa sh) as [[sa1 sh1]|[sa1 sh1]]; simpl in Hs.
    + destruct Hs as (Ht & Hn & H1 & H2).
      destruct (IH sa1 sh1 ltac:(lia)) as (Ht' & Hn' & H1' & H2' & Hd' & Hf').
      rewrite Ht in *. rewrite H2 in *.
      split; [congruence|]. split; [congruence|]. split; [congruence|].
      split; [lia|]. split; [|done].
      intros j Hj. destruct (decide (j = E2_index sa)) as [->|]; [done|].
      apply Hd'. lia.
    + destruct Hs as [(Ht & Hn & H1 & H2) Herr]. simpl.
      repeat split; try done; try lia; intros; lia.
Qed.

(** What a turn of the loop over the E1 events does to the arrays: the
    state is updated by the event, and its node is marked. *)
Lemma E1_step_effect (sa : state) sh :
  match E1_step c sa sh with
  | Next st =>
      uu st.2 = E1_update c sa sh ∧
      update_node st.2 =
        wr (update_node sh) (ev_node (rd ev0 (E1 c) (E1_index sa))) 1
  | Break st => st.2 = sh
  end.
Proof.
  unfold E1_step, E1_update. case_decide.
  - by destruct (enter_event _ _ _ _).
  - destruct (SimInf_sample_select _ _ _ _ _ _ _ _ _) as [[err ind] rng'].
    case_decide; [done|]. simpl. case_decide.
    + by destruct (exit_event _ _ _ _ _).
    + by destruct (internal_transfer_event _ _ _ _ _).
Qed.

Lemma E2_step_effect (sa : state) sh :
  match E2_step c sa sh with
  | Next st =>
      uu st.2 = E2_update c sa sh ∧
      update_node st.2 =
        wr (wr (update_node sh) (ev_node (rd ev0 (E2 c) (E2_index sa))) 1)
          (ev_dest (rd ev0 (E2 c) (E2_index sa))) 1
  | Break st => st.2 = sh
  end.
Proof.
  unfold E2_step, E2_update.
  destruct (SimInf_sample_select _ _ _ _ _ _ _ _ _) as [[err ind] rng'].
  case_decide; [done|]. simpl.
  by destruct (external_transfer_event _ _ _ _ _).
Qed.

(** The states between the events that the loop over the E1 events
    applies: [tr j] is the state in which the event [j] is met. *)
Lemma E1_loop_trace cnt : ∀ (sa : state) sh,
  Z.of_nat cnt = Z.max 0 (len (E1 c) - E1_index sa) →
  let st := E1_loop c cnt sa sh in
  ∃ tr : Z → state * shared,
    tr (E1_index sa) = (sa, sh) ∧
    (∀ j, E1_index sa ≤ j < E1_index st.1 →
       E1_index (tr j).1 = j ∧ tt (tr j).1 = tt sa ∧ errcode (tr j).1 = 0 ∧
       uu (tr (j + 1)).2 = E1_update c (tr j).1 (tr j).2 ∧
       update_node (tr (j + 1)).2 =
         wr (update_node (tr j).2) (ev_node (rd ev0 (E1 c) j)) 1) ∧
    uu st.2 = uu (tr (E1_index st.1)).2 ∧
    update_node st.2 = update_node (tr (E1_index st.1)).2.
Proof.
  induction cnt as [|k IH]; intros sa sh Hcnt; simpl.
  - exists (λ _, (sa, sh)). split; [done|]. split; [intros j Hj; lia|done].
  - destruct (E1_cond c sa) eqn:Hc.
    2:{ exists (λ _, (sa, sh)). split; [done|].
        split; [simpl; intros j Hj; lia|done]. }
    unfold E1_cond in Hc. apply andb_prop in Hc as [Hc He].
    apply andb_prop in Hc as [Hlt Hdue].
    apply bool_decide_eq_true in Hlt, He.
    pose proof (E1_step_index sa sh) as Hs.
    pose proof (E1_step_effect sa sh) as Hf.
    destruct (E1_step c sa sh) as [[sa1 sh1]|[sa1 sh1]]; simpl in Hs, Hf.
    + destruct Hs as (Ht & Hn & H2 & H1). destruct Hf as [Hu Hm].
      pose proof (E1_loop_due k sa1 sh1 ltac:(lia)) as Hl. cbv zeta in Hl.
      destruct Hl as (_ & _ & _ & Hi & _).
      destruct (IH sa1 sh1 ltac:(lia)) as (tr & H0 & Hj & Hfu & Hfm).
      exists (λ j, if decide (j = E1_index sa) then (sa, sh) else tr j).
      split; [by rewrite decide_True|].
      split.
      * intros j Hjj. destruct (decide (j = E1_index sa)) as [->|Hne].
        -- rewrite decide_False by lia. rewrite <- H1, H0. done.
        -- rewrite decide_False by lia.
           destruct (Hj j ltac:(lia)) as (Ha & Hb & Hc & Hd & He').
           split; [done|]. split; [congruence|]. done.
      * rewrite decide_False by lia. done.
    + destruct Hs as [(Ht & Hn & H1 & H2) Herr]. simpl. subst sh1.
      exists (λ _, (sa, sh)). split; [done|].
      split; [intros j Hj; lia|done].
Qed.

Lemma E2_loop_trace cnt : ∀ (sa : state) sh,
  Z.of_nat cnt = Z.max 0 (len (E2 c) - E2_index sa) →
  let st := E2_loop c cnt sa sh in
  ∃ tr : Z → state * shared,
    tr (E2_index sa) = (sa, sh) ∧
    (∀ j, E2_index sa ≤ j < E2_index st.1 →
       E2_index (tr j).1 = j ∧ tt (tr j).1 = tt sa ∧ errcode (tr j).1 = 0 ∧
       uu (tr (j + 1)).2 = E2_update c (tr j).1 (tr j).2 ∧
       update_node (tr (j + 1)).2 =
         wr (wr (update_node (tr j).2) (ev_node (rd ev0 (E2 c) j)) 1)
           (ev_dest (rd ev0 (E2 c) j)) 1) ∧
    uu st.2 = uu (tr (E2_index st.1)).2 ∧
    update_node st.2 = update_node (tr (E2_index st.1)).2.
Proof.
  induction cnt as [|k IH]; intros sa sh Hcnt; simpl.
  - exists (λ _, (sa, sh)). split; [done|]. split; [intros j Hj; lia|done].
  - destruct (E2_cond c sa) eqn:Hc.
    2:{ exists (λ _, (sa, sh)). split; [done|].
        split; [simpl; intros j Hj; lia|done]. }
    unfold E2_cond in Hc. apply andb_prop in Hc as [Hc He].
    apply andb_prop in Hc as [Hlt Hdue].
    apply bool_decide_eq_true in Hlt, He.
    pose proof (E2_step_index sa sh) as Hs.
    pose proof (E2_step_effect sa sh) as Hf.
    destruct (E2_step c sa sh) as [[sa1 sh1]|[sa1 sh1]]; simpl in Hs, Hf.
    + destruct Hs as (Ht & Hn & H1 & H2). destruct Hf as [Hu Hm].
      pose proof (E2_loop_due k sa1 sh1 ltac:(lia)) as Hl. cbv zeta in Hl.
      destruct Hl as (_ & _ & _ & Hi & _).
      destruct (IH sa1 sh1 ltac:(lia)) as (tr & H0 & Hj & Hfu & Hfm).
      exists (λ j, if decide (j = E2_index sa) then (sa, sh) else tr j).
      split; [by rewrite decide_True|].
      split.
      * intros j Hjj. destruct (decide (j = E2_index sa)) as [->|Hne].
        -- rewrite decide_False by lia. rewrite <- H2, H0. done.
        -- rewrite decide_False by lia.
           destruct (Hj j ltac:(lia)) as (Ha & Hb & Hc & Hd & He').
           split; [done|]. split; [congruence|]. done.
      * rewrite decide_False by lia. done.
    + destruct Hs as [(Ht & Hn & H1 & H2) Herr]. simpl. subst sh1.
      exists (λ _, (sa, sh)). split; [done|].
      split; [intros j Hj; lia|done].
Qed.

(** The steps that follow the events: (4), (5) and (6). *)
Lemma post_step_node_frame node (sa : state) sh :
  let r := post_step_node c node (sa, sh) in
  let st := match r with Next st => st | Break st => st end in
  same_day sa st.1 ∧ uu st.2 = uu sh.
Proof.
  unfold post_step_node.
  destruct (pts_fun c _ _ _ _ _ _ _) as [rc w].
  case_decide; [done|]. case_decide; [|done].
  by destruct (all_rates _ _ _ _ _ _ _) as [[rates delta] err'].
Qed.

Lemma post_steps_frame (sa : state) sh :
  let st := for_range 0 (Nn c) (post_step_node c) (sa, sh) in
  same_day sa st.1 ∧ uu st.2 = uu sh.
Proof.
  cbv zeta.
  apply (for_range_inv (λ _ st, same_day sa st.1 ∧ uu st.2 = uu sh)
           (λ st, same_day sa st.1 ∧ uu st.2 = uu sh)).
  - done.
  - intros node [sa1 sh1] _ [Hd Hu]. simpl in Hd, Hu.
    pose proof (post_step_node_frame node sa1 sh1) as Hs. cbv zeta in Hs.
    destruct (post_step_node c node (sa1, sh1)) as [[sa2 sh2]|[sa2 sh2]];
      destruct Hs as [Hd' Hu']; simpl in Hd', Hu' |- *;
      (split; [by eapply same_day_trans|congruence]).
  - done.
Qed.

Lemma store_U_frame cnt : ∀ (sa : state) sh,
  let st := store_U c cnt sa sh in same_day sa st.1 ∧ uu st.2 = uu sh.
Proof.
  induction cnt as [|k IH]; intros sa sh; simpl; [done|].
  destruct (_ && _); [|done].
  match goal with
  | |- context [store_U c k ?a ?b] => destruct (IH a b) as [Hd Hu]
  end.
  split; [by eapply same_day_trans|done].
Qed.

Lemma store_V_frame cnt : ∀ (sa : state) sh,
  let st := store_V c cnt sa sh in same_day sa st.1 ∧ uu st.2 = uu sh.
Proof.
  induction cnt as [|k IH]; intros sa sh; simpl; [done|].
  destruct (_ && _); [|done].
  match goal with
  | |- context [store_V c k ?a ?b] => destruct (IH a b) as [Hd Hu]
  end.
  split; [by eapply same_day_trans|done].
Qed.

Lemma store_U_sparse_frame cnt : ∀ (sa : state) sh,
  let st := store_U_sparse c cnt sa sh in same_day sa st.1 ∧ uu st.2 = uu sh.
Proof.
  induction cnt as [|k IH]; intros sa sh; simpl; [done|].
  destruct (_ && _); [|done].
  match goal with
  | |- context [store_U_sparse c k ?a ?b] => destruct (IH a b) as [Hd Hu]
  end.
  split; [by eapply same_day_trans|done].
Qed.

Lemma store_V_sparse_frame cnt : ∀ (sa : state) sh,
  let st := store_V_sparse c cnt sa sh in same_day sa st.1 ∧ uu st.2 = uu sh.
Proof.
  induction cnt as [|k IH]; intros sa sh; simpl; [done|].
  destruct (_ && _); [|done].
  match goal with
  | |- context [store_V_sparse c k ?a ?b] => destruct (IH a b) as [Hd Hu]
  end.
  split; [by eapply same_day_trans|done].
Qed.

Lemma post_phase_closed (sa : state) sh :
  day_closed sa sh (post_phase c sa sh).1 (post_phase c sa sh).2.
Proof.
  unfold post_phase.
  pose proof (post_steps_frame sa sh) as Hp. cbv zeta in Hp.
  destruct (for_range 0 (Nn c) (post_step_node c) (sa, sh)) as [sa1 sh1].
  simpl in Hp. destruct Hp as [(Ht & Hn & H1 & H2) Hu].
  match goal with
  | |- context [store_U c ?n ?a ?b] =>
      pose proof (store_U_frame n a b) as HU;
      destruct (store_U c n a b) as [sa2 sh2]
  end.
  pose proof (store_V_frame (Z.to_nat (tlen c - V_it sa2)) sa2 sh2) as HV.
  destruct (store_V c _ sa2 sh2) as [sa3 sh3].
  simpl in *. destruct HU as [(Ht2 & Hn2 & H12 & H22) Hu2].
  destruct HV as [(Ht3 & Hn3 & H13 & H23) Hu3]. simpl in *.
  unfold day_closed. simpl. repeat split; congruence.
Qed.

(** The clock after the steps that follow the events. *)
Lemma post_phase_clock_moves (sa : state) sh :
  tt (post_phase c sa sh).1 = next_day sa ∧
  next_day (post_phase c sa sh).1 = Dadd (next_day sa) (of_int 1).
Proof.
  unfold post_phase.
  pose proof (post_steps_frame sa sh) as Hp. cbv zeta in Hp.
  destruct (for_range 0 (Nn c) (post_step_node c) (sa, sh)) as [sa1 sh1].
  simpl in Hp. destruct Hp as [(Ht & Hn & H1 & H2) Hu].
  match goal with
  | |- context [store_U c ?n ?a ?b] =>
      pose proof (store_U_frame n a b) as HU;
      destruct (store_U c n a b) as [sa2 sh2]
  end.
  pose proof (store_V_frame (Z.to_nat (tlen c - V_it sa2)) sa2 sh2) as HV.
  destruct (store_V c _ sa2 sh2) as [sa3 sh3].
  simpl in *. destruct HU as [(Ht2 & Hn2 & H12 & H22) Hu2].
  destruct HV as [(Ht3 & Hn3 & H13 & H23) Hu3]. simpl in *.
  split; congruence.
Qed.

Lemma store_solution_sparse_frame (sa : state) sh :
  let st := SimInf_store_solution_sparse c sa sh in
  same_day sa st.1 ∧ uu st.2 = uu sh.
Proof.
  unfold SimInf_store_solution_sparse.
  pose proof (store_U_sparse_frame (Z.to_nat (tlen c - U_it sa)) sa sh) as HU.
  destruct (store_U_sparse c _ sa sh) as [sa2 sh2].
  pose proof (store_V_sparse_frame (Z.to_nat (tlen c - V_it sa2)) sa2 sh2)
    as HV.
  destruct (store_V_sparse c _ sa2 sh2) as [sa3 sh3].
  simpl in *. destruct HU as [Hd Hu]. destruct HV as [Hd' Hu'].
  split; [by eapply same_day_trans|congruence].
Qed.

End EventDay.

Section EventDayThreads.
Context {D R : Type} {FD : Float64 D} {GR : Gsl R D} {EC : SimInf_h}.

#[local] Abbreviation threads := (list (thread (D := D) (R := R))).

Lemma omp_for_post_closed : ∀ (ts : threads) sh ts' sh',
  omp_for (λ c sa sh, Some (post_phase c sa sh)) ts sh = Some (ts', sh') →
  day_closed_threads ts ts' ∧ uu sh' = uu sh.
Proof.
  induction ts as [|[c sa] ts IH]; intros sh ts' sh' H; simpl in H.
  - injection H as <- <-. split; [constructor|done].
  - pose proof (post_phase_closed c sa sh) as (H1 & H2 & Ht & Hu).
    destruct (post_phase c sa sh) as [sa1 sh1]. simpl in *.
    destruct (omp_for _ ts sh1) as [[ts1 sh2]|] eqn:E; [|done].
    injection H as <- <-. apply IH in E as [Hc Hu'].
    split; [by constructor|congruence].
Qed.

Lemma day_closed_same (ts ts1 ts2 : threads) :
  day_closed_threads ts ts1 →
  Forall2 (λ t t' : thread, same_day t.2 t'.2) ts1 ts2 →
  day_closed_threads ts ts2.
Proof.
  intros H. revert ts2. induction H as [|t t1 ts ts1 (H1 & H2 & Ht) _ IH];
    intros ts2 H'; inversion H' as [|? t2 ? ts2' (Ht' & Hn' & H1' & H2') Hr];
    subst; constructor; [|by apply IH].
  repeat split; congruence.
Qed.

(** One turn of the main loop: the events are applied by the first loop
    over the threads and by the events E2 that follow it; what comes
    after leaves the queues and [uu] as they are and moves the clocks. *)
Lemma day_events fuel (ts : threads) sh ts' sh' :
  day fuel ts sh = Some (ts', sh') →
  ∃ ts1 sh1 ts2 sh2,
    omp_for (λ c, ssa_phase c fuel) ts sh = Some (ts1, sh1) ∧
    on_master SimInf_process_E2_events ts1 sh1 = Some (ts2, sh2) ∧
    uu sh' = uu sh2 ∧
    day_closed_threads ts2 ts'.
Proof.
  unfold day. intros H.
  destruct (omp_for _ ts sh) as [[ts1 sh1]|] eqn:E1; [|done].
  destruct (on_master _ ts1 sh1) as [[ts2 sh2]|] eqn:E2; [|done].
  destruct (omp_for _ ts2 sh2) as [[ts3 sh3]|] eqn:E3; [|done].
  destruct (on_master _ ts3 sh3) as [[ts4 sh4]|] eqn:E4; [|done].
  injection H as <- <-. exists ts1, sh1, ts2, sh2.
  split; [done|]. split; [done|].
  apply omp_for_post_closed in E3 as [Hc Hu].
  destruct ts3 as [|[c sa] ts3]; [done|]. simpl in E4.
  pose proof (store_solution_sparse_frame c sa sh3) as Hs. cbv zeta in Hs.
  destruct (SimInf_store_solution_sparse c sa sh3) as [sa4 sh4'].
  injection E4 as <- <-. simpl in Hs. destruct Hs as [Hd Hu4].
  split; [congruence|].
  eapply day_closed_same; [exact Hc|].
  rewrite fmap_cons. constructor; [done|].
  clear. induction ts3 as [|t ts3 IH]; [constructor|].
  rewrite fmap_cons. by constructor.
Qed.

End EventDayThreads.

Lemma exact_le (a b : Z) :
  Dle (of_int (D := Q) a) (of_int b) = bool_decide (a ≤ b).
Proof.
  simpl. destruct (decide (a ≤ b)) as [H|H].
  - rewrite bool_decide_eq_true_2 by done. apply Qle_bool_iff.
    unfold Qle. simpl. lia.
  - rewrite bool_decide_eq_false_2 by done. apply not_true_iff_false.
    rewrite Qle_bool_iff. unfold Qle. simpl. lia.
Defined.

(** C6, as the specification words it: the events of time [T] are
    applied in the turn of the main loop in which the clock [tt] reaches
    [T], after the SSA has brought the nodes to [T] and before the steps
    after the events of that turn.  One node and an ENTER event of ten
    individuals at time 1, from day 0: in the first turn the SSA brings
    the node to time 1, the event is not applied (the test is
    [tt >= time], and [tt] is still 0), and the last steps of the turn
    move [tt] to 1; the event is applied in the second turn, after the
    SSA has brought the node to time 2. *)
Lemma event_day_counterexample :
  let c := args_of 1 0 1 1 2 [] [0; 0] [] [0; 0] [] [0] [0; 1] []
             [λ _ _ _ _ _, 0%Q] [0; 7]%Q
             [{| ev_event := ENTER_EVENT; ev_time := 1; ev_node := 0;
                 ev_dest := -1; ev_n := 10; ev_proportion := 0%Q;
                 ev_select := 0; ev_shift := -1 |}] [] in
  let sa := state_of [] 0 1 1 2 in
  let sh := shared_of [0; 0] 1 2 in
  ∃ sa1 sh1 sa3 sh3,
    ssa_phase c 1 sa sh = Some (sa1, sh1) ∧
    t_time sa1 = [inject_Z 1] ∧ tt sa1 = inject_Z 0 ∧
    E1_index sa1 = 0 ∧ uu sh1 = [0; 0] ∧
    tt (post_phase c sa1 sh1).1 = inject_Z 1 ∧
    E1_index (post_phase c sa1 sh1).1 = 0 ∧
    uu (post_phase c sa1 sh1).2 = [0; 0] ∧
    ¬ (∀ j, 0 ≤ j < len (E1 c) →
         of_int (ev_time (rd ev0 (E1 c) j)) = tt (post_phase c sa1 sh1).1 →
         E1_index sa ≤ j < E1_index sa1) ∧
    ssa_phase c 1 (post_phase c sa1 sh1).1 (post_phase c sa1 sh1).2 =
      Some (sa3, sh3) ∧
    t_time sa3 = [inject_Z 2] ∧ tt sa3 = inject_Z 1 ∧
    E1_index sa3 = 1 ∧ uu sh3 = [10; 0].
Proof.
  intros c sa sh. eexists _, _, _, _.
  split; [vm_compute; reflexivity|].
  split; [reflexivity|]. split; [reflexivity|]. split; [reflexivity|].
  split; [reflexivity|]. split; [vm_compute; reflexivity|].
  split; [reflexivity|]. split; [reflexivity|].
  split.
  { intros H.
    assert (0 ≤ 0 < len (E1 c)) as H0
      by (vm_compute; split; [discriminate|reflexivity]).
    specialize (H 0 H0 ltac:(vm_compute; reflexivity)).
    vm_compute in H. destruct H as [_ H']. discriminate H'. }
  split; [vm_compute; reflexivity|].
  split; [reflexivity|]. split; [reflexivity|]. split; reflexivity.
Qed.

(** C6, amended.  The events of time [T] are applied in the turn of the
    main loop that starts with the clock [tt] at [T].  In this turn a
    thread first runs the SSA over its nodes, which when it ends without
    error has brought each of them to the next day [T + 1] (or to a nil
    event); then the
    loop over its E1 events applies, one after the other and with the
    clock at [T], the events at the head of the queue whose time is at
    most [T], and no event of a later day: each updates [uu] as its type
    has it and marks its node.  An event of time [T] is among them when
    the events before it in the queue are due as well and no error stops
    the loop.  The same holds of the events E2, which come next.  The
    steps that follow, the post time step function among them, leave the
    queues and [uu] as they are and move [tt] to [T + 1].  The times are
    [int]s, which convert to [double] and compare as integers. *)
Theorem scheduled_event_day {D R : Type} {FD : Float64 D}
    {GR : Gsl R D} {EC : SimInf_h} (T : Z) :
  (∀ a b, is_int a → is_int b →
     Dle (of_int a) (of_int b) = bool_decide (a ≤ b)) →
  is_int T →
  (∀ (c : SimInf_thread_args (D := D)) fuel
     (sa sa' : thread_state (D := D) (R := R)) sh sh',
     tt sa = of_int T →
     next_day sa = Dadd (of_int T) (of_int 1) →
     (∀ j, is_int (ev_time (rd ev0 (E1 c) j))) →
     0 ≤ E1_index sa →
     0 ≤ Nn c ≤ len (t_time sa) →
     len (sum_t_rate sa) = len (t_time sa) →
     ssa_phase c fuel sa sh = Some (sa', sh') →
     ∃ sa1 uu1 (tr : Z → thread_state (D := D) (R := R) * shared),
       ssa_nodes c fuel (Z.to_nat (Nn c)) 0 sa (uu sh) = Some (sa1, uu1) ∧
       same_day sa sa1 ∧
       (errcode sa1 = 0 →
        ∀ n, 0 ≤ n < Nn c → advanced (Dadd (of_int T) (of_int 1)) sa1 n) ∧
       SimInf_process_E1_events c sa1 (set_uu uu1 sh) = (sa', sh') ∧
       tt sa' = of_int T ∧
       next_day sa' = Dadd (of_int T) (of_int 1) ∧
       E1_index sa ≤ E1_index sa' ∧
       tr (E1_index sa) = (sa1, set_uu uu1 sh) ∧
       (∀ j, E1_index sa ≤ j < E1_index sa' →
          ev_time (rd ev0 (E1 c) j) ≤ T ∧
          E1_index (tr j).1 = j ∧ tt (tr j).1 = of_int T ∧
          errcode (tr j).1 = 0 ∧
          uu (tr (j + 1)).2 = E1_update c (tr j).1 (tr j).2 ∧
          update_node (tr (j + 1)).2 =
            wr (update_node (tr j).2) (ev_node (rd ev0 (E1 c) j)) 1) ∧
       uu sh' = uu (tr (E1_index sa')).2 ∧
       update_node sh' = update_node (tr (E1_index sa')).2 ∧
       (errcode sa' = 0 → E1_index sa' < len (E1 c) →
        T < ev_time (rd ev0 (E1 c) (E1_index sa'))) ∧
       (∀ j, E1_index sa ≤ j < len (E1 c) →
          ev_time (rd ev0 (E1 c) j) = T →
          (∀ i, E1_index sa ≤ i ≤ j → ev_time (rd ev0 (E1 c) i) ≤ T) →
          errcode sa' = 0 →
          j < E1_index sa')) ∧
  (∀ (c : SimInf_thread_args (D := D))
     (sa : thread_state (D := D) (R := R)) sh,
     tt sa = of_int T →
     (∀ j, is_int (ev_time (rd ev0 (E2 c) j))) →
     0 ≤ E2_index sa →
     let st := SimInf_process_E2_events c sa sh in
     ∃ tr : Z → thread_state (D := D) (R := R) * shared,
       tt st.1 = of_int T ∧
       next_day st.1 = next_day sa ∧
       E1_index st.1 = E1_index sa ∧
       E2_index sa ≤ E2_index st.1 ∧
       tr (E2_index sa) = (sa, sh) ∧
       (∀ j, E2_index sa ≤ j < E2_index st.1 →
          ev_time (rd ev0 (E2 c) j) ≤ T ∧
          E2_index (tr j).1 = j ∧ tt (tr j).1 = of_int T ∧
          errcode (tr j).1 = 0 ∧
          uu (tr (j + 1)).2 = E2_update c (tr j).1 (tr j).2 ∧
          update_node (tr (j + 1)).2 =
            wr (wr (update_node (tr j).2) (ev_node (rd ev0 (E2 c) j)) 1)
              (ev_dest (rd ev0 (E2 c) j)) 1) ∧
       uu st.2 = uu (tr (E2_index st.1)).2 ∧
       update_node st.2 = update_node (tr (E2_index st.1)).2 ∧
       (errcode st.1 = 0 → E2_index st.1 < len (E2 c) →
        T < ev_time (rd ev0 (E2 c) (E2_index st.1))) ∧
       (∀ j, E2_index sa ≤ j < len (E2 c) →
          ev_time (rd ev0 (E2 c) j) = T →
          (∀ i, E2_index sa ≤ i ≤ j → ev_time (rd ev0 (E2 c) i) ≤ T) →
          errcode st.1 = 0 →
          j < E2_index st.1)) ∧
  (∀ (c : SimInf_thread_args (D := D))
     (sa : thread_state (D := D) (R := R)) sh,
     tt sa = of_int T →
     next_day sa = Dadd (of_int T) (of_int 1) →
     let st := post_phase c sa sh in
     E1_index st.1 = E1_index sa ∧ E2_index st.1 = E2_index sa ∧
     uu st.2 = uu sh ∧
     tt st.1 = Dadd (of_int T) (of_int 1) ∧
     next_day st.1 = Dadd (Dadd (of_int T) (of_int 1)) (of_int 1)) ∧
  (∀ fuel (ts : list (thread (D := D) (R := R))) sh ts' sh',
     day fuel ts sh = Some (ts', sh') →
     ∃ ts1 sh1 ts2 sh2 ts3 sh3,
       omp_for (λ c, ssa_phase c fuel) ts sh = Some (ts1, sh1) ∧
       on_master SimInf_process_E2_events ts1 sh1 = Some (ts2, sh2) ∧
       omp_for (λ c sa sh, Some (post_phase c sa sh)) ts2 sh2 =
         Some (ts3, sh3) ∧
       uu sh' = uu sh2 ∧
       day_closed_threads ts2 ts').
Proof.
  intros Hle HT. split; [|split; [|split]].
  - intros c fuel sa sa' sh sh' Htt Hnd Hti H1 HNn Hlen H.
    unfold ssa_phase in H.
    destruct (ssa_nodes c fuel _ 0 sa (uu sh)) as [[sa1 uu1]|] eqn:E; [|done].
    injection H as H.
    pose proof (ssa_nodes_advanced c fuel (Z.to_nat (Nn c)) 0 sa (uu sh)
      (sa1, uu1) ltac:(lia) ltac:(lia) Hlen E) as (Hd & _ & _ & _ & Ha).
    simpl in Hd, Ha. pose proof Hd as (Ht1 & Hn1 & He1 & He2).
    pose proof (E1_loop_due c (Z.to_nat (len (E1 c) - E1_index sa1)) sa1
      (set_uu uu1 sh) ltac:(lia)) as Hl. cbv zeta in Hl.
    pose proof (E1_loop_trace c (Z.to_nat (len (E1 c) - E1_index sa1)) sa1
      (set_uu uu1 sh) ltac:(lia)) as Htr. cbv zeta in Htr.
    unfold SimInf_process_E1_events in H. rewrite H in Hl, Htr.
    simpl in Hl, Htr.
    destruct Hl as (Ht & Hn & H2 & Hi & Hdue & Hnext).
    destruct Htr as (tr & Htr0 & Htrj & Htru & Htrm).
    rewrite Ht1, He1 in *. rewrite Htt in Hdue, Hnext.
    assert (∀ j, E1_index sa ≤ j < E1_index sa' →
              ev_time (rd ev0 (E1 c) j) ≤ T) as Hdue'.
    { intros j Hj. specialize (Hdue j Hj). rewrite Hle in Hdue by done.
      by apply bool_decide_eq_true in Hdue. }
    exists sa1, uu1, tr.
    split; [done|]. split; [done|]. split.
    { intros H0 n Hn'. rewrite <- Hnd. apply Ha; [done|lia]. }
    split; [unfold SimInf_process_E1_events; by rewrite He1|].
    split; [congruence|]. split; [congruence|]. split; [done|].
    split; [done|]. split.
    { intros j Hj. destruct (Htrj j Hj) as (Ha1 & Ha2 & Ha3 & Ha4 & Ha5).
      split; [by apply Hdue'|]. split; [done|]. split; [congruence|]. done. }
    split; [done|]. split; [done|]. split.
    { intros H0 Hlt. specialize (Hnext H0 Hlt). rewrite Hle in Hnext by done.
      apply bool_decide_eq_false in Hnext. lia. }
    intros j Hj HTj Hsorted H0.
    destruct (decide (j < E1_index sa')) as [|Hge]; [done|exfalso].
    specialize (Hnext H0 ltac:(lia)). rewrite Hle in Hnext by done.
    apply bool_decide_eq_false in Hnext.
    apply Hnext, Hsorted. lia.
  - intros c sa sh Htt Hti H2 st.
    pose proof (E2_loop_due c (Z.to_nat (len (E2 c) - E2_index sa)) sa sh
      ltac:(lia)) as Hl. cbv zeta in Hl.
    pose proof (E2_loop_trace c (Z.to_nat (len (E2 c) - E2_index sa)) sa sh
      ltac:(lia)) as Htr. cbv zeta in Htr.
    fold (SimInf_process_E2_events c sa sh) in Hl, Htr. fold st in Hl, Htr.
    destruct Hl as (Ht & Hn & H1 & Hi & Hdue & Hnext).
    destruct Htr as (tr & Htr0 & Htrj & Htru & Htrm).
    rewrite Htt in Hdue, Hnext.
    assert (∀ j, E2_index sa ≤ j < E2_index st.1 →
              ev_time (rd ev0 (E2 c) j) ≤ T) as Hdue'.
    { intros j Hj. specialize (Hdue j Hj). rewrite Hle in Hdue by done.
      by apply bool_decide_eq_true in Hdue. }
    exists tr.
    split; [congruence|]. split; [done|]. split; [done|]. split; [done|].
    split; [done|]. split.
    { intros j Hj. destruct (Htrj j Hj) as (Ha1 & Ha2 & Ha3 & Ha4 & Ha5).
      split; [by apply Hdue'|]. split; [done|]. split; [congruence|]. done. }
    split; [done|]. split; [done|]. split.
    { intros H0 Hlt. specialize (Hnext H0 Hlt). rewrite Hle in Hnext by done.
      apply bool_decide_eq_false in Hnext. lia. }
    intros j Hj HTj Hsorted H0.
    destruct (decide (j < E2_index st.1)) as [|Hge]; [done|exfalso].
    specialize (Hnext H0 ltac:(lia)). rewrite Hle in Hnext by done.
    apply bool_decide_eq_false in Hnext.
    apply Hnext, Hsorted. lia.
  - intros c sa sh Htt Hnd st.
    pose proof (post_phase_closed c sa sh) as (H1 & H2 & Ht & Hu).
    pose proof (post_phase_clock_moves c sa sh) as [_ Hn].
    fold st in H1, H2, Ht, Hu, Hn.
    split; [done|]. split; [done|]. split; [done|].
    split; congruence.
  - intros fuel ts sh ts' sh' H.
    destruct (day_events fuel ts sh ts' sh' H)
      as (ts1 & sh1 & ts2 & sh2 & Ha & Hb & Hu & Hc).
    unfold day in H. rewrite Ha, Hb in H.
    destruct (omp_for _ ts2 sh2) as [[ts3 sh3]|] eqn:E3; [|done].
    exists ts1, sh1, ts2, sh2, ts3, sh3. done.
Qed.

(** Two nodes with one compartment.  Ten individuals enter node 0 on day
    5 and three of them move to node 1 on the same day: the turn of the
    main loop whose clock is at 5 applies the event E1 and then the
    event E2, and its last steps move the clock to 6. *)
Lemma scheduled_event_day_witness :
  let c := args_of 2 0 2 1 1 [] [0; 0] [] [0; 0] [] [0] [0; 1] []
             [λ _ _ _ _ _, 0%Q] [0; 7]%Q
             [{| ev_event := ENTER_EVENT; ev_time := 5; ev_node := 0;
                 ev_dest := -1; ev_n := 10; ev_proportion := 0%Q;
                 ev_select := 0; ev_shift := -1 |}]
             [{| ev_event := EXTERNAL_TRANSFER_EVENT; ev_time := 5;
                 ev_node := 0; ev_dest := 1; ev_n := 3;
                 ev_proportion := 0%Q; ev_select := 0; ev_shift := -1 |}] in
  let sa := state_of [] 5 2 1 1 in
  let sh := shared_of [0; 0] 2 2 in
  ∃ sa' sh',
    ssa_phase c 1 sa sh = Some (sa', sh') ∧
    uu sh' = [10; 0] ∧
    E1_index sa' = 1 ∧
    uu sh' = E1_update c sa sh ∧
    let st := SimInf_process_E2_events c sa' sh' in
    uu st.2 = [7; 3] ∧
    E2_index st.1 = 1 ∧
    uu st.2 = E2_update c sa' sh' ∧
    tt st.1 = inject_Z 5 ∧
    tt (post_phase c st.1 st.2).1 = (inject_Z 5 + inject_Z 1)%Q ∧
    uu (post_phase c st.1 st.2).2 = [7; 3].
Proof.
  intros c sa sh.
  assert (is_int 5) as HT by (vm_compute; split; discriminate).
  assert (∀ a b, is_int a → is_int b →
            Dle (of_int (D := Q) a) (of_int b) = bool_decide (a ≤ b)) as Hle
    by (intros a b _ _; apply exact_le).
  destruct (scheduled_event_day (D := Q) (R := list positive) 5 Hle HT)
    as (Hthread & Hmaster & Hpost & _).
  destruct (ssa_phase c 1 sa sh) as [[sa' sh']|] eqn:E;
    [|vm_compute in E; discriminate E].
  assert (∀ q : list (event Q), Forall (λ e, is_int (ev_time e)) q →
            ∀ j, is_int (ev_time (rd ev0 q j))) as Hints.
  { intros q Hq j. unfold rd.
    destruct (decide (0 ≤ j)); [|vm_compute; split; discriminate].
    destruct (q !! Z.to_nat j) as [e|] eqn:Eq; simpl;
      [|vm_compute; split; discriminate].
    by apply (Forall_lookup_1 _ _ _ _ Hq Eq). }
  assert (∀ j, is_int (ev_time (rd ev0 (E1 c) j))) as Hi1.
  { apply Hints. repeat constructor; vm_compute; discriminate. }
  assert (∀ j, is_int (ev_time (rd ev0 (E2 c) j))) as Hi2.
  { apply Hints. repeat constructor; vm_compute; discriminate. }
  destruct (Hthread c 1%nat sa sa' sh sh' eq_refl eq_refl Hi1)
    as (sa1 & uu1 & tr & _ & _ & _ & _ & Htt & Hnd & _ & _ & _ & _ & _ & _
        & _); [reflexivity|vm_compute; split; discriminate|reflexivity|
               exact E|].
  pose proof E as E'. vm_compute in E'. injection E' as Hsa Hsh.
  assert (0 ≤ E2_index sa') as H2 by (rewrite <- Hsa; vm_compute; discriminate).
  destruct (Hmaster c sa' sh' Htt Hi2 H2) as (tr2 & Htt2 & Hnd2 & _).
  rewrite Hnd in Hnd2.
  destruct (Hpost c (SimInf_process_E2_events c sa' sh').1
              (SimInf_process_E2_events c sa' sh').2 Htt2 Hnd2)
    as (_ & _ & Hu & Htt3 & _).
  exists sa', sh'. split; [reflexivity|].
  split; [by rewrite <- Hsh|]. split; [by rewrite <- Hsa|].
  split; [rewrite <- Hsh; vm_compute; reflexivity|].
  cbv zeta.
  assert (uu (SimInf_process_E2_events c sa' sh').2 = [7; 3]) as Hu2
    by (rewrite <- Hsa, <- Hsh; vm_compute; reflexivity).
  split; [exact Hu2|].
  split; [rewrite <- Hsa, <- Hsh; vm_compute; reflexivity|].
  split; [rewrite <- Hsa, <- Hsh; vm_compute; reflexivity|].
  split; [exact Htt2|]. split; [exact Htt3|].
  rewrite <- Hu2. exact Hu.
Defined.

(** ** The queues of the threads *)

Section QueueProperties.
Context {D : Type} {FD : Float64 D} {EC : SimInf_h}.

Lemma E1_thread_range Nn Nthread node :
  0 < Nthread → Nthread ≤ Nn → 1 ≤ node →
  ∃ k, E1_thread Nn Nthread node = Some k ∧ 0 ≤ k < Nthread.
Proof.
  intros HT HN Hnode. unfold E1_thread.
  assert (1 ≤ Nn `quot` Nthread) as Hc.
  { rewrite Z.quot_div_nonneg by lia. apply Z.div_le_lower_bound; lia. }
  rewrite !decide_False by lia.
  eexists. split; [done|].
  assert (0 ≤ (node - 1) `quot` (Nn `quot` Nthread)).
  { rewrite Z.quot_div_nonneg by lia. apply Z.div_pos; lia. }
  case_decide; lia.
Qed.

Lemma filter_snoc {A} (P : A → Prop) `{!∀ x, Decision (P x)} l x :
  filter P (l ++ [x]) = filter P l ++ (if decide (P x) then [x] else []).
Proof.
  rewrite list.filter_app. f_equal.
Qed.

Lemma split_step_inv Nn Nthread done q E2 (e : event D) :
  0 < Nthread → Nthread ≤ Nn →
  (is_E1 e → 1 ≤ ev_node e) →
  ¬ undefined_event e →
  split_inv Nn Nthread done q E2 →
  ∃ q' E2',
    split_step Nn Nthread (Split_ok q E2) e = Split_ok q' E2' ∧
    split_inv Nn Nthread (done ++ [e]) q' E2'.
Proof.
  intros HT HN He Hdef (Hlen & HE2 & Hq). unfold split_step.
  destruct (decide (is_E1 e)) as [HE1|HE1].
  - destruct (E1_thread_range Nn Nthread (ev_node e) HT HN (He HE1))
      as (k & Hk & Hkr).
    rewrite Hk. eexists _, _. split; [done|].
    split; [unfold push_E1; by rewrite len_wr|]. split.
    + unfold E2_of. rewrite filter_snoc.
      rewrite decide_False by tauto. by rewrite app_nil_r.
    + intros k' Hk'. unfold push_E1. rewrite rd_wr.
      unfold E1_of. rewrite filter_snoc.
      destruct (decide (k = k')) as [<-|Hne].
      * rewrite decide_True by lia. rewrite decide_True by done.
        rewrite fmap_app. f_equal. by apply Hq.
      * rewrite decide_False by tauto.
        rewrite decide_False by (intros [_ H]; congruence).
        rewrite app_nil_r. by apply Hq.
  - destruct (decide (ev_event e = EXTERNAL_TRANSFER_EVENT)) as [Hx|Hx].
    + eexists _, _. split; [done|].
      split; [done|]. split.
      * unfold E2_of. rewrite filter_snoc.
        rewrite decide_True by done. rewrite fmap_app. by f_equal.
      * intros k Hk. unfold E1_of. rewrite filter_snoc.
        rewrite decide_False by tauto. rewrite app_nil_r. by apply Hq.
    + destruct Hdef. by split.
Qed.

Lemma split_fold_inv Nn Nthread (events : list (event D)) :
  0 < Nthread → Nthread ≤ Nn →
  ∀ done q E2,
    (∀ e, e ∈ events → is_E1 e → 1 ≤ ev_node e) →
    (∀ e, e ∈ events → ¬ undefined_event e) →
    split_inv Nn Nthread done q E2 →
    ∃ q' E2',
      foldl (split_step Nn Nthread) (Split_ok q E2) events = Split_ok q' E2' ∧
      split_inv Nn Nthread (done ++ events) q' E2'.
Proof.
  intros HT HN. induction events as [|e events IH]; intros done q E2 Hn Hd Hi.
  - exists q, E2. by rewrite app_nil_r.
  - cbn [foldl].
    destruct (split_step_inv Nn Nthread done q E2 e HT HN
      (Hn e ltac:(left)) (Hd e ltac:(left)) Hi) as (q1 & E21 & -> & Hi1).
    destruct (IH (done ++ [e]) q1 E21) as (q' & E2' & Hf & Hi').
    { intros e' He'. apply Hn. by right. }
    { intros e' He'. apply Hd. by right. }
    { done. }
    exists q', E2'. split; [done|]. by rewrite <- app_assoc in Hi'.
Qed.

Lemma split_fold_error Nn Nthread (events : list (event D)) err :
  foldl (split_step Nn Nthread) (Split_error err) events = Split_error err.
Proof. induction events as [|e events IH]; [done|]. apply IH. Qed.

Lemma by_time_filter (P : event D → Prop) `{!∀ x, Decision (P x)} q :
  by_time q → by_time (filter P q).
Proof.
  induction q as [|e q IH]; [done|]. intros [Hall Hq].
  rewrite filter_cons. destruct (decide (P e)); [|by apply IH].
  split; [|by apply IH].
  apply list.Forall_forall. intros e' He'.
  apply list_elem_of_filter in He' as [_ He'].
  rewrite list.Forall_forall in Hall. by apply Hall.
Qed.

Lemma by_time_zero_based (q : list (event D)) :
  by_time q → by_time (zero_based <$> q).
Proof.
  induction q as [|e q IH]; [done|]. intros [Hall Hq].
  rewrite fmap_cons. split; [|by apply IH].
  apply list.Forall_fmap. eapply list.Forall_impl; [exact Hall|]. done.
Qed.

Lemma by_time_lookup (q : list (event D)) i j (d : event D) :
  by_time q → 0 ≤ i ≤ j → j < len q →
  ev_time (rd d q i) ≤ ev_time (rd d q j).
Proof.
  intros Hq. revert i j. induction q as [|e q IH]; intros i j Hij Hj.
  - unfold len in Hj. simpl in Hj. lia.
  - destruct Hq as [Hall Hq]. rewrite len_cons in Hj.
    destruct (decide (i = j)) as [->|Hne]; [done|].
    destruct (decide (i = 0)) as [->|Hi].
    + unfold rd. rewrite !decide_True by lia.
      replace (Z.to_nat j) with (S (Z.to_nat (j - 1))) by lia. simpl.
      destruct (q !! Z.to_nat (j - 1)) as [e'|] eqn:E.
      * simpl. rewrite list.Forall_forall in Hall. apply Hall.
        by eapply list_elem_of_lookup_2.
      * apply lookup_ge_None in E. unfold len in Hj. lia.
    + specialize (IH Hq (i - 1) (j - 1) ltac:(lia) ltac:(lia)).
      unfold rd in *. rewrite !decide_True in * by lia.
      replace (Z.to_nat i) with (S (Z.to_nat (i - 1))) by lia.
      replace (Z.to_nat j) with (S (Z.to_nat (j - 1))) by lia. done.
Qed.

Lemma len_app {A} (l1 l2 : list A) : len (l1 ++ l2) = len l1 + len l2.
Proof. unfold len. rewrite length_app. lia. Qed.

Lemma len_nil {A} : len ([] : list A) = 0.
Proof. done. Qed.

End QueueProperties.

Section SplitEvents.
Context {D : Type} {FD : Float64 D} {EC : SimInf_h}.

Lemma split_inv_init Nn Nthread :
  0 < Nthread →
  split_inv (D := D) Nn Nthread [] (replicate (Z.to_nat Nthread) []) [].
Proof.
  intros HT. split; [rewrite len_replicate; lia|]. split; [done|].
  intros k Hk. by rewrite rd_replicate.
Qed.

Lemma split_events_inv Nn Nthread (events : list (event D)) :
  0 < Nthread → Nthread ≤ Nn →
  (∀ e, e ∈ events → is_E1 e → 1 ≤ ev_node e) →
  (∀ e, e ∈ events → ¬ undefined_event e) →
  ∃ q E2,
    SimInf_split_events events Nn Nthread = Split_ok q E2 ∧
    split_inv Nn Nthread events q E2.
Proof.
  intros HT HN Hn Hd. unfold SimInf_split_events.
  rewrite decide_False by lia.
  apply (split_fold_inv Nn Nthread events HT HN [] _ _ Hn Hd).
  by apply split_inv_init.
Qed.

(** X1. [SimInf_split_events] loses no event and keeps the order of the
    events: with at least as many nodes as threads, events of the four
    types and one-based nodes, the queue E1 of thread [k] is the list
    of the EXIT, ENTER and INTERNAL_TRANSFER events of the input whose
    node belongs to thread [k], and the queue E2 is the list of the
    EXTERNAL_TRANSFER events, each in the order of the input and with
    node, dest, select and shift less one. *)
Theorem split_events_queues Nn Nthread (events : list (event D)) :
  0 < Nthread → Nthread ≤ Nn →
  (∀ e, e ∈ events → is_E1 e → 1 ≤ ev_node e) →
  (∀ e, e ∈ events → ¬ undefined_event e) →
  ∃ q E2,
    SimInf_split_events events Nn Nthread = Split_ok q E2 ∧
    len q = Nthread ∧
    E2 = E2_of events ∧
    ∀ k, 0 ≤ k < Nthread → rd [] q k = E1_of Nn Nthread k events.
Proof.
  intros HT HN Hn Hd.
  destruct (split_events_inv Nn Nthread events HT HN Hn Hd)
    as (q & E2 & Hs & Hi).
  by exists q, E2.
Qed.

Lemma split_fold_undefined Nn Nthread (events : list (event D)) :
  0 < Nthread → Nthread ≤ Nn →
  ∀ q E2,
    match foldl (split_step Nn Nthread) (Split_ok q E2) events with
    | Split_ok _ _ => ∀ e, e ∈ events → ¬ undefined_event e
    | Split_error err =>
        err = SIMINF_UNDEFINED_EVENT ∧ ∃ e, e ∈ events ∧ undefined_event e
    | Split_trap => False
    end.
Proof.
  intros HT HN.
  assert (1 ≤ Nn `quot` Nthread) as Hc.
  { rewrite Z.quot_div_nonneg by lia. apply Z.div_le_lower_bound; lia. }
  induction events as [|e events IH]; intros q E2.
  - simpl. intros e He. by apply elem_of_nil in He.
  - cbn [foldl]. unfold split_step at 2.
    destruct (decide (is_E1 e)) as [HE1|HE1].
    + unfold E1_thread. rewrite !decide_False by lia.
      specialize (IH (push_E1 q
        (if decide ((ev_node e - 1) `quot` (Nn `quot` Nthread) >= Nthread)
         then Nthread - 1
         else (ev_node e - 1) `quot` (Nn `quot` Nthread))
        (zero_based e)) E2).
      destruct (foldl _ _ events) as [|err|q' E2']; [done| |].
      * destruct IH as (-> & e' & He' & Hu). split; [done|].
        exists e'. split; [by right|done].
      * intros e' He'. apply elem_of_cons in He' as [->|He'].
        -- intros [Hu _]. done.
        -- by apply IH.
    + destruct (decide (ev_event e = EXTERNAL_TRANSFER_EVENT)) as [Hx|Hx].
      * specialize (IH q (E2 ++ [zero_based e])).
        destruct (foldl _ _ events) as [|err|q' E2']; [done| |].
        -- destruct IH as (-> & e' & He' & Hu). split; [done|].
           exists e'. split; [by right|done].
        -- intros e' He'. apply elem_of_cons in He' as [->|He'].
           ++ intros [_ Hu]. done.
           ++ by apply IH.
      * rewrite split_fold_error. split; [done|].
        exists e. split; [by left|done].
Qed.

Lemma split_events_core_undefined Nn Nthread (events : list (event D)) :
  0 < Nthread → Nthread ≤ Nn →
  ((∃ e, e ∈ events ∧ undefined_event e) ↔
   SimInf_split_events events Nn Nthread =
     Split_error SIMINF_UNDEFINED_EVENT) ∧
  (∀ err, SimInf_split_events events Nn Nthread = Split_error err →
          err = SIMINF_UNDEFINED_EVENT) ∧
  SimInf_split_events events Nn Nthread ≠ Split_trap.
Proof.
  intros HT HN. unfold SimInf_split_events.
  rewrite decide_False by lia.
  pose proof (split_fold_undefined Nn Nthread events HT HN
    (replicate (Z.to_nat Nthread) []) []) as H.
  destruct (foldl _ _ events) as [|err|q E2]; [done| |].
  - destruct H as [-> Hex]. split; [done|]. split; [|done].
    intros err' [= <-]. done.
  - split; [|done]. split; [|done].
    intros (e & He & Hu). by destruct (H e He).
Qed.

(** The first loop counts what the second loop stores. *)
Lemma count_step_rel Nn Nthread cr sr (e : event D) :
  count_rel cr sr →
  count_rel (count_step Nn Nthread cr e) (split_step Nn Nthread sr e).
Proof.
  destruct cr as [|err|c n], sr as [|err'|q E2]; try done.
  intros (Hlen & Hn & Hc). unfold count_step, split_step.
  destruct (decide (is_E1 e)) as [HE|HE].
  - destruct (E1_thread Nn Nthread (ev_node e)) as [k|]; [|done].
    unfold count_rel, push_E1. rewrite !len_wr.
    split; [done|]. split; [done|].
    intros k'. rewrite !rd_wr, <- Hlen.
    destruct (decide (k = k' ∧ 0 ≤ k < len c)) as [[-> Hk]|Hk].
    + rewrite Hc. unfold len. rewrite length_app. simpl. lia.
    + apply Hc.
  - destruct (decide (ev_event e = EXTERNAL_TRANSFER_EVENT)); [|done].
    unfold count_rel. split; [done|]. split; [|done].
    rewrite Hn. unfold len. rewrite length_app. simpl. lia.
Qed.

Lemma count_fold_rel Nn Nthread (events : list (event D)) : ∀ cr sr,
  count_rel cr sr →
  count_rel (foldl (count_step Nn Nthread) cr events)
    (foldl (split_step Nn Nthread) sr events).
Proof.
  induction events as [|e events IH]; intros cr sr H; [done|].
  simpl. by apply IH, count_step_rel.
Qed.

Lemma count_events_rel Nn Nthread (events : list (event D)) :
  Nthread ≠ 0 →
  count_rel
    (foldl (count_step Nn Nthread)
       (Count_ok (replicate (Z.to_nat Nthread) 0) 0) events)
    (SimInf_split_events events Nn Nthread).
Proof.
  intros HT. unfold SimInf_split_events. rewrite decide_False by done.
  apply count_fold_rel. unfold count_rel.
  split; [unfold len; by rewrite !length_replicate|]. split; [done|].
  intros k. by rewrite !rd_replicate.
Qed.

Lemma allocate_events_spec (ok : bool) n :
  SIMINF_ERR_ALLOC_MEMORY_BUFFER ≠ 0 →
  (SimInf_allocate_events ok n = 0 ∧ (n > 0 → ok = true)) ∨
  (SimInf_allocate_events ok n = SIMINF_ERR_ALLOC_MEMORY_BUFFER ∧
   n > 0 ∧ ok = false).
Proof.
  intros Ha. unfold SimInf_allocate_events.
  destruct (decide (n > 0)) as [Hn|Hn]; [|left; split; [done|lia]].
  destruct ok; [by left|by right].
Qed.

(** The loop that allocates the queues ends without error when every
    queue that has events is given its arrays, and with
    [SIMINF_ERR_ALLOC_MEMORY_BUFFER] when one is not. *)
Lemma allocate_queues_spec (m : allocations) Nthread E1_i E2_i :
  SIMINF_ERR_ALLOC_MEMORY_BUFFER ≠ 0 →
  0 < Nthread →
  (allocate_queues m Nthread E1_i E2_i = 0 ∧
   queues_allocated m Nthread E1_i E2_i) ∨
  (allocate_queues m Nthread E1_i E2_i = SIMINF_ERR_ALLOC_MEMORY_BUFFER ∧
   ¬ queues_allocated m Nthread E1_i E2_i).
Proof.
  intros Ha HT. unfold allocate_queues.
  apply (for_range_inv
    (λ i err,
       err = 0 ∧
       (∀ i', 0 ≤ i' < i → E1_i.[i'] > 0 → alloc_E1 m i' = true) ∧
       (0 < i → E2_i > 0 → alloc_E2 m = true))
    (λ err,
       (err = 0 ∧ queues_allocated m Nthread E1_i E2_i) ∨
       (err = SIMINF_ERR_ALLOC_MEMORY_BUFFER ∧
        ¬ queues_allocated m Nthread E1_i E2_i))).
  - split; [done|]. split; intros; lia.
  - intros i err Hi (-> & H1 & H2). cbv zeta.
    destruct (allocate_events_spec (alloc_E1 m i) E1_i.[i] Ha)
      as [[-> Hok]|(-> & Hc & Hf)].
    2:{ rewrite decide_True by done. right. split; [done|].
        intros [Hq _]. specialize (Hq i Hi Hc). congruence. }
    rewrite decide_False by (intros H; by apply H).
    assert (∀ i', 0 ≤ i' < i + 1 → E1_i.[i'] > 0 → alloc_E1 m i' = true)
      as H1'.
    { intros i' Hi' Hp. destruct (decide (i' = i)) as [->|]; [by apply Hok|].
      apply H1; [lia|done]. }
    destruct (decide (i = 0)) as [->|Hi0].
    + destruct (allocate_events_spec (alloc_E2 m) E2_i Ha)
        as [[-> Hok2]|(-> & Hc2 & Hf2)].
      * rewrite decide_False by (intros H; by apply H). done.
      * rewrite decide_True by done. right. split; [done|].
        intros [_ Hq]. specialize (Hq Hc2). congruence.
    + split; [done|]. split; [done|]. intros _. apply H2. lia.
  - intros err (-> & H1 & H2). left. split; [done|].
    split; [intros i Hi; apply H1; lia|apply H2; lia].
Qed.

(** X2. With at least as many nodes as threads and one-based nodes,
    [SimInf_split_events] divides by zero for no input, and fails in
    two ways only.  When the array [E1_i] is not allocated it returns
    [SIMINF_ERR_ALLOC_MEMORY_BUFFER].  Otherwise, when the type of one
    of the events is none of EXIT, ENTER, INTERNAL_TRANSFER and
    EXTERNAL_TRANSFER it returns [SIMINF_UNDEFINED_EVENT]; when the
    events are of the four types and a queue that has events is not
    given its arrays it returns [SIMINF_ERR_ALLOC_MEMORY_BUFFER]; and
    when the queues that have events are given their arrays it returns
    the queues, which are those of the function without the
    allocations. *)
Theorem split_events_undefined (m : allocations) Nn Nthread
    (events : list (event D)) :
  SIMINF_ERR_ALLOC_MEMORY_BUFFER ≠ 0 →
  0 < Nthread → Nthread ≤ Nn →
  (∀ e, e ∈ events → is_E1 e → 1 ≤ ev_node e) →
  let r := SimInf_split_events_alloc m events Nn Nthread in
  let undefined := ∃ e, e ∈ events ∧ undefined_event e in
  let allocated :=
    (∀ i, 0 ≤ i < Nthread →
       E1_of Nn Nthread i events ≠ [] → alloc_E1 m i = true) ∧
    (E2_of events ≠ [] → alloc_E2 m = true) in
  r ≠ Split_trap ∧
  (∀ err, r = Split_error err →
     err = SIMINF_UNDEFINED_EVENT ∨ err = SIMINF_ERR_ALLOC_MEMORY_BUFFER) ∧
  (alloc_E1_i m = false → r = Split_error SIMINF_ERR_ALLOC_MEMORY_BUFFER) ∧
  (alloc_E1_i m = true → undefined →
   r = Split_error SIMINF_UNDEFINED_EVENT) ∧
  (alloc_E1_i m = true → ¬ undefined → ¬ allocated →
   r = Split_error SIMINF_ERR_ALLOC_MEMORY_BUFFER) ∧
  (alloc_E1_i m = true → ¬ undefined → allocated →
   r = SimInf_split_events events Nn Nthread ∧
   ∃ q E2, r = Split_ok q E2 ∧ len q = Nthread ∧ E2 = E2_of events ∧
     ∀ k, 0 ≤ k < Nthread → rd [] q k = E1_of Nn Nthread k events).
Proof.
  intros Ha HT HN Hn r undefined allocated.
  assert (Nthread ≠ 0) as HT0 by lia.
  pose proof (count_events_rel Nn Nthread events HT0) as Hrel.
  destruct (split_events_core_undefined Nn Nthread events HT HN)
    as (Hu & Herr & Htrap).
  unfold r, SimInf_split_events_alloc. rewrite decide_False by done.
  destruct (alloc_E1_i m).
  2:{ split; [done|]. split; [intros err [= <-]; by right|].
      split; [done|]. split; [done|]. split; done. }
  destruct (foldl (count_step Nn Nthread) _ events) as [|e0|c n] eqn:Ec.
  { destruct (SimInf_split_events events Nn Nthread); done. }
  { destruct (SimInf_split_events events Nn Nthread) as [|e1|q E2];
      try done.
    simpl in Hrel. subst e1. pose proof (Herr e0 eq_refl) as ->.
    assert (undefined) as Hex by (by apply Hu).
    split; [done|]. split; [intros err [= <-]; by left|].
    split; [done|]. split; [done|].
    split; [done|]. intros _ Hnu. by destruct Hnu. }
  destruct (SimInf_split_events events Nn Nthread) as [|e1|q E2] eqn:Es;
    try done.
  destruct Hrel as (Hlen & Hn2 & Hc).
  assert (¬ undefined) as Hnu.
  { intros Hex. apply Hu in Hex. discriminate Hex. }
  assert (∀ e, e ∈ events → ¬ undefined_event e) as Hd.
  { intros e He Hue. apply Hnu. by exists e. }
  destruct (split_events_inv Nn Nthread events HT HN Hn Hd)
    as (q' & E2' & Hs & Hq & HE2 & Hqs).
  rewrite Es in Hs. injection Hs as <- <-.
  assert (queues_allocated m Nthread c n ↔ allocated) as Hqa.
  { unfold queues_allocated, allocated. rewrite Hn2, HE2.
    assert (∀ l : list (event D), len l > 0 ↔ l ≠ []) as Hne.
    { intros [|x l]; unfold len; simpl; split; try done; lia. }
    split; intros [H1 H2]; (split; [|by rewrite Hne in *]).
    - intros i Hi Hp. apply H1; [done|]. rewrite Hc, Hqs by done.
      by apply Hne.
    - intros i Hi Hp. apply H1; [done|]. rewrite Hc, Hqs in Hp by done.
      by apply Hne. }
  cbv zeta.
  destruct (allocate_queues_spec m Nthread c n Ha HT) as [[-> Hok]|[-> Hno]].
  - rewrite decide_False by (intros H; by apply H).
    split; [done|]. split; [done|]. split; [done|].
    split; [intros _ Hex; by destruct Hnu|].
    split; [intros _ _ Hna; apply Hqa in Hok; by destruct Hna|].
    intros _ _ _. split; [done|]. by exists q, E2.
  - rewrite decide_True by done.
    split; [done|]. split; [intros err [= <-]; by right|].
    split; [done|].
    split; [intros _ Hex; by destruct Hnu|].
    split; [done|].
    intros _ _ Hal. apply Hqa in Hal. by destruct Hno.
Qed.

(** X3. Events that come in the order of their times are split into
    queues that are each in the order of their times: the loops over
    the events of a queue, which stop at the first event of a later
    day, then pass over no event that is due. *)
Theorem split_events_by_time Nn Nthread (events : list (event D)) :
  0 < Nthread → Nthread ≤ Nn →
  (∀ e, e ∈ events → is_E1 e → 1 ≤ ev_node e) →
  (∀ e, e ∈ events → ¬ undefined_event e) →
  by_time events →
  ∃ q E2,
    SimInf_split_events events Nn Nthread = Split_ok q E2 ∧
    by_time E2 ∧
    (∀ k, by_time (rd [] q k)) ∧
    (∀ k i j, 0 ≤ i ≤ j → j < len (rd [] q k) →
       ev_time (rd ev0 (rd [] q k) i) ≤ ev_time (rd ev0 (rd [] q k) j)) ∧
    (∀ i j, 0 ≤ i ≤ j → j < len E2 →
       ev_time (rd ev0 E2 i) ≤ ev_time (rd ev0 E2 j)).
Proof.
  intros HT HN Hn Hd Ht.
  destruct (split_events_inv Nn Nthread events HT HN Hn Hd)
    as (q & E2 & Hs & Hlen & HE2 & Hq).
  exists q, E2. split; [done|].
  assert (by_time E2) as Ht2.
  { rewrite HE2. unfold E2_of. by apply by_time_zero_based, by_time_filter. }
  assert (∀ k, by_time (rd [] q k)) as Htq.
  { intros k. destruct (decide (0 ≤ k < Nthread)) as [Hk|Hk].
    - rewrite Hq by done. unfold E1_of.
      by apply by_time_zero_based, by_time_filter.
    - rewrite rd_out by lia. done. }
  split; [done|]. split; [done|]. split.
  - intros k i j Hij Hj. by apply by_time_lookup.
  - intros i j Hij Hj. by apply by_time_lookup.
Qed.

End SplitEvents.

Lemma split_events_queues_witness :
  let ev t n k : event Q :=
    {| ev_event := t; ev_time := 1; ev_node := n; ev_dest := k; ev_n := 1;
       ev_proportion := 0%Q; ev_select := 1; ev_shift := 0 |} in
  let events := [ev 0 5 0; ev 3 1 2; ev 1 1 0; ev 2 6 0] in
  ∃ q E2,
    SimInf_split_events events 6 2 = Split_ok q E2 ∧
    len q = 2 ∧
    E2 = E2_of events ∧
    ∀ k, 0 ≤ k < 2 → rd [] q k = E1_of 6 2 k events.
Proof.
  intros ev events.
  apply (split_events_queues 6 2 events); [lia|lia| |].
  - intros e He _. repeat (apply elem_of_cons in He as [->|He]; [simpl; lia|]).
    by apply elem_of_nil in He.
  - intros e He [H1 H2].
    repeat (apply elem_of_cons in He as [->|He];
            [first [by apply H2 | apply H1; unfold is_E1; simpl; tauto]|]).
    by apply elem_of_nil in He.
Defined.

(** Three events of which one has the type 4, with every allocation; and
    two events of the nodes 1 and 3, for the threads 0 and 1, when the
    queue of thread 1 is not given its arrays. *)
Lemma split_events_undefined_witness :
  let ev t n : event Q :=
    {| ev_event := t; ev_time := 1; ev_node := n; ev_dest := 0; ev_n := 1;
       ev_proportion := 0%Q; ev_select := 1; ev_shift := 0 |} in
  let m :=
    {| alloc_uu := true; alloc_vv_1 := true; alloc_vv_2 := true;
       alloc_update_node := true; alloc_rng := true; alloc_sim_args := true;
       alloc_thread := λ _, true; alloc_E1_i := true;
       alloc_E1 := λ i, bool_decide (i = 0); alloc_E2 := true |} in
  SimInf_split_events_alloc all_allocated [ev 0 1; ev 4 1; ev 1 1] 3 2 =
    Split_error SIMINF_UNDEFINED_EVENT ∧
  SimInf_split_events_alloc m [ev 0 1; ev 1 3] 3 2 =
    Split_error SIMINF_ERR_ALLOC_MEMORY_BUFFER.
Proof.
  intros ev m.
  assert (SIMINF_ERR_ALLOC_MEMORY_BUFFER ≠ 0) as Ha by discriminate.
  split.
  - assert (∀ e, e ∈ [ev 0 1; ev 4 1; ev 1 1] → is_E1 e → 1 ≤ ev_node e)
      as Hn.
    { intros e He _.
      repeat (apply elem_of_cons in He as [->|He]; [simpl; lia|]).
      by apply elem_of_nil in He. }
    destruct (split_events_undefined all_allocated 3 2
                [ev 0 1; ev 4 1; ev 1 1] Ha ltac:(lia) ltac:(lia) Hn)
      as (_ & _ & _ & Hu & _).
    apply Hu; [reflexivity|].
    exists (ev 4 1). split; [right; left|].
    split; [|done]. intros [H|[H|H]]; discriminate H.
  - assert (∀ e, e ∈ [ev 0 1; ev 1 3] → is_E1 e → 1 ≤ ev_node e) as Hn.
    { intros e He _.
      repeat (apply elem_of_cons in He as [->|He]; [simpl; lia|]).
      by apply elem_of_nil in He. }
    destruct (split_events_undefined m 3 2 [ev 0 1; ev 1 3] Ha
                ltac:(lia) ltac:(lia) Hn)
      as (_ & _ & _ & _ & Hq & _).
    apply Hq; [reflexivity| |].
    + intros (e & He & [H1 H2]).
      repeat (apply elem_of_cons in He as [->|He];
              [apply H1; unfold is_E1; simpl; tauto|]).
      by apply elem_of_nil in He.
    + intros [H _]. specialize (H 1 ltac:(lia)).
      assert (E1_of 3 2 1 [ev 0 1; ev 1 3] ≠ []) as Hne
        by (vm_compute; discriminate).
      specialize (H Hne). discriminate H.
Defined.

Lemma split_events_by_time_witness :
  let ev t d n k : event Q :=
    {| ev_event := t; ev_time := d; ev_node := n; ev_dest := k; ev_n := 1;
       ev_proportion := 0%Q; ev_select := 1; ev_shift := 0 |} in
  let events := [ev 0 1 5 0; ev 3 1 1 2; ev 1 2 1 0; ev 2 4 6 0] in
  ∃ q E2,
    SimInf_split_events events 6 2 = Split_ok q E2 ∧
    by_time E2 ∧
    (∀ k, by_time (rd [] q k)) ∧
    (∀ k i j, 0 ≤ i ≤ j → j < len (rd [] q k) →
       ev_time (rd ev0 (rd [] q k) i) ≤ ev_time (rd ev0 (rd [] q k) j)) ∧
    (∀ i j, 0 ≤ i ≤ j → j < len E2 →
       ev_time (rd ev0 E2 i) ≤ ev_time (rd ev0 E2 j)).
Proof.
  intros ev events.
  apply (split_events_by_time 6 2 events); [lia|lia| | |].
  - intros e He _. repeat (apply elem_of_cons in He as [->|He]; [simpl; lia|]).
    by apply elem_of_nil in He.
  - intros e He [H1 H2].
    repeat (apply elem_of_cons in He as [->|He];
            [first [by apply H2 | apply H1; unfold is_E1; simpl; tauto]|]).
    by apply elem_of_nil in He.
  - simpl. repeat split; repeat constructor; simpl; lia.
Defined.

(** ** The events E1 *)

Section E1Properties.
Context {D R : Type} {FD : Float64 D} {GR : Gsl R D} {EC : SimInf_h}.
Variable c : SimInf_thread_args (D := D).

Lemma zsum_seqZ_succ (f : Z → Z) lo i :
  lo ≤ i →
  zsum (f <$> seqZ lo (i + 1 - lo)) = zsum (f <$> seqZ lo (i - lo)) + f i.
Proof.
  intros Hi. replace (i + 1 - lo) with (i - lo + 1) by lia.
  rewrite seqZ_app by lia. rewrite fmap_app, zsum_app.
  rewrite (seqZ_cons (lo + (i - lo))) by lia.
  rewrite (seqZ_nil _ (Z.pred 1)) by lia.
  rewrite fmap_cons, zsum_cons. simpl.
  replace (lo + (i - lo)) with i by lia. lia.
Qed.

(** The loop of an EXIT event that ends without error took the sampled
    individuals from [node]. *)
Lemma exit_event_spec (e : event D) (ind uu0 : list Z) :
  let lo := (jcE c).[ev_select e] in
  let hi := (jcE c).[ev_select e + 1] in
  let moved := zsum ((λ i, ind.[(irE c).[i]]) <$> seqZ lo (hi - lo)) in
  SIMINF_ERR_NEGATIVE_STATE ≠ 0 →
  ints ind → counts uu0 →
  0 ≤ ev_node e → (ev_node e + 1) * Nc c ≤ len uu0 →
  (∀ i, lo ≤ i < hi → 0 ≤ (irE c).[i] < Nc c) →
  let r := exit_event c e ind uu0 0 in
  r.2 = 0 →
  zsum r.1 = zsum uu0 - moved ∧ len r.1 = len uu0 ∧ counts r.1 ∧
  ∀ nd, 0 ≤ nd → (nd + 1) * Nc c ≤ len uu0 →
    node_total (Nc c) r.1 nd =
    node_total (Nc c) uu0 nd - (if decide (nd = ev_node e) then moved else 0).
Proof.
  intros lo hi moved Hneg Hind Huu Hn0 Hn1 Hidx r.
  unfold r, exit_event. fold lo hi.
  set (mv i := zsum ((λ i, ind.[(irE c).[i]]) <$> seqZ lo (i - lo))).
  apply (for_range_inv
    (λ i '(uu', err'),
       err' = 0 ∧ zsum uu' = zsum uu0 - mv i ∧ len uu' = len uu0 ∧
       counts uu' ∧
       ∀ nd, 0 ≤ nd → (nd + 1) * Nc c ≤ len uu0 →
         node_total (Nc c) uu' nd =
         node_total (Nc c) uu0 nd
         - (if decide (nd = ev_node e) then mv i else 0))).
  - assert (mv lo = 0) as Hmv by (unfold mv; by rewrite seqZ_nil by lia).
    rewrite Hmv. split; [done|]. split; [lia|]. split; [done|].
    split; [done|]. intros nd _ _. case_decide; lia.
  - intros i [uu' err'] Hi (-> & Hsum & Hlen & Hcnt & Hrows).
    pose proof (Hidx i Hi) as Hjj.
    set (jj := (irE c).[i]) in *.
    set (kk := ev_node e * Nc c + jj).
    assert (0 ≤ kk < len uu') as Hkk by (unfold kk; nia).
    unfold isub. rewrite (rd_wr_eq 0 uu' kk) by done.
    case_decide as Hc1; [by intros ?|].
    assert (wrap (uu'.[kk] - ind.[jj]) = uu'.[kk] - ind.[jj]) as Hex
      by (apply wrap_sub_count; [apply Hcnt|apply Hind|lia]).
    rewrite Hex in Hc1 |- *.
    assert (mv (i + 1) = mv i + ind.[jj]) as Hmv
      by (unfold mv; by rewrite zsum_seqZ_succ by lia).
    rewrite Hmv.
    split; [done|]. split; [|split; [|split]].
    + rewrite zsum_wr by lia. lia.
    + by rewrite len_wr.
    + apply counts_wr; [done|].
      pose proof (wrap_is_int (uu'.[kk] - ind.[jj])) as Hw.
      rewrite Hex in Hw. unfold is_int, INT_MIN, INT_MAX in *. lia.
    + intros nd Hnd0 Hnd1. unfold node_total in *.
      rewrite node_total_wr by lia. rewrite Hrows by done.
      pose proof (row_of (Nc c) nd (ev_node e) jj Hjj) as Hr.
      fold kk in Hr.
      repeat case_decide; try lia; exfalso; tauto.
  - intros [uu' err'] (-> & Hsum & Hlen & Hcnt & Hrows) _.
    assert (mv (Z.max lo hi) = moved) as Hmv.
    { unfold mv, moved. destruct (decide (lo ≤ hi)).
      - by replace (Z.max lo hi) with hi by lia.
      - by rewrite !seqZ_nil by lia. }
    rewrite Hmv in *. done.
Qed.

(** The loop of an INTERNAL_TRANSFER event that ends without error
    moved the sampled individuals within [node]. *)
Lemma internal_transfer_spec (e : event D) (ind uu0 : list Z) :
  let lo := (jcE c).[ev_select e] in
  let hi := (jcE c).[ev_select e + 1] in
  let ll jj := (N c).[ev_shift e * Nc c + jj] in
  SIMINF_ERR_NEGATIVE_STATE ≠ 0 →
  ints ind → counts uu0 →
  0 ≤ ev_node e → (ev_node e + 1) * Nc c ≤ len uu0 →
  (∀ i, lo ≤ i < hi →
     0 ≤ (irE c).[i] < Nc c ∧ 0 ≤ (irE c).[i] + ll (irE c).[i] < Nc c) →
  let r := internal_transfer_event c e ind uu0 0 in
  r.2 = 0 →
  zsum r.1 = zsum uu0 ∧ len r.1 = len uu0 ∧ counts r.1 ∧
  ∀ nd, 0 ≤ nd → (nd + 1) * Nc c ≤ len uu0 →
    node_total (Nc c) r.1 nd = node_total (Nc c) uu0 nd.
Proof.
  intros lo hi ll Hneg Hind Huu Hn0 Hn1 Hidx r.
  unfold r, internal_transfer_event. fold lo hi.
  apply (for_range_inv
    (λ (i : Z) '(uu', err'),
       err' = 0 ∧ zsum uu' = zsum uu0 ∧ len uu' = len uu0 ∧ counts uu' ∧
       ∀ nd, 0 ≤ nd → (nd + 1) * Nc c ≤ len uu0 →
         node_total (Nc c) uu' nd = node_total (Nc c) uu0 nd)).
  - done.
  - intros i [uu' err'] Hi (-> & Hsum & Hlen & Hcnt & Hrows).
    destruct (Hidx i Hi) as [Hjj Hjl]. fold (ll (irE c).[i]).
    set (jj := (irE c).[i]) in *. set (l := ll jj) in *.
    set (kk := ev_node e * Nc c + jj).
    assert (0 ≤ kk + l < len uu') as Hk1 by (unfold kk; nia).
    assert (0 ≤ kk < len uu') as Hk2 by (unfold kk; nia).
    unfold iadd, isub.
    rewrite (rd_wr_eq 0 uu' (kk + l)) by done.
    case_decide as Hc1; [by intros ?|].
    assert (wrap (uu'.[kk + l] + ind.[jj]) = uu'.[kk + l] + ind.[jj]) as Hex1
      by (apply wrap_add_count; [apply Hcnt|apply Hind|lia]).
    rewrite Hex1 in Hc1 |- *.
    set (uu1 := wr uu' (kk + l) (uu'.[kk + l] + ind.[jj])).
    assert (counts uu1) as Hcnt1.
    { apply counts_wr; [done|].
      pose proof (wrap_is_int (uu'.[kk + l] + ind.[jj])) as Hw.
      rewrite Hex1 in Hw. unfold is_int, INT_MIN, INT_MAX in *. lia. }
    assert (len uu1 = len uu') as Hlen1 by apply len_wr.
    rewrite (rd_wr_eq 0 uu1 kk) by lia.
    case_decide as Hc2; [by intros ?|].
    assert (wrap (uu1.[kk] - ind.[jj]) = uu1.[kk] - ind.[jj]) as Hex2
      by (apply wrap_sub_count; [apply Hcnt1|apply Hind|lia]).
    rewrite Hex2 in Hc2 |- *.
    split; [done|]. split; [|split; [|split]].
    + rewrite zsum_wr by lia. unfold uu1 at 1. rewrite zsum_wr by lia. lia.
    + by rewrite len_wr, Hlen1.
    + apply counts_wr; [done|].
      pose proof (wrap_is_int (uu1.[kk] - ind.[jj])) as Hw.
      rewrite Hex2 in Hw. unfold is_int, INT_MIN, INT_MAX in *. lia.
    + intros nd Hnd0 Hnd1. unfold node_total in *.
      rewrite node_total_wr by lia. unfold uu1 at 1.
      rewrite node_total_wr by lia. rewrite Hrows by done.
      pose proof (row_of (Nc c) nd (ev_node e) (jj + l) Hjl) as Hr1.
      pose proof (row_of (Nc c) nd (ev_node e) jj Hjj) as Hr2.
      replace (ev_node e * Nc c + (jj + l)) with (kk + l) in Hr1
        by (unfold kk; lia).
      fold kk in Hr2.
      repeat case_decide; try lia; exfalso; tauto.
  - intros [uu' err'] (-> & Hsum & Hlen & Hcnt & Hrows) _. done.
Qed.

(** X4. An EXIT event that is applied without error takes the sampled
    individuals from its node: the total of the node and the total of
    [uu] fall by the sum of the vector [individuals] over the select
    column, and the totals of the other nodes stay as they are. *)
Theorem exit_event_removes (sa : thread_state) (sh : shared) :
  let e := rd ev0 (E1 c) (E1_index sa) in
  let sel := selected (irE c) (jcE c) (ev_select e) in
  SIMINF_ERR_NEGATIVE_STATE ≠ 0 →
  counts (uu sh) →
  ev_event e = EXIT_EVENT →
  0 ≤ ev_node e → (ev_node e + 1) * Nc c ≤ len (uu sh) →
  (∀ jj, jj ∈ sel → 0 ≤ jj < Nc c) →
  ∀ sa' sh',
    E1_step c sa sh = Next (sa', sh') →
    errcode sa' = 0 →
    let moved := zsum ((λ jj, (individuals sa').[jj]) <$> sel) in
    zsum (uu sh') = zsum (uu sh) - moved ∧
    counts (uu sh') ∧
    ∀ nd, 0 ≤ nd → (nd + 1) * Nc c ≤ len (uu sh) →
      node_total (Nc c) (uu sh') nd =
      node_total (Nc c) (uu sh) nd
      - (if decide (nd = ev_node e) then moved else 0).
Proof.
  intros e sel Hneg Hcnt Hev Hn0 Hn1 Hidx sa' sh' Hstep Herr moved.
  unfold E1_step in Hstep. fold e in Hstep.
  rewrite decide_False in Hstep by (rewrite Hev; done).
  pose proof (sample_select_ints (irE c) (jcE c) (Nc c) (uu sh) (ev_node e)
    (ev_select e) (ev_n e) (ev_proportion e) (rng sa) (counts_ints _ Hcnt))
    as Hints.
  destruct (SimInf_sample_select _ _ _ _ _ _ _ _ _) as [[err ind] rng'].
  simpl in Hints.
  case_decide as Herr0; [done|].
  assert (err = 0) as -> by (destruct (decide (err = 0)); done).
  rewrite decide_True in Hstep by done.
  pose proof (exit_event_spec e ind (uu sh) Hneg Hints Hcnt Hn0 Hn1)
    as Hspec. cbv zeta in Hspec.
  destruct (exit_event c e ind (uu sh) 0) as [uu' err'].
  injection Hstep as <- <-. simpl in Herr |- *.
  simpl in Hspec.
  destruct Hspec as (Hsum & _ & Hc' & Hrows); [|done|].
  { intros i Hi. apply Hidx. apply elem_of_selected. by exists i. }
  assert (moved = zsum ((λ i, ind.[(irE c).[i]]) <$>
            seqZ (jcE c).[ev_select e]
              ((jcE c).[ev_select e + 1] - (jcE c).[ev_select e]))) as Hm.
  { unfold moved, sel, selected. by rewrite <- list_fmap_compose. }
  rewrite Hm. done.
Qed.

(** X5. An INTERNAL_TRANSFER event that is applied without error moves
    individuals between compartments of its node only: the total of
    every node, and so the total of [uu], stays as it is. *)
Theorem internal_transfer_conserves (sa : thread_state) (sh : shared) :
  let e := rd ev0 (E1 c) (E1_index sa) in
  let sel := selected (irE c) (jcE c) (ev_select e) in
  SIMINF_ERR_NEGATIVE_STATE ≠ 0 →
  counts (uu sh) →
  ev_event e ≠ ENTER_EVENT → ev_event e ≠ EXIT_EVENT →
  0 ≤ ev_node e → (ev_node e + 1) * Nc c ≤ len (uu sh) →
  (∀ jj, jj ∈ sel →
     0 ≤ jj < Nc c ∧ 0 ≤ jj + (N c).[ev_shift e * Nc c + jj] < Nc c) →
  ∀ sa' sh',
    E1_step c sa sh = Next (sa', sh') →
    errcode sa' = 0 →
    zsum (uu sh') = zsum (uu sh) ∧
    counts (uu sh') ∧
    ∀ nd, 0 ≤ nd → (nd + 1) * Nc c ≤ len (uu sh) →
      node_total (Nc c) (uu sh') nd = node_total (Nc c) (uu sh) nd.
Proof.
  intros e sel Hneg Hcnt Hev1 Hev2 Hn0 Hn1 Hidx sa' sh' Hstep Herr.
  unfold E1_step in Hstep. fold e in Hstep.
  rewrite decide_False in Hstep by done.
  pose proof (sample_select_ints (irE c) (jcE c) (Nc c) (uu sh) (ev_node e)
    (ev_select e) (ev_n e) (ev_proportion e) (rng sa) (counts_ints _ Hcnt))
    as Hints.
  destruct (SimInf_sample_select _ _ _ _ _ _ _ _ _) as [[err ind] rng'].
  simpl in Hints.
  case_decide as Herr0; [done|].
  assert (err = 0) as -> by (destruct (decide (err = 0)); done).
  rewrite decide_False in Hstep by done.
  pose proof (internal_transfer_spec e ind (uu sh) Hneg Hints Hcnt Hn0 Hn1)
    as Hspec. cbv zeta in Hspec.
  destruct (internal_transfer_event c e ind (uu sh) 0) as [uu' err'].
  injection Hstep as <- <-. simpl in Herr |- *.
  simpl in Hspec.
  destruct Hspec as (Hsum & _ & Hc' & Hrows); [|done|].
  { intros i Hi. apply Hidx. apply elem_of_selected. by exists i. }
  done.
Qed.

(** X6. An ENTER event with a select column that is not empty adds its
    [n] individuals to the first compartment of the column in its node:
    the event is applied without error exactly when the new number of
    the compartment is a number of individuals (not negative, and not
    above [INT_MAX], where the sum wraps to a negative [int]); the
    compartment then holds [n] more, and nothing else changes.
    Otherwise the error code is [SIMINF_ERR_NEGATIVE_STATE]. *)
Theorem enter_event_adds (sa : thread_state) (sh : shared) :
  let e := rd ev0 (E1 c) (E1_index sa) in
  let k := ev_node e * Nc c + (irE c).[(jcE c).[ev_select e]] in
  SIMINF_ERR_NEGATIVE_STATE ≠ 0 →
  counts (uu sh) →
  errcode sa = 0 →
  ev_event e = ENTER_EVENT →
  (jcE c).[ev_select e] < (jcE c).[ev_select e + 1] →
  0 ≤ k < len (uu sh) →
  is_int (ev_n e) →
  ∃ sa' sh',
    E1_step c sa sh = Next (sa', sh') ∧
    E1_index sa' = E1_index sa + 1 ∧
    update_node sh' = wr (update_node sh) (ev_node e) 1 ∧
    (errcode sa' = 0 ∨ errcode sa' = SIMINF_ERR_NEGATIVE_STATE) ∧
    (errcode sa' = 0 ↔ 0 ≤ (uu sh).[k] + ev_n e ≤ INT_MAX) ∧
    (errcode sa' = 0 →
       uu sh' = wr (uu sh) k ((uu sh).[k] + ev_n e) ∧
       zsum (uu sh') = zsum (uu sh) + ev_n e).
Proof.
  intros e k Hneg Hcnt Herr Hev Hcol Hk Hn.
  unfold E1_step. fold e. rewrite decide_True by done.
  unfold enter_event. rewrite decide_True by done. fold k.
  eexists _, _. split; [done|]. simpl.
  split; [done|]. split; [done|].
  rewrite rd_wr_eq by done. unfold iadd.
  pose proof (Hcnt k) as Hu. pose proof (wrap_is_int ((uu sh).[k] + ev_n e)) as Hw.
  destruct (decide (0 ≤ (uu sh).[k] + ev_n e ≤ INT_MAX)) as [Hin|Hout].
  - rewrite wrap_id by (unfold is_int, INT_MIN, INT_MAX in *; lia).
    rewrite decide_False by lia. rewrite Herr.
    split; [by left|]. split; [done|]. intros _. split; [done|].
    rewrite zsum_wr by done. lia.
  - assert (wrap ((uu sh).[k] + ev_n e) < 0) as Hlt.
    { destruct (decide ((uu sh).[k] + ev_n e < 0)) as [Hl|Hl].
      - rewrite wrap_id; [done|].
        unfold is_int, INT_MIN, INT_MAX in *. lia.
      - unfold wrap, is_int, INT_MIN, INT_MAX in *.
        replace (((uu sh).[k] + ev_n e + 2 ^ 31) `mod` 2 ^ 32)
          with ((uu sh).[k] + ev_n e + 2 ^ 31 - 2 ^ 32); [lia|].
        apply Z.mod_unique with 1; lia. }
    rewrite decide_True by done.
    split; [by right|]. split; [|done]. split; [done|lia].
Qed.

End E1Properties.

(** Three of the five individuals of a node with two compartments
    leave it. *)
Lemma exit_event_removes_witness :
  let c := args_of 1 0 1 0 2 [] [0] [] [0] [] [0; 1] [0; 2] [] [] [0; 1]%Q
             [{| ev_event := EXIT_EVENT; ev_time := 0; ev_node := 0;
                 ev_dest := -1; ev_n := 3; ev_proportion := 0%Q;
                 ev_select := 0; ev_shift := -1 |}] [] in
  let sa := state_of [] 0 1 0 2 in
  let sh := shared_of [4; 1] 1 2 in
  (∃ sa' sh', E1_step c sa sh = Next (sa', sh') ∧ errcode sa' = 0 ∧
              individuals sa' = [3; 0] ∧ uu sh' = [1; 1]) ∧
  ∀ sa' sh',
    E1_step c sa sh = Next (sa', sh') →
    errcode sa' = 0 →
    let moved :=
      zsum ((λ jj, (individuals sa').[jj]) <$> selected [0; 1] [0; 2] 0) in
    zsum (uu sh') = zsum (uu sh) - moved ∧
    counts (uu sh') ∧
    ∀ nd, 0 ≤ nd → (nd + 1) * 2 ≤ len (uu sh) →
      node_total 2 (uu sh') nd =
      node_total 2 (uu sh) nd - (if decide (nd = 0) then moved else 0).
Proof.
  intros c sa sh. split.
  { eexists _, _. split; [vm_compute; reflexivity|]. repeat split. }
  apply (exit_event_removes c sa sh).
  - discriminate.
  - apply counts_Forall. repeat constructor; unfold INT_MAX; lia.
  - reflexivity.
  - vm_compute. discriminate.
  - vm_compute. discriminate.
  - intros jj Hjj. change (jj ∈ [0; 1]) in Hjj.
    apply elem_of_cons in Hjj as [->|Hjj];
      [vm_compute; split; [discriminate|reflexivity]|].
    apply list_elem_of_singleton in Hjj as ->.
    vm_compute; split; [discriminate|reflexivity].
Defined.

(** Two of the four individuals of the first compartment move to the
    second one. *)
Lemma internal_transfer_conserves_witness :
  let c := args_of 1 0 1 0 2 [] [0] [] [0] [] [0] [0; 1] [1; 0] [] [0; 1]%Q
             [{| ev_event := INTERNAL_TRANSFER_EVENT; ev_time := 0;
                 ev_node := 0; ev_dest := -1; ev_n := 2;
                 ev_proportion := 0%Q; ev_select := 0; ev_shift := 0 |}] [] in
  let sa := state_of [] 0 1 0 2 in
  let sh := shared_of [4; 1] 1 2 in
  (∃ sa' sh', E1_step c sa sh = Next (sa', sh') ∧ errcode sa' = 0 ∧
              uu sh' = [2; 3]) ∧
  ∀ sa' sh',
    E1_step c sa sh = Next (sa', sh') →
    errcode sa' = 0 →
    zsum (uu sh') = zsum (uu sh) ∧
    counts (uu sh') ∧
    ∀ nd, 0 ≤ nd → (nd + 1) * 2 ≤ len (uu sh) →
      node_total 2 (uu sh') nd = node_total 2 (uu sh) nd.
Proof.
  intros c sa sh. split.
  { eexists _, _. split; [vm_compute; reflexivity|]. repeat split. }
  apply (internal_transfer_conserves c sa sh).
  - discriminate.
  - apply counts_Forall. repeat constructor; unfold INT_MAX; lia.
  - discriminate.
  - discriminate.
  - vm_compute. discriminate.
  - vm_compute. discriminate.
  - intros jj Hjj. change (jj ∈ [0]) in Hjj.
    apply list_elem_of_singleton in Hjj as ->. vm_compute.
    repeat split; discriminate.
Defined.

(** Ten individuals enter the second compartment of a node. *)
Lemma enter_event_adds_witness :
  let c := args_of 1 0 1 0 2 [] [0] [] [0] [] [1] [0; 1] [] [] [0; 1]%Q
             [{| ev_event := ENTER_EVENT; ev_time := 0; ev_node := 0;
                 ev_dest := -1; ev_n := 10; ev_proportion := 0%Q;
                 ev_select := 0; ev_shift := -1 |}] [] in
  let sa := state_of [] 0 1 0 2 in
  let sh := shared_of [4; 1] 1 2 in
  ∃ sa' sh',
    E1_step c sa sh = Next (sa', sh') ∧
    E1_index sa' = 0 + 1 ∧
    update_node sh' = wr (update_node sh) 0 1 ∧
    (errcode sa' = 0 ∨ errcode sa' = SIMINF_ERR_NEGATIVE_STATE) ∧
    (errcode sa' = 0 ↔ 0 ≤ (uu sh).[1] + 10 ≤ INT_MAX) ∧
    (errcode sa' = 0 →
       uu sh' = wr (uu sh) 1 ((uu sh).[1] + 10) ∧
       zsum (uu sh') = zsum (uu sh) + 10).
Proof.
  intros c sa sh.
  apply (enter_event_adds c sa sh).
  - discriminate.
  - apply counts_Forall. repeat constructor; unfold INT_MAX; lia.
  - reflexivity.
  - reflexivity.
  - vm_compute. reflexivity.
  - vm_compute. split; [discriminate|reflexivity].
  - vm_compute. split; discriminate.
Defined.

(** ** The steps of the SSA on the state *)

Section StepProperties.
Context {D R : Type} {FD : Float64 D} {GR : Gsl R D} {EC : SimInf_h}.
Variable c : SimInf_thread_args (D := D).

(** The sum of column [tr] of the matrix S. *)
#[local] Abbreviation colsum tr :=
  (zsum ((λ j, (prS c).[j]) <$>
     seqZ (jcS c).[tr] ((jcS c).[tr + 1] - (jcS c).[tr]))).

(** The update of the state that ends without error added column [tr]
    of S to the state of the node. *)
Lemma update_state_spec node tr (uu0 : list Z) :
  let lo := (jcS c).[tr] in
  let hi := (jcS c).[tr + 1] in
  let nd0 := Ni c + node in
  SIMINF_ERR_NEGATIVE_STATE ≠ 0 →
  ints (prS c) → counts uu0 →
  0 ≤ nd0 → (nd0 + 1) * Nc c ≤ len uu0 →
  (∀ j, lo ≤ j < hi → 0 ≤ (irS c).[j] < Nc c) →
  let r := update_state c node tr uu0 0 in
  r.2 = 0 →
  zsum r.1 = zsum uu0 + colsum tr ∧ len r.1 = len uu0 ∧ counts r.1 ∧
  (∀ k, ¬ nd0 * Nc c ≤ k < nd0 * Nc c + Nc c → r.1.[k] = uu0.[k]) ∧
  (∀ nd, 0 ≤ nd → (nd + 1) * Nc c ≤ len uu0 →
    node_total (Nc c) r.1 nd =
    node_total (Nc c) uu0 nd + (if decide (nd = nd0) then colsum tr else 0)) ∧
  ∀ r0, 0 ≤ r0 < Nc c →
    r.1.[nd0 * Nc c + r0] = uu0.[nd0 * Nc c + r0] + S_entry c tr r0.
Proof.
  intros lo hi nd0 Hneg Hp Huu Hn0 Hn1 Hidx r.
  unfold r, update_state, S_entry. fold lo hi.
  set (cs i := zsum ((λ j, (prS c).[j]) <$> seqZ lo (i - lo))).
  set (es i r0 :=
    zsum ((λ j, if decide ((irS c).[j] = r0) then (prS c).[j] else 0) <$>
       seqZ lo (i - lo))).
  apply (for_range_inv
    (λ i '(uu', err'),
       (err' = 0 ∨ err' = SIMINF_ERR_NEGATIVE_STATE) ∧
       (err' = 0 →
        zsum uu' = zsum uu0 + cs i ∧ len uu' = len uu0 ∧ counts uu' ∧
        (∀ k, ¬ nd0 * Nc c ≤ k < nd0 * Nc c + Nc c → uu'.[k] = uu0.[k]) ∧
        (∀ nd, 0 ≤ nd → (nd + 1) * Nc c ≤ len uu0 →
          node_total (Nc c) uu' nd =
          node_total (Nc c) uu0 nd
          + (if decide (nd = nd0) then cs i else 0)) ∧
        ∀ r0, 0 ≤ r0 < Nc c →
          uu'.[nd0 * Nc c + r0] = uu0.[nd0 * Nc c + r0] + es i r0))).
  - assert (cs lo = 0) as Hcs by (unfold cs; by rewrite seqZ_nil by lia).
    assert (∀ r0, es lo r0 = 0) as Hes
      by (intros r0; unfold es; by rewrite seqZ_nil by lia).
    rewrite Hcs. split; [by left|]. intros _.
    split; [lia|]. split; [done|]. split; [done|]. split; [done|].
    split; [intros nd _ _; case_decide; lia|].
    intros r0 _. rewrite Hes. lia.
  - intros j [uu' err'] Hj [He Hinv].
    set (k := Ni c * Nc c + node * Nc c + (irS c).[j]).
    destruct He as [-> | ->].
    2:{ split; [case_decide; by right|]. intros H. by case_decide. }
    destruct (Hinv eq_refl) as (Hsum & Hlen & Hcnt & Hfr & Hrows & Hent).
    pose proof (Hidx j Hj) as Hjj.
    assert (k = nd0 * Nc c + (irS c).[j]) as Hk' by (unfold k, nd0; lia).
    assert (0 ≤ k < len uu') as Hk by nia.
    unfold iadd. rewrite (rd_wr_eq 0 uu' k) by done.
    case_decide as Hc1; [split; [by right|done]|].
    split; [by left|]. intros _.
    assert (wrap (uu'.[k] + (prS c).[j]) = uu'.[k] + (prS c).[j]) as Hex
      by (apply wrap_add_count; [apply Hcnt|apply Hp|lia]).
    rewrite Hex in Hc1 |- *.
    assert (cs (j + 1) = cs j + (prS c).[j]) as Hcs
      by (unfold cs; by rewrite zsum_seqZ_succ by lia).
    rewrite Hcs.
    split; [|split; [|split; [|split; [|split]]]].
    + rewrite zsum_wr by lia. lia.
    + by rewrite len_wr.
    + apply counts_wr; [done|].
      pose proof (wrap_is_int (uu'.[k] + (prS c).[j])) as Hw.
      rewrite Hex in Hw. unfold is_int, INT_MIN, INT_MAX in *. lia.
    + intros k' Hk0. rewrite rd_wr_ne by lia. by apply Hfr.
    + intros nd Hnd0 Hnd1. unfold node_total in *.
      rewrite node_total_wr by lia. rewrite Hrows by done.
      pose proof (row_of (Nc c) nd nd0 (irS c).[j] Hjj) as Hr.
      rewrite <- Hk' in Hr.
      repeat case_decide; try lia; exfalso; tauto.
    + intros r0 Hr0.
      assert (es (j + 1) r0 =
              es j r0 + (if decide ((irS c).[j] = r0) then (prS c).[j] else 0))
        as Hes by (unfold es; by rewrite zsum_seqZ_succ by lia).
      rewrite Hes. destruct (decide ((irS c).[j] = r0)) as [Heq|Hne].
      * rewrite <- Heq, <- Hk'. rewrite rd_wr_eq by done.
        rewrite Hk', Heq. rewrite (Hent r0 Hr0). rewrite <- Heq, <- Hk'. lia.
      * rewrite rd_wr_ne by lia. rewrite (Hent r0 Hr0). lia.
  - intros [uu' err'] [_ Hinv] Herr. simpl in Herr.
    destruct (Hinv Herr) as (Hsum & Hlen & Hcnt & Hfr & Hrows & Hent).
    assert (cs (Z.max lo hi) = colsum tr) as Hcs.
    { unfold cs. fold lo hi. destruct (decide (lo ≤ hi)).
      - by replace (Z.max lo hi) with hi by lia.
      - by rewrite !seqZ_nil by lia. }
    assert (∀ r0, es (Z.max lo hi) r0 =
              zsum ((λ j, if decide ((irS c).[j] = r0) then (prS c).[j] else 0)
                      <$> seqZ lo (hi - lo))) as Hes.
    { intros r0. unfold es. destruct (decide (lo ≤ hi)).
      - by replace (Z.max lo hi) with hi by lia.
      - by rewrite !seqZ_nil by lia. }
    rewrite Hcs in *. simpl.
    split; [done|]. split; [done|]. split; [done|]. split; [done|].
    split; [done|]. intros r0 Hr0. rewrite <- Hes. by apply Hent.
Qed.

(** X7. A step of the SSA that fires a transition without error adds
    the column of S of one transition [tr] to the state of its node,
    compartment by compartment: the count of compartment [r] of the node
    grows by the entry of row [r] of the column.  It changes no
    compartment of another node; the number of individuals of the node
    changes by the sum of the column, and with columns of S that sum to
    zero (transitions that only move individuals between compartments),
    the number of individuals of every node is the same after the
    step. *)
Theorem ssa_step_stoichiometry node (sa : thread_state) (uu : list Z) :
  let nd0 := Ni c + node in
  SIMINF_ERR_NEGATIVE_STATE ≠ 0 →
  SIMINF_ERR_INVALID_RATE ≠ 0 →
  1 ≤ Nt c →
  ints (prS c) → counts uu →
  0 ≤ nd0 → (nd0 + 1) * Nc c ≤ len uu →
  (∀ j, 0 ≤ (irS c).[j] < Nc c) →
  ∀ sa' uu',
    ssa_step c node sa uu = Next (sa', uu') →
    errcode sa' = 0 →
    counts uu' ∧ len uu' = len uu ∧
    (∀ k, ¬ nd0 * Nc c ≤ k < nd0 * Nc c + Nc c → uu'.[k] = uu.[k]) ∧
    (∃ tr, 0 ≤ tr < Nt c ∧
       (∀ r, 0 ≤ r < Nc c →
          uu'.[nd0 * Nc c + r] = uu.[nd0 * Nc c + r] + S_entry c tr r) ∧
       zsum uu' = zsum uu + colsum tr ∧
       ∀ nd, 0 ≤ nd → (nd + 1) * Nc c ≤ len uu →
         node_total (Nc c) uu' nd =
         node_total (Nc c) uu nd
         + (if decide (nd = nd0) then colsum tr else 0)) ∧
    ((∀ tr, 0 ≤ tr < Nt c → colsum tr = 0) →
     zsum uu' = zsum uu ∧
     ∀ nd, 0 ≤ nd → (nd + 1) * Nc c ≤ len uu →
       node_total (Nc c) uu' nd = node_total (Nc c) uu nd).
Proof.
  intros nd0 Hneg Hinv HNt Hp Hcnt Hn0 Hn1 Hrows sa' uu' Hstep Herr.
  unfold ssa_step in Hstep.
  destruct (Dle (rd D0 (sum_t_rate sa) node) D0); [done|].
  destruct (gsl_rng_uniform_pos (rng sa)) as [x r1]. simpl in Hstep.
  destruct (Dle _ _); [done|].
  destruct (gsl_rng_uniform_pos r1) as [y r2]. simpl in Hstep.
  set (rand := Dmul y _) in Hstep.
  pose proof (select_transition_spec c (t_rate sa) node rand HNt) as Hsel.
  cbv zeta in Hsel.
  destruct (select_transition c (t_rate sa) node rand) as [tr|]; [|done].
  destruct Hsel as (Htr & _ & _).
  pose proof (update_state_checked c node tr uu (errcode sa)) as [Hck _].
  pose proof (update_state_spec node tr uu Hneg Hp Hcnt Hn0 Hn1
    (λ j _, Hrows j)) as Hspec. cbv zeta in Hspec.
  destruct (update_state c node tr uu (errcode sa)) as [uu1 err1] eqn:Eu.
  pose proof (update_rates_err c node tr uu1 (v sa)
    (rd D0 (wr (t_time sa) node
       (Dadd (rd D0 (t_time sa) node)
          (Ddiv (Dneglog x) (rd D0 (sum_t_rate sa) node)))) node)
    (t_rate sa) err1) as Hur.
  cbv zeta in Hur. simpl in Hstep.
  destruct (update_rates _ _ _ _ _ _ _ _) as [[rates delta] err2].
  injection Hstep as <- <-. simpl in Herr, Hur, Hck.
  assert (err1 = 0) as -> by (destruct Hur; congruence).
  assert (errcode sa = 0) as He0 by (destruct Hck; congruence).
  rewrite He0 in Eu. rewrite Eu in Hspec. simpl in Hspec.
  destruct (Hspec eq_refl) as (Hsum & Hlen & Hc' & Hfr & Hnodes & Hent).
  split; [done|]. split; [done|]. split; [done|]. split.
  - exists tr. split; [lia|]. done.
  - intros Hzero. rewrite (Hzero tr) in * by lia. split; [lia|].
    intros nd H0 H1. rewrite Hnodes by done. case_decide; lia.
Qed.

End StepProperties.

Lemma ints_Forall a : Forall is_int a → ints a.
Proof.
  intros Ha k. unfold rd.
  case_decide; [|unfold is_int, INT_MIN, INT_MAX; lia].
  destruct (a !! Z.to_nat k) as [x|] eqn:E; simpl;
    [|unfold is_int, INT_MIN, INT_MAX; lia].
  by apply (Forall_lookup_1 _ _ _ _ Ha E).
Qed.

(** A node with three susceptible and one infected individual, and the
    two transitions of an SIS model: the step fires the infection. *)
Lemma ssa_step_stoichiometry_witness :
  let c := args_of 1 0 1 2 2 [0; 1; 0; 1] [0; 2; 4] [0; 1; 0; 1] [0; 2; 4]
             [-1; 1; 1; -1] [] [0] []
             [λ u _ _ _ _, inject_Z u.[0]; λ u _ _ _ _, inject_Z u.[1]]
             [0; 1]%Q [] [] in
  let sa := set_t_rate [3; 1]%Q
              (set_sum_t_rate [4]%Q (state_of [2; 2]%positive 0 1 2 2)) in
  (∃ sa', ssa_step c 0 sa [3; 1] = Next (sa', [2; 2]) ∧ errcode sa' = 0 ∧
          t_rate sa' = [2; 2]%Q) ∧
  ∀ sa' uu',
    ssa_step c 0 sa [3; 1] = Next (sa', uu') →
    errcode sa' = 0 →
    counts uu' ∧ zsum uu' = zsum [3; 1] ∧
    node_total 2 uu' 0 = node_total 2 [3; 1] 0 ∧
    ∃ tr, 0 ≤ tr < 2 ∧
      ∀ r, 0 ≤ r < 2 → uu'.[r] = [3; 1].[r] + S_entry c tr r.
Proof.
  intros c sa. split.
  { eexists. split; [vm_compute; reflexivity|]. split; reflexivity. }
  intros sa' uu' Hstep Herr.
  assert (SIMINF_ERR_NEGATIVE_STATE ≠ 0) as Hneg by discriminate.
  assert (SIMINF_ERR_INVALID_RATE ≠ 0) as Hinv by discriminate.
  assert (1 ≤ Nt c) as HNt by (vm_compute; discriminate).
  assert (ints (prS c)) as Hp.
  { apply ints_Forall.
    repeat constructor; unfold is_int, INT_MIN, INT_MAX; lia. }
  assert (counts [3; 1]) as Hcnt
    by (apply counts_Forall; repeat constructor; unfold INT_MAX; lia).
  assert (0 ≤ Ni c + 0) as Hn0 by (vm_compute; discriminate).
  assert ((Ni c + 0 + 1) * Nc c ≤ len [3; 1]) as Hn1
    by (vm_compute; discriminate).
  assert (∀ j, 0 ≤ (irS c).[j] < Nc c) as Hrows.
  { intros j. change (0 ≤ [0; 1; 0; 1].[j] < 2).
    unfold rd. case_decide; [|lia].
    destruct (Z.to_nat j) as [|[|[|[|n]]]]; simpl; lia. }
  destruct (ssa_step_stoichiometry c 0 sa [3; 1] Hneg Hinv HNt Hp Hcnt
    Hn0 Hn1 Hrows sa' uu' Hstep Herr) as (Hc & _ & _ & Hcol & Hz).
  split; [done|]. destruct Hz as [Hz1 Hz2].
  - intros tr Htr. change (0 ≤ tr < 2) in Htr.
    assert (tr = 0 ∨ tr = 1) as [-> | ->] by lia; reflexivity.
  - split; [done|]. split; [apply Hz2; vm_compute; discriminate|].
    destruct Hcol as (tr & Htr & Hent & _). exists tr. split; [exact Htr|].
    intros r Hr. specialize (Hent r Hr).
    change ((Ni c + 0) * Nc c + r) with (0 * 2 + r) in Hent.
    replace (0 * 2 + r) with r in Hent by lia. exact Hent.
Defined.

(** ** The choice of the transition, in exact arithmetic *)

Section DirectMethod.
Variable c : SimInf_thread_args (D := Q).

Lemma qsum_app l1 l2 : (qsum (l1 ++ l2) == qsum l1 + qsum l2)%Q.
Proof.
  induction l1 as [|x l1 IH]; simpl; [ring|]. rewrite IH. ring.
Qed.

Lemma rate_sum_succ t_rate base k :
  0 ≤ k →
  (rate_sum t_rate base (k + 1) ==
   rate_sum t_rate base k + rd 0 t_rate (base + k))%Q.
Proof.
  intros Hk. unfold rate_sum. rewrite seqZ_app by lia.
  rewrite fmap_app, qsum_app.
  rewrite (seqZ_cons (0 + k)) by lia. rewrite (seqZ_nil _ (Z.pred 1)) by lia.
  simpl. replace (base + (0 + k)) with (base + k) by lia. ring.
Qed.

Lemma rate_sum_0 t_rate base : rate_sum t_rate base 0 = 0%Q.
Proof. done. Qed.

Lemma Dlt_exact (x y : Q) : Dlt x y = true ↔ (x < y)%Q.
Proof.
  simpl. rewrite negb_true_iff. split.
  - intros H. apply Qnot_le_lt. intros Hle.
    apply Qle_bool_iff in Hle. congruence.
  - intros H. apply not_true_iff_false. intros Hle.
    apply Qle_bool_iff in Hle. by apply Qlt_not_le in H.
Qed.

Lemma Dle_exact (x y : Q) : Dle x y = true ↔ (x <= y)%Q.
Proof. apply Qle_bool_iff. Qed.

Lemma Deq_exact (x y : Q) : Deq x y = true ↔ (x == y)%Q.
Proof. apply Qeq_bool_iff. Qed.

(** The linear search stops at the first transition at which the sum
    of the rates reaches [rand]. *)
Lemma tr_search_exact t_rate base rand cnt : ∀ tr cum,
  0 ≤ tr → Z.of_nat cnt = Nt c - tr →
  (cum == rate_sum t_rate base (tr + 1))%Q →
  (∀ j, 0 ≤ j < tr → (rate_sum t_rate base (j + 1) < rand)%Q) →
  let r := tr_search c cnt t_rate base rand tr cum in
  tr ≤ r ≤ Nt c ∧
  (∀ j, 0 ≤ j < r → (rate_sum t_rate base (j + 1) < rand)%Q) ∧
  (r < Nt c → (rand <= rate_sum t_rate base (r + 1))%Q).
Proof.
  induction cnt as [|cnt IH]; intros tr cum Htr Hcnt Hcum Hlt.
  - simpl. split; [lia|]. split; [done|]. lia.
  - cbn [tr_search]. rewrite bool_decide_eq_true_2 by lia. rewrite andb_true_l.
    cbv zeta. destruct (Dlt cum rand) eqn:E.
    + apply Dlt_exact in E.
      pose proof (IH (tr + 1) (Dadd cum (rd D0 t_rate (base + (tr + 1)))))
        as IH'. cbv zeta in IH'.
      destruct IH' as (Hr & Hl & Hs).
      * lia.
      * lia.
      * simpl. rewrite Hcum. rewrite (rate_sum_succ _ _ (tr + 1)) by lia.
        reflexivity.
      * intros j Hj. destruct (decide (j = tr)) as [->|Hne].
        -- by rewrite <- Hcum.
        -- apply Hlt. lia.
      * split; [lia|]. done.
    + split; [lia|]. split; [done|]. intros _.
      apply not_true_iff_false in E. rewrite Dlt_exact in E.
      apply Qnot_lt_le in E. by rewrite <- Hcum.
Qed.

(** X8. In exact arithmetic the choice of the transition is the
    inversion of the sums of the rates: for [0 < rand] at most the sum
    of the rates of the node, the step chooses the first transition
    [tr] at which the sum of the rates reaches [rand], so that
    [rate_sum tr < rand <= rate_sum (tr + 1)].  Its rate is positive:
    there is no nil event, and the search neither runs past the last
    transition nor walks back. *)
Theorem direct_method_exact (t_rate : list Q) (node : Z) (rand : Q) :
  let base := node * Nt c in
  1 ≤ Nt c →
  (0 < rand)%Q →
  (rand <= rate_sum t_rate base (Nt c))%Q →
  ∃ tr,
    select_transition c t_rate node rand = Some tr ∧
    tr = tr_search c (Z.to_nat (Nt c)) t_rate base rand 0 (rd D0 t_rate base) ∧
    0 ≤ tr < Nt c ∧
    (rate_sum t_rate base tr < rand)%Q ∧
    (rand <= rate_sum t_rate base (tr + 1))%Q ∧
    (0 < rd 0 t_rate (base + tr))%Q ∧
    ∀ j, 0 ≤ j < tr → (rate_sum t_rate base (j + 1) < rand)%Q.
Proof.
  intros base HNt Hpos Hle.
  destruct (tr_search_exact t_rate base rand (Z.to_nat (Nt c)) 0
    (rd D0 t_rate base)) as (Hr & Hl & Hs).
  { lia. } { lia. }
  { rewrite (rate_sum_succ _ _ 0) by lia. rewrite rate_sum_0.
    replace (base + 0) with base by lia.
    change (rd D0 t_rate base) with (rd 0%Q t_rate base). ring. }
  { intros j Hj. lia. }
  set (r := tr_search c (Z.to_nat (Nt c)) t_rate base rand 0
              (rd D0 t_rate base)) in *.
  assert (r < Nt c) as Hrn.
  { destruct (decide (r < Nt c)) as [|Hge]; [done|]. exfalso.
    assert (r = Nt c) as Hr' by lia.
    specialize (Hl (Nt c - 1) ltac:(lia)).
    replace (Nt c - 1 + 1) with (Nt c) in Hl by lia.
    by apply Qlt_not_le in Hl. }
  specialize (Hs Hrn).
  assert (rate_sum t_rate base r < rand)%Q as Hbelow.
  { destruct (decide (r = 0)) as [->|Hne]; [by rewrite rate_sum_0|].
    specialize (Hl (r - 1) ltac:(lia)).
    by replace (r - 1 + 1) with r in Hl by lia. }
  assert (0 < rd 0 t_rate (base + r))%Q as Hrate.
  { rewrite (rate_sum_succ _ _ r) in Hs by lia.
    apply (Qplus_lt_r _ _ (rate_sum t_rate base r)). rewrite Qplus_0_r.
    by apply Qlt_le_trans with rand. }
  exists r. split.
  - unfold select_transition. fold base. fold r.
    rewrite decide_False by lia.
    assert (Deq (rd D0 t_rate (base + r)) D0 = false) as ->; [|done].
    apply not_true_iff_false. rewrite Deq_exact. intros Heq.
    change (rd D0 t_rate (base + r)) with (rd 0%Q t_rate (base + r)) in Heq.
    rewrite Heq in Hrate. by apply Qlt_irrefl in Hrate.
  - split; [done|]. split; [lia|]. split; [done|]. split; [done|].
    split; [done|]. done.
Qed.

End DirectMethod.

(** Two transitions with the rates 3 and 1, and [rand = 7/2]. *)
Lemma direct_method_exact_witness :
  let c := args_of 1 0 1 2 1 [] [0; 0; 0] [] [0; 0; 0] [] [] [0] []
             [λ _ _ _ _ _, 0%Q; λ _ _ _ _ _, 0%Q] [0; 1]%Q [] [] in
  select_transition c [3; 1]%Q 0 (7 # 2)%Q = Some 1 ∧
  ∃ tr,
    select_transition c [3; 1]%Q 0 (7 # 2)%Q = Some tr ∧
    tr = tr_search c (Z.to_nat (Nt c)) [3; 1]%Q (0 * Nt c) (7 # 2)%Q 0
           (rd D0 [3; 1]%Q (0 * Nt c)) ∧
    0 ≤ tr < Nt c ∧
    (rate_sum [3; 1]%Q (0 * Nt c) tr < 7 # 2)%Q ∧
    (7 # 2 <= rate_sum [3; 1]%Q (0 * Nt c) (tr + 1))%Q ∧
    (0 < rd 0 [3; 1]%Q (0 * Nt c + tr))%Q ∧
    ∀ j, 0 ≤ j < tr → (rate_sum [3; 1]%Q (0 * Nt c) (j + 1) < 7 # 2)%Q.
Proof.
  intros c. split; [reflexivity|].
  apply (direct_method_exact c [3; 1]%Q 0 (7 # 2)%Q).
  - vm_compute. discriminate.
  - reflexivity.
  - vm_compute. discriminate.
Defined.

(** ** The cached sums of the rates, in exact arithmetic *)

Section RateCache.
Context {R : Type} {GR : Gsl R Q}.
Variable c : SimInf_thread_args (D := Q).

Lemma rate_sum_wr t base g x :
  0 ≤ base + g < len t →
  ∀ k, 0 ≤ k →
    (rate_sum (wr t (base + g) x) base k ==
     rate_sum t base k +
     (if decide (0 ≤ g < k) then x - rd 0 t (base + g) else 0))%Q.
Proof.
  intros Hg. apply natlike_ind.
  - rewrite !rate_sum_0. rewrite decide_False by lia. ring.
  - intros k Hk IH. rewrite <- Z.add_1_r.
    rewrite !rate_sum_succ by done. rewrite IH.
    destruct (decide (g = k)) as [->|Hne].
    + rewrite rd_wr_eq by done. rewrite decide_False by lia.
      rewrite decide_True by lia. ring.
    + rewrite rd_wr_ne by lia.
      destruct (decide (0 ≤ g < k)).
      * rewrite decide_True by lia. ring.
      * rewrite decide_False by lia. ring.
Qed.

Lemma rate_sum_ext t t' base k :
  (∀ j, 0 ≤ j < k → rd 0%Q t' (base + j) = rd 0%Q t (base + j)) →
  rate_sum t' base k = rate_sum t base k.
Proof.
  intros H. unfold rate_sum. f_equal. apply list_fmap_ext.
  intros i j Hj. apply lookup_seqZ in Hj as [-> Hi]. apply H. lia.
Qed.

Lemma refreshed_step node t0 t_rate delta err g rate err' :
  0 ≤ node * Nt c → (node + 1) * Nt c ≤ len t0 →
  0 ≤ g < Nt c →
  refreshed c node t0 (t_rate, delta, err) →
  refreshed c node t0
    (wr t_rate (node * Nt c + g) rate,
     Dadd delta (Dsub rate (rd D0 t_rate (node * Nt c + g))), err').
Proof.
  intros Hn0 Hn1 Hg (Hsum & Hlen & Hfr). simpl in *.
  split; [|split].
  - simpl. rewrite rate_sum_wr by lia. rewrite decide_True by done.
    rewrite Hsum.
    change (rd D0 t_rate (node * Nt c + g))
      with (rd 0%Q t_rate (node * Nt c + g)).
    cbn [Dadd Dsub float64]. change (inject_Z 0) with 0%Q. ring.
  - simpl. by rewrite len_wr.
  - simpl. intros k Hk. rewrite rd_wr_ne by lia. by apply Hfr.
Qed.

Lemma update_rates_refreshed node tr uu vv t t0 err :
  0 ≤ node * Nt c → (node + 1) * Nt c ≤ len t0 →
  (∀ j, 0 ≤ (irG c).[j] < Nt c) →
  refreshed c node t0 (update_rates c node tr uu vv t t0 err).
Proof.
  intros Hn0 Hn1 HG. unfold update_rates.
  apply (for_range_inv (λ _ st, refreshed c node t0 st)).
  - split; [simpl; ring|]. done.
  - intros j [[t_rate delta] err'] _ Hr.
    eapply refreshed_step; [done|done|apply HG|exact Hr].
  - done.
Qed.

Lemma all_rates_refreshed node uu vv t t0 err :
  0 ≤ node * Nt c → (node + 1) * Nt c ≤ len t0 →
  refreshed c node t0 (all_rates c node uu vv t t0 err).
Proof.
  intros Hn0 Hn1. unfold all_rates.
  apply (for_range_inv (λ (_ : Z) st, refreshed c node t0 st)).
  - split; [simpl; ring|]. done.
  - intros j [[t_rate delta] err'] Hj Hr.
    eapply refreshed_step; [done|done|exact Hj|exact Hr].
  - done.
Qed.


Lemma rate_sum_zero t base k :
  0 ≤ k →
  (∀ j, 0 ≤ j < k → (rd 0 t (base + j) == 0)%Q) →
  (rate_sum t base k == 0)%Q.
Proof.
  intros Hk. revert k Hk. apply (natlike_ind (λ k,
    (∀ j, 0 ≤ j < k → (rd 0 t (base + j) == 0)%Q) →
    (rate_sum t base k == 0)%Q)).
  - intros _. by rewrite rate_sum_0.
  - intros k Hk IH Hz. rewrite <- Z.add_1_r.
    rewrite rate_sum_succ by done. rewrite IH.
    + rewrite (Hz k) by lia. ring.
    + intros j Hj. apply Hz. lia.
Qed.

Lemma rates_cached_frame (sa sa' : thread_state (D := Q) (R := R)) node n' :
  1 ≤ Nt c → n' ≠ node →
  rd 0%Q (sum_t_rate sa') n' = rd 0%Q (sum_t_rate sa) n' →
  (∀ k, ¬ node * Nt c ≤ k < node * Nt c + Nt c →
     rd 0%Q (t_rate sa') k = rd 0%Q (t_rate sa) k) →
  rates_cached c sa n' → rates_cached c sa' n'.
Proof.
  intros HNt Hne Hs Ht Hc. unfold rates_cached in *. rewrite Hs.
  rewrite (rate_sum_ext (t_rate sa)); [done|].
  intros j Hj. apply Ht. nia.
Qed.

(** A step of the SSA keeps the cached sums. *)
Lemma ssa_step_cached node (sa : thread_state (D := Q) (R := R)) uu n' :
  (∀ r : R, (0 < (gsl_rng_uniform_pos r).1)%Q) →
  1 ≤ Nt c →
  0 ≤ node < len (sum_t_rate sa) →
  (node + 1) * Nt c ≤ len (t_rate sa) →
  (∀ j, 0 ≤ (irG c).[j] < Nt c) →
  rates_cached c sa n' →
  match ssa_step c node sa uu with
  | Next st => rates_cached c st.1 n'
  | Break st => rates_cached c st.1 n'
  end.
Proof.
  intros Hpos HNt Hnode Hlen HG Hc. unfold ssa_step.
  destruct (Dle (rd D0 (sum_t_rate sa) node) D0) eqn:Es; [done|].
  assert (0 < rd 0%Q (sum_t_rate sa) node)%Q as Hsum0.
  { apply Qnot_le_lt. intros Hle. apply Dle_exact in Hle.
    change (rd 0%Q (sum_t_rate sa) node)
      with (rd D0 (sum_t_rate sa) node) in Hle.
    change 0%Q with (D0 (D := Q)) in Hle. congruence. }
  clear Es.
  pose proof (Hpos (rng sa)) as Hx.
  destruct (gsl_rng_uniform_pos (rng sa)) as [x r1]. simpl.
  destruct (Qle_bool _ _); [done|].
  pose proof (Hpos r1) as Hy.
  destruct (gsl_rng_uniform_pos r1) as [y r2]. simpl in Hy |- *.
  set (rand := (y * rd (inject_Z 0) (sum_t_rate sa) node)%Q).
  assert (0 < rand)%Q as Hrand.
  { unfold rand. by apply Qmult_lt_0_compat. }
  pose proof (select_transition_spec c (t_rate sa) node rand HNt) as Hsel.
  cbv zeta in Hsel.
  destruct (select_transition c (t_rate sa) node rand) as [tr|].
  - destruct (update_state c node tr uu (errcode sa)) as [uu1 err1].
    pose proof (update_rates_refreshed node tr uu1 (v sa)
      (rd D0 (wr (t_time sa) node
         (Dadd (rd D0 (t_time sa) node)
            (Ddiv (Dneglog x) (rd D0 (sum_t_rate sa) node)))) node)
      (t_rate sa) err1 ltac:(nia) Hlen HG) as (Hsum & Hl & Hfr).
    simpl.
    destruct (update_rates _ _ _ _ _ _ _ _) as [[rates delta] err2].
    simpl in *.
    destruct (decide (n' = node)) as [->|Hne].
    + unfold rates_cached in *. simpl. rewrite rd_wr_eq by done.
      rewrite Hsum. cbn [Dadd float64].
      change (rd (inject_Z 0) (sum_t_rate sa) node)
        with (rd 0%Q (sum_t_rate sa) node). rewrite Hc. ring.
    + eapply (rates_cached_frame sa); [done|exact Hne| |exact Hfr|done].
      simpl. by rewrite rd_wr_ne.
  - simpl. destruct (decide (n' = node)) as [->|Hne].
    + unfold rates_cached. simpl.
      rewrite rd_wr_eq by done. symmetry.
      pose proof (tr_search_exact c (t_rate sa) (node * Nt c) rand
        (Z.to_nat (Nt c)) 0 (rd D0 (t_rate sa) (node * Nt c))) as Hex.
      cbv zeta in Hex. destruct Hex as (Hr & Hl & Hs).
      { lia. } { lia. }
      { rewrite (rate_sum_succ _ _ 0) by lia. rewrite rate_sum_0.
        replace (node * Nt c + 0) with (node * Nt c) by lia.
        change (rd D0 (t_rate sa) (node * Nt c))
          with (rd 0%Q (t_rate sa) (node * Nt c)). ring. }
      { intros j Hj. lia. }
      set (tr0 := tr_search c (Z.to_nat (Nt c)) (t_rate sa) (node * Nt c)
                    rand 0 (rd D0 (t_rate sa) (node * Nt c))) in *.
      assert (∀ j, 0 ≤ j ≤ Z.min tr0 (Nt c - 1) →
                (rd 0 (t_rate sa) (node * Nt c + j) == 0)%Q) as Hz.
      { intros j Hj. apply Deq_exact. by apply Hsel. }
      destruct (decide (tr0 < Nt c)) as [Hlt|Hge].
      * exfalso. specialize (Hs Hlt).
        rewrite rate_sum_zero in Hs; [by apply Qlt_not_le in Hrand|lia|].
        intros j Hj. apply Hz. lia.
      * apply rate_sum_zero; [lia|]. intros j Hj. apply Hz. lia.
    + eapply (rates_cached_frame sa); [done|exact Hne| | |done].
      * simpl. by rewrite rd_wr_ne.
      * done.
Qed.


Lemma init_rates_cached (sa0 : thread_state (D := Q) (R := R)) sh :
  0 ≤ Nt c → 0 ≤ Nn c →
  Nn c ≤ len (sum_t_rate sa0) →
  Nn c * Nt c ≤ len (t_rate sa0) →
  initialised c sh sa0 (init_rates c sa0 sh) (Nn c).
Proof.
  intros HNt HNn Hls Hlt. unfold init_rates.
  apply (for_range_inv (λ n sa, initialised c sh sa0 sa n)).
  - split; [done|]. split; [done|]. split; [done|]. split; [done|].
    intros n' Hn'. lia.
  - intros node sa Hnode (Hv & Htt & Hl1 & Hl2 & Hold).
    cbv beta zeta.
    match goal with
    | |- initialised _ _ _ (set_t_time _ ?x) _ => set (sa2 := x)
    end.
    assert (v sa2 = v sa0 ∧ tt sa2 = tt sa0 ∧
            len (t_rate sa2) = len (t_rate sa0) ∧
            len (sum_t_rate sa2) = len (sum_t_rate sa0) ∧
            (∀ n', 0 ≤ n' < node →
               rates_cached c sa2 n' ∧
               ∀ j, 0 ≤ j < Nt c →
                 rd 0%Q (t_rate sa2) (n' * Nt c + j) =
                 call_tr_fun c j n' (uu sh) (v sa0) (tt sa0)) ∧
            (rd 0%Q (sum_t_rate sa2) node ==
             rate_sum (t_rate sa2) (node * Nt c) (Nt c))%Q ∧
            ∀ j, 0 ≤ j < Nt c →
              rd 0%Q (t_rate sa2) (node * Nt c + j) =
              call_tr_fun c j node (uu sh) (v sa0) (tt sa0)) as Hin.
    { unfold sa2.
      apply (for_range_inv (λ j sa',
        v sa' = v sa0 ∧ tt sa' = tt sa0 ∧
        len (t_rate sa') = len (t_rate sa0) ∧
        len (sum_t_rate sa') = len (sum_t_rate sa0) ∧
        (∀ n', 0 ≤ n' < node →
           rates_cached c sa' n' ∧
           ∀ j, 0 ≤ j < Nt c →
             rd 0%Q (t_rate sa') (n' * Nt c + j) =
             call_tr_fun c j n' (uu sh) (v sa0) (tt sa0)) ∧
        (rd 0%Q (sum_t_rate sa') node ==
         rate_sum (t_rate sa') (node * Nt c) j)%Q ∧
        ∀ j', 0 ≤ j' < j →
          rd 0%Q (t_rate sa') (node * Nt c + j') =
          call_tr_fun c j' node (uu sh) (v sa0) (tt sa0))).
      - simpl. split; [done|]. split; [done|]. split; [done|].
        split; [by rewrite len_wr|]. split; [|split].
        + intros n' Hn'. destruct (Hold n' Hn') as [Hc Hr].
          split; [|done]. unfold rates_cached in *. simpl.
          by rewrite rd_wr_ne by lia.
        + rewrite rd_wr_eq by lia. by rewrite rate_sum_0.
        + intros j' Hj'. lia.
      - intros j sa' Hj (Hv' & Htt' & Hl1' & Hl2' & Hold' & Hs' & Hr').
        simpl. split; [done|]. split; [done|].
        split; [by rewrite len_wr|]. split; [by rewrite len_wr|].
        assert (0 ≤ node * Nt c + j < len (t_rate sa')) as Hidx by nia.
        split; [|split].
        + intros n' Hn'. destruct (Hold' n' Hn') as [Hc Hr].
          split.
          * unfold rates_cached in *. simpl. rewrite rd_wr_ne by lia.
            rewrite Hc.
            rewrite (rate_sum_ext (t_rate sa') (wr (t_rate sa') _ _));
              [done|].
            intros j' Hj'. rewrite rd_wr_ne by nia. done.
          * intros j' Hj'. rewrite rd_wr_ne by nia. by apply Hr.
        + rewrite rd_wr_eq by lia. rewrite rate_sum_succ by lia.
          rewrite rd_wr_eq by done.
          rewrite (rate_sum_wr _ _ _ _ Hidx j ltac:(lia)).
          rewrite decide_False by lia.
          cbn [Dadd float64].
          change (rd (inject_Z 0) (sum_t_rate sa') node)
            with (rd 0%Q (sum_t_rate sa') node).
          rewrite Hs'. rewrite Hv', Htt'. ring.
        + intros j' Hj'. destruct (decide (j' = j)) as [->|Hne].
          * rewrite rd_wr_eq by done. by rewrite Hv', Htt'.
          * rewrite rd_wr_ne by lia. apply Hr'. lia.
      - intros sa' (Hv' & Htt' & Hl1' & Hl2' & Hold' & Hs' & Hr').
        replace (Z.max 0 (Nt c)) with (Nt c) in * by lia. done. }
    destruct Hin as (Hv2 & Htt2 & Hl12 & Hl22 & Hold2 & Hs2 & Hr2).
    simpl. split; [done|]. split; [done|]. split; [done|]. split; [done|].
    intros n' Hn'. destruct (decide (n' = node)) as [->|Hne].
    + done.
    + apply Hold2. lia.
  - intros sa. by replace (Z.max 0 (Nn c)) with (Nn c) by lia.
Qed.

(** The post time step of a node keeps the cached sums. *)
Lemma post_step_node_cached node (sa : thread_state (D := Q) (R := R))
    sh n' :
  1 ≤ Nt c →
  0 ≤ node < len (sum_t_rate sa) →
  (node + 1) * Nt c ≤ len (t_rate sa) →
  rates_cached c sa n' →
  match post_step_node c node (sa, sh) with
  | Next st => rates_cached c st.1 n'
  | Break st => rates_cached c st.1 n'
  end.
Proof.
  intros HNt Hnode Hlen Hc. unfold post_step_node.
  destruct (pts_fun c _ _ _ _ _ _ _) as [rc w].
  case_decide; [done|]. case_decide; [|done].
  pose proof (all_rates_refreshed node (uu sh)
    (memcpy D0 (v_new sa) (node * Nd c) w 0 (Nd c)) (tt sa)
    (t_rate sa) (errcode sa) ltac:(nia) Hlen) as (Hsum & Hl & Hfr).
  simpl.
  destruct (all_rates _ _ _ _ _ _) as [[rates delta] err2].
  simpl in *.
  destruct (decide (n' = node)) as [->|Hne].
  - unfold rates_cached in *. simpl. rewrite rd_wr_eq by done.
    rewrite Hsum. cbn [Dadd float64].
    change (rd (inject_Z 0) (sum_t_rate sa) node)
      with (rd 0%Q (sum_t_rate sa) node). rewrite Hc. ring.
  - eapply (rates_cached_frame sa); [done|exact Hne| |exact Hfr|done].
    simpl. by rewrite rd_wr_ne.
Qed.

End RateCache.

Section RateCachePhases.
Context {R : Type} {GR : Gsl R Q}.
Variable c : SimInf_thread_args (D := Q).
Hypothesis Hpos : ∀ r : R, (0 < (gsl_rng_uniform_pos r).1)%Q.
Hypothesis HNt : 1 ≤ Nt c.
Hypothesis HG : ∀ j, 0 ≤ (irG c).[j] < Nt c.

#[local] Abbreviation state := (thread_state (D := Q) (R := R)).

Lemma update_rates_len node tr uu vv t t0 err :
  len (update_rates c node tr uu vv t t0 err).1.1 = len t0.
Proof.
  unfold update_rates.
  apply (for_range_inv (λ (_ : Z) (st : list Q * Q * Z), len st.1.1 = len t0)).
  - done.
  - intros j [[t_rate delta] err'] _ Hl. simpl in *. by rewrite len_wr.
  - done.
Qed.

Lemma all_rates_len node uu vv t t0 err :
  len (all_rates c node uu vv t t0 err).1.1 = len t0.
Proof.
  unfold all_rates.
  apply (for_range_inv (λ (_ : Z) (st : list Q * Q * Z), len st.1.1 = len t0)).
  - done.
  - intros j [[t_rate delta] err'] _ Hl. simpl in *. by rewrite len_wr.
  - done.
Qed.

Lemma ssa_step_lens node (sa : state) uu :
  match ssa_step c node sa uu with
  | Next st | Break st =>
      len (t_rate st.1) = len (t_rate sa) ∧
      len (sum_t_rate st.1) = len (sum_t_rate sa)
  end.
Proof.
  unfold ssa_step.
  destruct (Dle (rd D0 (sum_t_rate sa) node) D0); [done|].
  destruct (gsl_rng_uniform_pos (rng sa)) as [x r1]. simpl.
  destruct (Qle_bool _ _); [done|].
  destruct (gsl_rng_uniform_pos r1) as [y r2]. simpl.
  destruct (select_transition _ _ _ _) as [tr|].
  - destruct (update_state c node tr uu (errcode sa)) as [uu1 err1].
    pose proof (update_rates_len node tr uu1 (v sa)
      (rd (inject_Z 0) (wr (t_time sa) node
         (rd (inject_Z 0) (t_time sa) node +
          (1 - x) / rd (inject_Z 0) (sum_t_rate sa) node)%Q) node)
      (t_rate sa) err1) as Hl.
    destruct (update_rates _ _ _ _ _ _ _ _) as [[rates delta] err2].
    simpl in *. by rewrite len_wr.
  - simpl. by rewrite len_wr.
Qed.

Lemma ssa_step_cached_all node (sa : state) uu :
  0 ≤ node < Nn c →
  cached c sa →
  match ssa_step c node sa uu with
  | Next st | Break st => cached c st.1
  end.
Proof.
  intros Hnode (Hl1 & Hl2 & Hc).
  pose proof (ssa_step_lens node sa uu) as Hlens.
  assert (∀ n', 0 ≤ n' < Nn c →
            match ssa_step c node sa uu with
            | Next st | Break st => rates_cached c st.1 n'
            end) as Hall.
  { intros n' Hn'.
    pose proof (ssa_step_cached c node sa uu n' Hpos HNt ltac:(lia)
      ltac:(nia) HG (Hc n' Hn')) as H.
    by destruct (ssa_step c node sa uu). }
  destruct (ssa_step c node sa uu) as [st|st];
    destruct Hlens as [Ha Hb]; (split; [lia|]; split; [lia|done]).
Qed.

Lemma ssa_node_cached fuel node : ∀ (sa : state) uu st,
  0 ≤ node < Nn c → cached c sa →
  ssa_node c fuel node sa uu = Some st → cached c st.1.
Proof.
  induction fuel as [|fuel IH]; intros sa uu st Hnode Hc H; [done|].
  simpl in H. pose proof (ssa_step_cached_all node sa uu Hnode Hc) as Hs.
  destruct (ssa_step c node sa uu) as [[sa1 uu1]|st1].
  - by apply (IH sa1 uu1).
  - by injection H as <-.
Qed.

Lemma ssa_nodes_cached fuel cnt : ∀ node (sa : state) uu st,
  0 ≤ node → node + Z.of_nat cnt ≤ Nn c → cached c sa →
  ssa_nodes c fuel cnt node sa uu = Some st → cached c st.1.
Proof.
  induction cnt as [|cnt IH]; intros node sa uu st Hn0 Hn1 Hc H.
  - by injection H as <-.
  - simpl in H. case_decide; [|by injection H as <-].
    destruct (ssa_node c fuel node sa uu) as [[sa1 uu1]|] eqn:E; [|done].
    apply (IH (node + 1) sa1 uu1); [lia|lia| |done].
    by apply (ssa_node_cached fuel node sa uu (sa1, uu1)); [lia| |].
Qed.

Lemma E1_step_rates (sa : state) sh :
  match E1_step c sa sh with
  | Next st | Break st =>
      t_rate st.1 = t_rate sa ∧ sum_t_rate st.1 = sum_t_rate sa
  end.
Proof.
  unfold E1_step. case_decide.
  - by destruct (enter_event _ _ _ _).
  - destruct (SimInf_sample_select _ _ _ _ _ _ _ _ _) as [[err ind] rng'].
    case_decide; [done|]. case_decide.
    + by destruct (exit_event _ _ _ _ _).
    + by destruct (internal_transfer_event _ _ _ _ _).
Qed.

Lemma E1_loop_rates cnt : ∀ (sa : state) sh,
  t_rate (E1_loop c cnt sa sh).1 = t_rate sa ∧
  sum_t_rate (E1_loop c cnt sa sh).1 = sum_t_rate sa.
Proof.
  induction cnt as [|cnt IH]; intros sa sh; [done|]. simpl.
  destruct (E1_cond c sa); [|done].
  pose proof (E1_step_rates sa sh) as Hs.
  destruct (E1_step c sa sh) as [[sa1 sh1]|st1]; [|done].
  destruct (IH sa1 sh1) as [-> ->]. done.
Qed.

Lemma E2_step_rates (sa : state) sh :
  match E2_step c sa sh with
  | Next st | Break st =>
      t_rate st.1 = t_rate sa ∧ sum_t_rate st.1 = sum_t_rate sa
  end.
Proof.
  unfold E2_step.
  destruct (SimInf_sample_select _ _ _ _ _ _ _ _ _) as [[err ind] rng'].
  case_decide; [done|].
  by destruct (external_transfer_event _ _ _ _ _).
Qed.

Lemma E2_loop_rates cnt : ∀ (sa : state) sh,
  t_rate (E2_loop c cnt sa sh).1 = t_rate sa ∧
  sum_t_rate (E2_loop c cnt sa sh).1 = sum_t_rate sa.
Proof.
  induction cnt as [|cnt IH]; intros sa sh; [done|]. simpl.
  destruct (E2_cond c sa); [|done].
  pose proof (E2_step_rates sa sh) as Hs.
  destruct (E2_step c sa sh) as [[sa1 sh1]|st1]; [|done].
  destruct (IH sa1 sh1) as [-> ->]. done.
Qed.

Lemma cached_same_rates (sa sa' : state) :
  t_rate sa' = t_rate sa → sum_t_rate sa' = sum_t_rate sa →
  cached c sa → cached c sa'.
Proof.
  intros Ht Hs. unfold cached, rates_cached. by rewrite Ht, Hs.
Qed.

Lemma ssa_phase_cached fuel (sa : state) sh sa' sh' :
  0 ≤ Nn c → cached c sa →
  ssa_phase c fuel sa sh = Some (sa', sh') → cached c sa'.
Proof.
  intros HNn Hc H. unfold ssa_phase in H.
  destruct (ssa_nodes c fuel _ 0 sa (uu sh)) as [[sa1 uu1]|] eqn:E; [|done].
  injection H as H.
  apply (ssa_nodes_cached fuel _ 0 sa (uu sh) (sa1, uu1)) in E;
    [|lia|lia|done].
  unfold SimInf_process_E1_events in H.
  destruct (E1_loop_rates (Z.to_nat (len (E1 c) - E1_index sa1)) sa1
    (set_uu uu1 sh)) as [Ht Hs].
  rewrite H in Ht, Hs. simpl in Ht, Hs.
  by apply (cached_same_rates sa1).
Qed.

Lemma post_step_node_lens node (sa : state) sh :
  match post_step_node c node (sa, sh) with
  | Next st | Break st =>
      len (t_rate st.1) = len (t_rate sa) ∧
      len (sum_t_rate st.1) = len (sum_t_rate sa)
  end.
Proof.
  unfold post_step_node.
  destruct (pts_fun c _ _ _ _ _ _ _) as [rc w].
  case_decide; [done|]. case_decide; [|done].
  pose proof (all_rates_len node (uu sh)
    (memcpy D0 (v_new sa) (node * Nd c) w 0 (Nd c)) (tt sa)
    (t_rate sa) (errcode sa)) as Hl.
  simpl.
  destruct (all_rates _ _ _ _ _ _) as [[rates delta] err2].
  simpl in *. by rewrite len_wr.
Qed.

Lemma post_steps_cached (sa : state) sh :
  0 ≤ Nn c → cached c sa →
  cached c (for_range 0 (Nn c) (post_step_node c) (sa, sh)).1.
Proof.
  intros HNn Hc.
  apply (for_range_inv (λ (_ : Z) st, cached c st.1)
    (λ st, cached c st.1)); [done| |done].
  intros node [sa1 sh1] Hnode (Hl1 & Hl2 & Hc1).
  cbn [fst] in Hl1, Hl2, Hc1.
  pose proof (post_step_node_lens node sa1 sh1) as Hlens.
  assert (∀ n', 0 ≤ n' < Nn c →
            match post_step_node c node (sa1, sh1) with
            | Next st | Break st => rates_cached c st.1 n'
            end) as Hall.
  { intros n' Hn'.
    pose proof (post_step_node_cached c node sa1 sh1 n' HNt ltac:(lia)
      ltac:(nia) (Hc1 n' Hn')) as H.
    by destruct (post_step_node c node (sa1, sh1)). }
  destruct (post_step_node c node (sa1, sh1)) as [st|st];
    destruct Hlens as [Ha Hb]; (split; [lia|]; split; [lia|done]).
Qed.

Lemma store_U_rates cnt : ∀ (sa : state) sh,
  t_rate (store_U c cnt sa sh).1 = t_rate sa ∧
  sum_t_rate (store_U c cnt sa sh).1 = sum_t_rate sa.
Proof.
  induction cnt as [|cnt IH]; intros sa sh; [done|]. simpl.
  destruct (_ && _); [|done].
  match goal with
  | |- context [store_U c cnt ?a ?b] => by destruct (IH a b) as [-> ->]
  end.
Qed.

Lemma store_V_rates cnt : ∀ (sa : state) sh,
  t_rate (store_V c cnt sa sh).1 = t_rate sa ∧
  sum_t_rate (store_V c cnt sa sh).1 = sum_t_rate sa.
Proof.
  induction cnt as [|cnt IH]; intros sa sh; [done|]. simpl.
  destruct (_ && _); [|done].
  match goal with
  | |- context [store_V c cnt ?a ?b] => by destruct (IH a b) as [-> ->]
  end.
Qed.

Lemma post_phase_cached (sa : state) sh :
  0 ≤ Nn c → cached c sa → cached c (post_phase c sa sh).1.
Proof.
  intros HNn Hc. unfold post_phase.
  pose proof (post_steps_cached sa sh HNn Hc) as H1.
  destruct (for_range 0 (Nn c) (post_step_node c) (sa, sh)) as [sa1 sh1].
  simpl in H1.
  set (sa2 := set_clock _ _ sa1).
  destruct (store_U_rates (Z.to_nat (tlen c - U_it sa2)) sa2 sh1) as [Ht Hs].
  destruct (store_U c _ sa2 sh1) as [sa3 sh3]. simpl in Ht, Hs.
  destruct (store_V_rates (Z.to_nat (tlen c - V_it sa3)) sa3 sh3)
    as [Ht' Hs'].
  change (cached c (store_V c (Z.to_nat (tlen c - V_it sa3)) sa3 sh3).1).
  apply (cached_same_rates sa1); [congruence|congruence|done].
Qed.

End RateCachePhases.

(** X9. In exact arithmetic the solver keeps the cached sum of the
    rates of every node of a thread equal to the sum of the cached
    rates of the node: the initialisation calculates the rates of all
    transitions at the initial state and sums them, and the steps of
    the SSA, the events and the post time step (which add the changes
    of the rates that they calculate again to the sum) keep the
    equality.  The uniform draws are positive, and the dependency graph
    names transitions of the model. *)
Theorem rate_sums_cached {R : Type} {GR : Gsl R Q}
    (c : SimInf_thread_args (D := Q)) :
  (∀ r : R, (0 < (gsl_rng_uniform_pos r).1)%Q) →
  1 ≤ Nt c → 0 ≤ Nn c →
  (∀ j, 0 ≤ (irG c).[j] < Nt c) →
  (∀ (sa : thread_state (D := Q) (R := R)) sh,
     Nn c ≤ len (sum_t_rate sa) → Nn c * Nt c ≤ len (t_rate sa) →
     cached c (init_rates c sa sh) ∧
     ∀ node j, 0 ≤ node < Nn c → 0 ≤ j < Nt c →
       rd 0%Q (t_rate (init_rates c sa sh)) (node * Nt c + j) =
       call_tr_fun c j node (uu sh) (v sa) (tt sa)) ∧
  (∀ node (sa : thread_state (D := Q) (R := R)) uu,
     0 ≤ node < Nn c → cached c sa →
     match ssa_step c node sa uu with
     | Next st | Break st => cached c st.1
     end) ∧
  (∀ fuel (sa : thread_state (D := Q) (R := R)) sh sa' sh',
     cached c sa → ssa_phase c fuel sa sh = Some (sa', sh') → cached c sa') ∧
  (∀ (sa : thread_state (D := Q) (R := R)) sh,
     cached c sa → cached c (SimInf_process_E2_events c sa sh).1) ∧
  (∀ (sa : thread_state (D := Q) (R := R)) sh,
     cached c sa → cached c (post_phase c sa sh).1).
Proof.
  intros Hpos HNt HNn HG. split; [|split; [|split; [|split]]].
  - intros sa sh Hl1 Hl2.
    destruct (init_rates_cached c sa sh ltac:(lia) HNn Hl1 Hl2)
      as (_ & _ & Ht & Hs & Hall).
    split.
    + split; [lia|]. split; [lia|]. intros node Hnode. by apply Hall.
    + intros node j Hnode Hj. by apply Hall.
  - intros node sa uu Hnode Hc. by apply ssa_step_cached_all.
  - intros fuel sa sh sa' sh' Hc H. by eapply ssa_phase_cached.
  - intros sa sh Hc. unfold SimInf_process_E2_events.
    destruct (E2_loop_rates c (Z.to_nat (len (E2 c) - E2_index sa)) sa sh)
      as [Ht Hs].
    by apply (cached_same_rates c sa).
  - intros sa sh Hc. by apply post_phase_cached.
Qed.

(** The SIS model of one node with three susceptible and one infected
    individual: the rates and their sum after the initialisation, and
    after a step that fires the infection. *)
Lemma rate_sums_cached_witness :
  let c := args_of 1 0 1 2 2 [0; 1; 0; 1] [0; 2; 4] [0; 1; 0; 1] [0; 2; 4]
             [-1; 1; 1; -1] [] [0] []
             [λ u _ _ _ _, inject_Z u.[0]; λ u _ _ _ _, inject_Z u.[1]]
             [0; 1]%Q [] [] in
  let sa := init_rates c (state_of [2; 2]%positive 0 1 2 2)
              (shared_of [3; 1] 1 2) in
  t_rate sa = [3; 1]%Q ∧ sum_t_rate sa = [0 + 3 + 1]%Q ∧
  cached c sa ∧
  match ssa_step c 0 sa [3; 1] with
  | Next st | Break st => cached c st.1
  end.
Proof.
  intros c sa. split; [reflexivity|]. split; [reflexivity|].
  assert (∀ r : list positive, (0 < (gsl_rng_uniform_pos r).1)%Q) as Hpos
    by (intros [|p r]; reflexivity).
  assert (1 ≤ Nt c) as HNt by (vm_compute; discriminate).
  assert (0 ≤ Nn c) as HNn by (vm_compute; discriminate).
  assert (∀ j, 0 ≤ (irG c).[j] < Nt c) as HG.
  { intros j. change (0 ≤ [0; 1; 0; 1].[j] < 2).
    unfold rd. case_decide; [|lia].
    destruct (Z.to_nat j) as [|[|[|[|n]]]]; simpl; lia. }
  destruct (rate_sums_cached c Hpos HNt HNn HG) as (Hinit & Hstep & _).
  assert (cached c sa) as Hc.
  { apply Hinit; vm_compute; discriminate. }
  split; [done|].
  apply Hstep; [vm_compute; split; [discriminate|reflexivity]|done].
Defined.

(** ** The solution in the dense matrix U *)

Lemma len_memcpy {A} (d : A) dst doff src soff n :
  len (memcpy d dst doff src soff n) = len dst.
Proof.
  unfold memcpy. revert dst.
  induction (seqZ 0 n) as [|j l IH]; intros dst; [done|].
  simpl. rewrite IH. apply len_wr.
Qed.

Lemma rd_memcpy {A} (d : A) dst doff src soff n i :
  rd d (memcpy d dst doff src soff n) i =
  if decide (doff ≤ i < doff + n ∧ 0 ≤ i < len dst)
  then rd d src (soff + (i - doff)) else rd d dst i.
Proof.
  destruct (decide (0 ≤ n)) as [Hn|Hn].
  2:{ unfold memcpy. rewrite seqZ_nil by lia. simpl.
      rewrite decide_False by lia. done. }
  revert n Hn. apply (natlike_ind (λ n,
    rd d (memcpy d dst doff src soff n) i =
    if decide (doff ≤ i < doff + n ∧ 0 ≤ i < len dst)
    then rd d src (soff + (i - doff)) else rd d dst i)).
  - unfold memcpy. simpl. rewrite decide_False by lia. done.
  - intros n Hn IH. rewrite <- Z.add_1_r.
    assert (memcpy d dst doff src soff (n + 1) =
            wr (memcpy d dst doff src soff n) (doff + n)
              (rd d src (soff + n))) as ->.
    { unfold memcpy. rewrite seqZ_app by lia. rewrite foldl_app.
      rewrite (seqZ_cons (0 + n)) by lia.
      rewrite (seqZ_nil _ (Z.pred 1)) by lia. simpl.
      by replace (0 + n) with n by lia. }
    rewrite rd_wr, len_memcpy, IH.
    destruct (decide (doff + n = i ∧ 0 ≤ doff + n < len dst)) as [[<- H]|H].
    + rewrite decide_True by lia. f_equal. lia.
    + destruct (decide (doff ≤ i < doff + n ∧ 0 ≤ i < len dst)).
      * by rewrite decide_True by lia.
      * by rewrite decide_False by lia.
Qed.

Section DenseStore.
Context {D R : Type} {FD : Float64 D} {GR : Gsl R D} {EC : SimInf_h}.
Variable c : SimInf_thread_args (D := D).

#[local] Abbreviation state := (thread_state (D := D) (R := R)).

(** The first cell of the part of the thread in column [it] of U. *)
#[local] Abbreviation block it := (Nc c * (Ntot c * it + Ni c)).

Lemma block_next Nc Ntot Ni Nn it it' :
  0 ≤ Nc → 0 ≤ Ni → 0 ≤ Nn → Ni + Nn ≤ Ntot → it < it' →
  Nc * (Ntot * it + Ni) + Nn * Nc ≤ Nc * (Ntot * it' + Ni).
Proof.
  intros HNc HNi HNn HNtot Hit.
  replace (Nc * (Ntot * it + Ni) + Nn * Nc)
    with (Nc * (Ntot * it + Ni + Nn)) by lia.
  apply Z.mul_le_mono_nonneg_l; [done|]. nia.
Qed.

Lemma store_U_spec cnt : ∀ (sa : state) sh,
  U_dense c = true →
  0 ≤ U_it sa → Z.of_nat cnt = Z.max 0 (tlen c - U_it sa) →
  0 ≤ Nc c → 0 ≤ Ni c → 0 ≤ Nn c → Ni c + Nn c ≤ Ntot c →
  Nc c * Ntot c * tlen c ≤ len (U sh) →
  stored_U c sa sh (store_U c cnt sa sh).1 (store_U c cnt sa sh).2.
Proof.
  induction cnt as [|cnt IH]; intros sa sh HU Hit Hcnt HNc HNi HNn HNtot Hlen.
  - simpl. split; [lia|]. split; [lia|]. split; [done|]. split; [done|].
    split; [done|]. split; [intros it Hi; lia|]. split; [lia|done].
  - cbn [store_U]. rewrite HU. rewrite bool_decide_eq_true_2 by lia.
    rewrite andb_true_l.
    destruct (Dlt (rd D0 (tspan c) (U_it sa)) (tt sa)) eqn:E.
    2:{ simpl. split; [lia|]. split; [lia|]. split; [done|].
        split; [done|]. split; [done|]. split; [intros it Hi; lia|].
        split; done. }
    set (sa1 := set_U_it (U_it sa + 1) sa).
    set (sh1 := set_U (memcpy 0 (U sh) (block (U_it sa)) (uu sh)
                  (Ni c * Nc c) (Nn c * Nc c)) sh).
    destruct (IH sa1 sh1) as (H1 & H2 & H3 & H4 & H5 & H6 & H7 & H8);
      [done|unfold sa1; simpl; lia|unfold sa1; simpl; lia
      |done|done|done|done| |].
    { unfold sh1. simpl. by rewrite len_memcpy. }
    subst sa1 sh1. cbn [U_it set_U_it U set_U uu tt] in H1, H2, H3, H4, H5, H6, H7, H8.
    rewrite len_memcpy in H3.
    assert (U_it sa + 1 ≤ tlen c) as Hlt by lia.
    assert (0 ≤ Ntot c) as HNtot0 by lia.
    assert (Ntot c * U_it sa + Ni c + Nn c ≤ Ntot c * tlen c) as Hcol by nia.
    assert (block (U_it sa) + Nn c * Nc c ≤ len (U sh)) as Hin.
    { replace (block (U_it sa) + Nn c * Nc c)
        with (Nc c * (Ntot c * U_it sa + Ni c + Nn c)) by lia.
      etrans; [|exact Hlen]. rewrite <- Z.mul_assoc.
      by apply Z.mul_le_mono_nonneg_l. }
    assert (0 ≤ block (U_it sa)) as Hb0 by nia.
    split; [lia|]. split; [lia|]. split; [done|]. split; [done|].
    split; [done|]. split; [|split; [done|]].
    + intros it Hi. destruct (decide (it = U_it sa)) as [->|Hne].
      * split; [done|]. intros k Hk. rewrite H8.
        -- rewrite rd_memcpy. rewrite decide_True by lia. f_equal. lia.
        -- intros it' Hi'.
           pose proof (block_next (Nc c) (Ntot c) (Ni c) (Nn c) (U_it sa) it'
             HNc HNi HNn HNtot ltac:(lia)). lia.
      * apply H6. lia.
    + intros i Hi. rewrite H8.
      * rewrite rd_memcpy. rewrite decide_False; [done|].
        intros [Hr _]. apply (Hi (U_it sa)); lia.
      * intros it' Hi'. apply Hi. lia.
Qed.


Lemma post_step_node_U node (sa : state) sh :
  match post_step_node c node (sa, sh) with
  | Next st | Break st => U_it st.1 = U_it sa ∧ U st.2 = U sh
  end.
Proof.
  unfold post_step_node.
  destruct (pts_fun c _ _ _ _ _ _ _) as [rc w].
  case_decide; [done|]. case_decide; [|done].
  by destruct (all_rates _ _ _ _ _ _ _) as [[rates delta] err2].
Qed.

Lemma post_steps_U (sa : state) sh :
  let st := for_range 0 (Nn c) (post_step_node c) (sa, sh) in
  U_it st.1 = U_it sa ∧ U st.2 = U sh.
Proof.
  apply (for_range_inv
    (λ (_ : Z) (st : state * shared), U_it st.1 = U_it sa ∧ U st.2 = U sh)
    (λ st, U_it st.1 = U_it sa ∧ U st.2 = U sh)); [done| |done].
  intros node [sa1 sh1] _ [H1 H2]. cbn [fst snd] in H1, H2.
  pose proof (post_step_node_U node sa1 sh1) as H.
  destruct (post_step_node c node (sa1, sh1)) as [st|st];
    destruct H as [-> ->]; done.
Qed.

Lemma store_V_U cnt : ∀ (sa : state) sh,
  U_it (store_V c cnt sa sh).1 = U_it sa ∧
  U (store_V c cnt sa sh).2 = U sh ∧
  tt (store_V c cnt sa sh).1 = tt sa.
Proof.
  induction cnt as [|cnt IH]; intros sa sh; [done|]. simpl.
  destruct (_ && _); [|done].
  match goal with
  | |- context [store_V c cnt ?a ?b] => by destruct (IH a b) as (-> & -> & ->)
  end.
Qed.

(** X10. The second loop over the threads writes the state of the
    thread to the dense matrix U for the points of [tspan] that the new
    time [tt] (the end of the day) has passed, and for no other: the
    part of the thread in each of the columns from the old to the new
    [U_it] holds the state [uu] of its nodes after the events of the
    day, the loop stops at the first point of [tspan] that [tt] has not
    passed, and no other cell of U changes. *)
Theorem dense_store_columns (sa : state) (sh : shared) :
  let sa' := (post_phase c sa sh).1 in
  let sh' := (post_phase c sa sh).2 in
  U_dense c = true →
  0 ≤ U_it sa →
  0 ≤ Nc c → 0 ≤ Ni c → 0 ≤ Nn c → Ni c + Nn c ≤ Ntot c →
  Nc c * Ntot c * tlen c ≤ len (U sh) →
  tt sa' = next_day sa ∧
  U_it sa ≤ U_it sa' ∧
  (U_it sa < U_it sa' → U_it sa' ≤ tlen c) ∧
  len (U sh') = len (U sh) ∧
  (∀ it, U_it sa ≤ it < U_it sa' →
     Dlt (rd D0 (tspan c) it) (next_day sa) = true ∧
     ∀ k, 0 ≤ k < Nn c * Nc c →
       (U sh').[block it + k] = (uu sh).[Ni c * Nc c + k]) ∧
  (U_it sa' < tlen c →
   Dlt (rd D0 (tspan c) (U_it sa')) (next_day sa) = false) ∧
  (∀ i, (∀ it, U_it sa ≤ it < U_it sa' →
           ¬ block it ≤ i < block it + Nn c * Nc c) →
        (U sh').[i] = (U sh).[i]).
Proof.
  intros sa' sh' HU Hit HNc HNi HNn HNtot Hlen.
  unfold sa', sh', post_phase.
  pose proof (post_steps_U sa sh) as [Hi1 HU1].
  pose proof (post_steps_frame c sa sh) as [(_ & Hnd & _ & _) Huu1].
  cbv zeta in Hi1, HU1, Hnd, Huu1.
  destruct (for_range 0 (Nn c) (post_step_node c) (sa, sh)) as [sa1 sh1].
  cbn [fst snd] in Hi1, HU1, Hnd, Huu1.
  set (sa2 := set_clock (next_day sa1) (Dadd (next_day sa1) (of_int 1)) sa1).
  pose proof (store_U_spec (Z.to_nat (tlen c - U_it sa2)) sa2 sh1 HU) as Hs.
  destruct Hs as (H1 & H2 & H3 & H4 & H5 & H6 & H7 & H8);
    [unfold sa2; simpl; lia|unfold sa2; simpl; lia|done|done|done|done
    |by rewrite HU1|].
  destruct (store_U c _ sa2 sh1) as [sa3 sh3].
  cbn [fst snd] in H1, H2, H3, H4, H5, H6, H7, H8.
  destruct (store_V_U (Z.to_nat (tlen c - V_it sa3)) sa3 sh3)
    as (Hi4 & HU4 & Ht4).
  change (let '(sa, sh) := (sa3, sh3) in
          store_V c (Z.to_nat (tlen c - V_it sa)) sa sh)
    with (store_V c (Z.to_nat (tlen c - V_it sa3)) sa3 sh3).
  rewrite Hi4, HU4, Ht4.
  unfold sa2 in H1, H2, H5, H6, H7, H8.
  cbn [U_it tt set_clock] in H1, H2, H5, H6, H7, H8.
  rewrite Hi1, ?Hnd, ?HU1, ?Huu1 in *.
  split; [by rewrite H5|]. split; [done|]. split; [done|].
  split; [congruence|]. split; [|split].
  - intros it Hi. destruct (H6 it Hi) as [Ha Hb]. split; [done|].
    intros k Hk. rewrite Hb by done. done.
  - done.
  - intros i Hi. rewrite H8 by done. done.
Qed.

End DenseStore.

(** The end of day 1 of a model with one node and the points of time
    0, 1 and 2: the state is stored in column 1. *)
Lemma dense_store_columns_witness :
  let c := args_of 1 0 1 0 2 [] [0] [] [0] [] [] [0] [] [] [0; 1; 2]%Q
             [] [] in
  let sa := state_of [] 1 1 0 2 in
  let sh := shared_of [4; 1] 1 3 in
  let sa' := (post_phase c sa sh).1 in
  let sh' := (post_phase c sa sh).2 in
  U sh' = [4; 1; 4; 1; 0; 0] ∧ U_it sa' = 2 ∧
  tt sa' = next_day sa ∧
  U_it sa ≤ U_it sa' ∧
  (U_it sa < U_it sa' → U_it sa' ≤ tlen c) ∧
  len (U sh') = len (U sh) ∧
  (∀ it, U_it sa ≤ it < U_it sa' →
     Dlt (rd D0 (tspan c) it) (next_day sa) = true ∧
     ∀ k, 0 ≤ k < Nn c * Nc c →
       (U sh').[Nc c * (Ntot c * it + Ni c) + k] = (uu sh).[Ni c * Nc c + k]) ∧
  (U_it sa' < tlen c →
   Dlt (rd D0 (tspan c) (U_it sa')) (next_day sa) = false) ∧
  (∀ i, (∀ it, U_it sa ≤ it < U_it sa' →
           ¬ Nc c * (Ntot c * it + Ni c) ≤ i
               < Nc c * (Ntot c * it + Ni c) + Nn c * Nc c) →
        (U sh').[i] = (U sh).[i]).
Proof.
  intros c sa sh sa' sh'. split; [reflexivity|]. split; [reflexivity|].
  apply (dense_store_columns c sa sh); try reflexivity;
    vm_compute; discriminate.
Defined.

(** ** The first column of U *)

Section FirstColumn.
Context {D R : Type} {FD : Float64 D} {GR : Gsl R D} {EC : SimInf_h}.

#[local] Abbreviation state := (thread_state (D := D) (R := R)).
#[local] Abbreviation threads := (list (thread (D := D) (R := R))).

Section OneThread.
Variable c : SimInf_thread_args (D := D).

Lemma ssa_step_U_it node (sa : state) uu :
  match ssa_step c node sa uu with
  | Next st | Break st => U_it st.1 = U_it sa
  end.
Proof.
  unfold ssa_step.
  destruct (Dle (rd D0 (sum_t_rate sa) node) D0); [done|].
  destruct (gsl_rng_uniform_pos (rng sa)) as [x r1]. cbn [rng set_rng].
  destruct (Dle _ _); [done|].
  destruct (gsl_rng_uniform_pos _) as [y r2].
  destruct (select_transition _ _ _ _) as [tr|]; [|done].
  destruct (update_state _ _ _ _ _) as [uu1 err1].
  by destruct (update_rates _ _ _ _ _ _ _ _) as [[rates delta] err2].
Qed.

Lemma ssa_node_U_it fuel node : ∀ (sa : state) uu st,
  ssa_node c fuel node sa uu = Some st → U_it st.1 = U_it sa.
Proof.
  induction fuel as [|fuel IH]; intros sa uu st H; [done|].
  simpl in H. pose proof (ssa_step_U_it node sa uu) as Hs.
  destruct (ssa_step c node sa uu) as [[sa1 uu1]|st1].
  - rewrite (IH sa1 uu1 st H). done.
  - by injection H as <-.
Qed.

Lemma ssa_nodes_U_it fuel cnt : ∀ node (sa : state) uu st,
  ssa_nodes c fuel cnt node sa uu = Some st → U_it st.1 = U_it sa.
Proof.
  induction cnt as [|cnt IH]; intros node sa uu st H.
  - by injection H as <-.
  - simpl in H. case_decide; [|by injection H as <-].
    destruct (ssa_node c fuel node sa uu) as [[sa1 uu1]|] eqn:E; [|done].
    rewrite (IH _ _ _ _ H). by apply (ssa_node_U_it _ _ _ _ _ E).
Qed.

Lemma E1_step_U (sa : state) sh :
  match E1_step c sa sh with
  | Next st | Break st => U_it st.1 = U_it sa ∧ U st.2 = U sh
  end.
Proof.
  unfold E1_step. case_decide.
  - by destruct (enter_event _ _ _ _).
  - destruct (SimInf_sample_select _ _ _ _ _ _ _ _ _) as [[err ind] rng'].
    case_decide; [done|]. case_decide.
    + by destruct (exit_event _ _ _ _ _).
    + by destruct (internal_transfer_event _ _ _ _ _).
Qed.

Lemma E1_loop_U cnt : ∀ (sa : state) sh,
  U_it (E1_loop c cnt sa sh).1 = U_it sa ∧ U (E1_loop c cnt sa sh).2 = U sh.
Proof.
  induction cnt as [|cnt IH]; intros sa sh; [done|]. simpl.
  destruct (E1_cond c sa); [|done].
  pose proof (E1_step_U sa sh) as Hs.
  destruct (E1_step c sa sh) as [[sa1 sh1]|st1]; [|done].
  destruct (IH sa1 sh1) as [-> ->]. done.
Qed.

Lemma E2_step_U (sa : state) sh :
  match E2_step c sa sh with
  | Next st | Break st => U_it st.1 = U_it sa ∧ U st.2 = U sh
  end.
Proof.
  unfold E2_step.
  destruct (SimInf_sample_select _ _ _ _ _ _ _ _ _) as [[err ind] rng'].
  case_decide; [done|].
  by destruct (external_transfer_event _ _ _ _ _).
Qed.

Lemma E2_loop_U cnt : ∀ (sa : state) sh,
  U_it (E2_loop c cnt sa sh).1 = U_it sa ∧ U (E2_loop c cnt sa sh).2 = U sh.
Proof.
  induction cnt as [|cnt IH]; intros sa sh; [done|]. simpl.
  destruct (E2_cond c sa); [|done].
  pose proof (E2_step_U sa sh) as Hs.
  destruct (E2_step c sa sh) as [[sa1 sh1]|st1]; [|done].
  destruct (IH sa1 sh1) as [-> ->]. done.
Qed.

Lemma ssa_phase_U fuel (sa : state) sh sa' sh' :
  ssa_phase c fuel sa sh = Some (sa', sh') →
  U_it sa' = U_it sa ∧ U sh' = U sh.
Proof.
  intros H. unfold ssa_phase in H.
  destruct (ssa_nodes c fuel _ 0 sa (uu sh)) as [[sa1 uu1]|] eqn:E; [|done].
  injection H as H. apply ssa_nodes_U_it in E. simpl in E.
  unfold SimInf_process_E1_events in H.
  destruct (E1_loop_U (Z.to_nat (len (E1 c) - E1_index sa1)) sa1
    (set_uu uu1 sh)) as [H1 H2].
  rewrite H in H1, H2. simpl in H1, H2. split; congruence.
Qed.

Lemma store_U_head cnt n : ∀ (sa : state) sh,
  1 ≤ U_it sa → 0 ≤ Ni c → 0 ≤ Nc c → n ≤ Nc c * Ntot c →
  1 ≤ U_it (store_U c cnt sa sh).1 ∧
  ∀ k, k < n → (U (store_U c cnt sa sh).2).[k] = (U sh).[k].
Proof.
  induction cnt as [|cnt IH]; intros sa sh Hit HNi HNc Hn; [done|].
  cbn [store_U]. destruct (_ && _); [|done].
  match goal with
  | |- context [store_U c cnt ?a ?b] =>
      destruct (IH a b) as [H1 H2]; [simpl; lia|done|done|done|]
  end.
  split; [done|]. intros k Hk. rewrite H2 by done. simpl.
  rewrite rd_memcpy. rewrite decide_False; [done|]. nia.
Qed.

Lemma store_U_sparse_U cnt : ∀ (sa : state) sh,
  U_it sa ≤ U_it (store_U_sparse c cnt sa sh).1 ∧
  U (store_U_sparse c cnt sa sh).2 = U sh.
Proof.
  induction cnt as [|cnt IH]; intros sa sh; [done|]. simpl.
  destruct (_ && _); [|done].
  match goal with
  | |- context [store_U_sparse c cnt ?a ?b] =>
      destruct (IH a b) as [H1 H2]
  end.
  simpl in H1, H2. split; [lia|done].
Qed.

Lemma store_V_sparse_U cnt : ∀ (sa : state) sh,
  U_it (store_V_sparse c cnt sa sh).1 = U_it sa ∧
  U (store_V_sparse c cnt sa sh).2 = U sh.
Proof.
  induction cnt as [|cnt IH]; intros sa sh; [done|]. simpl.
  destruct (_ && _); [|done].
  match goal with
  | |- context [store_V_sparse c cnt ?a ?b] =>
      by destruct (IH a b) as [-> ->]
  end.
Qed.

Lemma post_phase_head n (sa : state) sh :
  U_head n (c, sa) →
  U_head n (c, (post_phase c sa sh).1) ∧
  ∀ k, k < n → (U (post_phase c sa sh).2).[k] = (U sh).[k].
Proof.
  intros (Hit & HNi & HNc & Hn). cbn [fst snd] in Hit, HNi, HNc, Hn.
  unfold post_phase.
  pose proof (post_steps_U c sa sh) as [Hi1 HU1]. cbv zeta in Hi1, HU1.
  destruct (for_range 0 (Nn c) (post_step_node c) (sa, sh)) as [sa1 sh1].
  cbn [fst snd] in Hi1, HU1.
  set (sa2 := set_clock (next_day sa1) (Dadd (next_day sa1) (of_int 1)) sa1).
  destruct (store_U_head (Z.to_nat (tlen c - U_it sa2)) n sa2 sh1)
    as [H1 H2]; [unfold sa2; simpl; lia|done|done|done|].
  destruct (store_U c _ sa2 sh1) as [sa3 sh3]. cbn [fst snd] in H1, H2.
  destruct (store_V_U c (Z.to_nat (tlen c - V_it sa3)) sa3 sh3)
    as (Hi4 & HU4 & _).
  change (let '(sa, sh) := (sa3, sh3) in
          store_V c (Z.to_nat (tlen c - V_it sa)) sa sh)
    with (store_V c (Z.to_nat (tlen c - V_it sa3)) sa3 sh3).
  split.
  - split; [|done]. cbn [fst snd]. lia.
  - intros k Hk. rewrite HU4, H2 by done. by rewrite HU1.
Qed.

Lemma store_solution_sparse_U (sa : state) sh :
  U_it sa ≤ U_it (SimInf_store_solution_sparse c sa sh).1 ∧
  U (SimInf_store_solution_sparse c sa sh).2 = U sh.
Proof.
  unfold SimInf_store_solution_sparse.
  destruct (store_U_sparse_U (Z.to_nat (tlen c - U_it sa)) sa sh) as [H1 H2].
  destruct (store_U_sparse c _ sa sh) as [sa1 sh1]. cbn [fst snd] in H1, H2.
  destruct (store_V_sparse_U (Z.to_nat (tlen c - V_it sa1)) sa1 sh1)
    as [H3 H4].
  split; [lia|congruence].
Qed.

Lemma init_rates_U_it (sa : state) sh :
  U_it (init_rates c sa sh) = U_it sa.
Proof.
  unfold init_rates.
  apply (for_range_inv (λ (_ : Z) (s : state), U_it s = U_it sa)
    (λ s, U_it s = U_it sa)); [done| |done].
  intros node s _ Hs. cbv beta zeta. cbn [U_it set_t_time].
  apply (for_range_inv (λ (_ : Z) (s' : state), U_it s' = U_it sa)
    (λ s', U_it s' = U_it sa)); [done| |done].
  intros j s' _ Hs'. done.
Qed.

End OneThread.

Lemma omp_for_head n
    (f : SimInf_thread_args → state → shared → option (state * shared)) :
  (∀ c sa sh sa' sh', f c sa sh = Some (sa', sh') →
     U_head n (c, sa) →
     U_head n (c, sa') ∧ ∀ k, k < n → (U sh').[k] = (U sh).[k]) →
  ∀ (ts : threads) sh ts' sh',
    omp_for f ts sh = Some (ts', sh') →
    Forall (U_head n) ts →
    Forall (U_head n) ts' ∧ ∀ k, k < n → (U sh').[k] = (U sh).[k].
Proof.
  intros Hf. induction ts as [|[c sa] ts IH]; intros sh ts' sh' H Hall.
  - injection H as <- <-. done.
  - simpl in H. apply list.Forall_cons_1 in Hall as [Ht Hall].
    destruct (f c sa sh) as [[sa1 sh1]|] eqn:E; [|done].
    destruct (omp_for f ts sh1) as [[ts2 sh2]|] eqn:Eb; [|done].
    injection H as <- <-.
    destruct (Hf c sa sh sa1 sh1 E Ht) as [Ht1 HU1].
    destruct (IH sh1 ts2 sh2 Eb Hall) as [Hall2 HU2].
    split; [by constructor|].
    intros k Hk. rewrite HU2 by done. by apply HU1.
Qed.

Lemma on_master_head n
    (f : SimInf_thread_args → state → shared → state * shared) :
  (∀ c sa sh, U_head n (c, sa) →
     U_head n (c, (f c sa sh).1) ∧
     ∀ k, k < n → (U (f c sa sh).2).[k] = (U sh).[k]) →
  ∀ (ts : threads) sh ts' sh',
    on_master f ts sh = Some (ts', sh') →
    Forall (U_head n) ts →
    Forall (U_head n) ts' ∧ ∀ k, k < n → (U sh').[k] = (U sh).[k].
Proof.
  intros Hf [|[c sa] ts] sh ts' sh' H Hall; [done|].
  simpl in H. apply list.Forall_cons_1 in Hall as [Ht Hall].
  destruct (Hf c sa sh Ht) as [Ht1 HU1].
  destruct (f c sa sh) as [sa1 sh1]. injection H as <- <-.
  split; [by constructor|done].
Qed.

Lemma day_head n fuel (ts : threads) sh ts' sh' :
  day fuel ts sh = Some (ts', sh') →
  Forall (U_head n) ts →
  Forall (U_head n) ts' ∧ ∀ k, k < n → (U sh').[k] = (U sh).[k].
Proof.
  intros H Hall. unfold day in H.
  destruct (omp_for _ ts sh) as [[ts1 sh1]|] eqn:Ea; [|done].
  destruct (on_master SimInf_process_E2_events ts1 sh1)
    as [[ts2 sh2]|] eqn:Eb; [|done].
  destruct (omp_for _ ts2 sh2) as [[ts3 sh3]|] eqn:Ec; [|done].
  destruct (on_master SimInf_store_solution_sparse ts3 sh3)
    as [[ts4 sh4]|] eqn:Ed; [|done].
  injection H as <- <-.
  apply (omp_for_head n) in Ea as [Hall1 HU1]; [| |done].
  2:{ intros c sa sh0 sa' sh0' Hp (Hit & Hrest).
      apply ssa_phase_U in Hp as [Hi HU].
      split; [split; [cbn [snd] in *; lia|done]|]. intros k _. by rewrite HU. }
  apply (on_master_head n) in Eb as [Hall2 HU2]; [| |done].
  2:{ intros c sa sh0 (Hit & Hrest). unfold SimInf_process_E2_events.
      destruct (E2_loop_U c (Z.to_nat (len (E2 c) - E2_index sa)) sa sh0)
        as [Hi HU].
      split; [split; [cbn [snd] in *; lia|done]|]. intros k _. by rewrite HU. }
  apply (omp_for_head n) in Ec as [Hall3 HU3]; [| |done].
  2:{ intros c sa sh0 sa' sh0' [= Hp] Ht.
      pose proof (post_phase_head c n sa sh0 Ht) as Hh.
      by rewrite Hp in Hh. }
  apply (on_master_head n) in Ed as [Hall4 HU4]; [| |done].
  2:{ intros c sa sh0 (Hit & Hrest).
      destruct (store_solution_sparse_U c sa sh0) as [Hi HU].
      split; [split; [cbn [snd] in *; lia|done]|]. intros k _. by rewrite HU. }
  split.
  - apply list.Forall_fmap. eapply list.Forall_impl; [exact Hall4|].
    intros [c sa] Ht. done.
  - intros k Hk. rewrite HU4, HU3, HU2, HU1 by done. done.
Qed.

Lemma main_loop_head n days fuel : ∀ (ts : threads) sh ret sh',
  main_loop days fuel ts sh = Some (ret, sh') →
  Forall (U_head n) ts →
  ∀ k, k < n → (U sh').[k] = (U sh).[k].
Proof.
  induction days as [|days IH]; intros ts sh ret sh' H Hall; [done|].
  simpl in H. destruct (day fuel ts sh) as [[ts1 sh1]|] eqn:E; [|done].
  apply (day_head n) in E as [Hall1 HU1]; [|done].
  case_decide; [by injection H as <- <-|].
  destruct (final_time ts1); [by injection H as <- <-|].
  intros k Hk. rewrite (IH ts1 sh1 ret sh' H Hall1 k Hk). by apply HU1.
Qed.

End FirstColumn.

(** X11. [SimInf_run_solver_ssa] copies the initial state [u0] to
    column 0 of the dense matrix U once [uu] is allocated, and the
    solver, whose threads start at column 1, never writes to it.  So
    column 0 of U holds [u0] on every return of a run (0, the error code
    of an allocation that fails later, of an event or of the solver)
    but one: when [uu] is not allocated the run returns
    [SIMINF_ERR_ALLOC_MEMORY_BUFFER] and U is as the caller passed
    it. *)
Theorem first_column_is_u0 {D R : Type} {FD : Float64 D} {GR : Gsl R D}
    {EC : SimInf_h} (m : allocations) days fuel
    (a : SimInf_solver_args (D := D))
    (junk : list D) (ret : Z) (sh' : shared) (U0 : list Z) :
  SimInf_run_solver_ssa_alloc (R := R) m days fuel a junk = Some (ret, sh') →
  args_U a = Some U0 →
  0 < args_Nthread a → 0 ≤ args_Nn a → 0 ≤ args_Nc a →
  args_Nn a * args_Nc a ≤ len U0 →
  if alloc_uu m
  then ∀ k, 0 ≤ k < args_Nn a * args_Nc a → (U sh').[k] = (args_u0 a).[k]
  else ret = SIMINF_ERR_ALLOC_MEMORY_BUFFER ∧ U sh' = U0.
Proof.
  intros Hrun HU HT HNn HNc Hlen.
  unfold SimInf_run_solver_ssa_alloc in Hrun.
  destruct (alloc_uu m); cbn [negb] in Hrun.
  2:{ injection Hrun as <- <-. split; [done|].
      unfold shared_args. cbn [U]. by rewrite HU. }
  intros k Hk.
  assert ((U (shared_init a)).[k] = (args_u0 a).[k]) as Hinit.
  { unfold shared_init. cbn [U]. rewrite HU. rewrite rd_memcpy.
    rewrite decide_True by lia. f_equal. lia. }
  destruct (negb (alloc_vv_1 m) || negb (alloc_vv_2 m));
    [by injection Hrun as <- <-|].
  destruct (negb (alloc_update_node m)); [by injection Hrun as <- <-|].
  destruct (negb (alloc_rng m)); [by injection Hrun as <- <-|].
  destruct (negb (alloc_sim_args m)); [by injection Hrun as <- <-|].
  destruct (negb (allocate_threads m (args_Nthread a)));
    [by injection Hrun as <- <-|].
  destruct (SimInf_split_events_alloc _ _ _ _) as [|err|q1 q2]; [done| |].
  { by injection Hrun as <- <-. }
  unfold SimInf_solver_ssa in Hrun.
  case_decide; [by injection Hrun as <- <-|].
  rewrite <- Hinit.
  apply (main_loop_head (args_Nn a * args_Nc a) _ _ _ _ _ _ Hrun); [|lia].
  apply list.Forall_fmap. apply list.Forall_fmap.
  apply list.Forall_forall. intros i Hi.
  apply elem_of_seqZ in Hi.
  unfold U_head. cbn. rewrite init_rates_U_it. cbn.
  split; [lia|]. split; [|split; [done|lia]].
  unfold thread_Ni. apply Z.mul_nonneg_nonneg; [lia|].
  apply Z.quot_pos; lia.
Qed.

(** A run of six days of a model with two nodes, in which three of the
    five individuals of the first node move to the second on day 3; and
    the run of the same model when the buffers of the threads are not
    allocated, and when [uu] is not. *)
Lemma first_column_is_u0_witness :
  let a := model_of 2 1 1 1 [5; 0]
             ((λ k, inject_Z k) <$> seqZ 0 6) [] [0; 0] [] [0; 0] [] [0]
             [0; 1] [] [λ _ _ _ _ _, 0%Q]
             [{| ev_event := EXTERNAL_TRANSFER_EVENT; ev_time := 3;
                 ev_node := 1; ev_dest := 2; ev_n := 3;
                 ev_proportion := 0%Q; ev_select := 1; ev_shift := 0 |}] in
  let m1 :=
    {| alloc_uu := true; alloc_vv_1 := true; alloc_vv_2 := true;
       alloc_update_node := true; alloc_rng := true; alloc_sim_args := true;
       alloc_thread := λ _, false; alloc_E1_i := true;
       alloc_E1 := λ _, true; alloc_E2 := true |} in
  let m2 :=
    {| alloc_uu := false; alloc_vv_1 := true; alloc_vv_2 := true;
       alloc_update_node := true; alloc_rng := true; alloc_sim_args := true;
       alloc_thread := λ _, true; alloc_E1_i := true;
       alloc_E1 := λ _, true; alloc_E2 := true |} in
  (∃ sh',
     SimInf_run_solver_ssa_alloc all_allocated 7 1 a [] = Some (0, sh') ∧
     U sh' = [5; 0; 5; 0; 5; 0; 2; 3; 2; 3; 2; 3] ∧
     ∀ k, 0 ≤ k < args_Nn a * args_Nc a → (U sh').[k] = (args_u0 a).[k]) ∧
  (∃ sh',
     SimInf_run_solver_ssa_alloc m1 7 1 a [] =
       Some (SIMINF_ERR_ALLOC_MEMORY_BUFFER, sh') ∧
     U sh' = [5; 0; 0; 0; 0; 0; 0; 0; 0; 0; 0; 0] ∧
     ∀ k, 0 ≤ k < args_Nn a * args_Nc a → (U sh').[k] = (args_u0 a).[k]) ∧
  (∃ sh',
     SimInf_run_solver_ssa_alloc m2 7 1 a [] =
       Some (SIMINF_ERR_ALLOC_MEMORY_BUFFER, sh') ∧
     U sh' = [0; 0; 0; 0; 0; 0; 0; 0; 0; 0; 0; 0]).
Proof.
  intros a m1 m2.
  assert (args_U a = Some (replicate 12 0)) as HU by reflexivity.
  assert (0 < args_Nthread a) as HT by (vm_compute; reflexivity).
  assert (0 ≤ args_Nn a) as HNn by (vm_compute; discriminate).
  assert (0 ≤ args_Nc a) as HNc by (vm_compute; discriminate).
  assert (args_Nn a * args_Nc a ≤ len (replicate 12 0)) as Hlen
    by (vm_compute; discriminate).
  split; [|split].
  - destruct (SimInf_run_solver_ssa_alloc all_allocated 7 1 a [])
      as [[ret sh]|] eqn:E; [|vm_compute in E; discriminate E].
    pose proof (first_column_is_u0 (R := list positive) all_allocated 7 1 a
                  [] ret sh (replicate 12 0) E HU HT HNn HNc Hlen) as H.
    cbn [alloc_uu all_allocated] in H.
    pose proof E as E'. vm_compute in E'. injection E' as Hret Hsh.
    exists sh. split; [by rewrite <- Hret|].
    split; [by rewrite <- Hsh|exact H].
  - destruct (SimInf_run_solver_ssa_alloc m1 7 1 a [])
      as [[ret sh]|] eqn:E; [|vm_compute in E; discriminate E].
    pose proof (first_column_is_u0 (R := list positive) m1 7 1 a
                  [] ret sh (replicate 12 0) E HU HT HNn HNc Hlen) as H.
    cbn [alloc_uu m1] in H.
    pose proof E as E'. vm_compute in E'. injection E' as Hret Hsh.
    exists sh. split; [by rewrite <- Hret|].
    split; [by rewrite <- Hsh|exact H].
  - destruct (SimInf_run_solver_ssa_alloc m2 7 1 a [])
      as [[ret sh]|] eqn:E; [|vm_compute in E; discriminate E].
    pose proof (first_column_is_u0 (R := list positive) m2 7 1 a
                  [] ret sh (replicate 12 0) E HU HT HNn HNc Hlen) as H.
    cbn [alloc_uu m2] in H. destruct H as [Hret HUs].
    exists sh. split; [by rewrite <- Hret|exact HUs].
Defined.

(** ** The rates after the post time step *)

Section PostStep.
Context {D R : Type} {FD : Float64 D} {GR : Gsl R D} {EC : SimInf_h}.
Variable c : SimInf_thread_args (D := D).

#[local] Abbreviation state := (thread_state (D := D) (R := R)).

Lemma all_rates_spec node uu vv t t0 err :
  0 ≤ node * Nt c → (node + 1) * Nt c ≤ len t0 →
  let r := (all_rates c node uu vv t t0 err).1.1 in
  len r = len t0 ∧
  (∀ j, 0 ≤ j < Nt c →
     rd D0 r (node * Nt c + j) = call_tr_fun c j node uu vv t) ∧
  (∀ k, ¬ node * Nt c ≤ k < node * Nt c + Nt c → rd D0 r k = rd D0 t0 k).
Proof.
  intros Hn0 Hn1. unfold all_rates.
  apply (for_range_inv
    (λ j (st : list D * D * Z),
       len st.1.1 = len t0 ∧
       (∀ j', 0 ≤ j' < j →
          rd D0 st.1.1 (node * Nt c + j') = call_tr_fun c j' node uu vv t) ∧
       (∀ k, ¬ node * Nt c ≤ k < node * Nt c + Nt c →
          rd D0 st.1.1 k = rd D0 t0 k))).
  - split; [done|]. split; [|done]. intros j' Hj'. lia.
  - intros j [[t_rate delta] err'] Hj (Hl & Hr & Hf). cbn [fst snd] in *.
    split; [by rewrite len_wr|]. split.
    + intros j' Hj'. destruct (decide (j' = j)) as [->|Hne].
      * rewrite rd_wr_eq by lia. done.
      * rewrite rd_wr_ne by lia. apply Hr. lia.
    + intros k Hk. rewrite rd_wr_ne by lia. by apply Hf.
  - intros [[t_rate delta] err'] (Hl & Hr & Hf). cbn [fst snd] in *.
    split; [done|]. split; [|done].
    intros j Hj. apply Hr. lia.
Qed.

Lemma slice_ext {A} (d : A) (a b : list A) off n :
  (∀ k, 0 ≤ k < n → rd d a (off + k) = rd d b (off + k)) →
  slice d a off n = slice d b off n.
Proof.
  intros H. unfold slice. apply list_fmap_ext.
  intros i k Hk. apply lookup_seqZ in Hk as [-> Hi]. apply H. lia.
Qed.

Lemma call_tr_fun_ext j node uu (vv vv' : list D) t :
  (∀ k, 0 ≤ k < Nd c → rd D0 vv (node * Nd c + k) = rd D0 vv' (node * Nd c + k)) →
  call_tr_fun c j node uu vv t = call_tr_fun c j node uu vv' t.
Proof.
  intros H. unfold call_tr_fun. by rewrite (slice_ext D0 vv vv').
Qed.

(** X12. The loop (4) over the nodes of a thread, when the post time
    step function reports no error, leaves no node of the thread
    indicated for update: for every node that the events of the day
    indicated, all rates are calculated again, from the state after the
    events and from the new continuous state [v_new], and the
    indication is cleared.  The indications of the nodes of the other
    threads are not touched. *)
Theorem post_step_refreshes (sa : state) (sh : shared) :
  let st := for_range 0 (Nn c) (post_step_node c) (sa, sh) in
  (∀ vn u v l g n t, 0 ≤ (pts_fun c vn u v l g n t).1) →
  0 ≤ Nn c → 0 ≤ Nt c → 0 ≤ Nd c → 0 ≤ Ni c →
  Ni c + Nn c ≤ len (update_node sh) →
  Nn c * Nt c ≤ len (t_rate sa) →
  uu st.2 = uu sh ∧
  (∀ node, 0 ≤ node < Nn c → (update_node st.2).[Ni c + node] = 0) ∧
  (∀ i, ¬ Ni c ≤ i < Ni c + Nn c →
     (update_node st.2).[i] = (update_node sh).[i]) ∧
  (∀ node j, 0 ≤ node < Nn c → 0 ≤ j < Nt c →
     (update_node sh).[Ni c + node] ≠ 0 →
     rd D0 (t_rate st.1) (node * Nt c + j) =
     call_tr_fun c j node (uu sh) (v_new st.1) (tt sa)).
Proof.
  intros st Hrc HNn HNt HNd HNi Hlu Hlt. unfold st.
  apply (for_range_inv
    (λ n (s : state * shared),
       uu s.2 = uu sh ∧ tt s.1 = tt sa ∧
       len (update_node s.2) = len (update_node sh) ∧
       len (t_rate s.1) = len (t_rate sa) ∧
       (∀ node, 0 ≤ node < n → (update_node s.2).[Ni c + node] = 0) ∧
       (∀ i, ¬ Ni c ≤ i < Ni c + n →
          (update_node s.2).[i] = (update_node sh).[i]) ∧
       (∀ node j, 0 ≤ node < n → 0 ≤ j < Nt c →
          (update_node sh).[Ni c + node] ≠ 0 →
          ∀ vv, (∀ k, 0 ≤ k < node * Nd c + Nd c →
                   rd D0 vv k = rd D0 (v_new s.1) k) →
                rd D0 (t_rate s.1) (node * Nt c + j) =
                call_tr_fun c j node (uu sh) vv (tt sa)))).
  - cbn [fst snd]. split; [done|]. split; [done|]. split; [done|].
    split; [done|]. split; [intros node Hn; lia|]. split; [done|].
    intros node j Hn. lia.
  - intros node [sa1 sh1] Hnode (Huu & Htt & Hl1 & Hl2 & Hcl & Hfr & Hrt).
    cbn [fst snd] in Huu, Htt, Hl1, Hl2, Hcl, Hfr, Hrt.
    unfold post_step_node.
    pose proof (Hrc (slice D0 (v_new sa1) (node * Nd c) (Nd c))
      (slice 0 (uu sh1) (Ni c * Nc c + node * Nc c) (Nc c))
      (slice D0 (v sa1) (node * Nd c) (Nd c))
      (slice D0 (ldata c) (Ni c * Nld c + node * Nld c) (Nld c))
      (gdata c) (Ni c + node) (tt sa1)) as Hrc'.
    destruct (pts_fun c _ _ _ _ _ _ _) as [rc w]. cbn [fst] in Hrc'.
    rewrite decide_False by lia.
    set (vn := memcpy D0 (v_new sa1) (node * Nd c) w 0 (Nd c)).
    assert (∀ k, k < node * Nd c → rd D0 vn k = rd D0 (v_new sa1) k) as Hvn.
    { intros k Hk. unfold vn. rewrite rd_memcpy.
      rewrite decide_False by lia. done. }
    assert (∀ node' j, 0 ≤ node' < node → 0 ≤ j < Nt c →
              (update_node sh).[Ni c + node'] ≠ 0 →
              ∀ vv, (∀ k, 0 ≤ k < node' * Nd c + Nd c →
                       rd D0 vv k = rd D0 vn k) →
                    rd D0 (t_rate sa1) (node' * Nt c + j) =
                    call_tr_fun c j node' (uu sh) vv (tt sa)) as Hrt'.
    { intros node' j Hn' Hj Hflag vv Hvv. apply Hrt; [done|done|done|].
      intros k Hk. rewrite Hvv by done. apply Hvn. nia. }
    case_decide as Hupd.
    + pose proof (all_rates_spec node (uu sh1) vn (tt sa1) (t_rate sa1)
        (errcode sa1) ltac:(nia) ltac:(nia)) as (Hal & Har & Haf).
      cbn [v_new set_v tt t_rate errcode].
      destruct (all_rates c node (uu sh1) vn (tt sa1) (t_rate sa1)
        (errcode sa1)) as [[rates delta] err2].
      cbn [fst snd] in Hal, Har, Haf |- *.
      cbn [uu update_node set_update_node tt set_sum_t_rate set_errcode
           set_t_rate set_v t_rate v_new].
      split; [done|]. split; [done|]. split; [by rewrite len_wr|].
      split; [congruence|]. split; [|split].
      * intros node' Hn'. destruct (decide (node' = node)) as [->|Hne].
        -- rewrite rd_wr_eq by lia. done.
        -- rewrite rd_wr_ne by lia. apply Hcl. lia.
      * intros i Hi. rewrite rd_wr_ne by lia. apply Hfr. lia.
      * intros node' j Hn' Hj Hflag vv Hvv.
        destruct (decide (node' = node)) as [->|Hne].
        -- rewrite Har by done. rewrite Huu, Htt.
           apply call_tr_fun_ext. intros k Hk. symmetry. apply Hvv. nia.
        -- rewrite Haf by nia. apply Hrt'; [lia|done|done|done].
    + cbn [fst snd uu update_node tt set_v t_rate v_new].
      split; [done|]. split; [done|]. split; [done|]. split; [done|].
      assert ((update_node sh1).[Ni c + node] = 0) as Hz.
      { destruct (decide ((update_node sh1).[Ni c + node] = 0)); [done|].
        exfalso. apply Hupd. by right. }
      split; [|split].
      * intros node' Hn'. destruct (decide (node' = node)) as [->|Hne];
          [done|]. apply Hcl. lia.
      * intros i Hi. apply Hfr. lia.
      * intros node' j Hn' Hj Hflag vv Hvv.
        destruct (decide (node' = node)) as [->|Hne].
        -- exfalso. rewrite <- (Hfr (Ni c + node)) in Hflag by lia. done.
        -- apply Hrt'; [lia|done|done|done].
  - intros [sa1 sh1] (Huu & Htt & Hl1 & Hl2 & Hcl & Hfr & Hrt).
    cbn [fst snd] in *. replace (Z.max 0 (Nn c)) with (Nn c) in * by lia.
    split; [done|]. split; [done|]. split; [done|].
    intros node j Hn Hj Hflag. by apply Hrt.
Qed.

End PostStep.

(** The node of an SIS model is indicated for update after an event
    has brought it to three susceptible and one infected individual. *)
Lemma post_step_refreshes_witness :
  let c := args_of 1 0 1 2 2 [0; 1; 0; 1] [0; 2; 4] [0; 1; 0; 1] [0; 2; 4]
             [-1; 1; 1; -1] [] [0] []
             [λ u _ _ _ _, inject_Z u.[0]; λ u _ _ _ _, inject_Z u.[1]]
             [0; 1]%Q [] [] in
  let sa := state_of [] 0 1 2 2 in
  let sh := set_update_node [1] (shared_of [3; 1] 1 2) in
  let st := for_range 0 (Nn c) (post_step_node c) (sa, sh) in
  t_rate st.1 = [3; 1]%Q ∧ update_node st.2 = [0] ∧
  uu st.2 = uu sh ∧
  (∀ node, 0 ≤ node < Nn c → (update_node st.2).[Ni c + node] = 0) ∧
  (∀ i, ¬ Ni c ≤ i < Ni c + Nn c →
     (update_node st.2).[i] = (update_node sh).[i]) ∧
  (∀ node j, 0 ≤ node < Nn c → 0 ≤ j < Nt c →
     (update_node sh).[Ni c + node] ≠ 0 →
     rd D0 (t_rate st.1) (node * Nt c + j) =
     call_tr_fun c j node (uu sh) (v_new st.1) (tt sa)).
Proof.
  intros c sa sh st. split; [reflexivity|]. split; [reflexivity|].
  apply (post_step_refreshes c sa sh).
  - intros vn u v l g n t. simpl. lia.
  - vm_compute. discriminate.
  - vm_compute. discriminate.
  - vm_compute. discriminate.
  - vm_compute. discriminate.
  - vm_compute. discriminate.
  - vm_compute. discriminate.
Defined.

(** ** The rates at the start of a run *)

Section InitialRates.
Context {D R : Type} {FD : Float64 D} {GR : Gsl R D} {EC : SimInf_h}.

#[local] Abbreviation state := (thread_state (D := D) (R := R)).
#[local] Abbreviation threads := (list (thread (D := D) (R := R))).

Lemma check_rate_bad (rate : D) err :
  check_rate rate err =
  if bad_rate rate then SIMINF_ERR_INVALID_RATE else err.
Proof. done. Qed.

Lemma init_rates_check (c : SimInf_thread_args (D := D)) (sa : state) sh :
  0 ≤ Nn c → 0 ≤ Nt c →
  (bad_initial_rate sh (c, sa) ∧
   errcode (init_rates c sa sh) = SIMINF_ERR_INVALID_RATE) ∨
  (¬ bad_initial_rate sh (c, sa) ∧
   errcode (init_rates c sa sh) = errcode sa).
Proof.
  intros HNn HNt. unfold bad_initial_rate. cbn [fst snd].
  set (bad node j :=
    bad_rate (call_tr_fun c j node (uu sh) (v sa) (tt sa)) = true).
  set (I (n m : Z) (s : state) :=
    v s = v sa ∧ tt s = tt sa ∧
    ((errcode s = SIMINF_ERR_INVALID_RATE ∧
      ∃ node j, 0 ≤ j < Nt c ∧ (0 ≤ node < n ∨ (node = n ∧ j < m)) ∧
                bad node j) ∨
     (errcode s = errcode sa ∧
      ∀ node j, 0 ≤ j < Nt c → (0 ≤ node < n ∨ (node = n ∧ j < m)) →
                ¬ bad node j))).
  assert (I (Nn c) 0 (init_rates c sa sh)) as (_ & _ & H).
  { unfold init_rates.
    apply (for_range_inv (λ n s, I n 0 s)).
    - split; [done|]. split; [done|]. right. split; [done|].
      intros node j Hj Hn. lia.
    - intros node s Hnode HI. cbv beta zeta.
      match goal with
      | |- I _ _ (set_t_time _ ?x) => set (s2 := x)
      end.
      assert (I node (Nt c) s2) as (Hv & Ht & Hc).
      { unfold s2. apply (for_range_inv (λ j s', I node j s')).
        - destruct HI as (Hv & Ht & Hc). split; [done|]. split; [done|].
          done.
        - intros j s' Hj (Hv & Ht & Hc). cbv beta zeta.
          split; [done|]. split; [done|].
          cbn [errcode set_errcode set_sum_t_rate set_t_rate].
          rewrite check_rate_bad. rewrite Hv, Ht.
          destruct (bad_rate (call_tr_fun c j node (uu sh) (v sa) (tt sa)))
            eqn:Eb.
          + left. split; [done|]. exists node, j.
            split; [done|]. split; [right; lia|done].
          + destruct Hc as [(He & n' & j' & Hj' & Hn' & Hb)|(He & Hall)].
            * left. split; [done|]. exists n', j'.
              split; [done|]. split; [lia|done].
            * right. split; [done|]. intros n' j' Hj' Hn'.
              destruct (decide (n' = node ∧ j' = j)) as [[-> ->]|Hne].
              -- unfold bad. by rewrite Eb.
              -- apply Hall; [done|lia].
        - intros s'. by replace (Z.max 0 (Nt c)) with (Nt c) by lia. }
      split; [done|]. split; [done|].
      destruct Hc as [(He & n' & j' & Hj' & Hn' & Hb)|(He & Hall)].
      + left. split; [done|]. exists n', j'. split; [done|].
        split; [lia|done].
      + right. split; [done|]. intros n' j' Hj' Hn'.
        apply Hall; [done|lia].
    - intros s. by replace (Z.max 0 (Nn c)) with (Nn c) by lia. }
  destruct H as [(He & node & j & Hj & Hn & Hb)|(He & Hall)].
  - left. split; [|done]. exists node, j. split; [lia|]. done.
  - right. split; [|done]. intros (node & j & Hn & Hj & Hb).
    apply (Hall node j); [done|lia|done].
Qed.

Lemma first_error_init (ts : threads) sh :
  SIMINF_ERR_INVALID_RATE ≠ 0 →
  Forall (λ t : thread, errcode t.2 = 0 ∧ 0 ≤ Nn t.1 ∧ 0 ≤ Nt t.1) ts →
  let ts' := (λ t : thread, (t.1, init_rates t.1 t.2 sh)) <$> ts in
  (Exists (bad_initial_rate sh) ts ∧
   first_error ts' = SIMINF_ERR_INVALID_RATE) ∨
  (¬ Exists (bad_initial_rate sh) ts ∧ first_error ts' = 0).
Proof.
  intros Hinv. induction ts as [|[c sa] ts IH]; intros Hall.
  - right. split; [|done]. intros H. by apply Exists_nil in H.
  - apply list.Forall_cons_1 in Hall as [(He & HNn & HNt) Hall].
    cbn [fst snd] in He, HNn, HNt. cbv zeta. rewrite fmap_cons.
    cbn [first_error fst snd].
    destruct (init_rates_check c sa sh HNn HNt) as [[Hb Hi]|[Hb Hi]].
    + left. split; [by apply Exists_cons_hd|].
      rewrite Hi. by rewrite decide_True.
    + rewrite Hi, He. rewrite decide_False by (intros H; by apply H).
      destruct (IH Hall) as [[Hex Hf]|[Hex Hf]].
      * left. split; [by apply Exists_cons_tl|done].
      * right. split; [|done]. intros H.
        apply Exists_cons in H as [H|H]; [by apply Hb|by apply Hex].
Qed.

(** X13. The solver tests every rate that it calculates at the start:
    when a rate of a transition at the initial state is not finite or
    is negative, the run returns [SIMINF_ERR_INVALID_RATE] at once,
    with no step made, however many days it was to last; otherwise the
    solver goes on to the main loop with the rates in place. *)
Theorem invalid_initial_rate (ts : threads) (sh : shared) :
  SIMINF_ERR_INVALID_RATE ≠ 0 →
  Forall (λ t : thread, errcode t.2 = 0 ∧ 0 ≤ Nn t.1 ∧ 0 ≤ Nt t.1) ts →
  (Exists (bad_initial_rate sh) ts →
   ∀ days fuel,
     SimInf_solver_ssa days fuel ts sh =
     Some (SIMINF_ERR_INVALID_RATE, sh)) ∧
  (¬ Exists (bad_initial_rate sh) ts →
   ∀ days fuel,
     SimInf_solver_ssa days fuel ts sh =
     main_loop days fuel
       ((λ t : thread, (t.1, init_rates t.1 t.2 sh)) <$> ts) sh).
Proof.
  intros Hinv Hall.
  pose proof (first_error_init ts sh Hinv Hall) as Hf. cbv zeta in Hf.
  split; intros Hex days fuel; unfold SimInf_solver_ssa.
  - destruct Hf as [[_ Hf]|[Hn _]]; [|done].
    rewrite Hf. by rewrite decide_True.
  - destruct Hf as [[Hn _]|[_ Hf]]; [done|].
    rewrite Hf. rewrite decide_False by (intros H; by apply H). done.
Qed.

End InitialRates.

(** A model of one node whose one transition has the rate -1. *)
Lemma invalid_initial_rate_witness :
  let c := args_of 1 0 1 1 1 [0] [0; 1] [0] [0; 1] [-1] [] [0] []
             [λ _ _ _ _ _, (-1)%Q] [0; 1]%Q [] [] in
  let ts := [(c, state_of [] 0 1 1 1)] in
  let sh := shared_of [3] 1 2 in
  SimInf_solver_ssa 5 5 ts sh = Some (SIMINF_ERR_INVALID_RATE, sh).
Proof.
  intros c ts sh.
  apply (invalid_initial_rate (R := list positive) ts sh).
  - discriminate.
  - constructor; [|constructor]. vm_compute.
    split; [reflexivity|]. split; discriminate.
  - apply Exists_cons_hd. exists 0, 0.
    split; [vm_compute; split; [discriminate|reflexivity]|].
    split; [vm_compute; split; [discriminate|reflexivity]|]. reflexivity.
Defined.

(** ** The model SISe3 *)

Section SISe3Properties.
Import SISe3.
Context {D : Type} {FD : Float64 D} {CD : Cast D}.

Lemma quarter_of_day (t : D) :
  0 ≤ int_of_double t →
  let day := int_of_double t `mod` 365 in
  beta_offset (quarter t) =
  if decide (day < 91) then BETA_Q1
  else if decide (day < 182) then BETA_Q2
  else if decide (day < 273) then BETA_Q3
  else BETA_Q4.
Proof.
  intros Ht day. unfold quarter, beta_offset.
  rewrite Z.rem_mod_nonneg by lia. fold day.
  pose proof (Z.mod_pos_bound (int_of_double t) 365 ltac:(lia)) as Hd.
  fold day in Hd.
  rewrite Z.quot_div_nonneg by lia.
  pose proof (Z.div_mod day 91 ltac:(lia)) as Hq.
  pose proof (Z.mod_pos_bound day 91 ltac:(lia)) as Hr.
  repeat case_decide; try done; lia.
Qed.

(** X14. The post time step function of SISe3 changes the infectious
    pressure [data[PHI]] and no other cell of the data vector.  The
    pressure decays by the factor of the quarter of the year of the
    day [(int)t % 365]: BETA_Q1 for the days 0 to 90, BETA_Q2 for 91 to
    181, BETA_Q3 for 182 to 272 and BETA_Q4 for the days from 273 on,
    day 364 (whose quotient by 91 is 4) included; then the
    contribution of the infected individuals of the node (if it has
    individuals) and the background are added.  The function returns 1
    exactly when the pressure has changed, else 0. *)
Theorem SISe3_pressure_update (u : list Z) (node : Z) (t : D)
    (data : list D) (sd : Z) :
  let day := int_of_double t `mod` 365 in
  let beta :=
    if decide (day < 91) then BETA_Q1
    else if decide (day < 182) then BETA_Q2
    else if decide (day < 273) then BETA_Q3
    else BETA_Q4 in
  let S_n := of_int (iadd (iadd u.[S_1] u.[S_2]) u.[S_3]) in
  let I_n := of_int (iadd (iadd u.[I_1] u.[I_2]) u.[I_3]) in
  let r := SISe3_post_time_step u node t data sd in
  0 ≤ int_of_double t →
  1 ≤ len data →
  len r.2 = len data ∧
  (∀ k, k ≠ PHI → rd (of_int 0) r.2 k = rd (of_int 0) data k) ∧
  rd (of_int 0) r.2 PHI =
    Dadd (Dmul (rd (of_int 0) data PHI)
            (Dsub (of_int 1) (rd (of_int 0) data beta)))
      (if Dlt (of_int 0) (Dadd I_n S_n)
       then Dadd (Ddiv (Dmul (rd (of_int 0) data ALPHA) I_n) (Dadd I_n S_n))
              (rd (of_int 0) data EPSILON)
       else rd (of_int 0) data EPSILON) ∧
  (r.1 = 0 ∨ r.1 = 1) ∧
  (r.1 = 1 ↔ Deq (rd (of_int 0) data PHI) (rd (of_int 0) r.2 PHI) = false).
Proof.
  intros day beta S_n I_n r Ht Hlen.
  pose proof (quarter_of_day t Ht) as Hq. cbv zeta in Hq.
  fold day in Hq. fold beta in Hq.
  unfold r, SISe3_post_time_step. rewrite Hq. fold S_n I_n.
  set (d1 := wr data PHI _).
  assert (len d1 = len data) as Hl1 by apply len_wr.
  assert (rd (of_int 0) d1 PHI =
          Dmul (rd (of_int 0) data PHI)
            (Dsub (of_int 1) (rd (of_int 0) data beta))) as H1.
  { unfold d1. rewrite rd_wr_eq; [done|]. unfold PHI. lia. }
  assert (∀ k, k ≠ PHI → rd (of_int 0) d1 k = rd (of_int 0) data k) as Hf1.
  { intros k Hk. unfold d1. by rewrite rd_wr_ne. }
  rewrite (Hf1 ALPHA), (Hf1 EPSILON) by done. rewrite H1.
  set (d2 := if Dlt (of_int 0) (Dadd I_n S_n) then _ else _).
  set (x := if Dlt (of_int 0) (Dadd I_n S_n) then _ else _).
  assert (d2 = wr d1 PHI (Dadd (Dmul (rd (of_int 0) data PHI)
            (Dsub (of_int 1) (rd (of_int 0) data beta))) x)) as Hd2.
  { unfold d2, x. by destruct (Dlt _ _). }
  clearbody d2. subst d2. cbn [fst snd].
  assert (0 ≤ PHI < len d1) as Hphi by (unfold PHI; lia).
  split; [by rewrite len_wr|]. split.
  { intros k Hk. rewrite rd_wr_ne by done. by apply Hf1. }
  rewrite rd_wr_eq by done. split; [done|].
  destruct (Deq _ _) eqn:E.
  - split; [by left|]. split; [done|]. intros H. done.
  - split; [by right|]. done.
Qed.

End SISe3Properties.

Section SISe3Exact.
Import SISe3 ExactCast.

Lemma Qplus_nonneg (a b : Q) : (0 <= a → 0 <= b → 0 <= a + b)%Q.
Proof.
  intros Ha Hb. apply Qle_trans with (0 + 0)%Q; [done|].
  by apply Qplus_le_compat.
Qed.

Lemma inject_Z_nonneg z : 0 ≤ z → (0 <= inject_Z z)%Q.
Proof. intros Hz. unfold Qle. simpl. lia. Qed.

Lemma count3_nonneg a b c :
  0 ≤ a → 0 ≤ b → 0 ≤ c → a + b + c ≤ INT_MAX →
  0 ≤ iadd (iadd a b) c.
Proof.
  intros Ha Hb Hc Hs. unfold iadd.
  rewrite (wrap_id (a + b)) by (unfold is_int, INT_MIN, INT_MAX in *; lia).
  rewrite wrap_id by (unfold is_int, INT_MIN, INT_MAX in *; lia). lia.
Qed.

(** X15. In exact arithmetic SISe3 keeps its parameters in their
    ranges and its rates valid: when no cell of the data vector is
    negative and the four decays are at most 1, the post time step
    function leaves the data vector so, whatever the day, for every
    state of numbers of individuals; and with such a data vector each
    of the six propensities is not negative, so that the solver's test
    of the rate does not fail. *)
Theorem SISe3_rates_valid (u : list Z) (node : Z) (t : Q) (data : list Q)
    (sd : Z) :
  SISe3_params_ok data →
  1 ≤ len data →
  (∀ k, 0 ≤ u.[k]) →
  u.[S_1] + u.[S_2] + u.[S_3] ≤ INT_MAX →
  u.[I_1] + u.[I_2] + u.[I_3] ≤ INT_MAX →
  SISe3_params_ok (SISe3_post_time_step u node t data sd).2 ∧
  ∀ f, f ∈ SISe3_propensities →
    (0 <= f u t data sd)%Q ∧ bad_rate (f u t data sd) = false.
Proof.
  intros [Hpos Hbeta] Hlen Hu HS HI.
  assert (0 ≤ iadd (iadd u.[S_1] u.[S_2]) u.[S_3]) as HSn
    by (by apply count3_nonneg).
  assert (0 ≤ iadd (iadd u.[I_1] u.[I_2]) u.[I_3]) as HIn
    by (by apply count3_nonneg).
  split.
  - unfold SISe3_post_time_step. cbn [snd].
    set (S_n := of_int (iadd (iadd u.[S_1] u.[S_2]) u.[S_3])).
    set (I_n := of_int (iadd (iadd u.[I_1] u.[I_2]) u.[I_3])).
    assert (0 <= S_n)%Q as HS0 by (by apply inject_Z_nonneg).
    assert (0 <= I_n)%Q as HI0 by (by apply inject_Z_nonneg).
    set (b := beta_offset (quarter t)).
    assert (BETA_Q1 ≤ b ≤ BETA_Q4) as Hb.
    { unfold b, beta_offset, BETA_Q1, BETA_Q2, BETA_Q3, BETA_Q4.
      repeat case_decide; lia. }
    set (d1 := wr data PHI _).
    assert (∀ k, k ≠ PHI → rd (of_int 0) d1 k = rd 0%Q data k) as Hf1.
    { intros k Hk. unfold d1. by rewrite rd_wr_ne. }
    assert (0 <= rd (of_int 0) d1 PHI)%Q as H1.
    { unfold d1. rewrite rd_wr_eq by (unfold PHI; lia).
      apply Qmult_le_0_compat; [apply Hpos|].
      cbn [Dsub float64]. apply -> Qle_minus_iff. by apply Hbeta. }
    assert (len d1 = len data) as Hl1 by apply len_wr.
    set (x := Dadd (rd (of_int 0) d1 PHI) _).
    set (y := Dadd (rd (of_int 0) d1 PHI) _).
    assert (0 <= x)%Q as Hx.
    { unfold x. apply Qplus_nonneg; [done|].
      rewrite (Hf1 ALPHA), (Hf1 EPSILON) by done.
      apply Qplus_nonneg; [|apply Hpos].
      cbn [Ddiv Dmul Dadd float64]. unfold Qdiv.
      apply Qmult_le_0_compat.
      - apply Qmult_le_0_compat; [apply Hpos|done].
      - apply Qinv_le_0_compat. by apply Qplus_nonneg. }
    assert (0 <= y)%Q as Hy.
    { unfold y. apply Qplus_nonneg; [done|].
      rewrite (Hf1 EPSILON) by done. apply Hpos. }
    assert (∀ v, (0 <= v)%Q → SISe3_params_ok (wr d1 PHI v)) as Hok.
    { intros v Hv. split.
      - intros k. destruct (decide (k = PHI)) as [->|Hne].
        + rewrite rd_wr_eq by (unfold PHI; lia). done.
        + rewrite rd_wr_ne by done.
          change (rd 0%Q d1 k) with (rd (of_int 0) d1 k).
          rewrite Hf1 by done. apply Hpos.
      - intros k Hk. rewrite rd_wr_ne by (unfold PHI, BETA_Q1 in *; lia).
        change (rd 0%Q d1 k) with (rd (of_int 0) d1 k).
        rewrite Hf1 by (unfold PHI, BETA_Q1 in *; lia). by apply Hbeta. }
    destruct (Dlt _ _); by apply Hok.
  - intros f Hf.
    assert (∀ r : Q, (0 <= r)%Q → (0 <= r)%Q ∧ bad_rate r = false) as Hbad.
    { intros r Hr. split; [done|]. unfold bad_rate. cbn.
      apply Qle_bool_iff in Hr.
      change (Qle_bool 0 r) with (Qle_bool (inject_Z 0) r) in Hr.
      by rewrite Hr. }
    unfold SISe3_propensities in Hf.
    repeat (apply elem_of_cons in Hf as [->|Hf]);
      [..|by apply elem_of_nil in Hf]; apply Hbad;
      unfold SISe3_S_1_to_I_1, SISe3_S_2_to_I_2, SISe3_S_3_to_I_3,
        SISe3_I_1_to_S_1, SISe3_I_2_to_S_2, SISe3_I_3_to_S_3;
      repeat apply Qmult_le_0_compat;
      first [apply Hpos | apply inject_Z_nonneg; apply Hu].
Qed.

End SISe3Exact.

Lemma Q_Forall (P : Q → Prop) (a : list Q) :
  P 0%Q → Forall P a → ∀ k, P (rd 0%Q a k).
Proof.
  intros H0 Ha k. unfold rd. case_decide; [|done].
  destruct (a !! Z.to_nat k) as [x|] eqn:E; simpl; [|done].
  by apply (Forall_lookup_1 _ _ _ _ Ha E).
Qed.

(** The last day of a year, in a node with three susceptible and one
    infected individual of the first age category. *)
Lemma SISe3_pressure_update_witness :
  let data := [1; 1; 1; 1; 1; 1; 1; 1 # 2; 1 # 10; 2 # 10; 3 # 10; 4 # 10;
               0]%Q in
  let u := [3; 1; 0; 0; 0; 0] in
  let r := SISe3.SISe3_post_time_step (CD := ExactCast.cast) u 0 364%Q
             data 0 in
  SISe3.quarter (CD := ExactCast.cast) (364%Q) = 4 ∧
  (rd 0 r.2 SISe3.PHI == 29 # 40)%Q ∧
  len r.2 = len data ∧
  (∀ k, k ≠ SISe3.PHI → rd (of_int 0) r.2 k = rd (of_int 0) data k) ∧
  (r.1 = 0 ∨ r.1 = 1) ∧
  (r.1 = 1 ↔
   Deq (rd (of_int 0) data SISe3.PHI) (rd (of_int 0) r.2 SISe3.PHI) = false).
Proof.
  intros data u r. split; [reflexivity|]. split; [reflexivity|].
  destruct (SISe3_pressure_update (CD := ExactCast.cast) u 0 364%Q data 0)
    as (H1 & H2 & _ & H4 & H5).
  - vm_compute. discriminate.
  - vm_compute. discriminate.
  - done.
Defined.

Lemma SISe3_rates_valid_witness :
  let data := [1; 1; 1; 1; 1; 1; 1; 1 # 2; 1 # 10; 2 # 10; 3 # 10; 4 # 10;
               0]%Q in
  let u := [3; 1; 0; 0; 0; 0] in
  SISe3_params_ok
    (SISe3.SISe3_post_time_step (CD := ExactCast.cast) u 0 364%Q data 0).2 ∧
  ∀ f, f ∈ SISe3_propensities →
    (0 <= f u 364%Q data 0%Z)%Q ∧ bad_rate (f u 364%Q data 0) = false.
Proof.
  intros data u.
  apply (SISe3_rates_valid u 0 364%Q data 0).
  - split.
    + apply Q_Forall; [done|]. repeat constructor; done.
    + intros k Hk. unfold SISe3.BETA_Q1, SISe3.BETA_Q4 in Hk.
      assert (k = 8 ∨ k = 9 ∨ k = 10 ∨ k = 11) as [-> | [-> | [-> | ->]]]
        by lia; vm_compute; discriminate.
  - vm_compute. discriminate.
  - apply nonneg_Forall. repeat constructor; lia.
  - vm_compute. discriminate.
  - vm_compute. discriminate.
Defined.

(** ** The samples that need no random number *)

Section SamplerNoDraw.
Context {D R : Type} {FD : Float64 D} {GR : Gsl R D} {EC : SimInf_h}.
Variables (irE jcE : list Z) (Nc : Z) (u : list Z) (node select : Z).

#[local] Abbreviation lo := (jcE.[select]).
#[local] Abbreviation hi := (jcE.[select + 1]).
#[local] Abbreviation sel := (selected irE jcE select).
#[local] Abbreviation X := (individuals_in Nc u node sel).
#[local] Abbreviation ind0 := (replicate (Z.to_nat Nc) 0).

Hypothesis Hrows : ∀ c, c ∈ sel → 0 ≤ c < Nc.
Hypothesis Hu : ∀ c, c ∈ sel → 0 ≤ u.[node * Nc + c].
Hypothesis HX : X ≤ INT_MAX.




End SamplerNoDraw.


(** ** The solution in the sparse matrix U *)

Section SparseStore.
Context {D R : Type} {FD : Float64 D} {GR : Gsl R D} {EC : SimInf_h}.
Variable c : SimInf_thread_args (D := D).

#[local] Abbreviation state := (thread_state (D := D) (R := R)).

Lemma sparse_column (uu pr : list Z) (it : Z) :
  0 ≤ (jcU c).[it] → (jcU c).[it + 1] ≤ len pr →
  let pr' :=
    for_range (jcU c).[it] (jcU c).[it + 1]
      (λ j pr, Next (wr pr j uu.[Ni c * Nc c + (irU c).[j]])) pr in
  len pr' = len pr ∧
  (∀ j, (jcU c).[it] ≤ j < (jcU c).[it + 1] →
     pr'.[j] = uu.[Ni c * Nc c + (irU c).[j]]) ∧
  (∀ j, ¬ (jcU c).[it] ≤ j < (jcU c).[it + 1] → pr'.[j] = pr.[j]).
Proof.
  intros Hlo Hhi.
  apply (for_range_inv
    (λ i (p : list Z),
       len p = len pr ∧
       (∀ j, (jcU c).[it] ≤ j < i →
          p.[j] = uu.[Ni c * Nc c + (irU c).[j]]) ∧
       (∀ j, ¬ (jcU c).[it] ≤ j < (jcU c).[it + 1] → p.[j] = pr.[j]))).
  - split; [done|]. split; [|done]. intros j Hj. lia.
  - intros i p Hi (Hl & Hc & Hf). cbv beta.
    split; [by rewrite len_wr|]. split.
    + intros j Hj. destruct (decide (j = i)) as [->|Hne].
      * rewrite rd_wr_eq by lia. done.
      * rewrite rd_wr_ne by lia. apply Hc. lia.
    + intros j Hj. rewrite rd_wr_ne by lia. by apply Hf.
  - intros p (Hl & Hc & Hf). split; [done|]. split; [|done].
    intros j Hj. apply Hc. lia.
Qed.

Lemma store_U_sparse_spec cnt : ∀ (sa : state) sh,
  U_dense c = false →
  0 ≤ U_it sa → Z.of_nat cnt = Z.max 0 (tlen c - U_it sa) →
  0 ≤ (jcU c).[U_it sa] →
  (∀ it, U_it sa ≤ it < tlen c → (jcU c).[it] ≤ (jcU c).[it + 1]) →
  (jcU c).[tlen c] ≤ len (prU sh) →
  let st := store_U_sparse c cnt sa sh in
  U_it sa ≤ U_it st.1 ∧
  (U_it sa < U_it st.1 → U_it st.1 ≤ tlen c) ∧
  len (prU st.2) = len (prU sh) ∧
  uu st.2 = uu sh ∧ tt st.1 = tt sa ∧ V_it st.1 = V_it sa ∧
  v_new st.1 = v_new sa ∧ prV st.2 = prV sh ∧
  (∀ it, U_it sa ≤ it < U_it st.1 →
     Dlt (rd D0 (tspan c) it) (tt sa) = true ∧
     ∀ j, (jcU c).[it] ≤ j < (jcU c).[it + 1] →
       (prU st.2).[j] = (uu sh).[Ni c * Nc c + (irU c).[j]]) ∧
  (U_it st.1 < tlen c → Dlt (rd D0 (tspan c) (U_it st.1)) (tt sa) = false) ∧
  (∀ j, ¬ (jcU c).[U_it sa] ≤ j < (jcU c).[U_it st.1] →
        (prU st.2).[j] = (prU sh).[j]).
Proof.
  induction cnt as [|cnt IH]; intros sa sh HU Hit Hcnt Hj0 Hmono Hlen.
  - cbn [store_U_sparse fst snd]. split; [lia|]. split; [lia|].
    do 6 (split; [done|]). split; [intros it Hi; lia|]. split; [lia|done].
  - cbn [store_U_sparse]. rewrite HU. cbn [negb].
    rewrite bool_decide_eq_true_2 by lia. rewrite andb_true_l.
    destruct (Dlt (rd D0 (tspan c) (U_it sa)) (tt sa)) eqn:E.
    2:{ cbn [fst snd]. split; [lia|]. split; [lia|].
        do 6 (split; [done|]). split; [intros it Hi; lia|]. split; done. }
    assert (U_it sa < tlen c) as Hlt by lia.
    assert (∀ a b, U_it sa ≤ a → a ≤ b → b ≤ tlen c →
              (jcU c).[a] ≤ (jcU c).[b]) as Hmono'.
    { intros a b Ha Hab Hb.
      replace b with (a + Z.of_nat (Z.to_nat (b - a))) by lia.
      induction (Z.to_nat (b - a)) as [|m IHm] eqn:Em in b, Hab, Hb |- *.
      - replace (a + Z.of_nat 0) with a by lia. lia.
      - etrans; [apply (IHm (a + Z.of_nat m)); lia|].
        replace (a + Z.of_nat (S m)) with (a + Z.of_nat m + 1) by lia.
        apply Hmono. lia. }
    pose proof (sparse_column (uu sh) (prU sh) (U_it sa) Hj0) as Hcol.
    cbv zeta in Hcol. destruct Hcol as (Hcl & Hcc & Hcf).
    { etrans; [|exact Hlen]. apply Hmono'; lia. }
    set (pr1 := for_range _ _ _ (prU sh)) in *.
    set (sa1 := set_U_it (U_it sa + 1) sa).
    set (sh1 := set_prU pr1 sh).
    pose proof (IH sa1 sh1 HU) as IH'. cbv zeta in IH'.
    destruct IH' as (H1 & H2 & H3 & H4 & H5 & H6 & H7 & H8 & H9 & H10 & H11).
    { unfold sa1; simpl; lia. } { unfold sa1; simpl; lia. }
    { unfold sa1. cbn [U_it set_U_it].
      etrans; [exact Hj0|]. apply Hmono. lia. }
    { intros it Hi. apply Hmono. unfold sa1 in Hi. simpl in Hi. lia. }
    { unfold sh1. cbn [prU set_prU]. by rewrite Hcl. }
    subst sa1 sh1.
    cbn [U_it set_U_it prU set_prU uu tt V_it v_new prV]
      in H1, H2, H3, H4, H5, H6, H7, H8, H9, H10, H11.
    split; [lia|]. split; [lia|]. split; [congruence|].
    do 5 (split; [done|]). split; [|split; [done|]].
    + intros it Hi. destruct (decide (it = U_it sa)) as [->|Hne].
      * split; [done|]. intros j Hj. rewrite H11; [by apply Hcc|]. lia.
      * apply H9. lia.
    + set (it' := U_it (store_U_sparse c cnt (set_U_it (U_it sa + 1) sa)
                         (set_prU pr1 sh)).1) in *.
      assert (it' ≤ tlen c) as Hit' by lia.
      pose proof (Hmono' (U_it sa + 1) it' ltac:(lia) H1 Hit') as Hm1.
      pose proof (Hmono (U_it sa) ltac:(lia)) as Hm0.
      intros j Hj. rewrite H11 by lia. apply Hcf. lia.
Qed.


Lemma store_V_sparse_prU cnt : ∀ (sa : state) sh,
  let st := store_V_sparse c cnt sa sh in
  U_it st.1 = U_it sa ∧ prU st.2 = prU sh ∧ uu st.2 = uu sh ∧
  tt st.1 = tt sa.
Proof.
  induction cnt as [|cnt IH]; intros sa sh; [done|]. cbn [store_V_sparse].
  destruct (_ && _); [|done].
  match goal with
  | |- context [store_V_sparse c cnt ?a ?b] =>
      pose proof (IH a b) as H
  end.
  cbv zeta in H |- *. destruct H as (-> & -> & -> & ->). done.
Qed.

(** X17. [SimInf_store_solution_sparse] fills the sparse matrix U for
    the points of [tspan] that the time [tt] has passed, and for no
    other: for each column from the old to the new [U_it], every entry
    [prU[j]] of the column holds the state of the compartment
    [irU[j]]; the loop stops at the first point of [tspan] that [tt]
    has not passed, and the entries of the other columns are not
    touched.  The column pointers [jcU] do not decrease and the array
    [prU] holds all entries. *)
Theorem sparse_store_columns (sa : state) (sh : shared) :
  let st := SimInf_store_solution_sparse c sa sh in
  U_dense c = false →
  0 ≤ U_it sa →
  0 ≤ (jcU c).[U_it sa] →
  (∀ it, U_it sa ≤ it < tlen c → (jcU c).[it] ≤ (jcU c).[it + 1]) →
  (jcU c).[tlen c] ≤ len (prU sh) →
  U_it sa ≤ U_it st.1 ∧
  (U_it sa < U_it st.1 → U_it st.1 ≤ tlen c) ∧
  uu st.2 = uu sh ∧
  (∀ it, U_it sa ≤ it < U_it st.1 →
     Dlt (rd D0 (tspan c) it) (tt sa) = true ∧
     ∀ j, (jcU c).[it] ≤ j < (jcU c).[it + 1] →
       (prU st.2).[j] = (uu sh).[Ni c * Nc c + (irU c).[j]]) ∧
  (U_it st.1 < tlen c → Dlt (rd D0 (tspan c) (U_it st.1)) (tt sa) = false) ∧
  (∀ j, ¬ (jcU c).[U_it sa] ≤ j < (jcU c).[U_it st.1] →
        (prU st.2).[j] = (prU sh).[j]).
Proof.
  intros st HU Hit Hj0 Hmono Hlen. unfold st, SimInf_store_solution_sparse.
  pose proof (store_U_sparse_spec (Z.to_nat (tlen c - U_it sa)) sa sh HU Hit
    ltac:(lia) Hj0 Hmono Hlen) as H. cbv zeta in H.
  destruct H as (H1 & H2 & H3 & H4 & H5 & H6 & H7 & H8 & H9 & H10 & H11).
  destruct (store_U_sparse c _ sa sh) as [sa1 sh1].
  cbn [fst snd] in H1, H2, H3, H4, H5, H6, H7, H8, H9, H10, H11.
  pose proof (store_V_sparse_prU (Z.to_nat (tlen c - V_it sa1)) sa1 sh1)
    as H. cbv zeta in H. destruct H as (Hu & Hp & Huu & Htt).
  rewrite Hu, Hp, Huu. done.
Qed.

End SparseStore.

(** The end of day 1 of a model with one node and two compartments, of
    which the sparse matrix U records the second at the points of time
    1 and 2. *)
Lemma sparse_store_columns_witness :
  let c :=
    {| Ntot := 1; Ni := 0; Nn := 1; Nt := 0; Nc := 2; Nd := 0; Nld := 0;
       irG := []; jcG := [0]; irS := []; jcS := [0]; prS := [];
       irE := []; jcE := [0]; N := [];
       tr_fun := []; pts_fun := λ v_new _ _ _ _ _ _, (0, v_new);
       tspan := [0; 1; 2]%Q; tlen := 3;
       ldata := []; gdata := []; E1 := []; E2 := [];
       U_dense := false; V_dense := false;
       irU := [1; 1]; jcU := [0; 0; 1; 2]; irV := []; jcV := [0; 0; 0; 0] |} in
  let sa := set_clock 2%Q 3%Q (state_of [] 1 1 0 2) in
  let sh := set_prU [0; 0] (shared_of [4; 7] 1 3) in
  let st := SimInf_store_solution_sparse c sa sh in
  prU st.2 = [7; 0] ∧ U_it st.1 = 2 ∧
  U_it sa ≤ U_it st.1 ∧
  (U_it sa < U_it st.1 → U_it st.1 ≤ tlen c) ∧
  uu st.2 = uu sh ∧
  (∀ it, U_it sa ≤ it < U_it st.1 →
     Dlt (rd D0 (tspan c) it) (tt sa) = true ∧
     ∀ j, (jcU c).[it] ≤ j < (jcU c).[it + 1] →
       (prU st.2).[j] = (uu sh).[Ni c * Nc c + (irU c).[j]]) ∧
  (U_it st.1 < tlen c → Dlt (rd D0 (tspan c) (U_it st.1)) (tt sa) = false) ∧
  (∀ j, ¬ (jcU c).[U_it sa] ≤ j < (jcU c).[U_it st.1] →
        (prU st.2).[j] = (prU sh).[j]).
Proof.
  intros c sa sh st. split; [reflexivity|]. split; [reflexivity|].
  apply (sparse_store_columns c sa sh).
  - reflexivity.
  - vm_compute. discriminate.
  - vm_compute. discriminate.
  - intros it Hit. change (1 ≤ it < 3) in Hit.
    assert (it = 1 ∨ it = 2) as [-> | ->] by lia; vm_compute; discriminate.
  - vm_compute. discriminate.
Defined.

(** ** The threads of the first loop of a day *)

(** Two loops that run side by side. *)
Lemma for_loop_rel {S1 S2} (Rel : S1 → S2 → Prop) b1 b2 cnt lo s1 s2 :
  Rel s1 s2 →
  (∀ i s1 s2, lo ≤ i < lo + Z.of_nat cnt → Rel s1 s2 →
     match b1 i s1, b2 i s2 with
     | Next a, Next b => Rel a b
     | Break a, Break b => Rel a b
     | _, _ => False
     end) →
  Rel (for_loop cnt lo b1 s1) (for_loop cnt lo b2 s2).
Proof.
  revert lo s1 s2. induction cnt as [|k IH]; intros lo s1 s2 H0 Hstep; simpl.
  - done.
  - pose proof (Hstep lo s1 s2 ltac:(lia) H0) as Hb.
    destruct (b1 lo s1) as [a|a], (b2 lo s2) as [b|b]; try done.
    apply IH; [done|]. intros i x y Hi. apply Hstep. lia.
Qed.

Lemma for_range_rel {S1 S2} (Rel : S1 → S2 → Prop) b1 b2 lo hi s1 s2 :
  Rel s1 s2 →
  (∀ i s1 s2, lo ≤ i < hi → Rel s1 s2 →
     match b1 i s1, b2 i s2 with
     | Next a, Next b => Rel a b
     | Break a, Break b => Rel a b
     | _, _ => False
     end) →
  Rel (for_range lo hi b1 s1) (for_range lo hi b2 s2).
Proof.
  intros H0 Hstep. unfold for_range. apply for_loop_rel; [done|].
  intros i x y Hi. apply Hstep. lia.
Qed.

Lemma for_range_ext {St} (b1 b2 : Z → St → ctl St) lo hi s :
  (∀ i s, lo ≤ i < hi → b1 i s = b2 i s) →
  for_range lo hi b1 s = for_range lo hi b2 s.
Proof.
  intros H. apply (for_range_rel eq); [done|].
  intros i x y Hi <-. rewrite (H i x Hi). by destruct (b2 i x).
Qed.

Lemma list_eq_rd {A} (d : A) (a b : list A) :
  len a = len b → (∀ k, rd d a k = rd d b k) → a = b.
Proof.
  unfold len. intros Hl H. apply list_eq. intros i.
  pose proof (H (Z.of_nat i)) as Hi. unfold rd in Hi.
  rewrite !decide_True, !Nat2Z.id in Hi by lia.
  destruct (a !! i) as [x|] eqn:Ea, (b !! i) as [y|] eqn:Eb; simpl in Hi.
  - by rewrite Hi.
  - apply lookup_lt_Some in Ea. apply lookup_ge_None in Eb. lia.
  - apply lookup_ge_None in Ea. apply lookup_lt_Some in Eb. lia.
  - done.
Qed.

Lemma tied_refl (P : Z → Prop) a : tied P a a a.
Proof. by repeat split. Qed.

Lemma tied_rd (P : Z → Prop) a0 a b k : tied P a0 a b → P k → a.[k] = b.[k].
Proof. intros [[_ H] _]. apply H. Qed.

Lemma tied_wr (P : Z → Prop) a0 a b k x :
  tied P a0 a b → P k → tied P a0 (wr a k x) (wr b k x).
Proof.
  intros [[Hl Ha] [Hl0 Hf]] Hk. split; split.
  - by rewrite !len_wr.
  - intros j Hj. rewrite !rd_wr, Hl, (Ha j Hj).
    by destruct (decide (k = j ∧ 0 ≤ k < len b)).
  - by rewrite len_wr.
  - intros j Hj. rewrite rd_wr_ne; [by apply Hf|]. by intros ->.
Qed.

Section Locality.
Context {D R : Type} {FD : Float64 D} {GR : Gsl R D} {EC : SimInf_h}.
Variable c : SimInf_thread_args (D := D).
Hypothesis Hloc : local_model c.

#[local] Abbreviation state := (thread_state (D := D) (R := R)).
#[local] Abbreviation own := (own_cell c).

Lemma own_cell_local node r :
  0 ≤ node < Nn c → 0 ≤ r < Nc c → own (Ni c * Nc c + node * Nc c + r).
Proof. unfold own_cell. nia. Qed.

Lemma own_cell_event node r :
  own_node c node → 0 ≤ r < Nc c → own (node * Nc c + r).
Proof. unfold own_cell, own_node. nia. Qed.

Lemma update_state_tied (a0 a b : list Z) node tr err :
  0 ≤ node < Nn c → tied own a0 a b →
  (update_state c node tr a err).2 = (update_state c node tr b err).2 ∧
  tied own a0 (update_state c node tr a err).1 (update_state c node tr b err).1.
Proof.
  intros Hnode Ht. unfold update_state.
  apply (for_range_rel (λ s1 s2 : list Z * Z,
           s1.2 = s2.2 ∧ tied own a0 s1.1 s2.1)); [done|].
  intros j [u1 e1] [u2 e2] Hj [He Hu]. cbn [fst snd] in *. subst e2.
  destruct Hloc as (_ & _ & HS & _).
  set (k := Ni c * Nc c + node * Nc c + (irS c).[j]).
  assert (own k) as Hk by (apply own_cell_local; [done|apply HS]).
  rewrite <- (tied_rd _ _ _ _ k Hu Hk).
  pose proof (tied_wr _ _ _ _ k (iadd u1.[k] (prS c).[j]) Hu Hk) as Hw.
  rewrite <- (tied_rd _ _ _ _ k Hw Hk). done.
Qed.

Lemma call_tr_fun_tied (a0 a b : list Z) j node vv t :
  0 ≤ node < Nn c → tied own a0 a b →
  call_tr_fun c j node a vv t = call_tr_fun c j node b vv t.
Proof.
  intros Hnode Ht. unfold call_tr_fun.
  rewrite (slice_ext 0 a b); [done|].
  intros k Hk.
  apply (tied_rd _ _ _ _ _ Ht). by apply own_cell_local.
Qed.

Lemma update_rates_tied (a0 a b : list Z) node tr vv t t_rate err :
  0 ≤ node < Nn c → tied own a0 a b →
  update_rates c node tr a vv t t_rate err =
  update_rates c node tr b vv t t_rate err.
Proof.
  intros Hnode Ht. unfold update_rates. apply for_range_ext.
  intros j [[r d] e] Hj. by rewrite (call_tr_fun_tied a0 a b).
Qed.

Lemma ssa_step_tied (a0 a b : list Z) node (sa : state) :
  0 ≤ node < Nn c → tied own a0 a b →
  match ssa_step c node sa a, ssa_step c node sa b with
  | Next s1, Next s2 =>
      s1.1 = s2.1 ∧ tied own a0 s1.2 s2.2 ∧ E1_index s1.1 = E1_index sa
  | Break s1, Break s2 =>
      s1.1 = s2.1 ∧ tied own a0 s1.2 s2.2 ∧ E1_index s1.1 = E1_index sa
  | _, _ => False
  end.
Proof.
  intros Hnode Ht. unfold ssa_step.
  destruct (Dle _ _); [done|].
  destruct (gsl_rng_uniform_pos (rng sa)) as [x r1]. cbn [next_day set_rng
    sum_t_rate t_time rng].
  destruct (Dle _ _); [done|].
  cbn [next_day set_rng set_t_time sum_t_rate t_time t_rate rng errcode v].
  destruct (gsl_rng_uniform_pos r1) as [y r2].
  destruct (select_transition _ _ _ _) as [tr|]; [|done].
  destruct (update_state_tied a0 a b node tr (errcode sa) Hnode Ht)
    as [He Hu].
  destruct (update_state c node tr a (errcode sa)) as [u1 e1].
  destruct (update_state c node tr b (errcode sa)) as [u2 e2].
  cbn [fst snd] in He, Hu. subst e2.
  rewrite (update_rates_tied a0 u1 u2) by done.
  destruct (update_rates _ _ _ _ _ _ _ _) as [[rates delta] err].
  done.
Qed.

Lemma ssa_node_tied (a0 : list Z) fuel node : ∀ (sa : state) a b,
  0 ≤ node < Nn c → tied own a0 a b →
  match ssa_node c fuel node sa a, ssa_node c fuel node sa b with
  | Some s1, Some s2 =>
      s1.1 = s2.1 ∧ tied own a0 s1.2 s2.2 ∧ E1_index s1.1 = E1_index sa
  | None, None => True
  | _, _ => False
  end.
Proof.
  induction fuel as [|k IH]; intros sa a b Hnode Ht; [done|]. simpl.
  pose proof (ssa_step_tied a0 a b node sa Hnode Ht) as Hs.
  destruct (ssa_step c node sa a) as [[s1 u1]|[s1 u1]],
           (ssa_step c node sa b) as [[s2 u2]|[s2 u2]]; try done.
  cbn [fst snd] in Hs. destruct Hs as (<- & Hu & Hi).
  pose proof (IH s1 u1 u2 Hnode Hu) as H.
  destruct (ssa_node c k node s1 u1), (ssa_node c k node s1 u2); try done.
  destruct H as (? & ? & ?). split; [done|]. split; [done|]. congruence.
Qed.

Lemma ssa_nodes_tied (a0 : list Z) fuel cnt : ∀ node (sa : state) a b,
  0 ≤ node → node + Z.of_nat cnt ≤ Nn c → tied own a0 a b →
  match ssa_nodes c fuel cnt node sa a, ssa_nodes c fuel cnt node sa b with
  | Some s1, Some s2 =>
      s1.1 = s2.1 ∧ tied own a0 s1.2 s2.2 ∧ E1_index s1.1 = E1_index sa
  | None, None => True
  | _, _ => False
  end.
Proof.
  induction cnt as [|k IH]; intros node sa a b H0 Hn Ht; [done|]. simpl.
  case_decide as He; [|done].
  pose proof (ssa_node_tied a0 fuel node sa a b ltac:(lia) Ht) as Hs.
  destruct (ssa_node c fuel node sa a) as [[s1 u1]|],
           (ssa_node c fuel node sa b) as [[s2 u2]|]; try done.
  cbn [fst snd] in Hs. destruct Hs as (<- & Hu & Hi).
  pose proof (IH (node + 1) s1 u1 u2 ltac:(lia) ltac:(lia) Hu) as H.
  destruct (ssa_nodes c fuel k (node + 1) s1 u1),
           (ssa_nodes c fuel k (node + 1) s1 u2); try done.
  destruct H as (? & ? & ?). split; [done|]. split; [done|]. congruence.
Qed.

Lemma sample_select_ext irE jcE Nc' (u u2 : list Z) node select n (p : D)
    (rng : R) :
  (∀ r, 0 ≤ r < Nc' → u.[node * Nc' + r] = u2.[node * Nc' + r]) →
  (∀ i, 0 ≤ irE.[i] < Nc') →
  SimInf_sample_select irE jcE Nc' u node select n p rng =
  SimInf_sample_select irE jcE Nc' u2 node select n p rng.
Proof.
  intros Hu Hr.
  assert (∀ i, u.[node * Nc' + irE.[i]] = u2.[node * Nc' + irE.[i]]) as Hc
    by (intros i; apply Hu, Hr).
  unfold SimInf_sample_select.
  assert (count_select irE jcE Nc' u node select =
          count_select irE jcE Nc' u2 node select) as ->.
  { unfold count_select. apply for_range_ext. intros i [x y] _.
    by rewrite Hc. }
  rewrite (slice_ext 0 u u2 (node * Nc') Nc') by (intros k Hk; by apply Hu).
  rewrite !Hc.
  destruct (count_select irE jcE Nc' u2 node select) as [Nk Nind].
  repeat case_decide; try done.
  - f_equal. f_equal. apply for_range_ext. intros i ind _. by rewrite Hc.
  - f_equal. f_equal. apply for_range_ext. intros i ind _. by rewrite Hc.
Qed.

Lemma rd_elem_of {A} (d : A) (l : list A) i : 0 ≤ i < len l → rd d l i ∈ l.
Proof.
  unfold rd, len. intros Hi. rewrite decide_True by lia.
  destruct (lookup_lt_is_Some_2 l (Z.to_nat i) ltac:(lia)) as [x Hx].
  rewrite Hx. simpl. by eapply list_elem_of_lookup_2.
Qed.

Lemma enter_event_tied (a0 a b : list Z) (e : event D) err :
  own_node c (ev_node e) → tied own a0 a b →
  (enter_event c e a err).2 = (enter_event c e b err).2 ∧
  tied own a0 (enter_event c e a err).1 (enter_event c e b err).1.
Proof.
  intros Hn Ht. unfold enter_event. case_decide; [|done].
  destruct Hloc as (_ & _ & _ & HE & _).
  set (k := ev_node e * Nc c + (irE c).[(jcE c).[ev_select e]]).
  assert (own k) as Hk by (apply own_cell_event; [done|apply HE]).
  cbn [fst snd]. rewrite <- (tied_rd _ _ _ _ k Ht Hk).
  pose proof (tied_wr _ _ _ _ k (iadd a.[k] (ev_n e)) Ht Hk) as Hw.
  rewrite <- (tied_rd _ _ _ _ k Hw Hk). done.
Qed.

Lemma exit_event_tied (a0 a b : list Z) (e : event D) ind err :
  own_node c (ev_node e) → tied own a0 a b →
  (exit_event c e ind a err).2 = (exit_event c e ind b err).2 ∧
  tied own a0 (exit_event c e ind a err).1 (exit_event c e ind b err).1.
Proof.
  intros Hn Ht. unfold exit_event.
  apply (for_range_rel (λ s1 s2 : list Z * Z,
           s1.2 = s2.2 ∧ tied own a0 s1.1 s2.1)); [done|].
  intros ii [u1 e1] [u2 e2] Hii [He Hu]. cbn [fst snd] in *. subst e2.
  destruct Hloc as (_ & _ & _ & HE & _).
  set (k := ev_node e * Nc c + (irE c).[ii]).
  assert (own k) as Hk by (apply own_cell_event; [done|apply HE]).
  rewrite <- (tied_rd _ _ _ _ k Hu Hk).
  pose proof (tied_wr _ _ _ _ k (isub u1.[k] ind.[(irE c).[ii]]) Hu Hk) as Hw.
  rewrite <- (tied_rd _ _ _ _ k Hw Hk).
  by case_decide.
Qed.

Lemma internal_transfer_tied (a0 a b : list Z) (e : event D) ind err :
  own_node c (ev_node e) →
  (∀ jj, jj ∈ selected (irE c) (jcE c) (ev_select e) →
     0 ≤ jj + (N c).[ev_shift e * Nc c + jj] < Nc c) →
  tied own a0 a b →
  (internal_transfer_event c e ind a err).2 =
  (internal_transfer_event c e ind b err).2 ∧
  tied own a0 (internal_transfer_event c e ind a err).1
               (internal_transfer_event c e ind b err).1.
Proof.
  intros Hn Hsh Ht. unfold internal_transfer_event.
  apply (for_range_rel (λ s1 s2 : list Z * Z,
           s1.2 = s2.2 ∧ tied own a0 s1.1 s2.1)); [done|].
  intros ii [u1 e1] [u2 e2] Hii [He Hu]. cbn [fst snd] in *. subst e2.
  destruct Hloc as (_ & _ & _ & HE & _).
  set (jj := (irE c).[ii]).
  set (k := ev_node e * Nc c + jj).
  set (ll := (N c).[ev_shift e * Nc c + jj]).
  assert (own k) as Hk by (apply own_cell_event; [done|apply HE]).
  assert (own (k + ll)) as Hkl.
  { unfold k. rewrite <- Z.add_assoc. apply own_cell_event; [done|].
    apply Hsh. by apply seqZ_lookup_sel. }
  rewrite <- (tied_rd _ _ _ _ (k + ll) Hu Hkl).
  pose proof (tied_wr _ _ _ _ (k + ll) (iadd u1.[k + ll] ind.[jj]) Hu Hkl)
    as Hw.
  rewrite <- (tied_rd _ _ _ _ (k + ll) Hw Hkl).
  case_decide; [done|].
  rewrite <- (tied_rd _ _ _ _ k Hw Hk).
  pose proof (tied_wr _ _ _ _ k
    (isub (wr u1 (k + ll) (iadd u1.[k + ll] ind.[jj])).[k] ind.[jj]) Hw Hk)
    as Hw2.
  rewrite <- (tied_rd _ _ _ _ k Hw2 Hk).
  by case_decide.
Qed.

Lemma tied_shared_refl (sh : shared (D := D)) : tied_shared c sh sh sh.
Proof. by repeat split. Qed.

Lemma tied_shared_uu (sh0 sh sh2 : shared (D := D)) :
  tied_shared c sh0 sh sh2 → tied own (uu sh0) (uu sh) (uu sh2).
Proof. intros [[Ha _] [Hf _]]. by split. Qed.

Lemma tied_shared_set_uu (sh0 sh sh2 : shared (D := D)) u1 u2 :
  tied_shared c sh0 sh sh2 → tied own (uu sh0) u1 u2 →
  tied_shared c sh0 (set_uu u1 sh) (set_uu u2 sh2).
Proof.
  intros [[_ Hn] [_ Hf]] [Ha Hfu]. split; split; done.
Qed.

Lemma tied_shared_mark (sh0 sh sh2 : shared (D := D)) u1 u2 node :
  tied_shared c sh0 sh sh2 → tied own (uu sh0) u1 u2 → own_node c node →
  tied_shared c sh0
    (set_update_node (wr (update_node sh) node 1) (set_uu u1 sh))
    (set_update_node (wr (update_node sh2) node 1) (set_uu u2 sh2)).
Proof.
  intros [[_ Hn] [_ (Hfn & HU)]] [Ha Hfu] Hnode.
  destruct (tied_wr (own_node c) (update_node sh0) (update_node sh)
              (update_node sh2) node 1 (conj Hn Hfn) Hnode) as [Hn' Hfn'].
  split; split; done.
Qed.

Lemma E1_step_tied (sh0 : shared (D := D)) (sa : state) sh sh2 :
  0 ≤ E1_index sa < len (E1 c) → tied_shared c sh0 sh sh2 →
  match E1_step c sa sh, E1_step c sa sh2 with
  | Next s1, Next s2 =>
      s1.1 = s2.1 ∧ tied_shared c sh0 s1.2 s2.2 ∧
      E1_index s1.1 = E1_index sa + 1
  | Break s1, Break s2 => s1.1 = s2.1 ∧ tied_shared c sh0 s1.2 s2.2
  | _, _ => False
  end.
Proof.
  intros Hidx Ht. unfold E1_step.
  set (e := rd ev0 (E1 c) (E1_index sa)).
  assert (e ∈ E1 c) as Hin by (by apply rd_elem_of).
  pose proof Hloc as (_ & _ & _ & HE & Hev).
  destruct (Hev e Hin) as [Hnode Hshift].
  pose proof (tied_shared_uu _ _ _ Ht) as Hu.
  case_decide as Henter.
  - destruct (enter_event_tied (uu sh0) (uu sh) (uu sh2) e (errcode sa)
                Hnode Hu) as [He Hu'].
    destruct (enter_event c e (uu sh) (errcode sa)) as [u1 e1].
    destruct (enter_event c e (uu sh2) (errcode sa)) as [u2 e2].
    cbn [fst snd] in *. subst e2.
    split; [done|]. split; [by apply tied_shared_mark|done].
  - rewrite <- (sample_select_ext (irE c) (jcE c) (Nc c) (uu sh) (uu sh2));
      [|intros r Hr; apply (tied_rd _ _ _ _ _ Hu); by apply own_cell_event
       |done].
    destruct (SimInf_sample_select _ _ _ _ _ _ _ _ _) as [[err ind] rng'].
    case_decide as Herr; [done|].
    case_decide as Hexit.
    + destruct (exit_event_tied (uu sh0) (uu sh) (uu sh2) e ind err
                  Hnode Hu) as [He Hu'].
      destruct (exit_event c e ind (uu sh) err) as [u1 e1].
      destruct (exit_event c e ind (uu sh2) err) as [u2 e2].
      cbn [fst snd] in *. subst e2.
      split; [done|]. split; [by apply tied_shared_mark|done].
    + destruct (internal_transfer_tied (uu sh0) (uu sh) (uu sh2) e ind err
                  Hnode (Hshift Henter Hexit) Hu) as [He Hu'].
      destruct (internal_transfer_event c e ind (uu sh) err) as [u1 e1].
      destruct (internal_transfer_event c e ind (uu sh2) err) as [u2 e2].
      cbn [fst snd] in *. subst e2.
      split; [done|]. split; [by apply tied_shared_mark|done].
Qed.

Lemma E1_loop_tied (sh0 : shared (D := D)) cnt : ∀ (sa : state) sh sh2,
  0 ≤ E1_index sa → tied_shared c sh0 sh sh2 →
  (E1_loop c cnt sa sh).1 = (E1_loop c cnt sa sh2).1 ∧
  tied_shared c sh0 (E1_loop c cnt sa sh).2 (E1_loop c cnt sa sh2).2.
Proof.
  induction cnt as [|k IH]; intros sa sh sh2 Hidx Ht; [done|]. simpl.
  destruct (E1_cond c sa) eqn:Ec; [|done].
  assert (E1_index sa < len (E1 c)) as Hlt.
  { unfold E1_cond in Ec. apply andb_true_iff in Ec as [Ec _].
    apply andb_true_iff in Ec as [Ec _]. by apply bool_decide_eq_true in Ec. }
  pose proof (E1_step_tied sh0 sa sh sh2 ltac:(lia) Ht) as Hs.
  destruct (E1_step c sa sh) as [[s1 h1]|[s1 h1]],
           (E1_step c sa sh2) as [[s2 h2]|[s2 h2]]; try done.
  cbn [fst snd] in Hs. destruct Hs as (<- & Hh & Hi).
  apply IH; [lia|done].
Qed.

Lemma ssa_phase_tied fuel (sa : state) (sh0 sh sh2 : shared (D := D)) :
  0 ≤ E1_index sa → tied_shared c sh0 sh sh2 →
  match ssa_phase c fuel sa sh, ssa_phase c fuel sa sh2 with
  | Some s1, Some s2 => s1.1 = s2.1 ∧ tied_shared c sh0 s1.2 s2.2
  | None, None => True
  | _, _ => False
  end.
Proof.
  intros Hidx Ht. unfold ssa_phase.
  destruct Hloc as (_ & HNn & _).
  pose proof (ssa_nodes_tied (uu sh0) fuel (Z.to_nat (Nn c)) 0 sa
                (uu sh) (uu sh2) ltac:(lia) ltac:(lia)
                (tied_shared_uu _ _ _ Ht)) as Hs.
  destruct (ssa_nodes c fuel _ 0 sa (uu sh)) as [[s1 u1]|],
           (ssa_nodes c fuel _ 0 sa (uu sh2)) as [[s2 u2]|]; try done.
  cbn [fst snd] in Hs. destruct Hs as (<- & Hu & Hi).
  unfold SimInf_process_E1_events.
  apply E1_loop_tied; [lia|]. by apply tied_shared_set_uu.
Qed.

End Locality.

Section Threads.
Context {D R : Type} {FD : Float64 D} {GR : Gsl R D} {EC : SimInf_h}.

#[local] Abbreviation state := (thread_state (D := D) (R := R)).
#[local] Abbreviation threads := (list (thread (D := D) (R := R))).

Lemma shared_eq (sh sh' : shared (D := D)) :
  uu sh = uu sh' → update_node sh = update_node sh' → U sh = U sh' →
  V sh = V sh' → prU sh = prU sh' → prV sh = prV sh' → sh = sh'.
Proof. destruct sh, sh'. simpl. by intros -> -> -> -> -> ->. Qed.

Lemma disjoint_threads_sym (c1 c2 : SimInf_thread_args (D := D)) :
  disjoint_threads c1 c2 → disjoint_threads c2 c1.
Proof. unfold disjoint_threads. intros (HNt & HNc & HNd & H0 & Hd). lia. Qed.

Lemma disjoint_cells (c1 c2 : SimInf_thread_args (D := D)) k :
  disjoint_threads c1 c2 → own_cell c1 k → ¬ own_cell c2 k.
Proof.
  unfold disjoint_threads, own_cell. intros (_ & HNc & _ & H0 & Hd) H1 H2.
  rewrite <- HNc in H2. destruct Hd; nia.
Qed.

Lemma disjoint_nodes (c1 c2 : SimInf_thread_args (D := D)) i :
  disjoint_threads c1 c2 → own_node c1 i → ¬ own_node c2 i.
Proof.
  unfold disjoint_threads, own_node. intros (_ & _ & _ & _ & Hd) H1 H2. lia.
Qed.

(** What a thread has not written is what the other thread reads. *)
Lemma own_writes_agree (c1 c2 : SimInf_thread_args (D := D)) sh sh1 :
  disjoint_threads c1 c2 → own_writes c1 sh sh1 → agree_shared c2 sh sh1.
Proof.
  intros Hd ([Hl Hf] & [Hln Hfn] & _). split; split; [done| |done|].
  - intros k Hk. symmetry. apply Hf. intros H1.
    by apply (disjoint_cells c1 c2 k).
  - intros i Hi. symmetry. apply Hfn. intros H1.
    by apply (disjoint_nodes c1 c2 i).
Qed.

Lemma agree_shared_sym (c : SimInf_thread_args (D := D)) sh sh2 :
  agree_shared c sh sh2 → agree_shared c sh2 sh.
Proof.
  intros [[Hl H] [Hln Hn]]. split; split; [done| |done|].
  - intros k Hk. symmetry. by apply H.
  - intros k Hk. symmetry. by apply Hn.
Qed.

Lemma own_writes_refl (c : SimInf_thread_args (D := D)) sh :
  own_writes c sh sh.
Proof. by repeat split. Qed.

Lemma ssa_phase_other (c : SimInf_thread_args (D := D)) fuel (sa : state)
    sh sh2 sa' sh' :
  local_model c → 0 ≤ E1_index sa → agree_shared c sh sh2 →
  ssa_phase c fuel sa sh = Some (sa', sh') →
  ∃ sh2', ssa_phase c fuel sa sh2 = Some (sa', sh2') ∧
          agree_shared c sh' sh2' ∧ own_writes c sh sh' ∧
          own_writes c sh2 sh2'.
Proof.
  intros Hloc Hidx Ha H.
  pose proof (ssa_phase_tied c Hloc fuel sa sh sh sh2 Hidx
                (conj Ha (own_writes_refl c sh))) as H1.
  rewrite H in H1.
  destruct (ssa_phase c fuel sa sh2) as [[s2 h2]|] eqn:E2; [|done].
  cbn [fst snd] in H1. destruct H1 as (<- & Ha' & Hw).
  exists h2. split; [done|]. split; [done|]. split; [done|].
  pose proof (ssa_phase_tied c Hloc fuel sa sh2 sh2 sh2 Hidx
                (tied_shared_refl c sh2)) as H2.
  rewrite E2 in H2. cbn [fst snd] in H2. apply H2.
Qed.

(** Two threads with their own nodes can run in either order. *)
Lemma ssa_phase_commute (c1 c2 : SimInf_thread_args (D := D)) fuel
    (sa1 sa2 : state) sh sa1' sh1 sa2' sh12 :
  local_model c1 → local_model c2 → disjoint_threads c1 c2 →
  0 ≤ E1_index sa1 → 0 ≤ E1_index sa2 →
  ssa_phase c1 fuel sa1 sh = Some (sa1', sh1) →
  ssa_phase c2 fuel sa2 sh1 = Some (sa2', sh12) →
  ∃ sh2, ssa_phase c2 fuel sa2 sh = Some (sa2', sh2) ∧
         ssa_phase c1 fuel sa1 sh2 = Some (sa1', sh12).
Proof.
  intros Hl1 Hl2 Hd Hi1 Hi2 H1 H2.
  destruct (ssa_phase_other c1 fuel sa1 sh sh sa1' sh1 Hl1 Hi1)
    as (x & Hx & _ & Hw1 & _); [by repeat split|done|].
  clear x Hx.
  destruct (ssa_phase_other c2 fuel sa2 sh1 sh sa2' sh12 Hl2 Hi2)
    as (sh2 & E2 & Ha2 & Hw2 & Hw2'); [|done|].
  { apply agree_shared_sym. by apply (own_writes_agree c1 c2). }
  destruct (ssa_phase_other c1 fuel sa1 sh sh2 sa1' sh1 Hl1 Hi1)
    as (sh21 & E1 & Ha1 & _ & Hw1'); [|done|].
  { apply (own_writes_agree c2 c1); [by apply disjoint_threads_sym|done]. }
  exists sh2. split; [done|]. rewrite E1. f_equal. f_equal.
  destruct Hw1 as ([Hl1u Hf1u] & [Hl1n Hf1n] & HU1 & HV1 & HpU1 & HpV1).
  destruct Hw2 as ([Hl2u Hf2u] & [Hl2n Hf2n] & HU2 & HV2 & HpU2 & HpV2).
  destruct Hw2' as ([Hl3u Hf3u] & [Hl3n Hf3n] & HU3 & HV3 & HpU3 & HpV3).
  destruct Hw1' as ([Hl4u Hf4u] & [Hl4n Hf4n] & HU4 & HV4 & HpU4 & HpV4).
  destruct Ha1 as [[_ Ha1u] [_ Ha1n]]. destruct Ha2 as [[_ Ha2u] [_ Ha2n]].
  apply shared_eq; [| |congruence..].
  - apply (list_eq_rd 0); [congruence|]. intros k.
    assert (own_cell c1 k ∨ ¬ own_cell c1 k) as [Hk|Hk]
      by (unfold own_cell; lia).
    + rewrite <- (Ha1u k Hk). symmetry. apply Hf2u.
      by apply (disjoint_cells c1 c2).
    + rewrite (Hf4u k Hk).
      assert (own_cell c2 k ∨ ¬ own_cell c2 k) as [Hk2|Hk2]
        by (unfold own_cell; lia).
      * symmetry. by apply Ha2u.
      * rewrite (Hf3u k Hk2), (Hf2u k Hk2). symmetry. by apply Hf1u.
  - apply (list_eq_rd 0); [congruence|]. intros k.
    assert (own_node c1 k ∨ ¬ own_node c1 k) as [Hk|Hk]
      by (unfold own_node; lia).
    + rewrite <- (Ha1n k Hk). symmetry. apply Hf2n.
      by apply (disjoint_nodes c1 c2).
    + rewrite (Hf4n k Hk).
      assert (own_node c2 k ∨ ¬ own_node c2 k) as [Hk2|Hk2]
        by (unfold own_node; lia).
      * symmetry. by apply Ha2n.
      * rewrite (Hf3n k Hk2), (Hf2n k Hk2). symmetry. by apply Hf1n.
Qed.

Lemma pairwise_disjoint_perm (ts tsp : threads) :
  Permutation ts tsp → pairwise_disjoint ts → pairwise_disjoint tsp.
Proof.
  induction 1 as [|x l l' Hp IH|x y l|l l' l'' _ IH1 _ IH2]; simpl.
  - done.
  - intros [Hx Hl]. split; [by rewrite <- Hp|by apply IH].
  - intros [Hy [Hx Hl]].
    apply list.Forall_cons_1 in Hy as [Hyx Hy].
    split; [|done]. constructor; [|done]. by apply disjoint_threads_sym.
  - intros H. by apply IH2, IH1.
Qed.

Lemma omp_for_cons
    (f : SimInf_thread_args (D := D) → state → shared → option (state * shared))
    c sa (ts : threads) sh r sh' :
  omp_for f ((c, sa) :: ts) sh = Some (r, sh') →
  ∃ sa' sh1 ts', f c sa sh = Some (sa', sh1) ∧
                 omp_for f ts sh1 = Some (ts', sh') ∧ r = (c, sa') :: ts'.
Proof.
  simpl. destruct (f c sa sh) as [[sa' sh1]|] eqn:Ef; [|done].
  destruct (omp_for f ts sh1) as [[ts' sh2]|] eqn:Et; [|done].
  intros [= <- <-]. by exists sa', sh1, ts'.
Qed.

(** X18. In the first parallel loop of a day (the SSA of the nodes of
    the thread and its E1 events), a thread writes in the shared arrays
    only the cells of its own nodes: the other cells of [uu] and of
    [update_node] are as they were, and U, V and the sparse arrays are
    not written. *)
Theorem ssa_phase_own_cells (c : SimInf_thread_args (D := D)) fuel
    (sa : state) sh sa' sh' :
  local_model c → 0 ≤ E1_index sa →
  ssa_phase c fuel sa sh = Some (sa', sh') →
  own_writes c sh sh'.
Proof.
  intros Hloc Hidx H.
  pose proof (ssa_phase_tied c Hloc fuel sa sh sh sh Hidx
                (tied_shared_refl c sh)) as H1.
  rewrite H in H1. cbn [fst snd] in H1. apply H1.
Qed.

(** X19. In the first parallel loop of a day, what the thread does
    depends only on the cells of its own nodes: from shared arrays that
    have the same cells of these nodes, the thread ends in the same
    state (the same error code, generator, rates and times), with the
    same cells of its nodes, and it runs out of fuel in the one run when
    it does in the other. *)
Theorem ssa_phase_reads_own_cells (c : SimInf_thread_args (D := D)) fuel
    (sa : state) sh sh2 :
  local_model c → 0 ≤ E1_index sa → agree_shared c sh sh2 →
  fst <$> ssa_phase c fuel sa sh = fst <$> ssa_phase c fuel sa sh2 ∧
  ∀ sa' sh', ssa_phase c fuel sa sh = Some (sa', sh') →
    ∃ sh2', ssa_phase c fuel sa sh2 = Some (sa', sh2') ∧
            agree_shared c sh' sh2'.
Proof.
  intros Hloc Hidx Ha.
  pose proof (ssa_phase_tied c Hloc fuel sa sh sh sh2 Hidx
                (conj Ha (own_writes_refl c sh))) as H1.
  destruct (ssa_phase c fuel sa sh) as [[s1 h1]|],
           (ssa_phase c fuel sa sh2) as [[s2 h2]|]; try done.
  cbn [fst snd] in H1. destruct H1 as (<- & Ha' & _).
  split; [done|]. intros sa' sh' [= <- <-]. by exists h2.
Qed.

(** A loop over threads that can be exchanged two by two gives the
    same result in every order. *)
Lemma omp_for_any_order
    (f : SimInf_thread_args (D := D) → state → shared →
         option (state * shared))
    (ok : thread (D := D) (R := R) → Prop) :
  (∀ c1 sa1 c2 sa2 sh sa1' sh1 sa2' sh12,
     ok (c1, sa1) → ok (c2, sa2) → disjoint_threads c1 c2 →
     f c1 sa1 sh = Some (sa1', sh1) → f c2 sa2 sh1 = Some (sa2', sh12) →
     ∃ sh2, f c2 sa2 sh = Some (sa2', sh2) ∧
            f c1 sa1 sh2 = Some (sa1', sh12)) →
  ∀ ts tsp : threads,
    Permutation ts tsp → Forall ok ts → pairwise_disjoint ts →
    ∀ sh ts' sh',
      omp_for f ts sh = Some (ts', sh') →
      ∃ tsp', omp_for f tsp sh = Some (tsp', sh') ∧
              Permutation (zip ts ts') (zip tsp tsp').
Proof.
  intros Hcomm ts tsp.
  induction 1 as [|[c sa] l l' Hp IH|[c2 sa2] [c1 sa1] l|l l' l'' Hp1 IH1 Hp2 IH2];
    intros Hall Hdis sh ts' sh' H.
  - exists ts'. done.
  - apply omp_for_cons in H as (sa' & sh1 & l1 & Hf & Hl & ->).
    apply list.Forall_cons_1 in Hall as [_ Hall]. destruct Hdis as [_ Hdis].
    destruct (IH Hall Hdis sh1 l1 sh' Hl) as (l1' & Hl' & Hperm).
    exists ((c, sa') :: l1'). simpl. rewrite Hf, Hl'. split; [done|].
    by constructor.
  - apply omp_for_cons in H as (sa1' & sh1 & r & Hf1 & H & ->).
    apply omp_for_cons in H as (sa2' & sh12 & l1 & Hf2 & Hl & ->).
    apply list.Forall_cons_1 in Hall as [Hok1 Hall].
    apply list.Forall_cons_1 in Hall as [Hok2 Hall].
    destruct Hdis as [Hd _]. apply list.Forall_cons_1 in Hd as [Hd _].
    cbn [fst snd] in *.
    destruct (Hcomm c1 sa1 c2 sa2 sh sa1' sh1 sa2' sh12
                Hok1 Hok2 Hd Hf1 Hf2) as (sh2 & E2 & E1).
    exists ((c2, sa2') :: (c1, sa1') :: l1). simpl.
    rewrite E2, E1, Hl. split; [done|]. apply perm_swap.
  - destruct (IH1 Hall Hdis sh ts' sh' H) as (l1 & Hl1 & Hperm1).
    destruct (IH2 (Permutation_Forall Hp1 Hall)
                (pairwise_disjoint_perm _ _ Hp1 Hdis) sh l1 sh' Hl1)
      as (l2 & Hl2 & Hperm2).
    exists l2. split; [done|]. by etrans.
Qed.

(** X20. The result of the first parallel loop of a day does not depend
    on the order in which the threads run: when every thread has its own
    nodes, a run of the threads in another order ends with the same
    shared arrays and with every thread in the same state. *)
Theorem ssa_threads_any_order fuel (ts tsp : threads) :
  Permutation ts tsp →
  Forall local_thread ts → pairwise_disjoint ts →
  ∀ sh ts' sh',
    omp_for (λ c, ssa_phase c fuel) ts sh = Some (ts', sh') →
    ∃ tsp', omp_for (λ c, ssa_phase c fuel) tsp sh = Some (tsp', sh') ∧
            Permutation (zip ts ts') (zip tsp tsp').
Proof.
  apply (omp_for_any_order (λ c, ssa_phase c fuel) local_thread).
  intros c1 sa1 c2 sa2 sh sa1' sh1 sa2' sh12 [Hl1 Hi1] [Hl2 Hi2] Hd H1 H2.
  by apply (ssa_phase_commute c1 c2 fuel sa1 sa2 sh sa1' sh1 sa2' sh12).
Qed.

End Threads.

Lemma rd_Forall {A} (P : A → Prop) (d : A) (l : list A) i :
  Forall P l → P d → P (rd d l i).
Proof.
  intros Hl Hd. unfold rd. case_decide; [|done].
  destruct (l !! Z.to_nat i) as [x|] eqn:E; simpl; [|done].
  by apply (Forall_lookup_1 _ _ _ _ Hl E).
Qed.

(** The threads of a model of two nodes with two compartments, a node
    for each thread; the compartments exchange individuals, and an event
    removes three individuals from the first node. *)
Lemma local_model_example Ni' (es : list (event Q)) :
  Forall (λ e, ev_node e = Ni' ∧ ev_event e = EXIT_EVENT) es →
  local_model
    (args_of 2 Ni' 1 2 2 [0; 1; 0; 1] [0; 2; 4] [0; 1; 0; 1] [0; 2; 4]
       [-1; 1; 1; -1] [0; 1] [0; 2] [0; 0]
       [λ u _ _ _ _, inject_Z u.[0]; λ u _ _ _ _, inject_Z u.[1]]
       [0; 1]%Q es []).
Proof.
  intros Hes. split; [done|]. split; [done|]. split; [|split].
  - intros j. apply (rd_Forall (λ x, 0 ≤ x < 2)); [|done].
    repeat constructor; lia.
  - intros j. apply (rd_Forall (λ x, 0 ≤ x < 2)); [|done].
    repeat constructor; lia.
  - intros e He. change (e ∈ es) in He.
    destruct (proj1 (list.Forall_forall _ _) Hes e He) as [Hn Hx].
    split; [|done]. unfold own_node. cbn [Ni Nn args_of]. lia.
Qed.

Lemma ssa_phase_own_cells_witness :
  let c := args_of 2 1 1 2 2 [0; 1; 0; 1] [0; 2; 4] [0; 1; 0; 1] [0; 2; 4]
             [-1; 1; 1; -1] [0; 1] [0; 2] [0; 0]
             [λ u _ _ _ _, inject_Z u.[0]; λ u _ _ _ _, inject_Z u.[1]]
             [0; 1]%Q [] [] in
  let sh := shared_of [3; 1; 2; 2] 2 2 in
  let sa := init_rates c (state_of [3; 2]%positive 0 1 2 2) sh in
  ∃ sa' sh', ssa_phase c 20 sa sh = Some (sa', sh') ∧ own_writes c sh sh'.
Proof.
  intros c sh sa.
  destruct (ssa_phase c 20 sa sh) as [[sa' sh']|] eqn:E;
    [|vm_compute in E; discriminate].
  exists sa', sh'. split; [done|].
  apply (ssa_phase_own_cells c 20 sa sh sa' sh').
  - apply local_model_example. constructor.
  - vm_compute. discriminate.
  - exact E.
Defined.

Lemma ssa_phase_reads_own_cells_witness :
  let c := args_of 2 1 1 2 2 [0; 1; 0; 1] [0; 2; 4] [0; 1; 0; 1] [0; 2; 4]
             [-1; 1; 1; -1] [0; 1] [0; 2] [0; 0]
             [λ u _ _ _ _, inject_Z u.[0]; λ u _ _ _ _, inject_Z u.[1]]
             [0; 1]%Q [] [] in
  let sh := shared_of [3; 1; 2; 2] 2 2 in
  let sh2 := shared_of [9; 9; 2; 2] 2 2 in
  let sa := init_rates c (state_of [3; 2]%positive 0 1 2 2) sh in
  fst <$> ssa_phase c 20 sa sh = fst <$> ssa_phase c 20 sa sh2 ∧
  ∀ sa' sh', ssa_phase c 20 sa sh = Some (sa', sh') →
    ∃ sh2', ssa_phase c 20 sa sh2 = Some (sa', sh2') ∧
            agree_shared c sh' sh2'.
Proof.
  intros c sh sh2 sa.
  apply (ssa_phase_reads_own_cells c 20 sa sh sh2).
  - apply local_model_example. constructor.
  - vm_compute. discriminate.
  - split; split; [reflexivity| |reflexivity|done].
    intros k Hk. assert (k = 2 ∨ k = 3) as [-> | ->]
      by (unfold own_cell in Hk; cbn [Ni Nn Nc c args_of] in Hk; lia);
      reflexivity.
Defined.

Lemma ssa_threads_any_order_witness :
  let tr := [λ u _ _ _ _, inject_Z u.[0]; λ u _ _ _ _, inject_Z u.[1]] in
  let e := {| ev_event := EXIT_EVENT; ev_time := 0; ev_node := 0;
              ev_dest := -1; ev_n := 3; ev_proportion := 0%Q;
              ev_select := 0; ev_shift := -1 |} in
  let c1 := args_of 2 0 1 2 2 [0; 1; 0; 1] [0; 2; 4] [0; 1; 0; 1] [0; 2; 4]
              [-1; 1; 1; -1] [0; 1] [0; 2] [0; 0] tr [0; 1]%Q [e] [] in
  let c2 := args_of 2 1 1 2 2 [0; 1; 0; 1] [0; 2; 4] [0; 1; 0; 1] [0; 2; 4]
              [-1; 1; 1; -1] [0; 1] [0; 2] [0; 0] tr [0; 1]%Q [] [] in
  let sh := shared_of [3; 1; 2; 2] 2 2 in
  let t1 := (c1, init_rates c1 (state_of [3; 2]%positive 0 1 2 2) sh) in
  let t2 := (c2, init_rates c2 (state_of [5; 7]%positive 0 1 2 2) sh) in
  ∃ ts' tsp' sh',
    omp_for (λ c, ssa_phase c 20) [t1; t2] sh = Some (ts', sh') ∧
    omp_for (λ c, ssa_phase c 20) [t2; t1] sh = Some (tsp', sh') ∧
    Permutation (zip [t1; t2] ts') (zip [t2; t1] tsp').
Proof.
  intros tr e c1 c2 sh t1 t2.
  destruct (omp_for (λ c, ssa_phase c 20) [t1; t2] sh) as [[ts' sh']|] eqn:E;
    [|vm_compute in E; discriminate].
  assert (Forall local_thread [t1; t2]) as Hall.
  { constructor; [|constructor; [|constructor]].
    - split; [|vm_compute; discriminate].
      apply local_model_example. by repeat constructor.
    - split; [|vm_compute; discriminate].
      apply local_model_example. constructor. }
  assert (pairwise_disjoint [t1; t2]) as Hdis.
  { split; [|split; [constructor|done]].
    constructor; [|constructor].
    split; [reflexivity|]. split; [reflexivity|]. split; [reflexivity|].
    split; [vm_compute; discriminate|]. left. done. }
  destruct (ssa_threads_any_order 20 [t1; t2] [t2; t1] (perm_swap t2 t1 [])
              Hall Hdis sh ts' sh' E) as (tsp' & Hp & Hperm).
  exists ts', tsp', sh'. split; [reflexivity|]. split; [exact Hp|exact Hperm].
Defined.

(** ** The threads of a run *)

Section RunThreads.
Context {D R : Type} {FD : Float64 D} {GR : Gsl R D} {EC : SimInf_h}.

#[local] Abbreviation state := (thread_state (D := D) (R := R)).
#[local] Abbreviation threads := (list (thread (D := D) (R := R))).

Lemma init_rates_E1_index (c : SimInf_thread_args (D := D)) (sa : state) sh :
  E1_index (init_rates c sa sh) = E1_index sa.
Proof.
  unfold init_rates.
  apply (for_range_inv (λ (_ : Z) (s : state), E1_index s = E1_index sa)
    (λ s, E1_index s = E1_index sa)); [done| |done].
  intros node s _ Hs. cbv beta zeta. cbn [E1_index set_t_time].
  apply (for_range_inv (λ (_ : Z) (s' : state), E1_index s' = E1_index sa)
    (λ s', E1_index s' = E1_index sa)); [done| |done].
  intros j s' _ Hs'. done.
Qed.

Lemma init_rates_V_it (c : SimInf_thread_args (D := D)) (sa : state) sh :
  V_it (init_rates c sa sh) = V_it sa.
Proof.
  unfold init_rates.
  apply (for_range_inv (λ (_ : Z) (s : state), V_it s = V_it sa)
    (λ s, V_it s = V_it sa)); [done| |done].
  intros node s _ Hs. cbv beta zeta. cbn [V_it set_t_time].
  apply (for_range_inv (λ (_ : Z) (s' : state), V_it s' = V_it sa)
    (λ s', V_it s' = V_it sa)); [done| |done].
  intros j s' _ Hs'. done.
Qed.

Lemma pairwise_disjoint_seqZ (f : Z → thread (D := D) (R := R)) n :
  ∀ start,
    (∀ i j, start ≤ i → i < j → j < start + Z.of_nat n →
       disjoint_threads (f i).1 (f j).1) →
    pairwise_disjoint (f <$> seqZ start (Z.of_nat n)).
Proof.
  induction n as [|n IH]; intros start H; [done|].
  rewrite seqZ_cons by lia. rewrite fmap_cons.
  replace (Z.pred (Z.of_nat (S n))) with (Z.of_nat n) by lia.
  split.
  - apply list.Forall_forall. intros t Ht.
    apply list_elem_of_fmap in Ht as (j & -> & Hj).
    apply elem_of_seqZ in Hj. apply H; lia.
  - apply IH. intros i j Hi Hij Hj. apply H; lia.
Qed.

(** X21. The threads that [SimInf_run_solver_ssa] sets up share no
    node: when there are at least as many nodes as threads, every node
    of the model belongs to one of the threads, no node belongs to two
    of them, and the queue E1 of a thread holds events of its own nodes
    only, so that every thread can run the two loops over the threads
    of a day by itself.  The rows of S and of E name compartments, the
    events name nodes of the model, and the shift of an internal
    transfer leaves the individuals in their node. *)
Theorem solver_threads_isolated (a : SimInf_solver_args (D := D)) q1 q2
    (rngs : list R) (junk : list D) :
  0 < args_Nthread a → args_Nthread a ≤ args_Nn a → 0 ≤ args_Nc a →
  0 ≤ args_Nd a →
  (∀ j, 0 ≤ (args_irS a).[j] < args_Nc a) →
  (∀ i, 0 ≤ (args_irE a).[i] < args_Nc a) →
  (∀ e, e ∈ args_events a → is_E1 e → 1 ≤ ev_node e ≤ args_Nn a) →
  (∀ e, e ∈ args_events a → ev_event e = INTERNAL_TRANSFER_EVENT →
     ∀ jj, jj ∈ selected (args_irE a) (args_jcE a) (ev_select e - 1) →
       0 ≤ jj + (args_N a).[(ev_shift e - 1) * args_Nc a + jj] < args_Nc a) →
  SimInf_split_events (args_events a) (args_Nn a) (args_Nthread a) =
    Split_ok q1 q2 →
  let ts0 : threads :=
    (λ i, (thread_args a i (rd [] q1 i) (if decide (i = 0) then q2 else []),
           thread_init a i (rd (gsl_rng_set 0) rngs i) junk))
      <$> seqZ 0 (args_Nthread a) in
  let ts : threads :=
    (λ t : thread, (t.1, init_rates t.1 t.2 (shared_init a))) <$> ts0 in
  Forall local_thread ts ∧ Forall post_thread ts ∧ pairwise_disjoint ts ∧
  ∀ node, 0 ≤ node < args_Nn a → Exists (λ t : thread, own_node t.1 node) ts.
Proof.
  intros HT HN HNc HNd HS HE Hnodes Hshift Hsplit ts0 ts.
  pose proof (Z.quot_rem' (args_Nn a) (args_Nthread a)) as Hqr.
  assert (1 ≤ args_Nn a `quot` args_Nthread a) as Hc.
  { rewrite Z.quot_div_nonneg by lia. apply Z.div_le_lower_bound; lia. }
  assert (0 ≤ args_Nn a `rem` args_Nthread a) as Hr.
  { apply Z.rem_nonneg; lia. }
  pose proof (split_events_in_slices (args_Nn a) (args_Nthread a)
                (args_events a) HT HN Hnodes) as Hsl.
  rewrite Hsplit in Hsl. destruct Hsl as [Hlen Hsl].
  assert (∀ e, e ∈ args_events a → ¬ undefined_event e) as Hdef.
  { pose proof (split_fold_undefined (args_Nn a) (args_Nthread a)
                  (args_events a) HT HN
                  (replicate (Z.to_nat (args_Nthread a)) []) []) as H.
    unfold SimInf_split_events in Hsplit.
    rewrite decide_False in Hsplit by lia. by rewrite Hsplit in H. }
  destruct (split_events_inv (args_Nn a) (args_Nthread a) (args_events a)
              HT HN) as (q & E2' & Hs' & _ & _ & Hq); [|done|].
  { intros e He H1. by apply Hnodes. }
  rewrite Hsplit in Hs'. injection Hs' as <- <-.
  unfold ts, ts0. rewrite <- list_fmap_compose.
  split; [|split; [|split]].
  - apply list.Forall_forall. intros t Ht.
    apply list_elem_of_fmap in Ht as (k & -> & Hk).
    apply elem_of_seqZ in Hk.
    split; cbn [fst snd compose];
      [|rewrite init_rates_E1_index; cbn [E1_index thread_init]; lia].
    split; [done|]. split.
    { cbn [Nn thread_args]. unfold thread_Nn. case_decide; lia. }
    split; [done|]. split; [done|].
    intros e' He'. cbn [E1 thread_args] in He'.
    split; [by apply (Hsl k)|].
    intros Hne Hnx jj Hjj. cbn [irE jcE N Nc thread_args] in *.
    rewrite (Hq k ltac:(lia)) in He'. unfold E1_of in He'.
    apply list_elem_of_fmap in He' as (e & -> & He).
    apply list_elem_of_filter in He as [[H1 _] He].
    cbn [zero_based ev_event ev_select ev_shift] in *.
    apply (Hshift e He); [|done].
    destruct H1 as [H1|[H1|H1]]; done.
  - apply list.Forall_forall. intros t Ht.
    apply list_elem_of_fmap in Ht as (k & -> & Hk).
    apply elem_of_seqZ in Hk. unfold post_thread. cbn [fst snd compose].
    rewrite init_rates_U_it, init_rates_V_it.
    cbn [U_it V_it thread_init Nc Nd Ni Nn Ntot thread_args].
    unfold thread_Ni, thread_Nn.
    split; [done|]. split; [done|]. split; [nia|]. split; [case_decide; lia|].
    split; [case_decide; nia|lia].
  - replace (args_Nthread a) with (Z.of_nat (Z.to_nat (args_Nthread a)))
      at 1 by lia.
    apply pairwise_disjoint_seqZ. intros i j Hi Hij Hj.
    cbn [fst compose]. do 3 (split; [done|]). split; [done|]. left.
    cbn [Ni Nn thread_args]. unfold thread_Ni, thread_Nn.
    rewrite decide_False by lia. nia.
  - intros node Hnode.
    destruct (slice_of_thread (args_Nn a) (args_Nthread a) node HT HN Hnode)
      as [Hk Hin]. cbv zeta in Hk, Hin.
    set (k := Z.min (node `div` (args_Nn a `div` args_Nthread a))
                (args_Nthread a - 1)) in *.
    apply list.Exists_exists.
    eexists. split.
    + apply list_elem_of_fmap. exists k. split; [done|].
      apply elem_of_seqZ. lia.
    + cbn [fst compose]. by apply (Hin k Hk).
Qed.

End RunThreads.

(** A model of four nodes on two threads, with an exit from the second
    node and an internal transfer in the fourth. *)
Lemma solver_threads_isolated_witness :
  let e1 := {| ev_event := EXIT_EVENT; ev_time := 0; ev_node := 2;
               ev_dest := 0; ev_n := 1; ev_proportion := 0%Q;
               ev_select := 1; ev_shift := 0 |} in
  let e2 := {| ev_event := INTERNAL_TRANSFER_EVENT; ev_time := 0;
               ev_node := 4; ev_dest := 0; ev_n := 1; ev_proportion := 0%Q;
               ev_select := 1; ev_shift := 1 |} in
  let a := model_of 4 2 2 2 [3; 1; 2; 2; 1; 1; 4; 0] [0; 1]%Q
             [0; 1; 0; 1] [0; 2; 4] [0; 1; 0; 1] [0; 2; 4] [-1; 1; 1; -1]
             [0; 1] [0; 1; 2] [1; 0]
             [λ u _ _ _ _, inject_Z u.[0]; λ u _ _ _ _, inject_Z u.[1]]
             [e1; e2] in
  let q1 := [[zero_based e1]; [zero_based e2]] in
  let ts0 :=
    (λ i, (thread_args a i (rd [] q1 i) (if decide (i = 0) then [] else []),
           thread_init a i (rd (gsl_rng_set 0) [] i) []))
      <$> seqZ 0 2 in
  let ts :=
    (λ t : thread, (t.1, init_rates t.1 t.2 (shared_init a))) <$> ts0 in
  Forall local_thread ts ∧ Forall post_thread ts ∧ pairwise_disjoint ts ∧
  ∀ node, 0 ≤ node < 4 → Exists (λ t : thread, own_node t.1 node) ts.
Proof.
  intros e1 e2 a q1 ts0 ts.
  assert (∀ e, e ∈ [e1; e2] → e = e1 ∨ e = e2) as Hev.
  { intros e He. apply elem_of_cons in He as [->|He]; [by left|].
    apply list_elem_of_singleton in He as ->. by right. }
  apply (solver_threads_isolated a q1 [] [] []).
  - reflexivity.
  - vm_compute. discriminate.
  - vm_compute. discriminate.
  - vm_compute. discriminate.
  - intros j. apply (rd_Forall (λ x, 0 ≤ x < 2)); [|done].
    repeat constructor; lia.
  - intros j. apply (rd_Forall (λ x, 0 ≤ x < 2)); [|done].
    repeat constructor; lia.
  - intros e He _. destruct (Hev e He) as [-> | ->];
      vm_compute; split; discriminate.
  - intros e He Hi jj Hjj. destruct (Hev e He) as [-> | ->];
      [discriminate|].
    change (jj ∈ [0]) in Hjj. apply list_elem_of_singleton in Hjj as ->.
    vm_compute. split; [discriminate|reflexivity].
  - reflexivity.
Defined.

(** ** The error of the post time step function *)

Section PtsError.
Context {D R : Type} {FD : Float64 D} {GR : Gsl R D} {EC : SimInf_h}.

#[local] Abbreviation state := (thread_state (D := D) (R := R)).
#[local] Abbreviation threads := (list (thread (D := D) (R := R))).

Lemma slice_memcpy_other (a w : list D) Nd' i m :
  0 ≤ Nd' → i ≠ m →
  slice D0 (memcpy D0 a (i * Nd') w 0 Nd') (m * Nd') Nd' =
  slice D0 a (m * Nd') Nd'.
Proof.
  intros HNd Hne. apply slice_ext. intros k Hk.
  rewrite rd_memcpy. rewrite decide_False; [done|]. nia.
Qed.

(** Loop (4) up to the first node at which the post time step function
    returns an error. *)
Lemma post_steps_error (c : SimInf_thread_args (D := D)) (sa : state) sh n :
  0 ≤ Nd c → 0 ≤ n < Nn c →
  pts_rc c sa (uu sh) n < 0 →
  (∀ k, 0 ≤ k < n → 0 ≤ pts_rc c sa (uu sh) k) →
  let st := for_range 0 (Nn c) (post_step_node c) (sa, sh) in
  errcode st.1 = pts_rc c sa (uu sh) n ∧
  uu st.2 = uu sh ∧
  ∀ m, n < m →
    slice D0 (v_new st.1) (m * Nd c) (Nd c) =
      slice D0 (v_new sa) (m * Nd c) (Nd c) ∧
    (update_node st.2).[Ni c + m] = (update_node sh).[Ni c + m].
Proof.
  intros HNd Hn Hrc Hok.
  apply (for_range_inv
    (λ i (st : state * shared),
       i ≤ n ∧ tt st.1 = tt sa ∧ v st.1 = v sa ∧ uu st.2 = uu sh ∧
       ∀ m, i ≤ m →
         slice D0 (v_new st.1) (m * Nd c) (Nd c) =
           slice D0 (v_new sa) (m * Nd c) (Nd c) ∧
         (update_node st.2).[Ni c + m] = (update_node sh).[Ni c + m])).
  - cbn [fst snd]. split; [lia|]. done.
  - intros i [s h] Hi (Hin & Ht & Hv & Hu & Hfr). cbn [fst snd] in *.
    unfold post_step_node.
    destruct (Hfr i ltac:(lia)) as [Hsl _].
    rewrite Hsl, Hu, Hv, Ht.
    assert (∀ w m, i < m →
              slice D0 (memcpy D0 (v_new s) (i * Nd c) w 0 (Nd c))
                (m * Nd c) (Nd c) =
              slice D0 (v_new sa) (m * Nd c) (Nd c)) as Hmem.
    { intros w m Hm. rewrite slice_memcpy_other by lia.
      apply Hfr. lia. }
    destruct (decide (i = n)) as [->|Hne].
    + unfold pts_rc in Hrc.
      destruct (pts_fun c _ _ _ _ _ _ _) as [rc w] eqn:Ep.
      cbn [fst] in Hrc. rewrite decide_True by done.
      cbn [fst snd errcode set_errcode set_v v_new].
      split; [by unfold pts_rc; rewrite Ep|]. split; [done|].
      intros m Hm. split; [by apply Hmem|]. apply Hfr. lia.
    + pose proof (Hok i ltac:(lia)) as Hrci. unfold pts_rc in Hrci.
      destruct (pts_fun c _ _ _ _ _ _ _) as [rc w].
      cbn [fst] in Hrci. rewrite decide_False by lia.
      case_decide.
      * destruct (all_rates _ _ _ _ _ _ _) as [[rates delta] err].
        cbn [fst snd tt v uu v_new set_sum_t_rate set_errcode set_t_rate
             set_v set_update_node update_node].
        split; [lia|]. do 3 (split; [done|]).
        intros m Hm. split; [apply Hmem; lia|].
        rewrite rd_wr_ne by lia. apply Hfr. lia.
      * cbn [fst snd tt v uu v_new set_v].
        split; [lia|]. do 3 (split; [done|]).
        intros m Hm. split; [apply Hmem; lia|]. apply Hfr. lia.
  - intros st (Hin & _). lia.
Qed.

Lemma store_U_errcode (c : SimInf_thread_args (D := D)) cnt :
  ∀ (sa : state) sh, errcode (store_U c cnt sa sh).1 = errcode sa.
Proof.
  induction cnt as [|k IH]; intros sa sh; simpl; [done|].
  destruct (_ && _); [|done]. by rewrite IH.
Qed.

Lemma store_V_errcode (c : SimInf_thread_args (D := D)) cnt :
  ∀ (sa : state) sh, errcode (store_V c cnt sa sh).1 = errcode sa.
Proof.
  induction cnt as [|k IH]; intros sa sh; simpl; [done|].
  destruct (_ && _); [|done]. by rewrite IH.
Qed.

Lemma post_phase_errcode (c : SimInf_thread_args (D := D)) (sa : state) sh :
  errcode (post_phase c sa sh).1 =
  errcode (for_range 0 (Nn c) (post_step_node c) (sa, sh)).1.
Proof.
  unfold post_phase.
  destruct (for_range 0 (Nn c) (post_step_node c) (sa, sh)) as [sa1 sh1].
  match goal with
  | |- context [store_U c ?n ?a ?b] =>
      pose proof (store_U_errcode c n a b) as HU;
      destruct (store_U c n a b) as [sa2 sh2]
  end.
  rewrite store_V_errcode. done.
Qed.

(** The least node with an error. *)
Lemma first_failure_or (f : Z → Z) n :
  0 ≤ n →
  (∃ m, 0 ≤ m < n ∧ f m < 0 ∧ ∀ k, 0 ≤ k < m → 0 ≤ f k) ∨
  (∀ k, 0 ≤ k < n → 0 ≤ f k).
Proof.
  revert n. apply natlike_ind.
  - right. intros k Hk. lia.
  - intros n Hn [(m & Hm & Hfm & Hleast)|Hall].
    + left. exists m. split; [lia|done].
    + destruct (decide (f n < 0)) as [Hf|Hf].
      * left. exists n. split; [lia|done].
      * right. intros k Hk. destruct (decide (k = n)) as [->|]; [lia|].
        apply Hall. lia.
Qed.

Lemma first_failure (f : Z → Z) n :
  0 ≤ n → f n < 0 →
  ∃ m, 0 ≤ m ≤ n ∧ f m < 0 ∧ ∀ k, 0 ≤ k < m → 0 ≤ f k.
Proof.
  intros Hn Hf.
  destruct (first_failure_or f (n + 1) ltac:(lia))
    as [(m & Hm & Hfm & Hleast)|Hall].
  - exists m. split; [lia|done].
  - specialize (Hall n ltac:(lia)). lia.
Qed.

Lemma post_phase_fails (c : SimInf_thread_args (D := D)) (sa : state) sh :
  pts_fails (uu sh) (c, sa) → errcode (post_phase c sa sh).1 ≠ 0.
Proof.
  intros [HNd (n & Hn & Hrc)]. cbn [fst snd] in *.
  destruct (first_failure (pts_rc c sa (uu sh)) n ltac:(lia) Hrc)
    as (m & Hm & Hfm & Hleast).
  destruct (post_steps_error c sa sh m HNd ltac:(lia) Hfm Hleast)
    as (He & _).
  rewrite post_phase_errcode, He. lia.
Qed.

Lemma first_error_Exists (ts : threads) :
  Exists (λ t : thread, errcode t.2 ≠ 0) ts → first_error ts ≠ 0.
Proof.
  induction ts as [|[c sa] ts IH]; intros H; [by apply Exists_nil in H|].
  simpl. case_decide as He; [done|]. apply IH.
  apply Exists_cons in H as [H|H]; [|done]. cbn [snd] in H. done.
Qed.

Lemma omp_for_post_fails : ∀ (ts : threads) sh,
  Exists (pts_fails (uu sh)) ts →
  ∃ ts' sh',
    omp_for (λ c sa sh, Some (post_phase c sa sh)) ts sh = Some (ts', sh') ∧
    ts' ≠ [] ∧ Exists (λ t : thread, errcode t.2 ≠ 0) ts'.
Proof.
  assert (∀ (ts : threads) sh, ∃ ts' sh',
            omp_for (λ c sa sh, Some (post_phase c sa sh)) ts sh =
              Some (ts', sh')) as Htotal.
  { induction ts as [|[c sa] ts IH]; intros sh; [by exists [], sh|].
    simpl. destruct (post_phase c sa sh) as [sa1 sh1].
    destruct (IH sh1) as (ts' & sh' & ->). by eexists _, _. }
  induction ts as [|[c sa] ts IH]; intros sh H;
    [by apply Exists_nil in H|].
  simpl.
  pose proof (post_phase_closed c sa sh) as (_ & _ & _ & Hu).
  pose proof (post_phase_fails c sa sh) as Hf.
  destruct (post_phase c sa sh) as [sa1 sh1]. cbn [fst snd] in *.
  apply Exists_cons in H as [H|H].
  - destruct (Htotal ts sh1) as (ts' & sh' & ->).
    eexists _, _. split; [done|]. split; [done|].
    apply Exists_cons_hd. cbn [snd]. by apply Hf.
  - rewrite <- Hu in H. destruct (IH sh1 H) as (ts' & sh' & -> & _ & Hex).
    eexists _, _. split; [done|]. split; [done|].
    by apply Exists_cons_tl.
Qed.

(** X22. The loop (4) over the nodes of a thread stops at the first
    node for which the post time step function returns a negative
    value: this value is the error code of the thread at the end of the
    second loop over the threads, and the nodes after it are not
    visited, their part of [v_new] and their indications for update are
    as they were. *)
Theorem post_step_error (c : SimInf_thread_args (D := D)) (sa : state) sh n :
  0 ≤ Nd c → 0 ≤ n < Nn c →
  pts_rc c sa (uu sh) n < 0 →
  (∀ k, 0 ≤ k < n → 0 ≤ pts_rc c sa (uu sh) k) →
  let st := for_range 0 (Nn c) (post_step_node c) (sa, sh) in
  errcode (post_phase c sa sh).1 = pts_rc c sa (uu sh) n ∧
  uu (post_phase c sa sh).2 = uu sh ∧
  ∀ m, n < m →
    slice D0 (v_new st.1) (m * Nd c) (Nd c) =
      slice D0 (v_new sa) (m * Nd c) (Nd c) ∧
    (update_node st.2).[Ni c + m] = (update_node sh).[Ni c + m].
Proof.
  intros HNd Hn Hrc Hok st.
  destruct (post_steps_error c sa sh n HNd Hn Hrc Hok) as (He & _ & Hfr).
  rewrite post_phase_errcode. split; [done|]. split; [|done].
  apply (post_phase_closed c sa sh).
Qed.

(** X23. An error of the post time step function ends the run: when
    the function returns a negative value for a node of one of the
    threads in a turn of the main loop, after the steps of the SSA and
    the events of the day, the solver returns an error code at the end
    of this turn, however many turns were left. *)
Theorem pts_error_stops_run days fuel (ts : threads) sh ts1 sh1 ts2 sh2 :
  omp_for (λ c, ssa_phase c fuel) ts sh = Some (ts1, sh1) →
  on_master SimInf_process_E2_events ts1 sh1 = Some (ts2, sh2) →
  Exists (pts_fails (uu sh2)) ts2 →
  ∃ err sh', main_loop (S days) fuel ts sh = Some (err, sh') ∧ err ≠ 0.
Proof.
  intros E1 E2 Hex.
  destruct (omp_for_post_fails ts2 sh2 Hex) as (ts3 & sh3 & E3 & Hne & Herr).
  apply first_error_Exists in Herr.
  destruct ts3 as [|[c sa] ts3]; [done|].
  pose proof (store_solution_sparse_ok c sa sh3) as [Hs _].
  destruct (SimInf_store_solution_sparse c sa sh3) as [sa4 sh4] eqn:E4.
  cbn [fst snd] in Hs.
  assert (first_error ((c, sa4) :: ts3) ≠ 0) as Herr4.
  { simpl in Herr |- *.
    destruct (decide (errcode sa4 ≠ 0)) as [H4|H4]; [done|].
    destruct (decide (errcode sa ≠ 0)) as [H3|H3]; [|done].
    exfalso. by apply H4, Hs. }
  exists (first_error ((c, sa4) :: ts3)), sh4.
  cbn [main_loop]. unfold day. rewrite E1, E2, E3.
  cbn [on_master]. rewrite E4. rewrite first_error_swap.
  rewrite decide_True by done. done.
Qed.

End PtsError.

(** Three nodes without transitions; the post time step function fails
    at the second node. *)
Lemma post_step_error_witness :
  let c :=
    {| Ntot := 3; Ni := 0; Nn := 3; Nt := 0; Nc := 1; Nd := 0; Nld := 0;
       irG := []; jcG := [0]; irS := []; jcS := [0]; prS := [];
       irE := []; jcE := [0]; N := [];
       tr_fun := [];
       pts_fun := λ v_new _ _ _ _ node _,
                    (if decide (node = 1) then -5 else 0, v_new);
       tspan := [0; 1; 2]%Q; tlen := 3;
       ldata := []; gdata := []; E1 := []; E2 := [];
       U_dense := true; V_dense := true;
       irU := []; jcU := []; irV := []; jcV := [] |} in
  let sa := state_of [] 0 3 0 1 in
  let sh := set_update_node [1; 1; 1] (shared_of [4; 7; 2] 3 3) in
  let st := for_range 0 (Nn c) (post_step_node c) (sa, sh) in
  update_node st.2 = [0; 1; 1] ∧
  errcode (post_phase c sa sh).1 = -5 ∧
  uu (post_phase c sa sh).2 = uu sh ∧
  ∀ m, 1 < m →
    slice D0 (v_new st.1) (m * Nd c) (Nd c) =
      slice D0 (v_new sa) (m * Nd c) (Nd c) ∧
    (update_node st.2).[Ni c + m] = (update_node sh).[Ni c + m].
Proof.
  intros c sa sh st. split; [reflexivity|].
  apply (post_step_error c sa sh 1).
  - vm_compute. discriminate.
  - vm_compute. split; [discriminate|reflexivity].
  - reflexivity.
  - intros k Hk. assert (k = 0) as -> by lia. vm_compute. discriminate.
Defined.

Lemma pts_error_stops_run_witness :
  let c :=
    {| Ntot := 3; Ni := 0; Nn := 3; Nt := 0; Nc := 1; Nd := 0; Nld := 0;
       irG := []; jcG := [0]; irS := []; jcS := [0]; prS := [];
       irE := []; jcE := [0]; N := [];
       tr_fun := [];
       pts_fun := λ v_new _ _ _ _ node _,
                    (if decide (node = 1) then -5 else 0, v_new);
       tspan := [0; 1; 2]%Q; tlen := 3;
       ldata := []; gdata := []; E1 := []; E2 := [];
       U_dense := true; V_dense := true;
       irU := []; jcU := []; irV := []; jcV := [] |} in
  let ts := [(c, state_of [] 0 3 0 1)] in
  let sh := shared_of [4; 7; 2] 3 3 in
  main_loop 4 2 ts sh = Some (-5, sh) ∧
  ∃ err sh', main_loop 4 2 ts sh = Some (err, sh') ∧ err ≠ 0.
Proof.
  intros c ts sh. split; [vm_compute; reflexivity|].
  let x := eval vm_compute in (omp_for (λ c, ssa_phase c 2) ts sh) in
  match x with
  | Some (?a, ?b) => pose (ts1 := a); pose (sh1 := b)
  end.
  assert (omp_for (λ c, ssa_phase c 2) ts sh = Some (ts1, sh1)) as E1
    by (vm_compute; reflexivity).
  let x := eval vm_compute in (on_master SimInf_process_E2_events ts1 sh1) in
  match x with
  | Some (?a, ?b) => pose (ts2 := a); pose (sh2 := b)
  end.
  assert (on_master SimInf_process_E2_events ts1 sh1 = Some (ts2, sh2)) as E2
    by (vm_compute; reflexivity).
  apply (pts_error_stops_run 3 2 ts sh ts1 sh1 ts2 sh2 E1 E2).
  apply Exists_cons_hd. split; [vm_compute; discriminate|].
  exists 1. split; [vm_compute; split; [discriminate|reflexivity]|].
  reflexivity.
Defined.

(** ** The threads of the second loop of a day *)

Lemma tied_at_refl {A} (d : A) (P : Z → Prop) a : tied_at d P a a a.
Proof. by repeat split. Qed.

Lemma tied_at_memcpy {A} (d : A) (P : Z → Prop) a0 a b doff src src2 soff n :
  tied_at d P a0 a b →
  (∀ j, 0 ≤ j < n → P (doff + j)) →
  (∀ j, 0 ≤ j < n → rd d src (soff + j) = rd d src2 (soff + j)) →
  tied_at d P a0 (memcpy d a doff src soff n) (memcpy d b doff src2 soff n).
Proof.
  intros [[Hl Ha] [Hl0 Hf]] HP Hsrc. split; split.
  - by rewrite !len_memcpy.
  - intros k Hk. rewrite !rd_memcpy, Hl.
    case_decide as Hin; [|by apply Ha]. apply Hsrc. lia.
  - by rewrite len_memcpy.
  - intros k Hk. rewrite rd_memcpy. rewrite decide_False; [by apply Hf|].
    intros [Hin _]. apply Hk.
    replace k with (doff + (k - doff)) by lia. apply HP. lia.
Qed.

Section PostLocality.
Context {D R : Type} {FD : Float64 D} {GR : Gsl R D} {EC : SimInf_h}.
Variable c : SimInf_thread_args (D := D).
Hypothesis HNc : 0 ≤ Nc c.
Hypothesis HNd : 0 ≤ Nd c.
Hypothesis HNi : 0 ≤ Ni c.
Hypothesis HNn : 0 ≤ Nn c.
Hypothesis Htot : Ni c + Nn c ≤ Ntot c.

#[local] Abbreviation state := (thread_state (D := D) (R := R)).

Lemma own_block_target w it j :
  0 ≤ w → 0 ≤ it → 0 ≤ j < Nn c * w →
  own_block c w (w * (Ntot c * it + Ni c) + j).
Proof.
  intros Hw Hit Hj. unfold own_block.
  assert (w * (Ni c + Nn c) ≤ w * Ntot c) as H1
    by (apply Z.mul_le_mono_nonneg_l; lia).
  assert (0 ≤ w * Ni c) as H2 by (apply Z.mul_nonneg_nonneg; lia).
  assert (0 ≤ w * (Ntot c * it)) as H3
    by (apply Z.mul_nonneg_nonneg; [lia|apply Z.mul_nonneg_nonneg; lia]).
  split; [lia|].
  replace (w * (Ntot c * it + Ni c) + j)
    with (w * Ni c + j + it * (w * Ntot c)) by lia.
  rewrite Z_mod_plus_full. rewrite Z.mod_small by lia. lia.
Qed.

Lemma all_rates_ext node (u1 u2 : list Z) vv t rates err :
  slice 0 u1 (Ni c * Nc c + node * Nc c) (Nc c) =
  slice 0 u2 (Ni c * Nc c + node * Nc c) (Nc c) →
  all_rates c node u1 vv t rates err = all_rates c node u2 vv t rates err.
Proof.
  intros Hsl. unfold all_rates. apply for_range_ext.
  intros j [[r d] e] _. unfold call_tr_fun. by rewrite Hsl.
Qed.

Lemma post_tied_flag (sh0 sh sh2 : shared (D := D)) i :
  post_tied c sh0 sh sh2 → own_node c i →
  post_tied c sh0 (set_update_node (wr (update_node sh) i 0) sh)
    (set_update_node (wr (update_node sh2) i 0) sh2).
Proof.
  intros [(Hau & Han & HaU & HaV) (Hwu & Hwn & HwU)] Hi.
  destruct (tied_wr (own_node c) (update_node sh0) (update_node sh)
              (update_node sh2) i 0 (conj Han Hwn) Hi) as [Hn' Hfn'].
  exact (conj (conj Hau (conj Hn' (conj HaU HaV)))
              (conj Hwu (conj Hfn' HwU))).
Qed.

Lemma post_tied_set_U (sh0 sh sh2 : shared (D := D)) u1 u2 :
  post_tied c sh0 sh sh2 →
  tied (own_block c (Nc c)) (U sh0) u1 u2 →
  post_tied c sh0 (set_U u1 sh) (set_U u2 sh2).
Proof.
  intros [(Hau & Han & HaU & HaV) (Hwu & Hwn & HwU & HwV)] [Ha Hf].
  exact (conj (conj Hau (conj Han (conj Ha HaV)))
              (conj Hwu (conj Hwn (conj Hf HwV)))).
Qed.

Lemma post_tied_set_V (sh0 sh sh2 : shared (D := D)) v1 v2 :
  post_tied c sh0 sh sh2 →
  tied_at D0 (own_block c (Nd c)) (V sh0) v1 v2 →
  post_tied c sh0 (set_V v1 sh) (set_V v2 sh2).
Proof.
  intros [(Hau & Han & HaU & HaV) (Hwu & Hwn & HwU & HwV & Hp)] [Ha Hf].
  exact (conj (conj Hau (conj Han (conj HaU Ha)))
              (conj Hwu (conj Hwn (conj HwU (conj Hf Hp))))).
Qed.

Lemma post_step_node_tied (sh0 : shared (D := D)) node (sa : state) sh sh2 :
  0 ≤ node < Nn c → post_tied c sh0 sh sh2 →
  match post_step_node c node (sa, sh), post_step_node c node (sa, sh2) with
  | Next s1, Next s2 =>
      s1.1 = s2.1 ∧ post_tied c sh0 s1.2 s2.2 ∧
      U_it s1.1 = U_it sa ∧ V_it s1.1 = V_it sa
  | Break s1, Break s2 =>
      s1.1 = s2.1 ∧ post_tied c sh0 s1.2 s2.2 ∧
      U_it s1.1 = U_it sa ∧ V_it s1.1 = V_it sa
  | _, _ => False
  end.
Proof.
  intros Hnode Ht. unfold post_step_node.
  pose proof Ht as [([_ Hau] & [_ Han] & _) _].
  assert (slice 0 (uu sh2) (Ni c * Nc c + node * Nc c) (Nc c) =
          slice 0 (uu sh) (Ni c * Nc c + node * Nc c) (Nc c)) as Hsl.
  { apply slice_ext. intros k Hk. symmetry. apply Hau.
    by apply own_cell_local. }
  assert ((update_node sh2).[Ni c + node] = (update_node sh).[Ni c + node])
    as Hfl.
  { symmetry. apply Han. unfold own_node. lia. }
  rewrite Hsl, Hfl.
  destruct (pts_fun c _ _ _ _ _ _ _) as [rc w].
  case_decide; [done|].
  case_decide; [|done].
  rewrite (all_rates_ext node (uu sh2) (uu sh)) by done.
  destruct (all_rates _ _ _ _ _ _ _) as [[rates delta] err].
  cbn [fst snd]. split; [done|]. split; [|done].
  apply post_tied_flag; [done|]. unfold own_node. lia.
Qed.

Lemma post_steps_tied (sh0 : shared (D := D)) (sa : state) sh sh2 :
  post_tied c sh0 sh sh2 →
  let r1 := for_range 0 (Nn c) (post_step_node c) (sa, sh) in
  let r2 := for_range 0 (Nn c) (post_step_node c) (sa, sh2) in
  r1.1 = r2.1 ∧ post_tied c sh0 r1.2 r2.2 ∧
  U_it r1.1 = U_it sa ∧ V_it r1.1 = V_it sa.
Proof.
  intros Ht.
  apply (for_range_rel (λ s1 s2 : state * shared,
           s1.1 = s2.1 ∧ post_tied c sh0 s1.2 s2.2 ∧
           U_it s1.1 = U_it sa ∧ V_it s1.1 = V_it sa)); [done|].
  intros node [s h] [s' h2] Hnode (Hs & Hh & HU & HV).
  cbn [fst snd] in *. subst s'.
  pose proof (post_step_node_tied sh0 node s h h2 Hnode Hh) as H.
  destruct (post_step_node c node (s, h)) as [s1|s1],
           (post_step_node c node (s, h2)) as [s2|s2]; try done.
  - destruct H as (? & ? & ? & ?). split; [done|]. split; [done|].
    split; congruence.
  - destruct H as (? & ? & ? & ?). split; [done|]. split; [done|].
    split; congruence.
Qed.

Lemma store_U_tied (sh0 : shared (D := D)) cnt : ∀ (sa : state) sh sh2,
  0 ≤ U_it sa → post_tied c sh0 sh sh2 →
  (store_U c cnt sa sh).1 = (store_U c cnt sa sh2).1 ∧
  post_tied c sh0 (store_U c cnt sa sh).2 (store_U c cnt sa sh2).2 ∧
  V_it (store_U c cnt sa sh).1 = V_it sa.
Proof.
  induction cnt as [|k IH]; intros sa sh sh2 Hit Ht; [done|]. simpl.
  destruct (_ && _); [|done].
  destruct (IH (set_U_it (U_it sa + 1) sa)
              (set_U (memcpy 0 (U sh) (Nc c * (Ntot c * U_it sa + Ni c))
                        (uu sh) (Ni c * Nc c) (Nn c * Nc c)) sh)
              (set_U (memcpy 0 (U sh2) (Nc c * (Ntot c * U_it sa + Ni c))
                        (uu sh2) (Ni c * Nc c) (Nn c * Nc c)) sh2))
    as (H1 & H2 & H3); [cbn [U_it set_U_it]; lia| |done].
  apply post_tied_set_U; [done|].
  pose proof Ht as [([_ Hau] & _ & HaU & _) (_ & _ & HwU & _)].
  apply (tied_at_memcpy 0); [by split| |].
  - intros j Hj. by apply own_block_target.
  - intros j Hj. apply Hau. unfold own_cell. nia.
Qed.

Lemma store_V_tied (sh0 : shared (D := D)) cnt : ∀ (sa : state) sh sh2,
  0 ≤ V_it sa → post_tied c sh0 sh sh2 →
  (store_V c cnt sa sh).1 = (store_V c cnt sa sh2).1 ∧
  post_tied c sh0 (store_V c cnt sa sh).2 (store_V c cnt sa sh2).2.
Proof.
  induction cnt as [|k IH]; intros sa sh sh2 Hit Ht; [done|]. simpl.
  destruct (_ && _); [|done].
  apply IH; [cbn [V_it set_V_it]; lia|].
  apply post_tied_set_V; [done|].
  pose proof Ht as [(_ & _ & _ & HaV) (_ & _ & _ & HwV & _)].
  apply (tied_at_memcpy D0); [by split| |done].
  intros j Hj. by apply own_block_target.
Qed.

Lemma post_phase_tied (sh0 : shared (D := D)) (sa : state) sh sh2 :
  0 ≤ U_it sa → 0 ≤ V_it sa → post_tied c sh0 sh sh2 →
  (post_phase c sa sh).1 = (post_phase c sa sh2).1 ∧
  post_tied c sh0 (post_phase c sa sh).2 (post_phase c sa sh2).2.
Proof.
  intros HU HV Ht. unfold post_phase.
  pose proof (post_steps_tied sh0 sa sh sh2 Ht) as Hp. cbv zeta in Hp.
  destruct (for_range 0 (Nn c) (post_step_node c) (sa, sh)) as [s1 h1].
  destruct (for_range 0 (Nn c) (post_step_node c) (sa, sh2)) as [s2 h2].
  cbn [fst snd] in Hp. destruct Hp as (<- & Hh & HU1 & HV1).
  match goal with
  | |- context [store_U c ?n ?a h1] =>
      pose proof (store_U_tied sh0 n a h1 h2) as Hs;
      destruct (store_U c n a h1) as [s3 h3];
      destruct (store_U c n a h2) as [s4 h4]
  end.
  cbn [fst snd U_it V_it set_clock] in Hs.
  destruct Hs as (<- & Hh3 & HV3); [lia|done|].
  apply store_V_tied; [lia|done].
Qed.

End PostLocality.

Section PostThreads.
Context {D R : Type} {FD : Float64 D} {GR : Gsl R D} {EC : SimInf_h}.

#[local] Abbreviation state := (thread_state (D := D) (R := R)).
#[local] Abbreviation threads := (list (thread (D := D) (R := R))).

Lemma disjoint_blocks (c1 c2 : SimInf_thread_args (D := D)) w k :
  disjoint_threads c1 c2 → 0 ≤ w → own_block c1 w k → ¬ own_block c2 w k.
Proof.
  unfold own_block. intros (HNt & _ & _ & _ & Hd) Hw [_ H1] [_ H2].
  rewrite <- HNt in H2. set (r := k `mod` (w * Ntot c1)) in *.
  destruct Hd; nia.
Qed.

Lemma post_tied_refl (c : SimInf_thread_args (D := D)) sh :
  post_tied c sh sh sh.
Proof. by repeat split. Qed.

Lemma post_phase_other (c : SimInf_thread_args (D := D)) (sa : state)
    sh sh2 :
  post_thread (c, sa) → post_agree c sh sh2 →
  (post_phase c sa sh).1 = (post_phase c sa sh2).1 ∧
  post_agree c (post_phase c sa sh).2 (post_phase c sa sh2).2 ∧
  post_writes c sh (post_phase c sa sh).2 ∧
  post_writes c sh2 (post_phase c sa sh2).2.
Proof.
  intros (HNc & HNd & HNi & HNn & Htot & HU & HV) Ha. cbn [fst snd] in *.
  destruct (post_phase_tied c HNc HNd HNi HNn Htot sh sa sh sh2 HU HV)
    as (He & Ha' & Hw).
  { split; [done|]. apply (post_tied_refl c sh). }
  split; [done|]. split; [done|]. split; [done|].
  apply (post_phase_tied c HNc HNd HNi HNn Htot sh2 sa sh2 sh2 HU HV).
  apply post_tied_refl.
Qed.

(** What a thread has not written is what the other thread reads. *)
Lemma post_writes_agree (c1 c2 : SimInf_thread_args (D := D)) sh sh1 :
  disjoint_threads c1 c2 → 0 ≤ Nd c1 →
  post_writes c1 sh sh1 → post_agree c2 sh sh1.
Proof.
  intros Hd HNd (Hu & [Hln Hfn] & [HlU HfU] & [HlV HfV] & _).
  pose proof Hd as (_ & HNc & HNd' & HNc0 & _).
  split; [|split; [|split]]; split; try done.
  - by rewrite Hu.
  - intros k _. by rewrite Hu.
  - intros i Hi. symmetry. apply Hfn. intros H1.
    by apply (disjoint_nodes c1 c2 i).
  - intros k Hk. symmetry. apply HfU. intros H1. rewrite HNc in H1.
    by apply (disjoint_blocks c1 c2 (Nc c2) k Hd ltac:(lia)).
  - intros k Hk. symmetry. apply HfV. intros H1. rewrite HNd' in H1.
    by apply (disjoint_blocks c1 c2 (Nd c2) k Hd ltac:(lia)).
Qed.

Lemma post_agree_sym (c : SimInf_thread_args (D := D)) sh sh2 :
  post_agree c sh sh2 → post_agree c sh2 sh.
Proof.
  intros ([Hl1 H1] & [Hl2 H2] & [Hl3 H3] & [Hl4 H4]).
  split; [|split; [|split]]; split; try done;
    intros k Hk; symmetry; auto.
Qed.

(** Two threads with their own nodes can run the second loop in either
    order. *)
Lemma post_phase_commute (c1 c2 : SimInf_thread_args (D := D))
    (sa1 sa2 : state) sh :
  post_thread (c1, sa1) → post_thread (c2, sa2) → disjoint_threads c1 c2 →
  let r1 := post_phase c1 sa1 sh in
  let r12 := post_phase c2 sa2 r1.2 in
  let r2 := post_phase c2 sa2 sh in
  let r21 := post_phase c1 sa1 r2.2 in
  r2.1 = r12.1 ∧ r21.1 = r1.1 ∧ r21.2 = r12.2.
Proof.
  intros Hp1 Hp2 Hd r1 r12 r2 r21.
  pose proof Hp1 as (HNc1 & HNd1 & _). pose proof Hp2 as (HNc2 & HNd2 & _).
  cbn [fst] in HNc1, HNd1, HNc2, HNd2.
  pose proof Hd as (_ & HNc & HNd & _).
  destruct (post_phase_other c1 sa1 sh sh Hp1) as (_ & _ & Hw1 & _).
  { apply (post_tied_refl c1 sh). }
  fold r1 in Hw1.
  destruct (post_phase_other c2 sa2 r1.2 sh Hp2)
    as (E2 & Ha2 & Hw2 & Hw2').
  { apply post_agree_sym. by apply (post_writes_agree c1 c2). }
  fold r12 r2 in E2, Ha2, Hw2, Hw2'.
  destruct (post_phase_other c1 sa1 sh r2.2 Hp1)
    as (E1 & Ha1 & _ & Hw1').
  { apply (post_writes_agree c2 c1); [by apply disjoint_threads_sym|done..]. }
  fold r1 r21 in E1, Ha1, Hw1'.
  split; [done|]. split; [done|].
  destruct Hw1 as (Hu1 & [Hl1n Hf1n] & [Hl1U Hf1U] & [Hl1V Hf1V] & HpU1 & HpV1).
  destruct Hw2 as (Hu2 & [Hl2n Hf2n] & [Hl2U Hf2U] & [Hl2V Hf2V] & HpU2 & HpV2).
  destruct Hw2' as (Hu3 & [Hl3n Hf3n] & [Hl3U Hf3U] & [Hl3V Hf3V] & HpU3 & HpV3).
  destruct Hw1' as (Hu4 & [Hl4n Hf4n] & [Hl4U Hf4U] & [Hl4V Hf4V] & HpU4 & HpV4).
  destruct Ha1 as (_ & [_ Ha1n] & [_ Ha1U] & [_ Ha1V]).
  destruct Ha2 as (_ & [_ Ha2n] & [_ Ha2U] & [_ Ha2V]).
  apply shared_eq; [congruence| | | |congruence..].
  - apply (list_eq_rd 0); [congruence|]. intros k.
    destruct (decide (Ni c1 ≤ k < Ni c1 + Nn c1)) as [Hk|Hk].
    + rewrite <- (Ha1n k Hk). symmetry. apply Hf2n.
      by apply (disjoint_nodes c1 c2).
    + rewrite (Hf4n k Hk).
      destruct (decide (Ni c2 ≤ k < Ni c2 + Nn c2)) as [Hk2|Hk2].
      * symmetry. by apply Ha2n.
      * rewrite (Hf3n k Hk2), (Hf2n k Hk2). symmetry. by apply Hf1n.
  - apply (list_eq_rd 0); [congruence|]. intros k.
    destruct (decide (0 ≤ k ∧
                Nc c1 * Ni c1 ≤ k `mod` (Nc c1 * Ntot c1) <
                Nc c1 * (Ni c1 + Nn c1))) as [Hk|Hk].
    + rewrite <- (Ha1U k Hk). symmetry. apply Hf2U.
      rewrite <- HNc. by apply (disjoint_blocks c1 c2).
    + rewrite (Hf4U k Hk).
      destruct (decide (0 ≤ k ∧
                  Nc c2 * Ni c2 ≤ k `mod` (Nc c2 * Ntot c2) <
                  Nc c2 * (Ni c2 + Nn c2))) as [Hk2|Hk2].
      * symmetry. by apply Ha2U.
      * rewrite (Hf3U k Hk2), (Hf2U k Hk2). symmetry. by apply Hf1U.
  - apply (list_eq_rd D0); [congruence|]. intros k.
    destruct (decide (0 ≤ k ∧
                Nd c1 * Ni c1 ≤ k `mod` (Nd c1 * Ntot c1) <
                Nd c1 * (Ni c1 + Nn c1))) as [Hk|Hk].
    + rewrite <- (Ha1V k Hk). symmetry. apply Hf2V.
      rewrite <- HNd. by apply (disjoint_blocks c1 c2).
    + rewrite (Hf4V k Hk).
      destruct (decide (0 ≤ k ∧
                  Nd c2 * Ni c2 ≤ k `mod` (Nd c2 * Ntot c2) <
                  Nd c2 * (Ni c2 + Nn c2))) as [Hk2|Hk2].
      * symmetry. by apply Ha2V.
      * rewrite (Hf3V k Hk2), (Hf2V k Hk2). symmetry. by apply Hf1V.
Qed.

(** X24. The result of the second parallel loop of a day (the post time
    step function, the update of the rates, the step of the clock and
    the storing of the solution in U and V) does not depend on the order
    in which the threads run: when the threads have their own nodes of
    the model, a run of the threads in another order ends with the same
    shared arrays and with every thread in the same state. *)
Theorem post_threads_any_order (ts tsp : threads) :
  Permutation ts tsp →
  Forall post_thread ts → pairwise_disjoint ts →
  ∀ sh ts' sh',
    omp_for (λ c sa sh, Some (post_phase c sa sh)) ts sh = Some (ts', sh') →
    ∃ tsp',
      omp_for (λ c sa sh, Some (post_phase c sa sh)) tsp sh =
        Some (tsp', sh') ∧
      Permutation (zip ts ts') (zip tsp tsp').
Proof.
  apply (omp_for_any_order (λ c sa sh, Some (post_phase c sa sh))
           post_thread).
  intros c1 sa1 c2 sa2 sh sa1' sh1 sa2' sh12 Hp1 Hp2 Hd H1 H2.
  pose proof (post_phase_commute c1 c2 sa1 sa2 sh Hp1 Hp2 Hd) as H.
  cbv zeta in H. injection H1 as H1. injection H2 as H2.
  rewrite H1 in H. cbn [fst snd] in H. rewrite H2 in H. cbn [fst snd] in H.
  destruct H as (E2 & E1 & Es).
  exists (post_phase c2 sa2 sh).2. cbv beta. split.
  - rewrite <- E2. by rewrite <- surjective_pairing.
  - rewrite <- E1, <- Es. by rewrite <- surjective_pairing.
Qed.

End PostThreads.

(** Two threads with a node each, at the end of the second day: both
    store their node in the second column of U. *)
Lemma post_threads_any_order_witness :
  let tr := [λ u _ _ _ _, inject_Z u.[0]; λ u _ _ _ _, inject_Z u.[1]] in
  let c1 := args_of 2 0 1 2 2 [0; 1; 0; 1] [0; 2; 4] [0; 1; 0; 1] [0; 2; 4]
              [-1; 1; 1; -1] [0; 1] [0; 2] [0; 0] tr [0; 1]%Q [] [] in
  let c2 := args_of 2 1 1 2 2 [0; 1; 0; 1] [0; 2; 4] [0; 1; 0; 1] [0; 2; 4]
              [-1; 1; 1; -1] [0; 1] [0; 2] [0; 0] tr [0; 1]%Q [] [] in
  let sh := set_update_node [1; 0] (shared_of [3; 1; 2; 2] 2 2) in
  let t1 := (c1, state_of [] 1 1 2 2) in
  let t2 := (c2, state_of [] 1 1 2 2) in
  let post := λ c sa sh, Some (post_phase c sa sh) in
  ∃ ts' tsp' sh',
    omp_for post [t1; t2] sh = Some (ts', sh') ∧
    omp_for post [t2; t1] sh = Some (tsp', sh') ∧
    U sh' = [3; 1; 2; 2; 3; 1; 2; 2] ∧ update_node sh' = [0; 0] ∧
    Permutation (zip [t1; t2] ts') (zip [t2; t1] tsp').
Proof.
  intros tr c1 c2 sh t1 t2 post.
  let x := eval vm_compute in (omp_for post [t1; t2] sh) in
  match x with
  | Some (?a, ?b) => pose (ts' := a); pose (sh' := b)
  end.
  assert (omp_for post [t1; t2] sh = Some (ts', sh')) as E
    by (vm_compute; reflexivity).
  assert (Forall post_thread [t1; t2]) as Hall.
  { constructor; [|constructor; [|constructor]];
      repeat split; vm_compute; discriminate. }
  assert (pairwise_disjoint [t1; t2]) as Hdis.
  { split; [|split; [constructor|done]].
    constructor; [|constructor].
    split; [reflexivity|]. split; [reflexivity|]. split; [reflexivity|].
    split; [vm_compute; discriminate|]. left. done. }
  destruct (post_threads_any_order [t1; t2] [t2; t1] (perm_swap t2 t1 [])
              Hall Hdis sh ts' sh' E) as (tsp' & Hp & Hperm).
  exists ts', tsp', sh'. split; [exact E|]. split; [exact Hp|].
  split; [reflexivity|]. split; [reflexivity|exact Hperm].
Defined.

(** ** The number of turns of the main loop *)

Section Clock.
Context {D R : Type} {FD : Float64 D} {GR : Gsl R D} {EC : SimInf_h}.
Variable c : SimInf_thread_args (D := D).

#[local] Abbreviation state := (thread_state (D := D) (R := R)).

Lemma same_clock_refl (sa : state) : same_clock sa sa.
Proof. done. Qed.

Lemma same_clock_trans (sa sa1 sa2 : state) :
  same_clock sa sa1 → same_clock sa1 sa2 → same_clock sa sa2.
Proof. intros (? & ? & ?) (? & ? & ?). repeat split; congruence. Qed.

Lemma ssa_step_clock node (sa : state) uu :
  match ssa_step c node sa uu with
  | Next st | Break st => same_clock sa st.1
  end.
Proof.
  unfold ssa_step.
  destruct (Dle (rd D0 (sum_t_rate sa) node) D0); [done|].
  destruct (gsl_rng_uniform_pos (rng sa)) as [x r1]. cbn [rng set_rng].
  destruct (Dle _ _); [done|].
  destruct (gsl_rng_uniform_pos _) as [y r2].
  destruct (select_transition _ _ _ _) as [tr|]; [|done].
  destruct (update_state _ _ _ _ _) as [uu1 err1].
  by destruct (update_rates _ _ _ _ _ _ _ _) as [[rates delta] err2].
Qed.

Lemma ssa_node_clock fuel node : ∀ (sa : state) uu st,
  ssa_node c fuel node sa uu = Some st → same_clock sa st.1.
Proof.
  induction fuel as [|fuel IH]; intros sa uu st H; [done|].
  simpl in H. pose proof (ssa_step_clock node sa uu) as Hs.
  destruct (ssa_step c node sa uu) as [[sa1 uu1]|st1].
  - eapply same_clock_trans; [exact Hs|]. by apply (IH sa1 uu1 st).
  - by injection H as <-.
Qed.

Lemma ssa_nodes_clock fuel cnt : ∀ node (sa : state) uu st,
  ssa_nodes c fuel cnt node sa uu = Some st → same_clock sa st.1.
Proof.
  induction cnt as [|cnt IH]; intros node sa uu st H.
  - by injection H as <-.
  - simpl in H. case_decide; [|by injection H as <-].
    destruct (ssa_node c fuel node sa uu) as [[sa1 uu1]|] eqn:E; [|done].
    eapply same_clock_trans; [exact (ssa_node_clock _ _ _ _ _ E)|].
    by apply (IH _ _ _ _ H).
Qed.

Lemma E1_step_clock (sa : state) sh :
  match E1_step c sa sh with
  | Next st | Break st => same_clock sa st.1
  end.
Proof.
  unfold E1_step. case_decide.
  - by destruct (enter_event _ _ _ _).
  - destruct (SimInf_sample_select _ _ _ _ _ _ _ _ _) as [[err ind] rng'].
    case_decide; [done|]. case_decide.
    + by destruct (exit_event _ _ _ _ _).
    + by destruct (internal_transfer_event _ _ _ _ _).
Qed.

Lemma E1_loop_clock cnt : ∀ (sa : state) sh,
  same_clock sa (E1_loop c cnt sa sh).1.
Proof.
  induction cnt as [|cnt IH]; intros sa sh; [done|]. simpl.
  destruct (E1_cond c sa); [|done].
  pose proof (E1_step_clock sa sh) as Hs.
  destruct (E1_step c sa sh) as [[sa1 sh1]|st1]; [|done].
  eapply same_clock_trans; [exact Hs|]. apply IH.
Qed.

Lemma ssa_phase_clock fuel (sa : state) sh sa' sh' :
  ssa_phase c fuel sa sh = Some (sa', sh') → same_clock sa sa'.
Proof.
  intros H. unfold ssa_phase in H.
  destruct (ssa_nodes c fuel _ 0 sa (uu sh)) as [[sa1 uu1]|] eqn:E; [|done].
  injection H as H. apply ssa_nodes_clock in E. cbn [fst] in E.
  unfold SimInf_process_E1_events in H.
  pose proof (E1_loop_clock (Z.to_nat (len (E1 c) - E1_index sa1)) sa1
    (set_uu uu1 sh)) as H1.
  rewrite H in H1. by eapply same_clock_trans.
Qed.

Lemma E2_step_clock (sa : state) sh :
  match E2_step c sa sh with
  | Next st | Break st => same_clock sa st.1
  end.
Proof.
  unfold E2_step.
  destruct (SimInf_sample_select _ _ _ _ _ _ _ _ _) as [[err ind] rng'].
  case_decide; [done|].
  by destruct (external_transfer_event _ _ _ _ _).
Qed.

Lemma E2_events_clock (sa : state) sh :
  same_clock sa (SimInf_process_E2_events c sa sh).1.
Proof.
  unfold SimInf_process_E2_events.
  generalize (Z.to_nat (len (E2 c) - E2_index sa)). intros cnt.
  revert sa sh. induction cnt as [|cnt IH]; intros sa sh; [done|]. simpl.
  destruct (E2_cond c sa); [|done].
  pose proof (E2_step_clock sa sh) as Hs.
  destruct (E2_step c sa sh) as [[sa1 sh1]|st1]; [|done].
  eapply same_clock_trans; [exact Hs|]. apply IH.
Qed.

Lemma post_step_node_clock node (sa : state) sh :
  match post_step_node c node (sa, sh) with
  | Next st | Break st => same_clock sa st.1
  end.
Proof.
  unfold post_step_node.
  destruct (pts_fun c _ _ _ _ _ _ _) as [rc w].
  case_decide; [done|]. case_decide; [|done].
  by destruct (all_rates _ _ _ _ _ _ _) as [[rates delta] err'].
Qed.

Lemma post_steps_clock (sa : state) sh :
  same_clock sa (for_range 0 (Nn c) (post_step_node c) (sa, sh)).1.
Proof.
  apply (for_range_inv (λ _ (st : state * shared), same_clock sa st.1)
           (λ st, same_clock sa st.1)); [done| |done].
  intros node [sa1 sh1] _ Hc. cbn [fst] in Hc.
  pose proof (post_step_node_clock node sa1 sh1) as Hs.
  destruct (post_step_node c node (sa1, sh1)) as [st|st];
    by eapply same_clock_trans.
Qed.

(** The two loops that store the column of U leave it at the first
    point of [tspan] that the time has not passed. *)
Lemma store_U_exit cnt : ∀ (sa : state) sh,
  tlen c - U_it sa ≤ Z.of_nat cnt →
  let st := store_U c cnt sa sh in
  tt st.1 = tt sa ∧ next_day st.1 = next_day sa ∧ U_it sa ≤ U_it st.1 ∧
  (U_dense c = false → U_it st.1 = U_it sa) ∧
  (U_dense c = true → U_it st.1 < tlen c →
   Dlt (rd D0 (tspan c) (U_it st.1)) (tt sa) = false).
Proof.
  induction cnt as [|cnt IH]; intros sa sh Hcnt.
  - cbn [store_U fst]. do 2 (split; [done|]). split; [lia|].
    split; [done|]. intros _ Hlt. lia.
  - cbn [store_U].
    destruct (U_dense c) eqn:EU.
    2:{ cbn [andb fst]. do 2 (split; [done|]). split; [lia|].
        split; [done|]. intros HU. discriminate. }
    destruct (bool_decide (U_it sa < tlen c)) eqn:Elt.
    2:{ apply bool_decide_eq_false in Elt. cbn [andb fst].
        do 2 (split; [done|]). split; [lia|]. split; [done|].
        intros _ Hlt. lia. }
    destruct (Dlt (rd D0 (tspan c) (U_it sa)) (tt sa)) eqn:Ed.
    2:{ cbn [andb fst]. do 2 (split; [done|]). split; [lia|].
        split; [done|]. done. }
    cbn [andb].
    match goal with
    | |- context [store_U c cnt ?a ?b] =>
        destruct (IH a b) as (H1 & H2 & H3 & H4 & H5);
          [cbn [U_it set_U_it]; lia|]
    end.
    cbn [tt next_day U_it set_U_it] in H1, H2, H3, H5.
    split; [done|]. split; [done|]. split; [lia|]. split; [done|]. done.
Qed.

Lemma store_U_sparse_exit cnt : ∀ (sa : state) sh,
  tlen c - U_it sa ≤ Z.of_nat cnt →
  let st := store_U_sparse c cnt sa sh in
  tt st.1 = tt sa ∧ next_day st.1 = next_day sa ∧ U_it sa ≤ U_it st.1 ∧
  (U_dense c = true → U_it st.1 = U_it sa) ∧
  (U_dense c = false → U_it st.1 < tlen c →
   Dlt (rd D0 (tspan c) (U_it st.1)) (tt sa) = false).
Proof.
  induction cnt as [|cnt IH]; intros sa sh Hcnt.
  - cbn [store_U_sparse fst]. do 2 (split; [done|]). split; [lia|].
    split; [done|]. intros _ Hlt. lia.
  - cbn [store_U_sparse].
    destruct (U_dense c) eqn:EU.
    { cbn [negb andb fst]. do 2 (split; [done|]). split; [lia|].
      split; [done|]. intros HU. discriminate. }
    destruct (bool_decide (U_it sa < tlen c)) eqn:Elt.
    2:{ apply bool_decide_eq_false in Elt. cbn [negb andb fst].
        do 2 (split; [done|]). split; [lia|]. split; [done|].
        intros _ Hlt. lia. }
    destruct (Dlt (rd D0 (tspan c) (U_it sa)) (tt sa)) eqn:Ed.
    2:{ cbn [negb andb fst]. do 2 (split; [done|]). split; [lia|].
        split; [done|]. done. }
    cbn [negb andb].
    match goal with
    | |- context [store_U_sparse c cnt ?a ?b] =>
        destruct (IH a b) as (H1 & H2 & H3 & H4 & H5);
          [cbn [U_it set_U_it]; lia|]
    end.
    cbn [tt next_day U_it set_U_it] in H1, H2, H3, H5.
    split; [done|]. split; [done|]. split; [lia|]. split; [done|]. done.
Qed.

Lemma store_V_clock cnt : ∀ (sa : state) sh,
  same_clock sa (store_V c cnt sa sh).1.
Proof.
  induction cnt as [|cnt IH]; intros sa sh; [done|]. simpl.
  destruct (_ && _); [|done].
  match goal with
  | |- context [store_V c cnt ?a ?b] => apply (IH a b)
  end.
Qed.

Lemma store_V_sparse_clock cnt : ∀ (sa : state) sh,
  same_clock sa (store_V_sparse c cnt sa sh).1.
Proof.
  induction cnt as [|cnt IH]; intros sa sh; [done|]. simpl.
  destruct (_ && _); [|done].
  match goal with
  | |- context [store_V_sparse c cnt ?a ?b] => apply (IH a b)
  end.
Qed.

(** The second loop moves the clock of the thread by a day. *)
Lemma post_phase_clock (sa : state) sh :
  let sa' := (post_phase c sa sh).1 in
  tt sa' = next_day sa ∧
  next_day sa' = Dadd (next_day sa) (of_int 1) ∧
  U_it sa ≤ U_it sa' ∧
  (U_dense c = false → U_it sa' = U_it sa) ∧
  (U_dense c = true → U_it sa' < tlen c →
   Dlt (rd D0 (tspan c) (U_it sa')) (tt sa') = false).
Proof.
  unfold post_phase.
  pose proof (post_steps_clock sa sh) as (Ht & Hn & Hu).
  destruct (for_range 0 (Nn c) (post_step_node c) (sa, sh)) as [sa1 sh1].
  cbn [fst] in Ht, Hn, Hu.
  set (sa2 := set_clock (next_day sa1) (Dadd (next_day sa1) (of_int 1)) sa1).
  pose proof (store_U_exit (Z.to_nat (tlen c - U_it sa2)) sa2 sh1
                ltac:(lia)) as H.
  cbv zeta in H.
  destruct (store_U c _ sa2 sh1) as [sa3 sh3]. cbn [fst] in H.
  destruct H as (H1 & H2 & H3 & H4 & H5).
  pose proof (store_V_clock (Z.to_nat (tlen c - V_it sa3)) sa3 sh3)
    as (H6 & H7 & H8).
  change (let '(sa, sh) := (sa3, sh3) in
          store_V c (Z.to_nat (tlen c - V_it sa)) sa sh)
    with (store_V c (Z.to_nat (tlen c - V_it sa3)) sa3 sh3).
  cbv zeta. rewrite H6, H7, H8.
  cbn [tt next_day U_it sa2 set_clock] in H1, H2, H3, H4, H5.
  rewrite H1, H2. rewrite Hn. split; [done|]. split; [done|].
  split; [lia|]. split; [intros HU; rewrite H4 by done; lia|].
  rewrite <- Hn. done.
Qed.

Lemma store_solution_sparse_clock (sa : state) sh :
  let sa' := (SimInf_store_solution_sparse c sa sh).1 in
  tt sa' = tt sa ∧ next_day sa' = next_day sa ∧ U_it sa ≤ U_it sa' ∧
  (U_dense c = true → U_it sa' = U_it sa) ∧
  (U_dense c = false → U_it sa' < tlen c →
   Dlt (rd D0 (tspan c) (U_it sa')) (tt sa) = false).
Proof.
  unfold SimInf_store_solution_sparse.
  pose proof (store_U_sparse_exit (Z.to_nat (tlen c - U_it sa)) sa sh
                ltac:(lia)) as H.
  cbv zeta in H.
  destruct (store_U_sparse c _ sa sh) as [sa1 sh1]. cbn [fst] in H.
  destruct H as (H1 & H2 & H3 & H4 & H5).
  pose proof (store_V_sparse_clock (Z.to_nat (tlen c - V_it sa1)) sa1 sh1)
    as (H6 & H7 & H8).
  cbv zeta. rewrite H6, H7, H8. done.
Qed.

End Clock.

Section Turn.
Context {D R : Type} {FD : Float64 D} {GR : Gsl R D} {EC : SimInf_h}.

#[local] Abbreviation state := (thread_state (D := D) (R := R)).
#[local] Abbreviation threads := (list (thread (D := D) (R := R))).

Lemma omp_for_post_cons c (sa : state) (ts : threads) sh :
  ∃ ts' sh',
    omp_for (λ c sa sh, Some (post_phase c sa sh)) ((c, sa) :: ts) sh =
      Some ((c, (post_phase c sa sh).1) :: ts', sh').
Proof.
  simpl. destruct (post_phase c sa sh) as [sa1 sh1]. cbn [fst].
  revert sh1. generalize ts. clear ts.
  intros ts sh1.
  assert (∀ (l : threads) h, ∃ l' h',
            omp_for (λ c sa sh, Some (post_phase c sa sh)) l h =
              Some (l', h')) as Htotal.
  { induction l as [|[c' sa'] l IH]; intros h; [by exists [], h|].
    simpl. destruct (post_phase c' sa' h) as [sa2 h2].
    destruct (IH h2) as (l' & h' & ->). by eexists _, _. }
  destruct (Htotal ts sh1) as (l' & h' & ->). by exists l', h'.
Qed.

(** A turn of the main loop moves the clock of the first thread by a
    day and leaves its column of the solution at the first point of
    [tspan] that the time has not passed. *)
Lemma day_turn fuel c (sa : state) (ts : threads) sh ts' sh' :
  day fuel ((c, sa) :: ts) sh = Some (ts', sh') →
  ∃ sa' ts1,
    ts' = (c, sa') :: ts1 ∧
    tt sa' = next_day sa ∧
    next_day sa' = Dadd (next_day sa) (of_int 1) ∧
    U_it sa ≤ U_it sa' ∧
    (U_it sa' < tlen c → Dlt (rd D0 (tspan c) (U_it sa')) (tt sa') = false).
Proof.
  unfold day. intros H.
  destruct (omp_for _ ((c, sa) :: ts) sh) as [[ts1 sh1]|] eqn:E1; [|done].
  apply omp_for_cons in E1 as (sa1 & sh0 & l1 & Hf1 & _ & ->).
  apply ssa_phase_clock in Hf1 as (Ht1 & Hn1 & Hu1).
  cbn [on_master] in H.
  pose proof (E2_events_clock c sa1 sh1) as (Ht2 & Hn2 & Hu2).
  destruct (SimInf_process_E2_events c sa1 sh1) as [sa2 sh2].
  cbn [fst] in Ht2, Hn2, Hu2.
  destruct (omp_for_post_cons c sa2 l1 sh2) as (l3 & sh3 & E3).
  rewrite E3 in H.
  pose proof (post_phase_clock c sa2 sh2) as Hp. cbv zeta in Hp.
  set (sa3 := (post_phase c sa2 sh2).1) in *.
  destruct Hp as (Ht3 & Hn3 & Hu3 & Hs3 & Hx3).
  cbn [on_master] in H.
  pose proof (store_solution_sparse_clock c sa3 sh3) as Hq. cbv zeta in Hq.
  destruct (SimInf_store_solution_sparse c sa3 sh3) as [sa4 sh4].
  cbn [fst] in Hq. destruct Hq as (Ht4 & Hn4 & Hu4 & Hs4 & Hx4).
  injection H as <- <-.
  eexists _, _. split; [done|]. cbn [swap_v fst snd tt next_day U_it set_v].
  split; [congruence|]. split; [congruence|]. split; [lia|].
  intros Hlt. destruct (U_dense c) eqn:EU.
  - rewrite Hs4 in Hlt |- * by done. rewrite Ht4. by apply Hx3.
  - rewrite Ht4. by apply Hx4.
Qed.

(** A turn that does not come to its end is a turn in which the first
    loop over the threads does not come to its end. *)
Lemma day_none fuel c (sa : state) (ts : threads) sh :
  day fuel ((c, sa) :: ts) sh = None →
  omp_for (λ c, ssa_phase c fuel) ((c, sa) :: ts) sh = None.
Proof.
  unfold day. intros H.
  destruct (omp_for _ ((c, sa) :: ts) sh) as [[ts1 sh1]|] eqn:E1; [|done].
  exfalso.
  apply omp_for_cons in E1 as (sa1 & sh0 & l1 & _ & _ & ->).
  cbn [on_master] in H.
  destruct (SimInf_process_E2_events c sa1 sh1) as [sa2 sh2].
  destruct (omp_for_post_cons c sa2 l1 sh2) as (l3 & sh3 & E3).
  rewrite E3 in H. cbn [on_master] in H.
  by destruct (SimInf_store_solution_sparse c _ sh3).
Qed.

End Turn.

Section Turns.
Context {R : Type} {GR : Gsl R Q}.

#[local] Abbreviation state := (thread_state (D := Q) (R := R)).
#[local] Abbreviation threads := (list (thread (D := Q) (R := R))).

(** X25. In exact arithmetic the main loop makes at most [K] turns,
    where [K] days after the first day of the run lead past every point
    of [tspan]: a run of [K] turns that does not return has a turn in
    which the first loop over the threads (the SSA of the nodes) does
    not come to its end.  Each turn moves the clock by one day, and the
    loop that stores the solution leaves the column of the first thread
    at the end of U once the time has passed the last point of
    [tspan]. *)
Theorem main_loop_turns (K fuel : nat) c (sa : state) (ts : threads) sh :
  (0 < K)%nat → 0 ≤ U_it sa →
  (∀ j, 0 ≤ j < tlen c →
     (rd 0 (tspan c) j < next_day sa + inject_Z (Z.of_nat K - 1))%Q) →
  main_loop K fuel ((c, sa) :: ts) sh = None →
  ∃ n ts' sh',
    (n < K)%nat ∧
    days_state fuel n ((c, sa) :: ts) sh = Some (ts', sh') ∧
    omp_for (λ c, ssa_phase c fuel) ts' sh' = None.
Proof.
  revert sa ts sh. induction K as [|k IH]; intros sa ts sh HK HU Hspan H;
    [lia|].
  cbn [main_loop] in H.
  destruct (day fuel ((c, sa) :: ts) sh) as [[ts1 sh1]|] eqn:Ed.
  2:{ exists 0%nat, ((c, sa) :: ts), sh. split; [lia|]. split; [done|].
      by apply day_none. }
  destruct (day_turn fuel c sa ts sh ts1 sh1 Ed)
    as (sa' & l1 & -> & Ht & Hn & Hu & Hx).
  case_decide as Herr; [done|].
  destruct (final_time ((c, sa') :: l1)) eqn:Ef; [done|].
  cbn [final_time] in Ef. apply bool_decide_eq_false in Ef.
  destruct k as [|k'].
  - exfalso. specialize (Hx ltac:(lia)).
    specialize (Hspan (U_it sa') ltac:(lia)).
    change (rd D0 (tspan c) (U_it sa')) with (rd 0%Q (tspan c) (U_it sa'))
      in Hx.
    apply not_true_iff_false in Hx. apply Hx. apply Dlt_exact.
    rewrite Ht. change (inject_Z (Z.of_nat 1 - 1)) with 0%Q in Hspan.
    by rewrite Qplus_0_r in Hspan.
  - destruct (IH sa' l1 sh1) as (n & ts' & sh' & Hlt & Hd & Hnone);
      [lia|lia| |done|].
    + intros j Hj. specialize (Hspan j Hj).
      rewrite Hn. cbn [Dadd of_int float64].
      assert (next_day sa + inject_Z (Z.of_nat (S (S k')) - 1) ==
              next_day sa + inject_Z 1 + inject_Z (Z.of_nat (S k') - 1))%Q
        as Heq.
      { replace (Z.of_nat (S (S k')) - 1) with (1 + (Z.of_nat (S k') - 1))
          by lia.
        rewrite inject_Z_plus. ring. }
      by rewrite <- Heq.
    + exists (S n), ts', sh'. split; [lia|]. split; [|done].
      cbn [days_state]. by rewrite Ed.
Qed.

End Turns.

(** A run of a node with two compartments over the points 0, 1 and 2 of
    time: three turns are enough, and the run that does not return is
    the run whose SSA has no fuel. *)
Lemma main_loop_turns_witness :
  let c := args_of 1 0 1 2 2 [0; 1; 0; 1] [0; 2; 4] [0; 1; 0; 1] [0; 2; 4]
             [-1; 1; 1; -1] [0; 1] [0; 2] [0; 0]
             [λ u _ _ _ _, inject_Z u.[0]; λ u _ _ _ _, inject_Z u.[1]]
             [0; 1; 2]%Q [] [] in
  let sh := shared_of [3; 1] 1 3 in
  let sa := init_rates c (state_of [3; 2]%positive 0 1 2 2) sh in
  (∃ sh', main_loop 3 20 [(c, sa)] sh = Some (0, sh')) ∧
  ∃ n ts' sh',
    (n < 3)%nat ∧
    days_state 0 n [(c, sa)] sh = Some (ts', sh') ∧
    omp_for (λ c, ssa_phase c 0) ts' sh' = None.
Proof.
  intros c sh sa. split.
  { destruct (main_loop 3 20 [(c, sa)] sh) as [[e sh']|] eqn:E;
      [|vm_compute in E; discriminate].
    exists sh'. f_equal. f_equal.
    vm_compute in E. by injection E as <- _. }
  apply (main_loop_turns 3 0 c sa [] sh).
  - lia.
  - vm_compute. discriminate.
  - intros j Hj. change (0 ≤ j < 3) in Hj.
    assert (j = 0 ∨ j = 1 ∨ j = 2) as [-> | [-> | ->]] by lia;
      vm_compute; reflexivity.
  - reflexivity.
Defined.

(** ** The allocations of a run *)

Section AllocationFailure.
Context {D R : Type} {FD : Float64 D} {GR : Gsl R D} {EC : SimInf_h}.

Lemma allocate_threads_spec (m : allocations) Nthread :
  allocate_threads m Nthread = true ↔
  ∀ i, 0 ≤ i < Nthread → alloc_thread m i = true.
Proof.
  unfold allocate_threads.
  apply (for_range_inv
    (λ i b, b = true ∧ ∀ i', 0 ≤ i' < i → alloc_thread m i' = true)
    (λ b, b = true ↔ ∀ i, 0 ≤ i < Nthread → alloc_thread m i = true)).
  - split; [done|]. intros; lia.
  - intros i b Hi [-> H]. destruct (alloc_thread m i) eqn:E.
    + split; [done|]. intros i' Hi'.
      destruct (decide (i' = i)) as [->|]; [done|]. apply H; lia.
    + split; [done|]. intros Hall. rewrite Hall in E by done. done.
  - intros b [-> H]. split; [|done]. intros _ i Hi. apply H. lia.
Qed.

(** With its allocations given, [SimInf_split_events] is the function
    without the allocations. *)
Lemma split_events_alloc_all (m : allocations) (events : list (event D))
    Nn Nthread :
  SIMINF_ERR_ALLOC_MEMORY_BUFFER ≠ 0 → 0 < Nthread →
  alloc_E1_i m = true →
  (∀ i, 0 ≤ i < Nthread → alloc_E1 m i = true) →
  alloc_E2 m = true →
  SimInf_split_events_alloc m events Nn Nthread =
  SimInf_split_events events Nn Nthread.
Proof.
  intros Ha HT H1 H2 H3. unfold SimInf_split_events_alloc.
  rewrite decide_False by lia. rewrite H1.
  pose proof (count_events_rel Nn Nthread events ltac:(lia)) as Hrel.
  destruct (foldl (count_step Nn Nthread) _ events) as [|e|c n];
    destruct (SimInf_split_events events Nn Nthread) as [|e'|q E2];
    try done.
  - simpl in Hrel. by subst.
  - cbv zeta.
    destruct (allocate_queues_spec m Nthread c n Ha HT) as [[-> _]|[_ Hno]].
    + by rewrite decide_False by (intros H; by apply H).
    + destruct Hno. split; [intros i Hi _; by apply H2|done].
Qed.

(** X28. An allocation that fails before the events are split ([uu],
    [vv_1], [vv_2], [update_node], the generator, [sim_args] or a buffer
    of one of the threads) ends the run with
    [SIMINF_ERR_ALLOC_MEMORY_BUFFER], whatever the events and the
    number of days: the solver is not called, and the arrays of the
    caller are as passed (when [uu] is not allocated) or hold the
    initial state in U.  When every allocation gives its buffer, the run
    is that of [SimInf_run_solver_ssa] without the allocations. *)
Theorem allocation_failure_returned (m : allocations) days fuel
    (a : SimInf_solver_args (D := D)) (junk : list D) :
  SIMINF_ERR_ALLOC_MEMORY_BUFFER ≠ 0 →
  0 < args_Nthread a →
  let setup :=
    alloc_uu m = true ∧ alloc_vv_1 m = true ∧ alloc_vv_2 m = true ∧
    alloc_update_node m = true ∧ alloc_rng m = true ∧
    alloc_sim_args m = true ∧
    ∀ i, 0 ≤ i < args_Nthread a → alloc_thread m i = true in
  let queues :=
    alloc_E1_i m = true ∧
    (∀ i, 0 ≤ i < args_Nthread a → alloc_E1 m i = true) ∧
    alloc_E2 m = true in
  (¬ setup →
   ∃ sh,
     SimInf_run_solver_ssa_alloc (R := R) m days fuel a junk =
       Some (SIMINF_ERR_ALLOC_MEMORY_BUFFER, sh) ∧
     (alloc_uu m = false → sh = shared_args a) ∧
     (alloc_uu m = true →
      U sh = U (shared_init a) ∧ prU sh = prU (shared_init a))) ∧
  (setup → queues →
   SimInf_run_solver_ssa_alloc (R := R) m days fuel a junk =
   SimInf_run_solver_ssa days fuel a junk).
Proof.
  intros Ha HT setup queues. split.
  - intros Hno. unfold SimInf_run_solver_ssa_alloc.
    destruct (alloc_uu m) eqn:E0; cbn [negb].
    2:{ eexists. split; [reflexivity|]. split; done. }
    destruct (alloc_vv_1 m) eqn:E1; cbn [negb orb].
    2:{ eexists. split; [reflexivity|]. split; done. }
    destruct (alloc_vv_2 m) eqn:E2; cbn [negb orb].
    2:{ eexists. split; [reflexivity|]. split; done. }
    destruct (alloc_update_node m) eqn:E3; cbn [negb].
    2:{ eexists. split; [reflexivity|]. split; done. }
    destruct (alloc_rng m) eqn:E4; cbn [negb].
    2:{ eexists. split; [reflexivity|]. split; done. }
    destruct (alloc_sim_args m) eqn:E5; cbn [negb].
    2:{ eexists. split; [reflexivity|]. split; done. }
    destruct (allocate_threads m (args_Nthread a)) eqn:E6; cbn [negb].
    2:{ eexists. split; [reflexivity|]. split; done. }
    exfalso. apply Hno. unfold setup.
    pose proof (proj1 (allocate_threads_spec m (args_Nthread a)) E6). done.
  - intros (H0 & H1 & H2 & H3 & H4 & H5 & H6) (Hq1 & Hq2 & Hq3).
    apply (proj2 (allocate_threads_spec m (args_Nthread a))) in H6.
    unfold SimInf_run_solver_ssa_alloc, SimInf_run_solver_ssa.
    rewrite H0, H1, H2, H3, H4, H5, H6. cbn [negb orb].
    by rewrite split_events_alloc_all.
Qed.

End AllocationFailure.

(** The run of a model with two nodes when the buffers of the second
    thread are not allocated, and when every allocation gives its
    buffer. *)
Lemma allocation_failure_returned_witness :
  let a := model_of 2 1 1 2 [5; 0]
             ((λ k, inject_Z k) <$> seqZ 0 6) [] [0; 0] [] [0; 0] [] [0]
             [0; 1] [] [λ _ _ _ _ _, 0%Q]
             [{| ev_event := EXTERNAL_TRANSFER_EVENT; ev_time := 3;
                 ev_node := 1; ev_dest := 2; ev_n := 3;
                 ev_proportion := 0%Q; ev_select := 1; ev_shift := 0 |}] in
  let m :=
    {| alloc_uu := true; alloc_vv_1 := true; alloc_vv_2 := true;
       alloc_update_node := true; alloc_rng := true; alloc_sim_args := true;
       alloc_thread := λ i, bool_decide (i = 0); alloc_E1_i := true;
       alloc_E1 := λ _, true; alloc_E2 := true |} in
  (∃ sh, SimInf_run_solver_ssa_alloc m 7 1 a [] =
           Some (SIMINF_ERR_ALLOC_MEMORY_BUFFER, sh) ∧
         U sh = U (shared_init a)) ∧
  SimInf_run_solver_ssa_alloc all_allocated 7 1 a [] =
  SimInf_run_solver_ssa 7 1 a [].
Proof.
  intros a m.
  assert (SIMINF_ERR_ALLOC_MEMORY_BUFFER ≠ 0) as Ha by discriminate.
  assert (0 < args_Nthread a) as HT by reflexivity.
  split.
  - destruct (allocation_failure_returned (R := list positive) m 7 1 a []
                Ha HT) as [Hfail _].
    destruct Hfail as (sh & Hrun & _ & Hsh).
    + intros (_ & _ & _ & _ & _ & _ & H). specialize (H 1).
      assert (0 ≤ 1 < args_Nthread a) as H1
        by (split; [discriminate|reflexivity]).
      specialize (H H1). discriminate H.
    + exists sh. split; [exact Hrun|]. by apply Hsh.
  - destruct (allocation_failure_returned (R := list positive) all_allocated
                7 1 a [] Ha HT) as [_ Hall].
    apply Hall; repeat split; done.
Defined.
